(** * CLEED: the multiple-scattering core, embedded and verified

    The C sources compute with the type [real] (a floating-point type fixed
    in [real.h]).  The embedding reads [real] as the mathematical reals [R]:
    every [real] expression of the sources is the same expression over [R],
    comparisons are decided by the order of [R].  Integers ([int], [size_t])
    are [Z] or [nat]; the values met here are small loop counters and matrix
    dimensions.

    Part I holds the embedding (one definition per C function or loop),
    Part II the vocabulary in which the properties are stated, Part III the
    lemmas and theorems. *)

From Stdlib Require Import Reals Lra Lia Psatz ZArith List Bool Arith.
From Stdlib Require Import Setoid Morphisms String.
Import ListNotations.

Local Open Scope R_scope.

(* ================================================================== *)
(** * Part I: the embedding                                            *)
(* ================================================================== *)

(** ** Complex numbers as pairs (real part, imaginary part) *)

Definition cplx : Type := (R * R)%type.

Definition Czero : cplx := (0, 0).
Definition Cone : cplx := (1, 0).
Definition Cimag : cplx := (0, 1).
Definition Cadd (a b : cplx) : cplx := (fst a + fst b, snd a + snd b).
Definition Csub (a b : cplx) : cplx := (fst a - fst b, snd a - snd b).
Definition Cneg (a : cplx) : cplx := (- fst a, - snd a).
Definition Cmul (a b : cplx) : cplx :=
  (fst a * fst b - snd a * snd b, fst a * snd b + snd a * fst b).
Definition Cscal (r : R) (a : cplx) : cplx := (r * fst a, r * snd a).
Definition Cexp (z : cplx) : cplx :=
  (exp (fst z) * cos (snd z), exp (fst z) * sin (snd z)).
Definition Cof (r : R) : cplx := (r, 0).

(** Modelled from the spec: the complex arithmetic helpers [cri_mul],
    [cri_div], [cri_expi] and [cri_abs] (complex multiply, divide, exp and
    modulus) are called by the sources below but their file is not among
    them.  Each takes and returns real and imaginary parts separately;
    [cri_expi] is [exp (i * arg)], as its callers' comments say
    ("exp(-i*k_in*p)" for the argument [-k_in*p]). *)
Definition cri_mul (f1_r f1_i f2_r f2_i : R) : R * R :=
  (f1_r * f2_r - f1_i * f2_i, f1_r * f2_i + f1_i * f2_r).

Definition cri_div (n_r n_i d_r d_i : R) : R * R :=
  ((n_r * d_r + n_i * d_i) / (d_r * d_r + d_i * d_i),
   (n_i * d_r - n_r * d_i) / (d_r * d_r + d_i * d_i)).

Definition cri_expi (arg_r arg_i : R) : R * R :=
  (exp (- arg_i) * cos arg_r, exp (- arg_i) * sin arg_r).

Definition cri_abs (a_r a_i : R) : R := sqrt (a_r * a_r + a_i * a_i).

(** Comparisons of reals, as booleans. *)
Definition Rltb (x y : R) : bool := if Rlt_dec x y then true else false.
Definition Rleb (x y : R) : bool := if Rle_dec x y then true else false.

(** Modelled from the spec: the macro [IS_EQUAL_REAL] of [real.h] (not
    among the sources) compares two reals for equality. *)
Definition IS_EQUAL_REAL (x y : R) : bool :=
  if Req_dec_T x y then true else false.

(** [GEO_TOLERANCE] and [K_TOLERANCE], as lmscomplsym.c defines them when
    [leed_def.h] has not. *)
Definition GEO_TOLERANCE : R := 0.0001.
Definition K_TOLERANCE : R := 0.0001.

(** ** Loops *)

(** [for (i = lo; count times; i++) s = body i s] *)
Fixpoint for_up {St : Type} (count i : nat) (body : nat -> St -> St) (s : St) : St :=
  match count with
  | O => s
  | S c => for_up c (S i) body (body i s)
  end.

(** [for (i = lo; i <= hi; i++)] *)
Definition for_range {St : Type} (lo hi : nat) (body : nat -> St -> St) (s : St) : St :=
  for_up (hi + 1 - lo) lo body s.

(** [for (p = start; p <= stop; p += stride)], the pointer walks of the
    sources written on array indices; [fuel] bounds the number of steps. *)
Fixpoint for_stride {St : Type} (fuel p stop stride : nat)
                    (body : nat -> St -> St) (s : St) : St :=
  match fuel with
  | O => s
  | S f =>
      if (p <=? stop)%nat then for_stride f (p + stride)%nat stop stride body (body p s)
      else s
  end.

(** ** Matrices (mat_def.h)

    [struct mat_str]: dimensions and the two arrays [rel] and [iel] of real
    and imaginary parts.  The arrays are indexed from 1 ("the first array
    element is not occupied"); they are total maps from the C index.  The
    fields [mag_no], [blk_type], [mat_type] and [num_type] play no part in
    the functions modelled. *)
Record mat_str : Type := mk_mat {
  rows : nat;
  cols : nat;
  rel : nat -> R;
  iel : nat -> R
}.

(** A [mat] is a pointer to a [mat_str], possibly [NULL]. *)
Definition mat : Type := option mat_str.

(** [RMATEL(m,n,Mat)] is [*(Mat->rel + (m-1) * Mat->cols + n)]. *)
Definition RMATEL (m n : nat) (M : mat_str) : R := rel M ((m - 1) * cols M + n)%nat.
Definition IMATEL (m n : nat) (M : mat_str) : R := iel M ((m - 1) * cols M + n)%nat.

(** Array update [a[i] = v]. *)
Definition upd (a : nat -> R) (i : nat) (v : R) : nat -> R :=
  fun j => if (j =? i)%nat then v else a j.

Definition set_rel (M : mat_str) (p : nat) (v : R) : mat_str :=
  mk_mat (rows M) (cols M) (upd (rel M) p v) (iel M).
Definition set_iel (M : mat_str) (p : nat) (v : R) : mat_str :=
  mk_mat (rows M) (cols M) (rel M) (upd (iel M) p v).
Definition set_el (M : mat_str) (p : nat) (v : R * R) : mat_str :=
  mk_mat (rows M) (cols M) (upd (rel M) p (fst v)) (upd (iel M) p (snd v)).

(** The complex element (m,n). *)
Definition mel (M : mat_str) (m n : nat) : cplx := (RMATEL m n M, IMATEL m n M).

(** Sum of [f 1 .. f n]. *)
Fixpoint csum (n : nat) (f : nat -> cplx) : cplx :=
  match n with
  | O => Czero
  | S k => Cadd (csum k f) (f (S k))
  end.

(** The [r] x [c] matrix whose element (m,n) is [f m n], row by row. *)
Definition mat_of_fun (r c : nat) (f : nat -> nat -> cplx) : mat_str :=
  mk_mat r c
    (fun p => fst (f ((p - 1) / c + 1)%nat ((p - 1) mod c + 1)%nat))
    (fun p => snd (f ((p - 1) / c + 1)%nat ((p - 1) mod c + 1)%nat)).

(** Modelled from the spec: the matrix library (alloc, copy, multiply,
    transpose, insert-submatrix) is called by the sources but is not among
    them.  [matalloc] returns a matrix of the requested dimensions preset
    with zero (the callers rely on it: "preset all Llm_p with zero");
    [matcopy] returns a copy of its source; [matmul] is the matrix product;
    [mattrans] the transpose; [matins] writes a matrix into a larger one
    with its element (1,1) at (off_row, off_col). *)
Definition matalloc (r c : nat) : mat_str := mk_mat r c (fun _ => 0) (fun _ => 0).

Definition matcopy (M : mat_str) : mat_str := M.

Definition matmul (A B : mat_str) : mat_str :=
  mat_of_fun (rows A) (cols B)
    (fun m n => csum (cols A) (fun k => Cmul (mel A m k) (mel B k n))).

Definition mattrans (A : mat_str) : mat_str :=
  mat_of_fun (cols A) (rows A) (fun m n => mel A n m).

Definition matins (Mbg Msm : mat_str) (off_row off_col : nat) : mat_str :=
  mat_of_fun (rows Mbg) (cols Mbg)
    (fun m n =>
       if ((off_row <=? m) && (m <? off_row + rows Msm) &&
           (off_col <=? n) && (n <? off_col + cols Msm))%nat
       then mel Msm (m - off_row + 1)%nat (n - off_col + 1)%nat
       else mel Mbg m n).

(** The six matrices [Mx], [My], [Mz], [MxMx], [MyMy], [MzMz] that
    [pc_mk_ms] sets up for lpccumtl.c. *)
Record pc_ms : Type := mk_pc_ms {
  Mx : mat_str; My : mat_str; Mz : mat_str;
  MxMx : mat_str; MyMy : mat_str; MzMz : mat_str
}.

(** Functions of the repository that the sources below call and that are not
    among them; they are parameters of the embedding.  [matinv] is the
    matrix inversion of the matrix library; [pc_mk_ms l_max] returns the
    matrices of the cumulant expansion for [l_max];
    [leed_par_temp_tl tl_0 dr_2 energy l_max_t l_max_0] returns the
    temperature dependent scattering factors (diagonal treatment). *)
Class leed_externals : Type := {
  matinv : mat_str -> mat_str;
  pc_mk_ms : nat -> pc_ms;
  leed_par_temp_tl : mat_str -> R -> R -> nat -> nat -> mat_str
}.

(** ** Beams (leed_def.h, the fields the sources below use)

    [k_r] and [k_i] are the arrays [k_r[0..3]] and [k_i[0..3]]; the four
    [eout] fields point to per-layer arrays. *)
Record leed_beam : Type := mk_beam {
  ind_1 : R;
  ind_2 : R;
  k_par : R;
  k_r : nat -> R;
  k_i : nat -> R;
  Akz_r : R;
  Akz_i : R;
  set : nat;
  eout_b_r : nat -> R;
  eout_b_i : nat -> R;
  eout_s_r : nat -> R;
  eout_s_i : nat -> R
}.

(** A zeroed [leed_beam], as [calloc] leaves it. *)
Definition beam_zero : leed_beam :=
  mk_beam 0 0 0 (fun _ => 0) (fun _ => 0) 0 0 0
          (fun _ => 0) (fun _ => 0) (fun _ => 0) (fun _ => 0).

(** [*(beams + k)] *)
Definition beam_at (beams : list leed_beam) (k : nat) : leed_beam :=
  nth k beams beam_zero.

(** ** lld2layrpm.c: leed_ld_2lay_rpm *)

Section LD2LAYRPM.
Context {ext : leed_externals}.

(** Lines 96-115: the propagators [Pp] and [Pm], one element per beam. *)
Definition ld_propagators (n_beams : nat) (beams : list leed_beam)
           (vec_ab : nat -> R) : mat_str * mat_str :=
  for_up n_beams 0
    (fun k (P : mat_str * mat_str) =>
       let (Pp, Pm) := P in
       let b := beam_at beams k in
       let faux_r := k_r b 1 * vec_ab 1%nat + k_r b 2 * vec_ab 2%nat
                     + k_r b 3 * vec_ab 3%nat in
       let faux_i := k_i b 3 * vec_ab 3%nat in
       let Pp := set_el Pp (k + 1) (cri_expi faux_r faux_i) in
       let faux_r := faux_r - 2 * k_r b 3 * vec_ab 3%nat in
       let Pm := set_el Pm (k + 1) (cri_expi (- faux_r) faux_i) in
       (Pp, Pm))
    (matalloc n_beams 1, matalloc n_beams 1).

(** Lines 129-134 (and 139-144, 191-196): the elements [k], [k + n_beams],
    ... up to [nn_beams] of [M], its k-th column, are multiplied with
    [(faux_r, faux_i)]. *)
Definition ld_scale_col (n_beams nn_beams k : nat) (faux_r faux_i : R)
           (M : mat_str) : mat_str :=
  for_stride nn_beams k nn_beams n_beams
    (fun p M => set_el M p (cri_mul (rel M p) (iel M p) faux_r faux_i)) M.

(** Lines 124-145. *)
Definition ld_prepare (n_beams nn_beams : nat) (Pp Pm Maux_a Maux_b : mat_str)
  : mat_str * mat_str :=
  for_range 1 n_beams
    (fun k (Ms : mat_str * mat_str) =>
       let (Maux_a, Maux_b) := Ms in
       let Maux_a := ld_scale_col n_beams nn_beams k (rel Pm k) (iel Pm k) Maux_a in
       let Maux_b :=
         ld_scale_col n_beams nn_beams k (- rel Pp k) (- iel Pp k) Maux_b in
       (Maux_a, Maux_b))
    (Maux_a, Maux_b).

(** Lines 166-169: add unity to the diagonal. *)
Definition ld_add_unity (nn_beams : nat) (Maux_b : mat_str) : mat_str :=
  for_stride nn_beams 1 nn_beams (cols Maux_b + 1)
    (fun k M => set_rel M k (rel M k + 1)) Maux_b.

(** Lines 186-197. *)
Definition ld_scale_cols (n_beams nn_beams : nat) (Pp Maux_b : mat_str) : mat_str :=
  for_range 1 n_beams
    (fun k M => ld_scale_col n_beams nn_beams k (rel Pp k) (iel Pp k) M) Maux_b.

(** Lines 211-223: [Res += Rpm_b], real parts then imaginary parts. *)
Definition ld_add_Rpm_b (nn_beams : nat) (Res Rpm_b : mat_str) : mat_str :=
  let Res := for_range 1 nn_beams (fun p M => set_rel M p (rel M p + rel Rpm_b p)) Res in
  for_range 1 nn_beams (fun p M => set_iel M p (iel M p + iel Rpm_b p)) Res.

(** The function.  The output argument [Rpm_ab] receives a copy of [Res] and
    is returned; its former contents are not read. *)
Definition leed_ld_2lay_rpm (Rpm_a Tpp_b Tmm_b Rpm_b Rmp_b : mat_str)
           (beams : list leed_beam) (vec_ab : nat -> R) : mat_str :=
  let n_beams := cols Rpm_a in
  let nn_beams := (n_beams * n_beams)%nat in
  let (Pp, Pm) := ld_propagators n_beams beams vec_ab in
  let Maux_a := matcopy Rpm_a in
  let Maux_b := matcopy Rmp_b in
  let (Maux_a, Maux_b) := ld_prepare n_beams nn_beams Pp Pm Maux_a Maux_b in
  (* (i) *)
  let Maux_b := matmul Maux_b Maux_a in
  let Maux_b := ld_add_unity nn_beams Maux_b in
  (* (ii) *)
  let Maux_b := matinv Maux_b in
  (* (iii) *)
  let Maux_b := matmul Maux_b Tmm_b in
  (* (iv) *)
  let Res := matmul Maux_a Maux_b in
  let Maux_b := matcopy Tpp_b in
  let Maux_b := ld_scale_cols n_beams nn_beams Pp Maux_b in
  (* (i) *)
  let Res := matmul Maux_b Res in
  (* (ii) *)
  let Res := ld_add_Rpm_b nn_beams Res Rpm_b in
  matcopy Res.

End LD2LAYRPM.


(** ** Messages

    [WARNING_MSG] and [ERROR_MSG] write a line to the log streams; the
    embedding collects them in the order they are written. *)
Inductive severity : Type := Warning | Error.
Definition message : Type := (severity * string)%type.

(** ** The heap of matrices

    The functions that receive a matrix both as input and as output
    ([leed_par_cumulative_tl], [leed_par_mktl_nd]) are modelled on a store
    of matrices: a [ptr] names a cell, two handles may name the same cell. *)
Definition ptr : Type := nat.

Record heap : Type := mk_heap {
  cell : ptr -> option mat_str;
  brk : ptr
}.

Definition heap_store (h : heap) (p : ptr) (M : mat_str) : heap :=
  mk_heap (fun q => if (q =? p)%nat then Some M else cell h q) (brk h).

Definition heap_new (h : heap) (M : mat_str) : heap * ptr :=
  (mk_heap (fun q => if (q =? brk h)%nat then Some M else cell h q) (S (brk h)),
   brk h).

Definition heap_update (h : heap) (p : ptr) (f : mat_str -> mat_str) : heap :=
  match cell h p with
  | Some M => heap_store h p (f M)
  | None => h
  end.

(** Modelled from the spec: [matcopy(dst, src)] with an output handle: the
    copy is written to the cell of [dst], or to a new cell when [dst] is
    [NULL], and the handle of the copy is returned ("functions may reuse or
    reallocate their output argument"). *)
Definition matcopy_to (h : heap) (dst : option ptr) (src : mat_str) : heap * ptr :=
  match dst with
  | Some p => (heap_store h p src, p)
  | None => heap_new h src
  end.

(** ** lpccumtl.c: leed_par_cumulative_tl *)

Definition NITER : nat := 1000.
Definition CONV_TEST : R := 0.000001.

(** The file's static variables: [n_call], [last_l] and the six matrices
    ([None]: the pointers are [NULL]). *)
Record cumul_static : Type := mk_static {
  n_call : nat;
  last_l : Z;
  static_ms : option pc_ms
}.

Definition cumul_static_init : cumul_static := mk_static 0 (-1) None.

Section LPCCUMTL.
Context {ext : leed_externals}.

(** Lines 141-149: the zero order t matrix written to [T_n]; [lm1] and
    [lm2] count the pairs (l,m) in natural order. *)
Definition cumul_T0 (tl_aux : mat_str) (kappa : R) (l_max_0 : nat)
           (T_n : mat_str) : mat_str :=
  snd (for_range 0 l_max_0
    (fun l1 (s1 : nat * mat_str) =>
       for_up (2 * l1 + 1) 0
         (fun t1 (s1 : nat * mat_str) =>
            let (lm1, T_n) := s1 in
            let m1 := (- Z.of_nat l1 + Z.of_nat t1)%Z in
            let T_n :=
              snd (for_range 0 l_max_0
                (fun l2 (s2 : nat * mat_str) =>
                   for_up (2 * l2 + 1) 0
                     (fun t2 (s2 : nat * mat_str) =>
                        let (lm2, T_n) := s2 in
                        let m2 := (- Z.of_nat l2 + Z.of_nat t2)%Z in
                        let T_n :=
                          if ((l1 =? l2)%nat && (m1 =? m2)%Z)%bool then
                            let T_n := set_rel T_n ((lm1 - 1) * cols T_n + lm2)
                                         (- rel tl_aux (l1 + 1) / kappa) in
                            set_iel T_n ((lm1 - 1) * cols T_n + lm2)
                                    (- iel tl_aux (l1 + 1) / kappa)
                          else T_n in
                        (S lm2, T_n))
                     s2)
                (1%nat, T_n)) in
            (S lm1, T_n))
         s1)
    (1%nat, T_n)).

(** Lines 165-170 and 330-335: every element is multiplied with [-kappa]. *)
Definition cumul_scale (kappa : R) (Tmat : mat_str) : mat_str :=
  let iaux := (cols Tmat * rows Tmat)%nat in
  for_range 1 iaux
    (fun i_el Tmat =>
       let Tmat := set_rel Tmat i_el (rel Tmat i_el * - kappa) in
       set_iel Tmat i_el (iel Tmat i_el * - kappa))
    Tmat.

(** Lines 276-296: [T_n] is replaced by the next term, which is added to
    [T_acc]. *)
Definition cumul_update (pref ux2 uy2 uz2 : R)
           (MxMxTn TnMxMx MxTnMx MyMyTn TnMyMy MyTnMy MzMzTn TnMzMz MzTnMz : mat_str)
           (T_n T_acc : mat_str) : mat_str * mat_str :=
  let iaux := (cols T_n * rows T_n)%nat in
  for_range 1 iaux
    (fun i_el (s : mat_str * mat_str) =>
       let (T_n, T_acc) := s in
       let T_n := set_rel T_n i_el
         (pref * (
            ux2 * (rel MxMxTn i_el + rel TnMxMx i_el - 2 * rel MxTnMx i_el) +
            uy2 * (rel MyMyTn i_el + rel TnMyMy i_el - 2 * rel MyTnMy i_el) +
            uz2 * (rel MzMzTn i_el + rel TnMzMz i_el - 2 * rel MzTnMz i_el))) in
       let T_n := set_iel T_n i_el
         (pref * (
            ux2 * (iel MxMxTn i_el + iel TnMxMx i_el - 2 * iel MxTnMx i_el) +
            uy2 * (iel MyMyTn i_el + iel TnMyMy i_el - 2 * iel MyTnMy i_el) +
            uz2 * (iel MzMzTn i_el + iel TnMzMz i_el - 2 * iel MzTnMz i_el))) in
       let T_acc := set_rel T_acc i_el (rel T_acc i_el + rel T_n i_el) in
       let T_acc := set_iel T_acc i_el (iel T_acc i_el + iel T_n i_el) in
       (T_n, T_acc))
    (T_n, T_acc).

(** Lines 301-314: the relative errors of real and imaginary parts. *)
Definition cumul_relerr (T_n T_acc : mat_str) : R * R :=
  let iaux := (cols T_acc * rows T_acc)%nat in
  for_range 1 iaux
    (fun i_el (e : R * R) =>
       let (relerr_r, relerr_i) := e in
       let relerr_r :=
         if negb (IS_EQUAL_REAL (rel T_acc i_el) 0)
         then relerr_r + Rabs (rel T_n i_el / rel T_acc i_el) else relerr_r in
       let relerr_i :=
         if negb (IS_EQUAL_REAL (iel T_acc i_el) 0)
         then relerr_i + Rabs (iel T_n i_el / iel T_acc i_el) else relerr_i in
       (relerr_r, relerr_i))
    (0, 0).

(** Lines 230-296: one pass of the loop body, without the relative errors. *)
Definition cumul_pass (ms : pc_ms) (kappa ux2 uy2 uz2 : R) (i_iter : nat)
           (T_n T_acc : mat_str) : mat_str * mat_str :=
  let MxTnMx := matmul T_n (Mx ms) in
  let MxTnMx := matmul (Mx ms) MxTnMx in
  let MxMxTn := matmul (MxMx ms) T_n in
  let TnMxMx := matmul T_n (MxMx ms) in
  let MyTnMy := matmul T_n (My ms) in
  let MyTnMy := matmul (My ms) MyTnMy in
  let MyMyTn := matmul (MyMy ms) T_n in
  let TnMyMy := matmul T_n (MyMy ms) in
  let MzTnMz := matmul T_n (Mz ms) in
  let MzTnMz := matmul (Mz ms) MzTnMz in
  let MzMzTn := matmul (MzMz ms) T_n in
  let TnMzMz := matmul T_n (MzMz ms) in
  let pref := - kappa * kappa / INR i_iter in
  cumul_update pref ux2 uy2 uz2
    MxMxTn TnMxMx MxTnMx MyMyTn TnMyMy MyTnMy MzMzTn TnMzMz MzTnMz T_n T_acc.

(** Lines 226-319: the loop
    [for (i_iter = 1; (i_iter < NITER) && (relerr_r > conv_test || relerr_i > conv_test); i_iter++)];
    it returns the final [i_iter] and [T_acc].  [fuel] bounds the number
    of passes; [NITER] is enough. *)
Fixpoint cumul_loop (fuel : nat) (ms : pc_ms) (kappa ux2 uy2 uz2 conv_test : R)
         (i_iter : nat) (T_n T_acc : mat_str) (relerr_r relerr_i : R)
  : nat * mat_str :=
  match fuel with
  | O => (i_iter, T_acc)
  | S fuel' =>
      if ((i_iter <? NITER)%nat &&
          (Rltb conv_test relerr_r || Rltb conv_test relerr_i))%bool
      then
        let (T_n, T_acc) := cumul_pass ms kappa ux2 uy2 uz2 i_iter T_n T_acc in
        let (relerr_r, relerr_i) := cumul_relerr T_n T_acc in
        cumul_loop fuel' ms kappa ux2 uy2 uz2 conv_test (S i_iter) T_n T_acc
                   relerr_r relerr_i
      else (i_iter, T_acc)
  end.

(** What a call leaves behind: the returned handle ([None] is [NULL]), the
    heap, the static variables and the messages. *)
Record cumul_result : Type := mk_cumul_result {
  c_ret : option ptr;
  c_heap : heap;
  c_static : cumul_static;
  c_log : list message
}.

(** The function.  [None] stands for the runs the C text leaves undefined:
    [tl_0] names no matrix, or the static matrices are [NULL] when they are
    used.  [ERROR_RETURN(NULL)] is read as [return NULL] ([EXIT_ON_ERROR]
    not defined). *)
Definition leed_par_cumulative_tl (st : cumul_static) (h : heap)
           (Tmat : option ptr) (tl_0 : ptr) (ux uy uz energy : R)
           (l_max_t l_max_0 : nat) : option cumul_result :=
  let l_max_2 := ((l_max_t + 1) * (l_max_t + 1))%nat in
  let ux2 := ux * ux in
  let uy2 := uy * uy in
  let uz2 := uz * uz in
  let kappa := sqrt (2 * energy) in
  match cell h tl_0 with
  | None => None
  | Some tl_0_val =>
    let tl_aux := matcopy tl_0_val in
    let T_n := matalloc l_max_2 l_max_2 in
    let T_acc := matalloc l_max_2 l_max_2 in
    let (l_max_0, log) :=
      if (l_max_t <? l_max_0)%nat then
        (l_max_t, [(Warning, "input phase shifts are only used up to l_max"%string)])
      else if (l_max_0 <? l_max_t)%nat then
        (l_max_0, [(Warning, "input phase shifts exist only up to l_max_0, for higher l they are set to zero"%string)])
      else (l_max_0, []) in
    let T_n := cumul_T0 tl_aux kappa l_max_0 T_n in
    if (Rltb ux GEO_TOLERANCE && Rltb uy GEO_TOLERANCE && Rltb uz GEO_TOLERANCE)%bool
    then
      let (h, Tmat) := matcopy_to h Tmat T_n in
      let log := (log ++ [(Warning, "All displacements are zero: return Tmat(T=0)"%string)])%list in
      let h := heap_update h Tmat (cumul_scale kappa) in
      Some (mk_cumul_result (Some Tmat) h st log)
    else
      let st :=
        if ((n_call st =? 0)%nat || negb (last_l st =? Z.of_nat l_max_t)%Z)%bool
        then mk_static (n_call st) (last_l st) (Some (pc_mk_ms l_max_t))
        else st in
      match static_ms st with
      | None => None
      | Some ms =>
        let T_acc := matcopy T_n in
        let conv_test := CONV_TEST * INR l_max_2 * INR l_max_2 in
        let relerr := 2 * conv_test in
        let (i_iter, T_acc) :=
          cumul_loop NITER ms kappa ux2 uy2 uz2 conv_test 1 T_n T_acc relerr relerr in
        if (i_iter =? NITER)%nat then
          Some (mk_cumul_result None h st
                  (log ++ [(Error, "No convergence after NITER iterations"%string)])%list)
        else
          let (h, Tmat) := matcopy_to h Tmat T_acc in
          let h := heap_update h Tmat (cumul_scale kappa) in
          let st := mk_static (S (n_call st)) (Z.of_nat l_max_t) (static_ms st) in
          Some (mk_cumul_result (Some Tmat) h st log)
      end
  end.

End LPCCUMTL.

(** ** lparmktlnd.c: leed_par_mktl_nd *)

(** The values of the [int] field [t_type]: the two the sources name, or
    any other. *)
Inductive leed_t_type : Type :=
| T_DIAG
| T_NOND
| T_other.

(** [struct leed_phase], the fields the function reads.  The tables
    [energy] and [pshift] are maps from the C index. *)
Record leed_phase : Type := mk_phase {
  lmax : nat;
  n_eng : nat;
  energy : Z -> R;
  pshift : Z -> R;
  eng_min : R;
  eng_max : R;
  t_type : leed_t_type;
  dr : nat -> R
}.

(** Arithmetic of [size_t] (64 bits): the result wraps around. *)
Definition size_t_of (z : Z) : Z := (z mod 2 ^ 64)%Z.

(** Modelled from the spec: [matalloc(M, rows, cols, type)] with an output
    handle: the cell of [M], or a new cell when [M] is [NULL], holds a
    matrix of the requested dimensions preset with zero. *)
Definition matalloc_to (h : heap) (M : option ptr) (r c : nat) : heap * ptr :=
  match M with
  | Some p => (heap_store h p (matalloc r c), p)
  | None => heap_new h (matalloc r c)
  end.

(** [a[i] = v] on a list; [None] when [i] is out of range. *)
Fixpoint list_set {A : Type} (a : list A) (i : nat) (v : A) : option (list A) :=
  match a, i with
  | [], _ => None
  | _ :: t, O => Some (v :: t)
  | x :: t, S j => option_map (cons x) (list_set t j v)
  end.

Section LPARMKTLND.
Context {ext : leed_externals}.

(** Lines 514-519 (and 572-577): the phase shift [delta] at the energy
    [eng] from the table rows [i_eng - 1] and [i_eng]. *)
Definition mktl_delta (ph : leed_phase) (i_eng : Z) (l : nat) (eng : R) : R :=
  let l_set_1 := Z.of_nat (lmax ph + 1) in
  let cur := size_t_of (i_eng * l_set_1 + Z.of_nat l) in
  let prev := size_t_of (size_t_of (i_eng - 1) * l_set_1 + Z.of_nat l) in
  pshift ph cur -
  ((pshift ph cur - pshift ph prev) /
   (energy ph i_eng - energy ph (size_t_of (i_eng - 1)))) *
  (energy ph i_eng - eng).

(** Lines 512-526 (and 570-584): [tl(l) = exp(i delta) * sin(delta)] for
    every [l] of the set. *)
Definition mktl_fill (ph : leed_phase) (i_eng : Z) (eng : R) (tl : mat_str) : mat_str :=
  for_up (lmax ph + 1) 0
    (fun l tl =>
       let delta := mktl_delta ph i_eng l eng in
       let iaux := (1 + l)%nat in
       let faux_r := cos delta in
       let faux_i := sin delta in
       set_el tl iaux (cri_mul faux_r faux_i faux_i 0))
    tl.

(** Line 567: [for (i_eng = 0; energy[i_eng] < energy; i_eng++)].  The
    search is bounded by [fuel]; [None] when it is exhausted. *)
Fixpoint mktl_find (fuel : nat) (ph : leed_phase) (eng : R) (i_eng : Z) : option Z :=
  match fuel with
  | O => None
  | S f =>
      if Rltb (energy ph i_eng) eng then mktl_find f ph eng (size_t_of (i_eng + 1))
      else Some i_eng
  end.


(** Lines 528-557 (and 586-615): the temperature is included; the value
    returned by the callee is not read. *)
Definition mktl_temperature (st : cumul_static) (h : heap) (p : ptr)
           (ph : leed_phase) (l_max : nat) (eng : R)
  : option (heap * cumul_static * list message) :=
  match t_type ph with
  | T_DIAG =>
      Some (heap_update h p
              (fun tl => leed_par_temp_tl tl (dr ph 0) eng l_max (lmax ph)),
            st, [])
  | T_NOND =>
      match leed_par_cumulative_tl st h (Some p) p (dr ph 1) (dr ph 2) (dr ph 3)
                                   eng l_max (lmax ph) with
      | Some r => Some (c_heap r, c_static r, c_log r)
      | None => None
      end
  | T_other => Some (h, st, [])
  end.

(** The outcome of one round of the loop over the sets. *)
Inductive mktl_round : Type :=
| Round_fault
| Round_fail (h : heap) (st : cumul_static) (log : list message)
| Round_next (p_tl : list (option ptr)) (h : heap) (st : cumul_static)
             (log : list message).

(** Lines 446-618: the body of the loop for the set [ph] at position
    [i_set].  [free(p_tl); return(NULL)] is [Round_fail] ([EXIT_ON_ERROR]
    not defined). *)
Definition mktl_set (st : cumul_static) (h : heap) (p_tl : list (option ptr))
           (i_set : nat) (ph : leed_phase) (l_max : nat) (eng : R) : mktl_round :=
  let l_set_1 := (lmax ph + 1)%nat in
  match t_type ph with
  | T_other =>
      Round_fail h st [(Error, "t_type has no valid value for set"%string)]
  | _ =>
    match nth_error p_tl i_set with
    | None => Round_fault
    | Some M =>
      let (h, p) := matalloc_to h M l_set_1 1 in
      match list_set p_tl i_set (Some p) with
      | None => Round_fault
      | Some p_tl =>
        if Rltb eng (eng_min ph) then
          Round_fail h st [(Error, "energy is lower than the min. energy for set"%string)]
        else if Rleb (eng_max ph) eng then
          let log := [(Warning, "energy is higher than max. energy for set: calculate extrapolated phase shift values"%string)] in
          let i_eng := size_t_of (Z.of_nat (n_eng ph) - 1) in
          let h := heap_update h p (mktl_fill ph i_eng eng) in
          match mktl_temperature st h p ph l_max eng with
          | Some (h, st, log') => Round_next p_tl h st (log ++ log')%list
          | None => Round_fault
          end
        else
          match mktl_find (n_eng ph) ph eng 0 with
          | None => Round_fault
          | Some i_eng =>
            let h := heap_update h p (mktl_fill ph i_eng eng) in
            match mktl_temperature st h p ph l_max eng with
            | Some (h, st, log') => Round_next p_tl h st log'
            | None => Round_fault
            end
          end
      end
    end
  end.



End LPARMKTLND.

(** ** lmslsumij.c: leed_ms_lsum_ij *)

(** Modelled from the spec: [R_nint] and [M1P] of [real.h] (not among the
    sources) are the nearest integer and the parity sign [(-1)^n] ("parity
    sign flips use (-1)^l and (-1)^(l+m) factors").  A tie of [R_nint] is
    rounded up. *)
Definition R_nint (x : R) : Z := (up (x + / 2) - 1)%Z.
Definition M1P (n : Z) : R := if Z.even n then 1 else -1.

(** Functions of the repository and of the C library that are called but
    are not among the sources: [c_hank1 z_r z_i l_max] returns the Hankel
    functions of the first kind up to [l_max], [r_ylm x phi l_max] the
    spherical harmonics in the natural order, [R_atan2] the angle. *)
Class lsum_externals : Type := {
  c_hank1 : R -> R -> nat -> mat_str;
  r_ylm : R -> R -> nat -> mat_str;
  R_atan2 : R -> R -> R
}.

Definition WARN_LEVEL : R := 1000.

(** [for (p = start, n = n_min; n <= n_max; n++, p += step)]: the walks over
    the lattice, [count] the number of passes. *)
Fixpoint for_walk {St : Type} (count : nat) (n : Z) (p_x p_y s_x s_y : R)
         (body : Z -> R -> R -> St -> St) (s : St) : St :=
  match count with
  | O => s
  | S c => for_walk c (n + 1)%Z (p_x + s_x) (p_y + s_y) s_x s_y body (body n p_x p_y s)
  end.

(** The number of passes of [for (n = n_min; n <= n_max; n++)]. *)
Definition walk_count (n_min n_max : Z) : nat := Z.to_nat (n_max + 1 - n_min).

(** What the function leaves behind: the return code, the two output
    matrices, the messages. *)
Record lsum_result : Type := mk_lsum_result {
  l_ret : Z;
  l_Llm_p : mat;
  l_Llm_m : mat;
  l_log : list message
}.

Section LMSLSUMIJ.
Context {ext : lsum_externals}.
(** The value of the macro [WARNING_LOG]. *)
Variable WARNING_LOG : bool.

(** Lines 185-198: [pref(l) = -8 PI (k_r + i k_i) i^l]. *)
Definition lsum_pref (k_r k_i : R) (l_max : nat) : mat_str :=
  let iaux := (l_max + 1)%nat in
  let pref := matalloc iaux 1 in
  let pref := set_rel pref 0 (- 8 * PI * k_r) in
  let pref := set_iel pref 0 (- 8 * PI * k_i) in
  for_range 1 iaux
    (fun l pref =>
       let pref := set_rel pref l (- iel pref (l - 1)) in
       set_iel pref l (rel pref (l - 1)))
    pref.

(** Lines 201-202: the radius of the summation. *)
Definition lsum_radius (k_i epsilon : R) : R :=
  if Rltb epsilon 1 then - ln epsilon / k_i else epsilon.

(** Lines 245-256: the boundaries of [n1].  [sqrt] of a negative number is
    0 here. *)
Definition lsum_n1_bounds (f1 f2 f12 f1d f2d fd r_max : R) : Z * Z :=
  let fa := f12 * f12 - f1 * f2 in
  let fb := f12 * f2d - f1d * f2 in
  let fc := f2d * f2d - f2 * fd + f2 * r_max in
  let faux_i := fb * fb - fa * fc in
  let faux_i := if Rltb 0 faux_i then sqrt (fb * fb - fa * fc) / fa else 0 in
  let faux_r := - fb / fa in
  (R_nint (faux_r + faux_i), R_nint (faux_r - faux_i)).

(** Lines 269-276: the boundaries of [n2] for [n1]. *)
Definition lsum_n2_bounds (f1 f2 f12 f1d f2d fd r_max : R) (n1 : Z) : Z * Z :=
  let fb := IZR n1 * f12 + f2d in
  let fc := f1 * IZR n1 * IZR n1 + 2 * f1d * IZR n1 + fd - r_max in
  let faux_r := - fb / f2 in
  let faux_i := sqrt (fb * fb - f2 * fc) / f2 in
  (R_nint (faux_r - faux_i), R_nint (faux_r + faux_i)).

(** Lines 336-348: the loop over [m] for one [l]. *)
Definition lsum_add_m (Ylm : mat_str) (l : nat) (fauxp_r fauxp_i fauxm_r fauxm_i : R)
           (s : mat_str * mat_str) : mat_str * mat_str :=
  let off := Z.of_nat (l * (l + 1) + 1) in
  for_up (2 * l + 1) 0
    (fun k (s : mat_str * mat_str) =>
       let (Llm_p, Llm_m) := s in
       let m := (Z.of_nat k - Z.of_nat l)%Z in
       let i := Z.to_nat (off + m) in
       let (faux_r, faux_i) := cri_mul (rel Ylm i) (iel Ylm i) fauxp_r fauxp_i in
       let Llm_p := set_rel Llm_p i (rel Llm_p i + faux_r * M1P (Z.of_nat l + m)) in
       let Llm_p := set_iel Llm_p i (iel Llm_p i + faux_i * M1P (Z.of_nat l + m)) in
       let (faux_r, faux_i) := cri_mul (rel Ylm i) (iel Ylm i) fauxm_r fauxm_i in
       let Llm_m := set_rel Llm_m i (rel Llm_m i + faux_r * M1P m) in
       let Llm_m := set_iel Llm_m i (iel Llm_m i + faux_i * M1P m) in
       (Llm_p, Llm_m))
    s.

(** Lines 285-350: the body of the inner loop at the lattice vector
    [(p_x, p_y)]. *)
Definition lsum_add (pref : mat_str) (k_r k_i : R) (k_in d_ij : nat -> R)
           (l_max : nat) (r_max : R) (p_x p_y : R)
           (s : mat_str * mat_str) : mat_str * mat_str :=
  let r_x := d_ij 1%nat + p_x in
  let r_y := d_ij 2%nat + p_y in
  let r_z := d_ij 3%nat in
  let r_abs := r_x * r_x + r_y * r_y + r_z * r_z in
  if (Rltb r_abs r_max && Rltb GEO_TOLERANCE r_abs)%bool then
    let r_abs := sqrt r_abs in
    let Hl := c_hank1 (k_r * r_abs) (k_i * r_abs) l_max in
    let r_phi := R_atan2 r_y r_x in
    let Ylm := r_ylm (r_z / r_abs) r_phi l_max in
    let faux_r := k_in 1%nat * p_x + k_in 2%nat * p_y in
    let (exp_ikp_r, exp_ikp_i) := cri_expi (- faux_r) 0 in
    for_range 0 l_max
      (fun l s =>
         let (faux_r, faux_i) :=
           cri_mul (rel pref (l + 1)) (iel pref (l + 1)) (rel Hl (l + 1)) (iel Hl (l + 1)) in
         let (fauxp_r, fauxp_i) := cri_mul faux_r faux_i exp_ikp_r exp_ikp_i in
         let (fauxm_r, fauxm_i) := cri_mul faux_r faux_i exp_ikp_r (- exp_ikp_i) in
         lsum_add_m Ylm l fauxp_r fauxp_i fauxm_r fauxm_i s)
      s
  else s.

(** Lines 261-352: the two loops over the lattice, with [body] at every
    lattice vector that is reached. *)
Definition lsum_lattice {St : Type} (a d_ij : nat -> R) (r_max : R)
           (body : Z -> Z -> R -> R -> St -> St) (s : St) : St :=
  let a1_x := a 1%nat in
  let a1_y := a 3%nat in
  let a2_x := a 2%nat in
  let a2_y := a 4%nat in
  let f1 := a1_x * a1_x + a1_y * a1_y in
  let f2 := a2_x * a2_x + a2_y * a2_y in
  let f12 := a1_x * a2_x + a1_y * a2_y in
  let f1d := a1_x * d_ij 1%nat + a1_y * d_ij 2%nat in
  let f2d := a2_x * d_ij 1%nat + a2_y * d_ij 2%nat in
  let fd := d_ij 1%nat * d_ij 1%nat + d_ij 2%nat * d_ij 2%nat + d_ij 3%nat * d_ij 3%nat in
  let (n1_min, n1_max) := lsum_n1_bounds f1 f2 f12 f1d f2d fd r_max in
  for_walk (walk_count n1_min n1_max) n1_min
    (- IZR (n1_max - 0) * a1_x) (- IZR (n1_max - 0) * a1_y) a1_x a1_y
    (fun n1 p0_x p0_y s =>
       let (n2_min, n2_max) := lsum_n2_bounds f1 f2 f12 f1d f2d fd r_max n1 in
       for_walk (walk_count n2_min n2_max) n2_min
         (p0_x + IZR (n2_min + 0) * a2_x) (p0_y + IZR (n2_min + 0) * a2_y) a2_x a2_y
         (fun n2 p_x p_y s => body n1 n2 p_x p_y s)
         s)
    s.

(** The function.  [ERROR_RETURN(-1)] is read as [return -1]
    ([EXIT_ON_ERROR] not defined); the conversions to [int] are exact. *)
Definition leed_ms_lsum_ij (p_Llm_p p_Llm_m : mat) (k_r k_i : R)
           (k_in a d_ij : nat -> R) (l_max : nat) (epsilon : R) : lsum_result :=
  if Rleb k_i 0 then
    mk_lsum_result (-1) p_Llm_p p_Llm_m [(Error, "damping too small"%string)]
  else
    let iaux := ((l_max + 1) * (l_max + 1))%nat in
    let Llm_p := matalloc iaux 1 in
    let Llm_m := matalloc iaux 1 in
    let pref := lsum_pref k_r k_i l_max in
    let r_max := lsum_radius k_i epsilon in
    let log :=
      if (WARNING_LOG && Rltb WARN_LEVEL r_max)%bool
      then [(Warning, "damping very weak"%string)] else [] in
    let r_max := r_max * r_max in
    let (Llm_p, Llm_m) :=
      lsum_lattice a d_ij r_max
        (fun _ _ p_x p_y s => lsum_add pref k_r k_i k_in d_ij l_max r_max p_x p_y s)
        (Llm_p, Llm_m) in
    mk_lsum_result 0 (Some Llm_p) (Some Llm_m) log.

End LMSLSUMIJ.

(** ** lbmgen.c: leed_beam_gen *)

(** The fields of [leed_crystal] and [leed_var] the functions below read;
    [m_recip] and [a_1] are the arrays [m_recip[1..4]] and [a_1[1..4]],
    [p_tl] the array of the scattering factors of the atom types. *)
Record leed_crystal : Type := mk_crystal {
  dmin : R;
  rel_area_sup : R;
  area : R;
  m_recip : nat -> R;
  a_1 : nat -> R
}.

Record leed_var : Type := mk_var {
  vr : R;
  eng_i : R;
  theta : R;
  phi : R;
  epsilon : R;
  k_in : nat -> R;
  l_max : nat;
  p_tl : Z -> mat_str
}.

(** The conversion [(int) x] of a real: truncation towards zero. *)
Definition R_int (x : R) : Z :=
  if Rleb 0 x then (up x - 1)%Z else (- (up (- x) - 1))%Z.

(** [hypot] of the C library. *)
Definition R_hypot (x y : R) : R := sqrt (x * x + y * y).

(** [for (n = lo; n <= hi; n++)] over integers, [count] the number of
    passes ([walk_count lo hi]). *)
Fixpoint for_z {St : Type} (count : nat) (n : Z) (body : Z -> St -> St) (s : St) : St :=
  match count with
  | O => s
  | S c => for_z c (n + 1)%Z body (body n s)
  end.

(** An array of beams: a map from the index. *)
Definition beam_array : Type := nat -> leed_beam.

Definition beam_put (beams : beam_array) (i : nat) (b : leed_beam) : beam_array :=
  fun q => if (q =? i)%nat then b else beams q.

(** The three [memcpy] that exchange [beams + n1] and [beams + n2]. *)
Definition beam_swap (beams : beam_array) (n1 n2 : nat) : beam_array :=
  let beam_aux := beams n2 in
  let beams := beam_put beams n2 (beams n1) in
  beam_put beams n1 beam_aux.

(** Lines 178-181: the entry of a beam set in [bm_off]. *)
Definition beam_set_offset (b : leed_beam) (k_x k_y g1_x g1_y g2_x g2_y : R) : leed_beam :=
  mk_beam k_x k_y (k_par b)
          (upd (upd (k_r b) 1 (k_x * g1_x + k_y * g2_x)) 2 (k_x * g1_y + k_y * g2_y))
          (k_i b) (Akz_r b) (Akz_i b) (set b)
          (eout_b_r b) (eout_b_i b) (eout_s_r b) (eout_s_i b).

(** Lines 248-264: the fields written for a beam inside the radius; the
    others keep what the slot held. *)
Definition beam_fill (b off : leed_beam) (n1 n2 : Z) (g1_x g1_y g2_x g2_y : R)
           (i_set : nat) (c_area : R) : leed_beam :=
  let k_x := IZR n1 * g1_x + IZR n2 * g2_x + k_r off 1%nat in
  let k_y := IZR n1 * g1_y + IZR n2 * g2_y + k_r off 2%nat in
  mk_beam (IZR n1 + ind_1 off) (IZR n2 + ind_2 off) (k_x * k_x + k_y * k_y)
          (upd (upd (k_r b) 1 k_x) 2 k_y)
          (upd (upd (k_i b) 1 0) 2 0)
          (1 / c_area) (Akz_i b) i_set
          (eout_b_r b) (eout_b_i b) (eout_s_r b) (eout_s_i b).

(** Line 328: [k_par] of a slot is overwritten. *)
Definition beam_set_k_par (b : leed_beam) (v : R) : leed_beam :=
  mk_beam (ind_1 b) (ind_2 b) v (k_r b) (k_i b) (Akz_r b) (Akz_i b) (set b)
          (eout_b_r b) (eout_b_i b) (eout_s_r b) (eout_s_i b).

(** What the function leaves behind: the value returned, the array with
    its allocated length, the number of beams before the terminator, the
    messages. *)
Record beam_gen_result : Type := mk_beam_gen_result {
  g_ret : Z;
  g_beams : beam_array;
  g_cap : nat;
  g_count : nat;
  g_log : list message
}.

Section LBMGEN.
(** The values of the macros [WARNING_LOG] and [F_END_OF_LIST]. *)
Variable WARNING_LOG : bool.
Variable F_END_OF_LIST : R.

(** Lines 94-99: the square of the largest [k_par] and the length of the
    array. *)
Definition gen_k_max_2 (c_par : leed_crystal) (v_par : leed_var) (eng_max : R) : R :=
  let eng_max := eng_max - vr v_par in
  let faux_r := ln (epsilon v_par) / dmin c_par in
  faux_r * faux_r + 2 * eng_max.

Definition gen_iaux (c_par : leed_crystal) (k_max_2 : R) : Z :=
  (2 + R_int (0.10132118 * rel_area_sup c_par * area c_par * k_max_2))%Z.

(** Lines 139-142: [k_in] at the largest energy. *)
Definition gen_k_in (v_par : leed_var) (eng_max : R) : nat -> R :=
  let eng_max := eng_max - vr v_par in
  let faux_r := sin (theta v_par) * sqrt (2 * eng_max) in
  upd (upd (upd (fun _ => 0) 0 faux_r) 1 (faux_r * cos (phi v_par)))
      2 (faux_r * sin (phi v_par)).

(** Lines 156-188: the beam sets, one entry of [bm_off] each.  The guard
    [i_set < n_set] of the inner loop is tested in its body: once it fails
    no pass of either loop does anything. *)
Definition gen_bm_off (c_par : leed_crystal) (n_set : nat) : beam_array * nat :=
  let m11 := m_recip c_par 1 in
  let m12 := m_recip c_par 2 in
  let m21 := m_recip c_par 3 in
  let m22 := m_recip c_par 4 in
  let g1_x := a_1 c_par 1 in
  let g1_y := a_1 c_par 2 in
  let g2_x := a_1 c_par 3 in
  let g2_y := a_1 c_par 4 in
  let bm_off : beam_array := fun _ => beam_zero in
  let bm_off := beam_put bm_off 0 (beam_set_offset (bm_off 0%nat) 0 0 0 0 0 0) in
  let lo := (- Z.of_nat n_set)%Z in
  let hi := Z.of_nat n_set in
  for_z (walk_count lo hi) lo
    (fun n1 s =>
       for_z (walk_count lo hi) lo
         (fun n2 (s : beam_array * nat) =>
            let (bm_off, i_set) := s in
            if (i_set <? n_set)%nat then
              let k_x := IZR n1 * m11 + IZR n2 * m21 in
              let k_y := IZR n1 * m12 + IZR n2 * m22 in
              if (Rleb 0 k_x && Rltb (k_x + K_TOLERANCE) 1 &&
                  Rleb 0 k_y && Rltb (k_y + K_TOLERANCE) 1 &&
                  Rltb K_TOLERANCE (R_hypot k_x k_y))%bool
              then (beam_put bm_off i_set
                      (beam_set_offset (bm_off i_set) k_x k_y g1_x g1_y g2_x g2_y),
                    S i_set)
              else s
            else s)
         s)
    (bm_off, 1%nat).

(** Lines 205-219: the boundaries of the beam indices. *)
Definition gen_n_max (c_par : leed_crystal) (k_max k_in_0 : R) : Z * Z :=
  let g1_x := a_1 c_par 1 in
  let g1_y := a_1 c_par 2 in
  let g2_x := a_1 c_par 3 in
  let g2_y := a_1 c_par 4 in
  let a1 := R_hypot g1_x g1_y in
  let a2 := R_hypot g2_x g2_y in
  let faux_r := Rabs ((g1_x * g2_x + g1_y * g2_y) / a1) in
  let faux_i := Rabs ((g1_x * g2_y - g1_y * g2_x) / a1) in
  let n2_max := (2 + R_int (k_max / faux_i + k_in_0 / a2))%Z in
  let n1_max := (2 + R_int (k_max / a1 + IZR n2_max * faux_r / a1 + k_in_0 / a1))%Z in
  (n1_max, n2_max).

(** Lines 241-267: one pass of the loops over the beam indices.  [None]:
    the beam does not fit into the array. *)
Definition gen_beam (c_par : leed_crystal) (k_in : nat -> R) (k_max_2 : R)
           (off : leed_beam) (i_set cap : nat) (n1 n2 : Z)
           (s : option (beam_array * nat)) : option (beam_array * nat) :=
  match s with
  | None => None
  | Some (beams, i_beams) =>
    let g1_x := a_1 c_par 1 in
    let g1_y := a_1 c_par 2 in
    let g2_x := a_1 c_par 3 in
    let g2_y := a_1 c_par 4 in
    let k_x := IZR n1 * g1_x + IZR n2 * g2_x + k_in 1%nat + k_r off 1%nat in
    let k_y := IZR n1 * g1_y + IZR n2 * g2_y + k_in 2%nat + k_r off 2%nat in
    let faux_r := k_x * k_x + k_y * k_y in
    if Rleb faux_r k_max_2 then
      if (cap <=? i_beams)%nat then None
      else Some (beam_put beams i_beams
                   (beam_fill (beams i_beams) off n1 n2 g1_x g1_y g2_x g2_y i_set
                              (area c_par)),
                 S i_beams)
    else s
  end.

(** Lines 237-271: the beams of one set inside the radius. *)
Definition gen_beams (c_par : leed_crystal) (k_in : nat -> R) (k_max_2 : R)
           (n1_max n2_max : Z) (off : leed_beam) (i_set cap : nat)
           (s : option (beam_array * nat)) : option (beam_array * nat) :=
  for_z (walk_count (- n1_max) n1_max) (- n1_max)
    (fun n1 s =>
       for_z (walk_count (- n2_max) n2_max) (- n2_max)
         (fun n2 s => gen_beam c_par k_in k_max_2 off i_set cap n1 n2 s)
         s)
    s.

(** Lines 280-291: the first pass sorts by [k_par]. *)
Definition sort_k_par (beams : beam_array) (offset i_beams : nat) : beam_array :=
  for_up (i_beams - offset) offset
    (fun n1 beams =>
       for_up (i_beams - (n1 + 1)) (n1 + 1)
         (fun n2 beams =>
            if Rltb (k_par (beams n2)) (k_par (beams n1))
            then beam_swap beams n1 n2 else beams)
         beams)
    beams.

(** Lines 299-316: the inner loop of the second pass; it has no bound but
    its test on [k_par].  [None]: a slot beyond the array is read, or the
    [fuel] is used up. *)
Fixpoint sort_ind_inner (fuel cap : nat) (beams : beam_array) (n1 n2 : nat)
  : option beam_array :=
  match fuel with
  | O => None
  | S f =>
    if (cap <=? n2)%nat then None
    else if Rltb (Rabs (k_par (beams n2) - k_par (beams n1))) K_TOLERANCE then
      let beams :=
        if Rltb (ind_1 (beams n2)) (ind_1 (beams n1))
        then beam_swap beams n1 n2 else beams in
      let beams :=
        if (IS_EQUAL_REAL (ind_1 (beams n2)) (ind_1 (beams n1)) &&
            Rltb (ind_2 (beams n2)) (ind_2 (beams n1)))%bool
        then beam_swap beams n1 n2 else beams in
      sort_ind_inner f cap beams n1 (n2 + 1)
    else Some beams
  end.

(** Lines 297-323: the second pass sorts by the indices. *)
Definition sort_ind (cap : nat) (beams : beam_array) (offset i_beams : nat)
  : option beam_array :=
  for_up (i_beams - offset) offset
    (fun n1 s =>
       match s with
       | None => None
       | Some beams => sort_ind_inner (S cap) cap beams n1 (n1 + 1)
       end)
    (Some beams).

(** Lines 229-325: the round of one beam set; [offset] is [i_beams] at its
    start. *)
Definition gen_set (c_par : leed_crystal) (k_in : nat -> R) (k_max_2 : R)
           (n1_max n2_max : Z) (bm_off : beam_array) (cap : nat) (i_set : nat)
           (s : option (beam_array * nat)) : option (beam_array * nat) :=
  match s with
  | None => None
  | Some (beams, offset) =>
    match gen_beams c_par k_in k_max_2 n1_max n2_max (bm_off i_set) i_set cap
                    (Some (beams, offset)) with
    | None => None
    | Some (beams, i_beams) =>
      let beams := sort_k_par beams offset i_beams in
      match sort_ind cap beams offset i_beams with
      | None => None
      | Some beams => Some (beams, i_beams)
      end
    end
  end.

(** The function.  [p_beams] is [None] for [*p_beams == NULL]; otherwise it
    holds what the memory holds after [realloc].  [None] stands for the
    runs that do not return: no beam set or no memory to allocate, or an
    access beyond the array.  Line 226 computes [k_r] and [k_i], which are
    not used. *)
Definition leed_beam_gen (p_beams : option beam_array) (c_par : leed_crystal)
           (v_par : leed_var) (eng_max : R) : option beam_gen_result :=
  let k_max_2 := gen_k_max_2 c_par v_par eng_max in
  let k_max := sqrt k_max_2 in
  let iaux := gen_iaux c_par k_max_2 in
  let beams : beam_array :=
    match p_beams with
    | None => fun _ => beam_zero
    | Some old => old
    end in
  let k_in := gen_k_in v_par eng_max in
  let n_set := R_nint (rel_area_sup c_par) in
  if ((iaux <=? 0)%Z || (n_set <=? 0)%Z)%bool then None
  else
    let cap := Z.to_nat iaux in
    let (bm_off, i_set) := gen_bm_off c_par (Z.to_nat n_set) in
    let log :=
      if (WARNING_LOG && negb (i_set =? Z.to_nat n_set)%nat)%bool
      then [(Warning, "wrong number of beam sets found"%string)] else [] in
    let (n1_max, n2_max) := gen_n_max c_par k_max (k_in 0%nat) in
    match for_up (Z.to_nat n_set) 0
            (fun i_set s => gen_set c_par k_in k_max_2 n1_max n2_max bm_off cap i_set s)
            (Some (beams, 0%nat)) with
    | None => None
    | Some (beams, i_beams) =>
      if (cap <=? i_beams)%nat then None
      else
        Some (mk_beam_gen_result n_set
                (beam_put beams i_beams (beam_set_k_par (beams i_beams) F_END_OF_LIST))
                cap i_beams log)
    end.

End LBMGEN.

(** ** lmscomplsym.c: leed_ms_compl_sym *)

(** The fields of [leed_atom] and [leed_layer] the function reads; [pos] is
    the array [pos[0..3]]. *)
Record leed_atom : Type := mk_atom {
  type : Z;
  pos : nat -> R
}.

(** The values of [bulk_over]: the two the function tests, or another. *)
Inductive leed_l_type : Type := BULK | OVER | L_OTHER.

Record leed_layer : Type := mk_layer {
  no_of_layer : nat;
  bulk_over : leed_l_type;
  n_atoms : nat;
  atoms : nat -> leed_atom;
  a_lat : nat -> R;
  rel_area : R
}.

(** A zeroed [leed_atom], as [calloc] leaves it. *)
Definition atom_zero : leed_atom := mk_atom 0 (fun _ => 0).

Definition atom_put (a : nat -> leed_atom) (i : nat) (v : leed_atom) : nat -> leed_atom :=
  fun q => if (q =? i)%nat then v else a q.

(** Functions of the repository that leed_ms_compl_sym calls and that are
    not among the sources.  An output handle that is overwritten is left
    out of the arguments; a matrix argument that may be [NULL] is a [mat].
    [matcheck] returns a negative number for an invalid matrix,
    [ms_partinv Mbg n_plane l_max] the inverse of the giant matrix. *)
Class compl_externals : Type := {
  matcheck : mat -> Z;
  leed_ms_lsum_ii : R -> R -> (nat -> R) -> (nat -> R) -> nat -> R -> mat_str;
  leed_ms_tmat_ii : mat_str -> mat_str -> nat -> mat_str;
  leed_ms_tmat_ij : mat -> mat -> nat -> mat_str;
  ms_partinv : mat_str -> nat -> nat -> mat_str;
  leed_ms_ymat : nat -> list leed_beam -> nat -> mat_str;
  leed_ms_yp_yxm : mat_str -> mat_str;
  leed_ms_yp_yxp : mat_str -> mat_str;
  leed_ms_yp_ym : mat_str -> mat_str;
  leed_ms_comp_k_sum : mat_str -> list leed_beam -> leed_atom -> leed_l_type ->
                       nat -> nat -> mat_str
}.

(** What the function leaves behind: the value returned, the four output
    matrices, the messages. *)
Record compl_result : Type := mk_compl_result {
  m_code : Z;
  m_Tpp : mat;
  m_Tmm : mat;
  m_Rpm : mat;
  m_Rmp : mat;
  m_msgs : list message
}.

(** The atoms after the preparation, with what is found on the way. *)
Record compl_prep : Type := mk_compl_prep {
  c_atoms : nat -> leed_atom;
  c_n_type : Z;
  c_z_min : R;
  c_z_max : R;
  c_l_max : nat;
  c_n_plane : nat;
  c_z_plane : R
}.

Section LMSCOMPLSYM.
Context {lext : lsum_externals} {cext : compl_externals}.
(** The values of the macros [WARNING_LOG], [F_END_OF_LIST] and
    [I_END_OF_LIST]. *)
Variable WARNING_LOG : bool.
Variable F_END_OF_LIST : R.
Variable I_END_OF_LIST : Z.

(** Lines 240-241: the number of beams before the terminator; [None] when
    the list has no terminator. *)
Fixpoint compl_n_beams (beams : list leed_beam) : option nat :=
  match beams with
  | [] => None
  | b :: rest =>
      if IS_EQUAL_REAL (k_par b) F_END_OF_LIST then Some O
      else option_map S (compl_n_beams rest)
  end.

(** Lines 271-276: the largest [l] whose scattering factor is not below
    [epsilon], searched downwards from [iaux]. *)
Fixpoint compl_l_search (fuel : nat) (tl : mat_str) (eps : R) (iaux : nat) : nat :=
  match fuel with
  | O => iaux
  | S f =>
      if (Rltb (cri_abs (rel tl (iaux + 1)) (iel tl (iaux + 1))) eps && (1 <? iaux)%nat)%bool
      then compl_l_search f tl eps (iaux - 1)
      else iaux
  end.

(** Lines 249-281: the atoms are copied, and the number of types, the
    outer-most z and the largest [l] are found; the start values are read
    from the zeroed array. *)
Definition compl_copy (v_par : leed_var) (layer : leed_layer)
  : (nat -> leed_atom) * Z * R * R * nat :=
  let atoms0 : nat -> leed_atom := fun _ => atom_zero in
  let n_type := type (atoms0 0%nat) in
  let z_min := pos (atoms0 0%nat) 3 in
  let z_max := pos (atoms0 0%nat) 3 in
  let v_l_max := l_max v_par in
  let '(a, n_type, z_min, z_max, l_max) :=
    for_up (n_atoms layer) 0
      (fun i_atoms (s : (nat -> leed_atom) * Z * R * R * nat) =>
         let '(a, n_type, z_min, z_max, l_max) := s in
         let src := atoms layer i_atoms in
         let a :=
           atom_put a i_atoms
             (mk_atom (type src)
                (upd (upd (upd (pos (a i_atoms)) 1 (pos src 1)) 2 (pos src 2))
                     3 (pos src 3))) in
         let n_type := Z.max (type (a i_atoms)) n_type in
         let z_max := Rmax (pos (a i_atoms) 3) z_max in
         let z_min := Rmin (pos (a i_atoms) 3) z_min in
         let i_type := type (a i_atoms) in
         let iaux :=
           compl_l_search v_l_max (p_tl v_par i_type) (epsilon v_par) v_l_max in
         (a, n_type, z_min, z_max, Nat.max l_max iaux))
      (atoms0, n_type, z_min, z_max, 1%nat) in
  let a := atom_put a (n_atoms layer) (mk_atom I_END_OF_LIST (pos (a (n_atoms layer)))) in
  (a, (n_type + 1)%Z, z_min, z_max, l_max).

(** Lines 297-332: the plane that holds most atoms. *)
Definition compl_plane (n : nat) (a : nat -> leed_atom) : nat * R :=
  for_up n 0
    (fun i_atoms (s : nat * R) =>
       let (n_plane, z_plane) := s in
       let iaux :=
         for_up n 0
           (fun j_atoms iaux =>
              if Rltb (Rabs (pos (a j_atoms) 3 - pos (a i_atoms) 3)) GEO_TOLERANCE
              then S iaux else iaux)
           0%nat in
       if (n_plane <? iaux)%nat then (iaux, pos (a i_atoms) 3) else s)
    (1%nat, pos (a 0%nat) 3).

(** Lines 337-357: the atoms of that plane are moved to the front. *)
Definition compl_front (n : nat) (z_plane : R) (a : nat -> leed_atom) : nat -> leed_atom :=
  fst (for_up n 0
         (fun i_atoms (s : (nat -> leed_atom) * nat) =>
            let (a, j_atoms) := s in
            if Rltb (Rabs (pos (a i_atoms) 3 - z_plane)) GEO_TOLERANCE then
              let a :=
                if negb (i_atoms =? j_atoms)%nat then
                  let ai := a i_atoms in
                  let aj := a j_atoms in
                  let swap3 (p q : nat -> R) :=
                    upd (upd (upd p 1 (q 1%nat)) 2 (q 2%nat)) 3 (q 3%nat) in
                  atom_put (atom_put a i_atoms (mk_atom (type aj) (swap3 (pos ai) (pos aj))))
                           j_atoms (mk_atom (type ai) (swap3 (pos aj) (pos ai)))
                else a in
              (a, S j_atoms)
            else s)
         (a, 0%nat)).

Definition compl_prepare (v_par : leed_var) (layer : leed_layer) : compl_prep :=
  let '(a, n_type, z_min, z_max, l_max) := compl_copy v_par layer in
  let (n_plane, z_plane) := compl_plane (n_atoms layer) a in
  let a := compl_front (n_atoms layer) z_plane a in
  mk_compl_prep a n_type z_min z_max l_max n_plane z_plane.

(** Lines 420-426 (and the loops of the same form): every element is
    multiplied with [(faux_r, faux_i)]. *)
Definition compl_scale_all (faux_r faux_i : R) (M : mat_str) : mat_str :=
  for_range 1 (cols M * rows M)
    (fun p M => set_el M p (cri_mul (rel M p) (iel M p) faux_r faux_i)) M.

(** Lines 391-434: the scattering matrices of the Bravais lattices, one
    for each type of atom that occurs. *)
Definition compl_Tii (v_par : leed_var) (layer : leed_layer) (b0 : leed_beam)
           (p : compl_prep) : Z -> mat :=
  let Llm_ij :=
    leed_ms_lsum_ii (k_r b0 0%nat) (k_i b0 0%nat) (k_in v_par) (a_lat layer)
                    (2 * c_l_max p) (epsilon v_par) in
  for_up (n_atoms layer) 0
    (fun i_atoms (p_Tii : Z -> mat) =>
       let i_type := type (c_atoms p i_atoms) in
       match p_Tii i_type with
       | Some _ => p_Tii
       | None =>
           let T := leed_ms_tmat_ii Llm_ij (p_tl v_par i_type) (c_l_max p) in
           let T := mattrans T in
           let (faux_r, faux_i) := cri_div (-0.5) 0 (k_r b0 0%nat) (k_i b0 0%nat) in
           let T := compl_scale_all faux_r faux_i T in
           fun t => if (t =? i_type)%Z then Some T else p_Tii t
       end)
    (fun _ => None).

(** Lines 448-511: the blocks of the pairs of atoms are written into the
    giant matrix.  The offsets are computed from the counters; the value
    [leed_ms_lsum_ij] returns is not read. *)
Definition compl_pairs (v_par : leed_var) (layer : leed_layer) (b0 : leed_beam)
           (p : compl_prep) (p_Tii : Z -> mat) (Mbg : mat_str)
  : mat_str * list message :=
  let n := n_atoms layer in
  let l_max_2 := ((c_l_max p + 1) * (c_l_max p + 1))%nat in
  let Mark := matalloc n n in
  let Llm_ij :=
    Some (leed_ms_lsum_ii (k_r b0 0%nat) (k_i b0 0%nat) (k_in v_par) (a_lat layer)
                          (2 * c_l_max p) (epsilon v_par)) in
  let '(Mbg, _, _, _, log) :=
    for_up n 0
      (fun i_atoms s =>
         let off_row := (i_atoms * l_max_2 + 1)%nat in
         for_up (n - (i_atoms + 1)) (i_atoms + 1)
           (fun j_atoms (s : mat_str * mat_str * mat * mat * list message) =>
              let '(Mbg, Mark, Llm_ij, Llm_ji, log) := s in
              let off_col := (j_atoms * l_max_2 + 1)%nat in
              if negb (IS_EQUAL_REAL (RMATEL (i_atoms + 1) (j_atoms + 1) Mark) 1) then
                let d_ij :=
                  upd (upd (upd (fun _ => 0) 1
                                (pos (c_atoms p j_atoms) 1 - pos (c_atoms p i_atoms) 1))
                           2 (pos (c_atoms p j_atoms) 2 - pos (c_atoms p i_atoms) 2))
                      3 (pos (c_atoms p j_atoms) 3 - pos (c_atoms p i_atoms) 3) in
                let r :=
                  leed_ms_lsum_ij WARNING_LOG Llm_ij Llm_ji (k_r b0 0%nat) (k_i b0 0%nat)
                                  (k_in v_par) (a_lat layer) d_ij (2 * c_l_max p)
                                  (epsilon v_par) in
                let Llm_ij := l_Llm_p r in
                let Llm_ji := l_Llm_m r in
                let Maux :=
                  leed_ms_tmat_ij Llm_ij (p_Tii (type (c_atoms p j_atoms))) (c_l_max p) in
                let Mbg := matins Mbg Maux off_col off_row in
                let Maux :=
                  leed_ms_tmat_ij Llm_ji (p_Tii (type (c_atoms p i_atoms))) (c_l_max p) in
                let Mbg := matins Mbg Maux off_row off_col in
                let Mark :=
                  set_rel Mark ((i_atoms + 1 - 1) * cols Mark + (j_atoms + 1)) 1 in
                let Mark :=
                  set_rel Mark ((j_atoms + 1 - 1) * cols Mark + (i_atoms + 1)) 1 in
                (Mbg, Mark, Llm_ij, Llm_ji, (log ++ l_log r)%list)
              else s)
           s)
      (Mbg, Mark, Llm_ij, None, []) in
  (Mbg, log).

(** Lines 517-519: add identity to the giant matrix. *)
Definition compl_add_identity (Mbg : mat_str) : mat_str :=
  for_stride (cols Mbg * rows Mbg) 1 (cols Mbg * rows Mbg) (cols Mbg + 1)
    (fun k M => set_rel M k (rel M k + 1)) Mbg.

(** Lines 448-519: the giant matrix before it is inverted. *)
Definition compl_giant (v_par : leed_var) (layer : leed_layer) (b0 : leed_beam)
           (p : compl_prep) (p_Tii : Z -> mat) : mat_str * list message :=
  let l_max_2 := ((c_l_max p + 1) * (c_l_max p + 1))%nat in
  let iaux := (l_max_2 * n_atoms layer)%nat in
  let Mbg := matalloc iaux iaux in
  let (Mbg, log) := compl_pairs v_par layer b0 p p_Tii Mbg in
  (compl_add_identity Mbg, log).

(** Lines 615-627 (and 656-668): the row [k] of [Maux] is multiplied with
    [(faux_r, faux_i)]. *)
Definition compl_scale_row (k : nat) (faux_r faux_i : R) (Maux : mat_str) : mat_str :=
  for_range (k * cols Maux + 1) (k * cols Maux + cols Maux)
    (fun p M => set_el M p (cri_mul (rel M p) (iel M p) faux_r faux_i)) Maux.

(** Lines 629-650 (and 670-691): for a bulk layer (an overlayer) the rows
    are multiplied with the factors [eout_b] ([eout_s]) of their beams. *)
Definition compl_scale_eout (l_type : leed_l_type) (i_layer : nat)
           (beams : list leed_beam) (Maux : mat_str) : mat_str :=
  let Maux :=
    match l_type with
    | BULK =>
        for_up (rows Maux) 0
          (fun i_beams M =>
             compl_scale_row i_beams (eout_b_r (beam_at beams i_beams) i_layer)
                             (eout_b_i (beam_at beams i_beams) i_layer) M)
          Maux
    | _ => Maux
    end in
  match l_type with
  | OVER =>
      for_up (rows Maux) 0
        (fun i_beams M =>
           compl_scale_row i_beams (eout_s_r (beam_at beams i_beams) i_layer)
                           (eout_s_i (beam_at beams i_beams) i_layer) M)
        Maux
  | _ => Maux
  end.

(** Lines 609-627 (and 656-668): the rows are multiplied with
    [exp(i k r) * (A kz)^-1 * i pref_i]; [sz] is the sign of the z term. *)
Definition compl_scale_rows (sz pref_i : R) (beams : list leed_beam) (at_i : leed_atom)
           (Maux : mat_str) : mat_str :=
  for_up (rows Maux) 0
    (fun k M =>
       let b := beam_at beams k in
       let faux_r := - k_r b 1%nat * pos at_i 1 - k_r b 2%nat * pos at_i 2
                     + sz * k_r b 3%nat * pos at_i 3 in
       let faux_i := sz * k_i b 3%nat * pos at_i 3 in
       let (faux_r, faux_i) := cri_expi faux_r faux_i in
       let (faux_r, faux_i) := cri_mul faux_r faux_i (Akz_r b) (Akz_i b) in
       let (faux_r, faux_i) := cri_mul faux_r faux_i 0 pref_i in
       compl_scale_row k faux_r faux_i M)
    Maux.

(** Lines 567-697: the matrices [L_p], [L_m], [R_p], [R_m].  [None]: the
    scattering matrix of an atom type is [NULL]. *)
Definition compl_LR (layer : leed_layer) (beams : list leed_beam) (n_beams : nat)
           (p : compl_prep) (p_Tii : Z -> mat)
  : option (mat_str * mat_str * mat_str * mat_str) :=
  let l_max := c_l_max p in
  let l_max_2 := ((l_max + 1) * (l_max + 1))%nat in
  let l_type := bulk_over layer in
  let i_layer := no_of_layer layer in
  let Ylm := leed_ms_ymat l_max beams n_beams in
  let iaux := (l_max_2 * n_atoms layer)%nat in
  let L_p := matalloc n_beams iaux in
  let L_m := matalloc n_beams iaux in
  let R_p := matalloc iaux n_beams in
  let R_m := matalloc iaux n_beams in
  let pref_i := - 16 * PI * PI / rel_area layer in
  for_up (n_atoms layer) 0
    (fun i_atoms s =>
       match s with
       | None => None
       | Some (L_p, L_m, R_p, R_m) =>
         match p_Tii (type (c_atoms p i_atoms)) with
         | None => None
         | Some Tii =>
           let off_row := (i_atoms * l_max_2 + 1)%nat in
           let Maux := leed_ms_yp_yxm Ylm in
           let Maux := matmul Tii Maux in
           let Maux := leed_ms_comp_k_sum Maux beams (c_atoms p i_atoms) l_type l_max 0 in
           let R_p := matins R_p Maux off_row 1 in
           let Maux := leed_ms_yp_yxp Ylm in
           let Maux := matmul Tii Maux in
           let Maux := leed_ms_comp_k_sum Maux beams (c_atoms p i_atoms) l_type l_max 1 in
           let R_m := matins R_m Maux off_row 1 in
           let Maux := leed_ms_yp_ym Ylm in
           let Maux := compl_scale_rows (-1) pref_i beams (c_atoms p i_atoms) Maux in
           let Maux := compl_scale_eout l_type i_layer beams Maux in
           let L_p := matins L_p Maux 1 off_row in
           let Maux := matcopy Ylm in
           let Maux := compl_scale_rows 1 pref_i beams (c_atoms p i_atoms) Maux in
           let Maux := compl_scale_eout l_type i_layer beams Maux in
           let L_m := matins L_m Maux 1 off_row in
           Some (L_p, L_m, R_p, R_m)
         end
       end)
    (Some (L_p, L_m, R_p, R_m)).

(** Lines 794-823: the vectors of the shift of the origin:
    [L_p = R_m = exp(i kz z_max)], [L_m = R_p = exp(- i kz z_min)]. *)
Definition compl_shift_vectors (beams : list leed_beam) (n_beams : nat) (z_min z_max : R)
  : mat_str * mat_str * mat_str * mat_str :=
  for_up n_beams 0
    (fun k (s : mat_str * mat_str * mat_str * mat_str) =>
       let '(L_p, L_m, R_p, R_m) := s in
       let b := beam_at beams k in
       let faux_r := k_r b 3%nat * z_max in
       let faux_i := k_i b 3%nat * z_max in
       let R_m := set_el R_m (k + 1) (cri_expi faux_r faux_i) in
       let L_p := set_el L_p (k + 1) (rel R_m (k + 1), iel R_m (k + 1)) in
       let faux_r := - k_r b 3%nat * z_min in
       let faux_i := - k_i b 3%nat * z_min in
       let R_p := set_el R_p (k + 1) (cri_expi faux_r faux_i) in
       let L_m := set_el L_m (k + 1) (rel R_p (k + 1), iel R_p (k + 1)) in
       (L_p, L_m, R_p, R_m))
    (matalloc 1 n_beams, matalloc 1 n_beams, matalloc n_beams 1, matalloc n_beams 1).

(** Lines 833-842 (and the three loops after them): the element (k,l)
    is multiplied with [L(k)] and then with [R(l)]. *)
Definition compl_shift (L R : mat_str) (T : mat_str) : mat_str :=
  for_range 1 (rows T)
    (fun k T =>
       for_range 1 (cols T)
         (fun l T =>
            let p := ((k - 1) * cols T + l)%nat in
            let T := set_el T p (cri_mul (rel L k) (iel L k) (rel T p) (iel T p)) in
            set_el T p (cri_mul (rel R l) (iel R l) (rel T p) (iel T p)))
         T)
    T.

(** Lines 886-896: the propagator of the unscattered wave is added to the
    diagonals of [Tmm] and [Tpp]. *)
Definition compl_direct (n_beams : nat) (L_p R_p : mat_str) (Ts : mat_str * mat_str)
  : mat_str * mat_str :=
  for_up n_beams 0
    (fun k (Ts : mat_str * mat_str) =>
       let (Tmm, Tpp) := Ts in
       let iaux := (1 + k * (n_beams + 1))%nat in
       let (faux_r, faux_i) :=
         cri_mul (rel L_p (k + 1)) (iel L_p (k + 1)) (rel R_p (k + 1)) (iel R_p (k + 1)) in
       let Tmm := set_rel Tmm iaux (rel Tmm iaux + faux_r) in
       let Tmm := set_iel Tmm iaux (iel Tmm iaux + faux_i) in
       let Tpp := set_rel Tpp iaux (rel Tpp iaux + faux_r) in
       let Tpp := set_iel Tpp iaux (iel Tpp iaux + faux_i) in
       (Tmm, Tpp))
    Ts.

(** Lines 731-896: the products [L * Mbg * R], the shift of the origin and
    the unscattered wave. *)
Definition compl_finish (beams : list leed_beam) (n_beams : nat) (p : compl_prep)
           (Mbg L_p L_m R_p R_m : mat_str) : mat_str * mat_str * mat_str * mat_str :=
  let Maux := matmul Mbg R_p in
  let Tpp := matmul L_p Maux in
  let Rmp := matmul L_m Maux in
  let Maux := matmul Mbg R_m in
  let Tmm := matmul L_m Maux in
  let Rpm := matmul L_p Maux in
  let '(L_p, L_m, R_p, R_m) :=
    compl_shift_vectors beams n_beams (c_z_min p) (c_z_max p) in
  let Tpp := compl_shift L_p R_p Tpp in
  let Tmm := compl_shift L_m R_m Tmm in
  let Rpm := compl_shift L_p R_m Rpm in
  let Rmp := compl_shift L_m R_p Rmp in
  let (Tmm, Tpp) := compl_direct n_beams L_p R_p (Tmm, Tpp) in
  (Tpp, Tmm, Rpm, Rmp).

(** The function.  [return(-1)] for invalid input matrices ([EXIT_ON_ERROR]
    not defined, [ERROR_LOG] defined); the allocations succeed.  [None]
    stands for the runs the C text leaves undefined: a beam list without
    terminator or without a first beam, or a scattering matrix that is
    [NULL]. *)
Definition leed_ms_compl_sym (p_Tpp p_Tmm p_Rpm p_Rmp : mat) (v_par : leed_var)
           (layer : leed_layer) (beams : list leed_beam) : option compl_result :=
  let err (bad : bool) (n : string) : list message :=
    if bad then [(Error, n)] else [] in
  let bad1 := (matcheck p_Tpp <? 0)%Z in
  let bad2 := (matcheck p_Tmm <? 0)%Z in
  let bad3 := (matcheck p_Rmp <? 0)%Z in
  let bad4 := (matcheck p_Rpm <? 0)%Z in
  if (bad1 || bad2 || bad3 || bad4)%bool then
    Some (mk_compl_result (-1) p_Tpp p_Tmm p_Rpm p_Rmp
            (err bad1 "invalid input matrix (1st argument)"%string ++
             err bad2 "invalid input matrix (2nd argument)"%string ++
             err bad3 "invalid input matrix (3rd argument)"%string ++
             err bad4 "invalid input matrix (4th argument)"%string)%list)
  else
    match compl_n_beams beams, beams with
    | Some n_beams, b0 :: _ =>
        let p := compl_prepare v_par layer in
        let p_Tii := compl_Tii v_par layer b0 p in
        let (Mbg, log) := compl_giant v_par layer b0 p p_Tii in
        let Mbg := ms_partinv Mbg (c_n_plane p) (c_l_max p) in
        match compl_LR layer beams n_beams p p_Tii with
        | None => None
        | Some (L_p, L_m, R_p, R_m) =>
            let '(Tpp, Tmm, Rpm, Rmp) :=
              compl_finish beams n_beams p Mbg L_p L_m R_p R_m in
            Some (mk_compl_result 1 (Some Tpp) (Some Tmm) (Some Rpm) (Some Rmp) log)
        end
    | _, _ => None
    end.

End LMSCOMPLSYM.
(** ** lbmselect.c: leed_beam_get_selection *)

(** The fields [cth_r], [cth_i] and [phi] of [leed_beam], which of the
    functions embedded here only leed_beam_get_selection writes, are kept
    beside the record of the other fields. *)
Record leed_beam_sel : Type := mk_beam_sel {
  b_beam : leed_beam;
  cth_r : R;
  cth_i : R;
  b_phi : R
}.

(** A zeroed element, as [calloc] leaves it. *)
Definition beam_sel_zero : leed_beam_sel := mk_beam_sel beam_zero 0 0 0.

(** What the function leaves behind: the value returned, the array
    [*p_beams_out] and the number of elements allocated for it. *)
Record select_result : Type := mk_select_result {
  s_ret : Z;
  s_beams : nat -> leed_beam_sel;
  s_cap : nat
}.

Section LBMSELECT.
Context {lext : lsum_externals}.
(** [cri_sqrt], the complex square root, is called but is not among the
    sources: a parameter.  [eng_r] is the field of [leed_var] that only
    this function reads; it is passed beside the record. *)
Variable cri_sqrt : R -> R -> R * R.
(** The value of the macro [F_END_OF_LIST]. *)
Variable F_END_OF_LIST : R.

(** Lines 426-429: the number of beams before the terminator, plus one for
    the terminator; [None] when the list has no terminator. *)
Fixpoint sel_iaux (beams_in : list leed_beam) : option nat :=
  match beams_in with
  | [] => None
  | b :: rest =>
      if IS_EQUAL_REAL (k_par b) F_END_OF_LIST then Some 1%nat
      else option_map S (sel_iaux rest)
  end.

(** Lines 452-453: the square of the largest [k_par]. *)
Definition sel_k_max_2 (v_par : leed_var) (eng_r dmin : R) : R :=
  let faux_r := ln (epsilon v_par) / dmin in
  faux_r * faux_r + 2 * eng_r.

(** Lines 479-518: the element written for a beam inside the radius, a
    copy of the beam with [k_par], [k_r], [k_i], [cth], [phi] and [Akz]
    replaced. *)
Definition sel_fill (v_par : leed_var) (eng_r k_r0 k_i0 : R) (b : leed_beam)
  : leed_beam_sel :=
  let k_x := k_r b 1%nat + k_in v_par 1%nat in
  let k_y := k_r b 2%nat + k_in v_par 2%nat in
  let faux_r := k_x * k_x + k_y * k_y in
  let k_z := cri_sqrt (2 * eng_r - faux_r) (2 * eng_i v_par) in
  let cth := cri_div (fst k_z) (snd k_z) k_r0 k_i0 in
  let Akz := cri_div (Akz_r b) 0 (fst k_z) (snd k_z) in
  mk_beam_sel
    (mk_beam (ind_1 b) (ind_2 b) (sqrt faux_r)
       (upd (upd (upd (upd (k_r b) 0 k_r0) 1 k_x) 2 k_y) 3 (fst k_z))
       (upd (upd (upd (upd (k_i b) 0 k_i0) 1 0) 2 0) 3 (snd k_z))
       (fst Akz) (snd Akz) (set b)
       (eout_b_r b) (eout_b_i b) (eout_s_r b) (eout_s_i b))
    (fst cth) (snd cth) (R_atan2 k_y k_x).

(** Lines 470-561: the loop over the beams of the input list; the guard
    tests the terminator before every pass.  [None]: the list is read
    beyond its end, or an element is written beyond the array of [cap]
    elements. *)
Fixpoint sel_loop (v_par : leed_var) (eng_r k_max_2 k_r0 k_i0 : R) (cap : nat)
         (beams_in : list leed_beam) (beams_out : nat -> leed_beam_sel)
         (i_beams_out : nat) : option ((nat -> leed_beam_sel) * nat) :=
  match beams_in with
  | [] => None
  | b :: rest =>
      if IS_EQUAL_REAL (k_par b) F_END_OF_LIST then Some (beams_out, i_beams_out)
      else
        let k_x := k_r b 1%nat + k_in v_par 1%nat in
        let k_y := k_r b 2%nat + k_in v_par 2%nat in
        let faux_r := k_x * k_x + k_y * k_y in
        if Rleb faux_r k_max_2 then
          if (cap <=? i_beams_out)%nat then None
          else
            sel_loop v_par eng_r k_max_2 k_r0 k_i0 cap rest
              (fun q => if (q =? i_beams_out)%nat
                        then sel_fill v_par eng_r k_r0 k_i0 b else beams_out q)
              (S i_beams_out)
        else sel_loop v_par eng_r k_max_2 k_r0 k_i0 cap rest beams_out i_beams_out
  end.

(** Line 564: [k_par] of an element is overwritten. *)
Definition beam_sel_set_k_par (e : leed_beam_sel) (v : R) : leed_beam_sel :=
  mk_beam_sel (beam_set_k_par (b_beam e) v) (cth_r e) (cth_i e) (b_phi e).

(** The function.  [p_beams_out] is [None] for [*p_beams_out == NULL];
    otherwise it holds what the memory holds after [realloc].  The
    allocation is taken to succeed.  [None] stands for the runs the C text
    leaves undefined (no terminator in [beams_in], a write beyond the
    array). *)
Definition leed_beam_get_selection (p_beams_out : option (nat -> leed_beam_sel))
           (beams_in : list leed_beam) (v_par : leed_var) (eng_r dmin : R)
  : option select_result :=
  match sel_iaux beams_in with
  | None => None
  | Some iaux =>
    let beams_out :=
      match p_beams_out with
      | None => fun _ => beam_sel_zero
      | Some old => old
      end in
    let k_max_2 := sel_k_max_2 v_par eng_r dmin in
    let k := cri_sqrt (2 * eng_r) (2 * eng_i v_par) in
    match sel_loop v_par eng_r k_max_2 (fst k) (snd k) iaux beams_in beams_out 0 with
    | None => None
    | Some (beams_out, i_beams_out) =>
      if (iaux <=? i_beams_out)%nat then None
      else
        Some (mk_select_result (Z.of_nat i_beams_out)
                (fun q => if (q =? i_beams_out)%nat
                          then beam_sel_set_k_par (beams_out i_beams_out) F_END_OF_LIST
                          else beams_out q)
                iaux)
    end
  end.

End LBMSELECT.



















(* ================================================================== *)
(** * Part II: the vocabulary of the properties                        *)
(* ================================================================== *)

(** ** Matrices as functions of (row, column), rows and columns from 1 *)

Definition cmatrix : Type := nat -> nat -> cplx.

Definition cm_mul (n : nat) (A B : cmatrix) : cmatrix :=
  fun i j => csum n (fun k => Cmul (A i k) (B k j)).
Definition cm_add (A B : cmatrix) : cmatrix := fun i j => Cadd (A i j) (B i j).
Definition cm_sub (A B : cmatrix) : cmatrix := fun i j => Csub (A i j) (B i j).
Definition cm_neg (A : cmatrix) : cmatrix := fun i j => Cneg (A i j).
Definition cm_scal (r : R) (A : cmatrix) : cmatrix := fun i j => Cscal r (A i j).
Definition cm_id : cmatrix := fun i j => if (i =? j)%nat then Cone else Czero.
Definition cm_diag (d : nat -> cplx) : cmatrix :=
  fun i j => if (i =? j)%nat then d i else Czero.

(** Two matrices with the same elements in rows and columns [1..n]. *)
Definition cm_eq (r c : nat) (A B : cmatrix) : Prop :=
  forall i j, (1 <= i <= r)%nat -> (1 <= j <= c)%nat -> A i j = B i j.

(** A [mat_str] of [r] rows and [c] columns. *)
Definition has_dim (r c : nat) (M : mat_str) : Prop := rows M = r /\ cols M = c.

(** ** Layer doubling: the formula of the claim *)

(** The phase of beam [b] over the displacement [v], a complex number since
    the z component of the wave vector is complex:
    [sx * (k_x v_x + k_y v_y) + k_z v_z]. *)
Definition ld_phase (sx : R) (b : leed_beam) (v : nat -> R) : cplx :=
  (sx * (k_r b 1 * v 1%nat + k_r b 2 * v 2%nat) + k_r b 3 * v 3%nat,
   k_i b 3 * v 3%nat).

(** [P^+] and [P^-]: diagonal, the k-th entry [exp (i * phase)] of the k-th
    beam (beams are counted from 0 in the list, rows from 1). *)
Definition ld_Pplus (beams : list leed_beam) (v : nat -> R) : cmatrix :=
  cm_diag (fun k => Cexp (Cmul Cimag (ld_phase 1 (beam_at beams (k - 1)) v))).
Definition ld_Pminus (beams : list leed_beam) (v : nat -> R) : cmatrix :=
  cm_diag (fun k => Cexp (Cmul Cimag (ld_phase (-1) (beam_at beams (k - 1)) v))).

(** The inverse of the claim's formula is the one [matinv] computes, read
    on the elements in rows and columns [1..n]. *)
Definition cm_inv {ext : leed_externals} (n : nat) (A : cmatrix) : cmatrix :=
  mel (matinv (mat_of_fun n n A)).

(** [matinv] returns a matrix of the dimensions of its argument and reads
    nothing but the elements of its argument. *)
Definition matinv_regular (ext : leed_externals) (n : nat) : Prop :=
  (forall A, has_dim n n A -> has_dim n n (matinv A)) /\
  (forall A B, has_dim n n A -> has_dim n n B ->
     cm_eq n n (mel A) (mel B) -> cm_eq n n (mel (matinv A)) (mel (matinv B))).

(** [R_b^{+-} + T_b^{++} P^+ R_a^{+-} P^- (I - R_b^{-+} P^+ R_a^{+-} P^-)^{-1} T_b^{--}] *)
Definition ld_formula {ext : leed_externals} (n : nat)
           (Rpm_a Tpp_b Tmm_b Rpm_b Rmp_b : cmatrix) (Pp Pm : cmatrix) : cmatrix :=
  cm_add Rpm_b
    (cm_mul n
       (cm_mul n
          (cm_mul n (cm_mul n (cm_mul n Tpp_b Pp) Rpm_a) Pm)
          (cm_inv n
             (cm_sub cm_id (cm_mul n (cm_mul n (cm_mul n Rmp_b Pp) Rpm_a) Pm))))
       Tmm_b).


(** ** The cumulant expansion: the quantities of the specification *)

(** The natural order of the pairs (l,m): [index(l,m) = l*(l+1) + m + 1]. *)
Definition lm_index (l : nat) (m : Z) : nat :=
  Z.to_nat (Z.of_nat (l * (l + 1)) + m + 1).

(** The pair (l,m) at a position of the natural order. *)
Definition l_of_index (x : nat) : nat := Nat.sqrt (x - 1).
Definition m_of_index (x : nat) : Z :=
  (Z.of_nat (x - 1) - Z.of_nat (l_of_index x * (l_of_index x + 1)))%Z.

(** The matrix returned by a call, read from the heap it leaves. *)
Definition returned_matrix (r : cumul_result) : option mat_str :=
  match c_ret r with
  | Some p => cell (c_heap r) p
  | None => None
  end.

(** The T=0 matrix: [- sin(delta_l) exp(i delta_l) / kappa] on the diagonal,
    where [sin(delta_l) exp(i delta_l)] is the element [l+1] of [tl_0] and
    the phase shifts beyond [l_max_0] count as zero; zero elsewhere. *)
Definition cumul_T0_entry (tl_0 : mat_str) (kappa : R) (l_max_0 : nat)
           (l : nat) (m : Z) (l' : nat) (m' : Z) : cplx :=
  if ((l =? l')%nat && (m =? m')%Z && (l <=? l_max_0)%nat)%bool
  then (- rel tl_0 (l + 1) / kappa, - iel tl_0 (l + 1) / kappa)
  else Czero.

Definition cumul_T0_matrix (tl_0 : mat_str) (kappa : R) (l_max_0 : nat) : cmatrix :=
  fun i j =>
    cumul_T0_entry tl_0 kappa l_max_0
                   (l_of_index i) (m_of_index i) (l_of_index j) (m_of_index j).

(** [M_a M_a T + T M_a M_a - 2 M_a T M_a] for one axis. *)
Definition cumul_axis (d : nat) (Ma T : cmatrix) : cmatrix :=
  cm_sub (cm_add (cm_mul d (cm_mul d Ma Ma) T) (cm_mul d T (cm_mul d Ma Ma)))
         (cm_scal 2 (cm_mul d (cm_mul d Ma T) Ma)).

(** [T_(n+1)] from [T_n]:
    [- kappa^2 / (n+1) * sum over the axes of u_a^2 (M_a M_a T_n + T_n M_a M_a - 2 M_a T_n M_a)]. *)
Definition cumul_next (d : nat) (Mx My Mz : cmatrix) (kappa ux uy uz : R)
           (n : nat) (T : cmatrix) : cmatrix :=
  cm_scal (- (kappa * kappa) / INR (n + 1))
    (cm_add (cm_add (cm_scal (ux * ux) (cumul_axis d Mx T))
                    (cm_scal (uy * uy) (cumul_axis d My T)))
            (cm_scal (uz * uz) (cumul_axis d Mz T))).

(** The sequence [T_n] and its partial sums [T_acc]. *)
Fixpoint cumul_T (d : nat) (Mx My Mz : cmatrix) (kappa ux uy uz : R)
         (T0 : cmatrix) (n : nat) : cmatrix :=
  match n with
  | O => T0
  | S k => cumul_next d Mx My Mz kappa ux uy uz k
                      (cumul_T d Mx My Mz kappa ux uy uz T0 k)
  end.

Fixpoint cumul_acc (d : nat) (Mx My Mz : cmatrix) (kappa ux uy uz : R)
         (T0 : cmatrix) (n : nat) : cmatrix :=
  match n with
  | O => T0
  | S k => cm_add (cumul_acc d Mx My Mz kappa ux uy uz T0 k)
                  (cumul_T d Mx My Mz kappa ux uy uz T0 (S k))
  end.

(** Sum of [f 1 .. f n], for reals. *)
Fixpoint rsum (n : nat) (f : nat -> R) : R :=
  match n with
  | O => 0
  | S k => rsum k f + f (S k)
  end.

(** The relative change of one part ([fst]: real, [snd]: imaginary): the sum,
    over the elements whose accumulated part is not zero, of
    [|part of T_n / part of T_acc|]. *)
Definition cumul_change (part : cplx -> R) (d : nat) (Tn Tacc : cmatrix) : R :=
  rsum d (fun i => rsum d (fun j =>
    if Req_dec_T (part (Tacc i j)) 0 then 0
    else Rabs (part (Tn i j) / part (Tacc i j)))).

(** The convergence criterion after [n] passes: both relative changes are
    at most the threshold [CONV_TEST * d * d], [d] the matrix dimension. *)
Definition cumul_converged (d : nat) (Mx My Mz : cmatrix) (kappa ux uy uz : R)
           (T0 : cmatrix) (n : nat) : Prop :=
  cumul_change fst d (cumul_T d Mx My Mz kappa ux uy uz T0 n)
                     (cumul_acc d Mx My Mz kappa ux uy uz T0 n)
    <= CONV_TEST * INR d * INR d /\
  cumul_change snd d (cumul_T d Mx My Mz kappa ux uy uz T0 n)
                     (cumul_acc d Mx My Mz kappa ux uy uz T0 n)
    <= CONV_TEST * INR d * INR d.

(** What the sources expect of [pc_mk_ms] (spec: "three dipole-operator
    matrices (Mx, My, Mz) and their self-products"): square matrices of the
    dimension of the t matrix, the last three the squares of the first. *)
Definition pc_ms_ok (d : nat) (ms : pc_ms) : Prop :=
  has_dim d d (Mx ms) /\ has_dim d d (My ms) /\ has_dim d d (Mz ms) /\
  has_dim d d (MxMx ms) /\ has_dim d d (MyMy ms) /\ has_dim d d (MzMz ms) /\
  cm_eq d d (mel (MxMx ms)) (cm_mul d (mel (Mx ms)) (mel (Mx ms))) /\
  cm_eq d d (mel (MyMy ms)) (cm_mul d (mel (My ms)) (mel (My ms))) /\
  cm_eq d d (mel (MzMz ms)) (cm_mul d (mel (Mz ms)) (mel (Mz ms))).

(** The static matrices, when a former call has left them, are those of
    [pc_mk_ms] for [last_l]. *)
Definition cumul_static_coherent {ext : leed_externals} (st : cumul_static) : Prop :=
  n_call st = 0%nat \/
  exists l, last_l st = Z.of_nat l /\ static_ms st = Some (pc_mk_ms l).

(** The displacements are not all below the tolerance. *)
Definition cumul_nondegenerate (ux uy uz : R) : Prop :=
  ~ (ux < GEO_TOLERANCE /\ uy < GEO_TOLERANCE /\ uz < GEO_TOLERANCE).

(** The relative errors the loop test reads after [k] passes: twice the
    threshold before the first pass. *)
Definition cumul_relerr_at (d : nat) (Mx My Mz : cmatrix) (kappa ux uy uz : R)
           (T0 : cmatrix) (k : nat) : R * R :=
  match k with
  | O => (2 * (CONV_TEST * INR d * INR d), 2 * (CONV_TEST * INR d * INR d))
  | S _ =>
      (cumul_change fst d (cumul_T d Mx My Mz kappa ux uy uz T0 k)
                          (cumul_acc d Mx My Mz kappa ux uy uz T0 k),
       cumul_change snd d (cumul_T d Mx My Mz kappa ux uy uz T0 k)
                          (cumul_acc d Mx My Mz kappa ux uy uz T0 k))
  end.

(** The loop test after [k] passes, when [i_iter] is [k + 1]. *)
Definition cumul_guard (d : nat) (Mx My Mz : cmatrix) (kappa ux uy uz : R)
           (T0 : cmatrix) (k : nat) : bool :=
  ((S k <? NITER)%nat &&
   (Rltb (CONV_TEST * INR d * INR d)
         (fst (cumul_relerr_at d Mx My Mz kappa ux uy uz T0 k)) ||
    Rltb (CONV_TEST * INR d * INR d)
         (snd (cumul_relerr_at d Mx My Mz kappa ux uy uz T0 k))))%bool.

(** The variables of the loop after [k] passes. *)
Definition cumul_state (d : nat) (ms : pc_ms) (kappa ux uy uz : R) (T0 : cmatrix)
           (k : nat) (T_n T_acc : mat_str) (rr ri : R) : Prop :=
  has_dim d d T_n /\ has_dim d d T_acc /\
  cm_eq d d (mel T_n)
        (cumul_T d (mel (Mx ms)) (mel (My ms)) (mel (Mz ms)) kappa ux uy uz T0 k) /\
  cm_eq d d (mel T_acc)
        (cumul_acc d (mel (Mx ms)) (mel (My ms)) (mel (Mz ms)) kappa ux uy uz T0 k) /\
  (rr, ri) = cumul_relerr_at d (mel (Mx ms)) (mel (My ms)) (mel (Mz ms))
                             kappa ux uy uz T0 k.

(** The dimension of the t matrix, [kappa], and the [l_max_0] that is used
    (never above [l_max_t]). *)
Definition cumul_dim (l_max_t : nat) : nat := (l_max_t + 1) * (l_max_t + 1).
Definition cumul_kappa (energy : R) : R := sqrt (2 * energy).
Definition cumul_l0 (l_max_t l_max_0 : nat) : nat := Nat.min l_max_0 l_max_t.

(** The partial sum [T_0 + ... + T_n] for the arguments of a call, with the
    matrices of [pc_mk_ms l_max_t]. *)
Definition cumul_acc_of {ext : leed_externals} (tl_0 : mat_str)
           (ux uy uz energy : R) (l_max_t l_max_0 : nat) (n : nat) : cmatrix :=
  cumul_acc (cumul_dim l_max_t)
            (mel (Mx (pc_mk_ms l_max_t))) (mel (My (pc_mk_ms l_max_t)))
            (mel (Mz (pc_mk_ms l_max_t)))
            (cumul_kappa energy) ux uy uz
            (cumul_T0_matrix tl_0 (cumul_kappa energy) (cumul_l0 l_max_t l_max_0)) n.

(** The convergence criterion after [n] passes for the arguments of a call. *)
Definition cumul_converged_of {ext : leed_externals} (tl_0 : mat_str)
           (ux uy uz energy : R) (l_max_t l_max_0 : nat) (n : nat) : Prop :=
  cumul_converged (cumul_dim l_max_t)
            (mel (Mx (pc_mk_ms l_max_t))) (mel (My (pc_mk_ms l_max_t)))
            (mel (Mz (pc_mk_ms l_max_t)))
            (cumul_kappa energy) ux uy uz
            (cumul_T0_matrix tl_0 (cumul_kappa energy) (cumul_l0 l_max_t l_max_0)) n.

Definition cumul_guard_of {ext : leed_externals} (tl_0 : mat_str)
           (ux uy uz energy : R) (l_max_t l_max_0 : nat) (n : nat) : bool :=
  cumul_guard (cumul_dim l_max_t)
            (mel (Mx (pc_mk_ms l_max_t))) (mel (My (pc_mk_ms l_max_t)))
            (mel (Mz (pc_mk_ms l_max_t)))
            (cumul_kappa energy) ux uy uz
            (cumul_T0_matrix tl_0 (cumul_kappa energy) (cumul_l0 l_max_t l_max_0)) n.

(** The matrix a call returns ([None]: the call fails), computed from the
    contents of [tl_0] and the scalar arguments alone. *)
Definition cumul_value {ext : leed_externals} (tl_0_val : mat_str)
           (ux uy uz energy : R) (l_max_t l_max_0 : nat) : option mat_str :=
  let l_max_2 := ((l_max_t + 1) * (l_max_t + 1))%nat in
  let kappa := sqrt (2 * energy) in
  let T_n := cumul_T0 tl_0_val kappa (cumul_l0 l_max_t l_max_0)
                      (matalloc l_max_2 l_max_2) in
  if (Rltb ux GEO_TOLERANCE && Rltb uy GEO_TOLERANCE && Rltb uz GEO_TOLERANCE)%bool
  then Some (cumul_scale kappa T_n)
  else
    let conv_test := CONV_TEST * INR l_max_2 * INR l_max_2 in
    let (i_iter, T_acc) :=
      cumul_loop NITER (pc_mk_ms l_max_t) kappa (ux * ux) (uy * uy) (uz * uz)
                 conv_test 1 T_n T_n (2 * conv_test) (2 * conv_test) in
    if (i_iter =? NITER)%nat then None else Some (cumul_scale kappa T_acc).

(** ** Vocabulary for leed_par_mktl_nd *)

(** The static matrices of lpccumtl.c exist whenever the next call may read
    them without building them. *)
Definition cumul_static_usable (st : cumul_static) : Prop :=
  n_call st = 0%nat \/ static_ms st <> None.

(** [t_type] is one of the two values the function treats. *)
Definition mktl_valid_type (ph : leed_phase) : Prop :=
  t_type ph = T_DIAG \/ t_type ph = T_NOND.

(** The sets at which the function gives up. *)
Definition mktl_bad_set (eng : R) (ph : leed_phase) : Prop :=
  ~ mktl_valid_type ph \/ eng < eng_min ph.

(** What the reader of the phase shifts establishes for a set: at least two
    energies, tables that fit in the address space, and [eng_max] the last
    tabulated energy. *)
Definition phase_table_ok (ph : leed_phase) : Prop :=
  (2 <= n_eng ph)%nat /\
  (Z.of_nat (n_eng ph * (lmax ph + 1)) < 2 ^ 64)%Z /\
  eng_max ph = energy ph (Z.of_nat (n_eng ph) - 1).



(** The scattering factor of a phase shift: [sin(delta) exp(i delta)]. *)
Definition mktl_factor (delta : R) : cplx :=
  Cscal (sin delta) (Cexp (0, delta)).

(** ** Vocabulary for leed_ms_lsum_ij *)

(** The square of the distance from the origin of the lattice point
    [n1 a1 + n2 a2 + d_ij]. *)
Definition lsum_dist2 (a d_ij : nat -> R) (n1 n2 : Z) : R :=
  let r_x := d_ij 1%nat + IZR n1 * a 1%nat + IZR n2 * a 2%nat in
  let r_y := d_ij 2%nat + IZR n1 * a 3%nat + IZR n2 * a 4%nat in
  r_x * r_x + r_y * r_y + d_ij 3%nat * d_ij 3%nat.

(** The unit cell spans the plane: [fa = f12^2 - f1 f2 < 0]. *)
Definition lsum_cell_regular (a : nat -> R) : Prop :=
  (a 1%nat * a 2%nat + a 3%nat * a 4%nat) * (a 1%nat * a 2%nat + a 3%nat * a 4%nat) -
  (a 1%nat * a 1%nat + a 3%nat * a 3%nat) * (a 2%nat * a 2%nat + a 4%nat * a 4%nat) < 0.

(** The index ranges the function computes from the unit cell, [d_ij] and
    the square [r_max] of the radius. *)
Definition lsum_n1_range (a d_ij : nat -> R) (r_max : R) : Z * Z :=
  let a1_x := a 1%nat in
  let a1_y := a 3%nat in
  let a2_x := a 2%nat in
  let a2_y := a 4%nat in
  lsum_n1_bounds (a1_x * a1_x + a1_y * a1_y) (a2_x * a2_x + a2_y * a2_y)
    (a1_x * a2_x + a1_y * a2_y)
    (a1_x * d_ij 1%nat + a1_y * d_ij 2%nat) (a2_x * d_ij 1%nat + a2_y * d_ij 2%nat)
    (d_ij 1%nat * d_ij 1%nat + d_ij 2%nat * d_ij 2%nat + d_ij 3%nat * d_ij 3%nat)
    r_max.

Definition lsum_n2_range (a d_ij : nat -> R) (r_max : R) (n1 : Z) : Z * Z :=
  let a1_x := a 1%nat in
  let a1_y := a 3%nat in
  let a2_x := a 2%nat in
  let a2_y := a 4%nat in
  lsum_n2_bounds (a1_x * a1_x + a1_y * a1_y) (a2_x * a2_x + a2_y * a2_y)
    (a1_x * a2_x + a1_y * a2_y)
    (a1_x * d_ij 1%nat + a1_y * d_ij 2%nat) (a2_x * d_ij 1%nat + a2_y * d_ij 2%nat)
    (d_ij 1%nat * d_ij 1%nat + d_ij 2%nat * d_ij 2%nat + d_ij 3%nat * d_ij 3%nat)
    r_max n1.

(** The passes of one walk: counter and vector. *)
Fixpoint walk_list (count : nat) (n : Z) (p_x p_y s_x s_y : R) : list (Z * (R * R)) :=
  match count with
  | O => []
  | S c => (n, (p_x, p_y)) :: walk_list c (n + 1)%Z (p_x + s_x) (p_y + s_y) s_x s_y
  end.

(** The passes of the two loops in the order they are made: the counters
    [n1], [n2] and the lattice vector [(p_x, p_y)] of each pass. *)
Definition lsum_visited (a d_ij : nat -> R) (r_max : R) : list (Z * Z * (R * R)) :=
  let (n1_min, n1_max) := lsum_n1_range a d_ij r_max in
  flat_map
    (fun row : Z * (R * R) =>
       let (n2_min, n2_max) := lsum_n2_range a d_ij r_max (fst row) in
       map (fun col : Z * (R * R) => (fst row, fst col, snd col))
           (walk_list (walk_count n2_min n2_max) n2_min
              (fst (snd row) + IZR (n2_min + 0) * a 2%nat)
              (snd (snd row) + IZR (n2_min + 0) * a 4%nat)
              (a 2%nat) (a 4%nat)))
    (walk_list (walk_count n1_min n1_max) n1_min
       (- IZR (n1_max - 0) * a 1%nat) (- IZR (n1_max - 0) * a 3%nat)
       (a 1%nat) (a 3%nat)).

(** The unit square lattice, and a displacement of half a lattice constant
    along [a1]. *)
Definition sample_cell (i : nat) : R :=
  match i with
  | 1%nat => 1
  | 4%nat => 1
  | _ => 0
  end.
Definition sample_shift (i : nat) : R :=
  match i with
  | 1%nat => / 2
  | _ => 0
  end.

(** A rectangular lattice with the reciprocal vectors (1,0) and (0,g), no
    superstructure, and normal incidence. *)
Definition sample_recip (g : R) (i : nat) : R :=
  match i with
  | 1%nat => 1
  | 4%nat => g
  | _ => 0
  end.
Definition sample_crystal (g : R) : leed_crystal :=
  mk_crystal 1 1 39.478 sample_cell (sample_recip g).
Definition sample_var : leed_var :=
  mk_var 0 0 0 0 1 (fun _ => 0) 1 (fun _ => matalloc 4 1).

(** An instance of the functions the lattice sum calls. *)
Definition sample_lsum_externals : lsum_externals := {|
  c_hank1 := fun _ _ l_max => matalloc (l_max + 1) 1;
  r_ylm := fun _ _ l_max => matalloc ((l_max + 1) * (l_max + 1)) 1;
  R_atan2 := fun _ _ => 0
|}.

(** ** Vocabulary for leed_beam_gen *)

(** The order of the indices: first index, then second index. *)
Definition ind_le (x y : leed_beam) : Prop :=
  ind_1 x < ind_1 y \/ (ind_1 x = ind_1 y /\ ind_2 x <= ind_2 y).

(** The order of the list, for two beams of which [x] comes first: [k_par]
    does not decrease, and beams whose [k_par] are equal within
    K_TOLERANCE come in the order of their indices. *)
Definition beam_order (x y : leed_beam) : Prop :=
  k_par x <= k_par y /\
  (Rabs (k_par x - k_par y) < K_TOLERANCE -> ind_le x y).

(** The list of a result is sorted within each beam set. *)
Definition beam_list_sorted (r : beam_gen_result) : Prop :=
  forall i j, (i < j)%nat -> (j < g_count r)%nat ->
    set (g_beams r i) = set (g_beams r j) ->
    beam_order (g_beams r i) (g_beams r j).

(** Two arrays agree outside the slots [lo .. hi-1]; every beam of these
    slots of the first array is a beam of these slots of the second; the
    slots hold the same beams. *)
Definition seg_same (b' b : beam_array) (lo hi : nat) : Prop :=
  forall q, ~ (lo <= q < hi)%nat -> b' q = b q.
Definition seg_from (b' b : beam_array) (lo hi : nat) : Prop :=
  forall i, (lo <= i < hi)%nat -> exists i', (lo <= i' < hi)%nat /\ b' i = b i'.
Definition seg_perm (b' b : beam_array) (lo hi : nat) : Prop :=
  seg_from b' b lo hi /\ seg_from b b' lo hi.

(** The integers [lo .. hi]. *)
Definition z_range (lo hi : Z) : list Z :=
  map (fun k => (lo + Z.of_nat k)%Z) (seq 0 (walk_count lo hi)).

(** The pairs of beam indices in the order of the two loops. *)
Definition gen_candidates (n1_max n2_max : Z) : list (Z * Z) :=
  flat_map (fun n1 => map (pair n1) (z_range (- n2_max) n2_max))
           (z_range (- n1_max) n1_max).

(** The test of line 245 for a pair of indices. *)
Definition gen_inside (c_par : leed_crystal) (k_in : nat -> R) (k_max_2 : R)
           (off : leed_beam) (n : Z * Z) : bool :=
  let k_x := IZR (fst n) * a_1 c_par 1 + IZR (snd n) * a_1 c_par 3
             + k_in 1%nat + k_r off 1%nat in
  let k_y := IZR (fst n) * a_1 c_par 2 + IZR (snd n) * a_1 c_par 4
             + k_in 2%nat + k_r off 2%nat in
  Rleb (k_x * k_x + k_y * k_y) k_max_2.

(** The beam written for a pair of indices into a slot that held [b]. *)
Definition gen_new (c_par : leed_crystal) (off : leed_beam) (i_set : nat)
           (b : leed_beam) (n : Z * Z) : leed_beam :=
  beam_fill b off (fst n) (snd n) (a_1 c_par 1) (a_1 c_par 2) (a_1 c_par 3)
            (a_1 c_par 4) i_set (area c_par).

(** The quantities the function derives from its arguments. *)
Definition gen_n_set (c_par : leed_crystal) : nat := Z.to_nat (R_nint (rel_area_sup c_par)).
Definition gen_cap (c_par : leed_crystal) (v_par : leed_var) (eng_max : R) : nat :=
  Z.to_nat (gen_iaux c_par (gen_k_max_2 c_par v_par eng_max)).

(** The pairs of indices of the beams of the set [i_set], in the order
    they are found. *)
Definition gen_points (c_par : leed_crystal) (v_par : leed_var) (eng_max : R)
           (i_set : nat) : list (Z * Z) :=
  let k_max_2 := gen_k_max_2 c_par v_par eng_max in
  let k_in := gen_k_in v_par eng_max in
  let n_max := gen_n_max c_par (sqrt k_max_2) (k_in 0%nat) in
  filter (gen_inside c_par k_in k_max_2 (fst (gen_bm_off c_par (gen_n_set c_par)) i_set))
         (gen_candidates (fst n_max) (snd n_max)).

(** [k_par] of the beam of the set [i_set] with the indices [n]. *)
Definition gen_k_par (c_par : leed_crystal) (i_set : nat) (n : Z * Z) : R :=
  k_par (gen_new c_par (fst (gen_bm_off c_par (gen_n_set c_par)) i_set) i_set beam_zero n).

(** The number of beams of the sets before [i_set]: the offset of the set. *)
Fixpoint gen_start (c_par : leed_crystal) (v_par : leed_var) (eng_max : R)
         (i_set : nat) : nat :=
  match i_set with
  | O => O
  | S s => (gen_start c_par v_par eng_max s +
            List.length (gen_points c_par v_par eng_max s))%nat
  end.

(** The array before the beams are written. *)
Definition gen_initial (p_beams : option beam_array) : beam_array :=
  match p_beams with
  | None => fun _ => beam_zero
  | Some old => old
  end.

(** Within each set the values of [k_par] are equal or at least
    K_TOLERANCE apart, and the slot after the last beam of the set holds,
    when the set is sorted, a [k_par] at least K_TOLERANCE away from the
    largest of the set. *)
Definition gen_separated (p_beams : option beam_array) (c_par : leed_crystal)
           (v_par : leed_var) (eng_max : R) : Prop :=
  forall i_set, (i_set < gen_n_set c_par)%nat ->
    forall p, In p (gen_points c_par v_par eng_max i_set) ->
      ((forall q, In q (gen_points c_par v_par eng_max i_set) ->
          gen_k_par c_par i_set q <= gen_k_par c_par i_set p) ->
       K_TOLERANCE <=
         Rabs (k_par (gen_initial p_beams (gen_start c_par v_par eng_max (S i_set)))
               - gen_k_par c_par i_set p)) /\
      forall q, In q (gen_points c_par v_par eng_max i_set) ->
        gen_k_par c_par i_set p = gen_k_par c_par i_set q \/
        K_TOLERANCE <= Rabs (gen_k_par c_par i_set p - gen_k_par c_par i_set q).

(** ** Vocabulary for leed_ms_compl_sym *)

(** The element [k] of a vector. *)
Definition vel (V : mat_str) (k : nat) : cplx := (rel V k, iel V k).

(** The matrix of a single Bravais lattice in k space: the product of the
    [n] x [d] matrix [L] with the [d] x [n] matrix [R] (which holds the
    scattering matrix of the lattice), the element (k,l) multiplied with
    the factors [Lv k] and [Rv l] of the shift of the origin, and [dir k]
    added on the diagonal. *)
Definition bravais_matrix (d : nat) (L R Lv Rv : mat_str) (dir : nat -> cplx) : cmatrix :=
  fun k l =>
    Cadd (Cmul (vel Rv l) (Cmul (vel Lv k) (cm_mul d (mel L) (mel R) k l)))
         (if (k =? l)%nat then dir k else Czero).

(** The propagator of the unscattered wave. *)
Definition direct_wave (L_p R_p : mat_str) : nat -> cplx :=
  fun k => Cmul (vel L_p k) (vel R_p k).

(** An instance of the interface on which the model can be evaluated: the
    callees return their argument, the matrices of the expansion are zero. *)
Definition sample_externals : leed_externals := {|
  matinv := fun M => M;
  pc_mk_ms := fun l =>
    let O := matalloc ((l + 1) * (l + 1)) ((l + 1) * (l + 1)) in
    mk_pc_ms O O O O O O;
  leed_par_temp_tl := fun tl _ _ _ _ => tl
|}.

(** The store before any matrix is allocated. *)
Definition heap_empty : heap := mk_heap (fun _ => None) 0%nat.

(** The store with one matrix, at the handle 0. *)
Definition heap_one (M : mat_str) : heap := heap_store heap_empty 0%nat M.



(** An instance of the functions leed_ms_compl_sym calls: matrices of the
    expected dimensions, [ms_partinv] returning its argument. *)
Definition sample_compl_externals : compl_externals := {|
  matcheck := fun _ => 0%Z;
  leed_ms_lsum_ii := fun _ _ _ _ l _ => matalloc ((l + 1) * (l + 1)) 1;
  leed_ms_tmat_ii := fun _ _ l => matalloc ((l + 1) * (l + 1)) ((l + 1) * (l + 1));
  leed_ms_tmat_ij := fun _ _ l => matalloc ((l + 1) * (l + 1)) ((l + 1) * (l + 1));
  ms_partinv := fun M _ _ => M;
  leed_ms_ymat := fun l _ n => matalloc n ((l + 1) * (l + 1));
  leed_ms_yp_yxm := mattrans;
  leed_ms_yp_yxp := mattrans;
  leed_ms_yp_ym := fun M => M;
  leed_ms_comp_k_sum := fun M _ _ _ _ _ => M
|}.

(** A layer of one atom, and a list of one beam with its terminator. *)
Definition sample_layer : leed_layer :=
  mk_layer 0 BULK 1 (fun _ => atom_zero) sample_cell 1.
Definition sample_beams : list leed_beam :=
  [beam_zero; beam_set_k_par beam_zero (-1)].
(** ** Vocabulary for leed_beam_get_selection *)

(** The beams of a list before its terminator. *)
Fixpoint sel_before (F_END_OF_LIST : R) (beams : list leed_beam) : list leed_beam :=
  match beams with
  | [] => []
  | b :: rest =>
      if IS_EQUAL_REAL (k_par b) F_END_OF_LIST then []
      else b :: sel_before F_END_OF_LIST rest
  end.

(** The list holds a terminator. *)
Definition sel_terminated (F_END_OF_LIST : R) (beams : list leed_beam) : Prop :=
  exists b, In b beams /\ k_par b = F_END_OF_LIST.

(** The test of line 124: the parallel momentum of the beam, with that of
    the incident wave, lies inside the radius. *)
Definition sel_inside (v_par : leed_var) (k_max_2 : R) (b : leed_beam) : bool :=
  Rleb ((k_r b 1%nat + k_in v_par 1%nat) * (k_r b 1%nat + k_in v_par 1%nat) +
        (k_r b 2%nat + k_in v_par 2%nat) * (k_r b 2%nat + k_in v_par 2%nat))
       k_max_2.

(** The beams of the input list that are selected. *)
Definition sel_selected (F_END_OF_LIST : R) (v_par : leed_var) (eng_r dmin : R)
           (beams_in : list leed_beam) : list leed_beam :=
  filter (sel_inside v_par (sel_k_max_2 v_par eng_r dmin))
         (sel_before F_END_OF_LIST beams_in).

(** The array of a result as the list its readers walk through. *)
Definition sel_list (r : select_result) : list leed_beam :=
  map (fun q => b_beam (s_beams r q)) (seq 0 (s_cap r)).

(** A complex square root for the examples: the real root of the real part. *)
Definition sample_cri_sqrt (x_r x_i : R) : R * R := (sqrt x_r, 0).

(** Three beams and the terminator; the third lies far out. *)
Definition sample_beam_at (x y : R) : leed_beam :=
  mk_beam x y (x * x + y * y) (upd (upd (fun _ => 0) 1 x) 2 y) (fun _ => 0) 1 0 0
          (fun _ => 0) (fun _ => 0) (fun _ => 0) (fun _ => 0).
Definition sample_beams_in : list leed_beam :=
  [sample_beam_at 0 0; sample_beam_at 1 0; sample_beam_at 5 0;
   beam_set_k_par beam_zero (-1)].

(** ** Vocabulary for the interpolation of leed_par_mktl_nd *)

(** The row [k] of the table is the first whose energy is not below [eng],
    and it is not the first row. *)
Definition mktl_row (ph : leed_phase) (eng : R) (k : Z) : Prop :=
  (1 <= k < Z.of_nat (n_eng ph))%Z /\
  (forall j, (0 <= j < k)%Z -> energy ph j < eng) /\
  eng <= energy ph k.

(** The value at [eng] of the straight line through the tabulated points
    (energy, phase shift) of the rows [k - 1] and [k], for the angular
    momentum [l]. *)
Definition mktl_interpolated (ph : leed_phase) (k : Z) (l : nat) (eng : R) : R :=
  let w := Z.of_nat (lmax ph + 1) in
  let e1 := energy ph (k - 1) in
  let e2 := energy ph k in
  let d1 := pshift ph ((k - 1) * w + Z.of_nat l)%Z in
  let d2 := pshift ph (k * w + Z.of_nat l)%Z in
  d1 + (d2 - d1) / (e2 - e1) * (eng - e1).

(** A set with the energies 0, 1, 2, the phase shifts 0, 1, 2 for [l = 0]
    and the diagonal temperature treatment. *)
Definition sample_phase_three : leed_phase :=
  mk_phase 0 3 IZR IZR 0 2 T_DIAG (fun _ => 0).

(** ** Vocabulary for the checks and the preparation of leed_ms_compl_sym *)

(** [matcheck] accepts the four matrices the output pointers point to. *)
Definition compl_inputs_valid {cext : compl_externals} (p_Tpp p_Tmm p_Rpm p_Rmp : mat)
  : Prop :=
  (0 <= matcheck p_Tpp)%Z /\ (0 <= matcheck p_Tmm)%Z /\
  (0 <= matcheck p_Rpm)%Z /\ (0 <= matcheck p_Rmp)%Z.

(** A layer of two atoms of the types 0 and 1 at the heights 2 and 3. *)
Definition sample_layer_two : leed_layer :=
  mk_layer 0 BULK 2
    (fun i => mk_atom (Z.of_nat i) (fun c => if (c =? 3)%nat then 2 + INR i else 0))
    sample_cell 1.

(** An instance of [matcheck] that rejects [NULL]. *)
Definition sample_compl_strict : compl_externals := {|
  matcheck := fun M => match M with None => (-1)%Z | Some _ => 0%Z end;
  leed_ms_lsum_ii := fun _ _ _ _ l _ => matalloc ((l + 1) * (l + 1)) 1;
  leed_ms_tmat_ii := fun _ _ l => matalloc ((l + 1) * (l + 1)) ((l + 1) * (l + 1));
  leed_ms_tmat_ij := fun _ _ l => matalloc ((l + 1) * (l + 1)) ((l + 1) * (l + 1));
  ms_partinv := fun M _ _ => M;
  leed_ms_ymat := fun l _ n => matalloc n ((l + 1) * (l + 1));
  leed_ms_yp_yxm := mattrans;
  leed_ms_yp_yxp := mattrans;
  leed_ms_yp_ym := fun M => M;
  leed_ms_comp_k_sum := fun M _ _ _ _ _ => M
|}.

(** ** Vocabulary for the symmetries of leed_ms_lsum_ij *)

(** No displacement. *)
Definition sample_no_shift (i : nat) : R := 0.


(** ** An input of leed_par_cumulative_tl whose series converges slowly *)

(** A matrix [Mx] that does not commute with the T=0 matrix: zero but for
    the elements (1,2) and (2,1), which are [i/2]. *)
Definition slow_Mx : cmatrix :=
  fun i j =>
    if (((i =? 1) && (j =? 2)) || ((i =? 2) && (j =? 1)))%nat%bool
    then (0, / 2) else Czero.

(** An instance of the interface with this [Mx] and its square, and with
    vanishing [My] and [Mz]. *)
Definition slow_externals : leed_externals := {|
  matinv := fun M => M;
  pc_mk_ms := fun l =>
    let d := ((l + 1) * (l + 1))%nat in
    let M := mat_of_fun d d slow_Mx in
    let O := matalloc d d in
    mk_pc_ms M O O (matmul M M) O O;
  leed_par_temp_tl := fun tl _ _ _ _ => tl
|}.

(** The scattering factors [-1] for [l = 0] and [1] for [l = 1]. *)
Definition slow_tl : mat_str :=
  mk_mat 2 1 (fun p => if (p =? 1)%nat then -1 else 1) (fun _ => 0).

(** The displacement along x. *)
Definition slow_u : R := 297 / 10.

(** The diagonal matrix with the elements [a], [-a], [b], [b]. *)
Definition slow_diag (a b : R) : cmatrix :=
  fun i j =>
    if (i =? j)%nat then
      if (i =? 1)%nat then (a, 0) else if (i =? 2)%nat then (- a, 0) else (b, 0)
    else Czero.

(** The terms [u^(2n) / n!] and their partial sums. *)
Fixpoint slow_t (n : nat) : R :=
  match n with
  | O => 1
  | S k => slow_u * slow_u * slow_t k / INR (k + 1)
  end.

Fixpoint slow_S (n : nat) : R :=
  match n with
  | O => 1
  | S k => slow_S k + slow_t (S k)
  end.

(** The same numbers over the common denominator [n! * 100^n]: the
    numerators of the term and of the partial sum. *)
Definition slow_next (n : nat) (s : Z * Z) : Z * Z :=
  let A := (88209 * fst s)%Z in
  (A, (Z.of_nat (n + 1) * 100 * snd s + A)%Z).

Fixpoint slow_seq (n : nat) : Z * Z :=
  match n with
  | O => (1%Z, 1%Z)
  | S k => slow_next k (slow_seq k)
  end.

Fixpoint slow_den (n : nat) : Z :=
  match n with
  | O => 1%Z
  | S k => (Z.of_nat (k + 1) * 100 * slow_den k)%Z
  end.

(** The criterion on the numerators: [2 t / S <= 16 / 10^6]. *)
Definition slow_met (s : Z * Z) : bool := (1000000 * fst s <=? 8 * snd s)%Z.

(** [k] passes from the pass [n] on, none of which meets the criterion. *)
Fixpoint slow_run (k n : nat) (s : Z * Z) : option (Z * Z) :=
  match k with
  | O => Some s
  | S k' =>
      let s' := slow_next n s in
      if slow_met s' then None else slow_run k' (S n) s'
  end.

(** ** Vocabulary for the static variables of lpccumtl.c *)

(** The test of line 180: the matrices are built when no call has been
    counted or [last_l] is not [l_max_t]. *)
Definition cumul_rebuilds (st : cumul_static) (l_max_t : nat) : bool :=
  ((n_call st =? 0)%nat || negb (last_l st =? Z.of_nat l_max_t)%Z)%bool.

(** ** Vocabulary for the limits of layer doubling *)

(** The matrix of zeros. *)
Definition cm_zero : cmatrix := fun _ _ => Czero.

(** A 1 x 1 matrix with the element [(x, y)]. *)
Definition sample_scalar (x y : R) : mat_str := mk_mat 1 1 (fun _ => x) (fun _ => y).

(** A beam with the wave vector [(0, 0, 1 + i)]. *)
Definition sample_beam_damped : leed_beam :=
  mk_beam 0 0 0 (fun c => if (c =? 3)%nat then 1 else 0)
          (fun c => if (c =? 3)%nat then 1 else 0) 1 0 0
          (fun _ => 0) (fun _ => 0) (fun _ => 0) (fun _ => 0).

(** ** Vocabulary for the contents of the list of leed_beam_gen *)

(** The beam leed_beam_gen writes for the pair of indices [n] of the set
    [i_set] into a slot that held [old]. *)
Definition gen_beam_of (c_par : leed_crystal) (i_set : nat) (old : leed_beam)
           (n : Z * Z) : leed_beam :=
  gen_new c_par (fst (gen_bm_off c_par (gen_n_set c_par)) i_set) i_set old n.

(** A beam of the list: the beam of a set and of a pair of indices inside
    the radius. *)
Definition gen_listed (c_par : leed_crystal) (v_par : leed_var) (eng_max : R)
           (b : leed_beam) : Prop :=
  exists i_set n old,
    (i_set < gen_n_set c_par)%nat /\
    In n (gen_points c_par v_par eng_max i_set) /\
    b = gen_beam_of c_par i_set old n.

(** The array of a result as the list its readers walk through. *)
Definition gen_list (r : beam_gen_result) : list leed_beam :=
  map (g_beams r) (seq 0 (g_cap r)).

(** ** Vocabulary for the sorting of the atoms in leed_ms_compl_sym *)

(** The atom [x] lies in the plane at the height [z]. *)
Definition in_plane (z : R) (x : leed_atom) : Prop :=
  Rabs (pos x 3 - z) < GEO_TOLERANCE.

(** Two atoms have the same type and the same position. *)
Definition atom_same (x y : leed_atom) : Prop :=
  type x = type y /\ pos x 1 = pos y 1 /\ pos x 2 = pos y 2 /\ pos x 3 = pos y 3.

(** The number of the atoms [0 .. n-1] in the plane at the height [z]. *)
Definition plane_count (n : nat) (a : nat -> leed_atom) (z : R) : nat :=
  List.length
    (filter (fun j => Rltb (Rabs (pos (a j) 3 - z)) GEO_TOLERANCE) (seq 0 n)).

(** The slots [0 .. n-1] of [a'] hold the atoms of these slots of [a] in
    another order. *)
Definition atoms_permuted (n : nat) (a' a : nat -> leed_atom) : Prop :=
  exists f g : nat -> nat,
    (forall i, (i < n)%nat ->
       (f i < n)%nat /\ (g i < n)%nat /\ g (f i) = i /\ f (g i) = i) /\
    forall i, (i < n)%nat -> atom_same (a' i) (a (f i)).

(* ================================================================== *)
(** * Part III: lemmas and theorems                                    *)
(* ================================================================== *)

(** ** Complex arithmetic *)

Lemma cplx_eq (a b : cplx) : fst a = fst b -> snd a = snd b -> a = b.
Proof. destruct a, b; simpl; intros; subst; reflexivity. Qed.

Ltac cplx_ring :=
  apply cplx_eq; unfold Cadd, Csub, Cneg, Cmul, Cscal, Cof, Czero, Cone, Cimag;
  simpl; ring.

Lemma Cadd_comm a b : Cadd a b = Cadd b a.
Proof. cplx_ring. Qed.

Lemma Cadd_assoc a b c : Cadd a (Cadd b c) = Cadd (Cadd a b) c.
Proof. cplx_ring. Qed.

Lemma Cadd_0_l a : Cadd Czero a = a.
Proof. cplx_ring. Qed.

Lemma Cadd_0_r a : Cadd a Czero = a.
Proof. cplx_ring. Qed.

Lemma Cmul_comm a b : Cmul a b = Cmul b a.
Proof. cplx_ring. Qed.

Lemma Cmul_assoc a b c : Cmul a (Cmul b c) = Cmul (Cmul a b) c.
Proof. cplx_ring. Qed.

Lemma Cmul_0_l a : Cmul Czero a = Czero.
Proof. cplx_ring. Qed.

Lemma Cmul_0_r a : Cmul a Czero = Czero.
Proof. cplx_ring. Qed.

Lemma Cmul_1_l a : Cmul Cone a = a.
Proof. cplx_ring. Qed.

Lemma Cmul_1_r a : Cmul a Cone = a.
Proof. cplx_ring. Qed.

Lemma Cmul_add_distr_l a b c : Cmul a (Cadd b c) = Cadd (Cmul a b) (Cmul a c).
Proof. cplx_ring. Qed.

Lemma Cmul_add_distr_r a b c : Cmul (Cadd a b) c = Cadd (Cmul a c) (Cmul b c).
Proof. cplx_ring. Qed.

Lemma cri_mul_Cmul a b : cri_mul (fst a) (snd a) (fst b) (snd b) = Cmul a b.
Proof. reflexivity. Qed.

Lemma cri_expi_Cexp a_r a_i : cri_expi a_r a_i = Cexp (Cmul Cimag (a_r, a_i)).
Proof.
  unfold cri_expi, Cexp, Cmul, Cimag; simpl.
  replace (0 * a_r - 1 * a_i) with (- a_i) by ring.
  replace (0 * a_i + 1 * a_r) with a_r by ring.
  reflexivity.
Qed.

(** ** Finite sums *)

Lemma csum_ext n f g :
  (forall k, (1 <= k <= n)%nat -> f k = g k) -> csum n f = csum n g.
Proof.
  induction n as [|n IH]; intros H; simpl; [reflexivity|].
  rewrite IH by (intros; apply H; lia).
  rewrite H by lia. reflexivity.
Qed.

Lemma csum_zero n f :
  (forall k, (1 <= k <= n)%nat -> f k = Czero) -> csum n f = Czero.
Proof.
  induction n as [|n IH]; intros H; simpl; [reflexivity|].
  rewrite IH by (intros; apply H; lia).
  rewrite H by lia. apply Cadd_0_l.
Qed.

Lemma csum_add n f g :
  csum n (fun k => Cadd (f k) (g k)) = Cadd (csum n f) (csum n g).
Proof.
  induction n as [|n IH]; simpl; [cplx_ring|].
  rewrite IH. cplx_ring.
Qed.

Lemma csum_mul_l n a f :
  csum n (fun k => Cmul a (f k)) = Cmul a (csum n f).
Proof.
  induction n as [|n IH]; simpl; [cplx_ring|].
  rewrite IH. cplx_ring.
Qed.

Lemma csum_mul_r n a f :
  csum n (fun k => Cmul (f k) a) = Cmul (csum n f) a.
Proof.
  induction n as [|n IH]; simpl; [cplx_ring|].
  rewrite IH. cplx_ring.
Qed.

Lemma csum_swap n m (f : nat -> nat -> cplx) :
  csum n (fun i => csum m (fun j => f i j)) =
  csum m (fun j => csum n (fun i => f i j)).
Proof.
  induction n as [|n IH]; simpl.
  - symmetry. apply csum_zero. reflexivity.
  - rewrite IH. rewrite <- csum_add. reflexivity.
Qed.

(** A sum with one term that may differ from zero. *)
Lemma csum_single n j f :
  (1 <= j <= n)%nat ->
  (forall k, (1 <= k <= n)%nat -> k <> j -> f k = Czero) ->
  csum n f = f j.
Proof.
  induction n as [|n IH]; intros Hj H; [lia|]. simpl.
  destruct (Nat.eq_dec j (S n)) as [->|Hne].
  - rewrite csum_zero by (intros; apply H; lia). apply Cadd_0_l.
  - rewrite IH by (try lia; intros; apply H; lia).
    rewrite (H (S n)) by lia. apply Cadd_0_r.
Qed.

(** ** Matrices: elements of the library's results *)

Lemma index_div (c i j : nat) :
  (1 <= i)%nat -> (1 <= j <= c)%nat ->
  (((i - 1) * c + j - 1) / c + 1 = i)%nat.
Proof.
  intros Hi Hj. remember ((i - 1) * c)%nat as x.
  replace (x + j - 1)%nat with ((j - 1) + (i - 1) * c)%nat by lia.
  rewrite Nat.div_add by lia.
  rewrite Nat.div_small by lia. lia.
Qed.

Lemma index_mod (c i j : nat) :
  (1 <= i)%nat -> (1 <= j <= c)%nat ->
  (((i - 1) * c + j - 1) mod c + 1 = j)%nat.
Proof.
  intros Hi Hj. remember ((i - 1) * c)%nat as x.
  replace (x + j - 1)%nat with ((j - 1) + (i - 1) * c)%nat by lia.
  rewrite Nat.Div0.mod_add.
  rewrite Nat.mod_small by lia. lia.
Qed.

Lemma mel_mat_of_fun r c f i j :
  (1 <= i)%nat -> (1 <= j <= c)%nat -> mel (mat_of_fun r c f) i j = f i j.
Proof.
  intros Hi Hj. unfold mel, RMATEL, IMATEL, mat_of_fun; simpl.
  rewrite index_div, index_mod by assumption.
  destruct (f i j); reflexivity.
Qed.

Lemma has_dim_mat_of_fun r c f : has_dim r c (mat_of_fun r c f).
Proof. split; reflexivity. Qed.

Lemma mel_matmul A B i j :
  (1 <= i)%nat -> (1 <= j <= cols B)%nat ->
  mel (matmul A B) i j = cm_mul (cols A) (mel A) (mel B) i j.
Proof. intros. unfold matmul. rewrite mel_mat_of_fun by assumption. reflexivity. Qed.

Lemma has_dim_matmul A B : has_dim (rows A) (cols B) (matmul A B).
Proof. split; reflexivity. Qed.

(** ** Matrix algebra on [cmatrix] *)

Lemma cm_eq_refl r c A : cm_eq r c A A.
Proof. intros i j _ _. reflexivity. Qed.

Lemma cm_eq_sym r c A B : cm_eq r c A B -> cm_eq r c B A.
Proof. intros H i j Hi Hj. symmetry. apply H; assumption. Qed.

Lemma cm_eq_trans r c A B C : cm_eq r c A B -> cm_eq r c B C -> cm_eq r c A C.
Proof. intros H1 H2 i j Hi Hj. rewrite H1, H2 by assumption. reflexivity. Qed.

Lemma cm_mul_compat r n c A A' B B' :
  cm_eq r n A A' -> cm_eq n c B B' -> cm_eq r c (cm_mul n A B) (cm_mul n A' B').
Proof.
  intros HA HB i j Hi Hj. unfold cm_mul.
  apply csum_ext. intros k Hk. rewrite HA, HB by assumption. reflexivity.
Qed.

Lemma cm_add_compat r c A A' B B' :
  cm_eq r c A A' -> cm_eq r c B B' -> cm_eq r c (cm_add A B) (cm_add A' B').
Proof.
  intros HA HB i j Hi Hj. unfold cm_add. rewrite HA, HB by assumption. reflexivity.
Qed.

Lemma cm_sub_compat r c A A' B B' :
  cm_eq r c A A' -> cm_eq r c B B' -> cm_eq r c (cm_sub A B) (cm_sub A' B').
Proof.
  intros HA HB i j Hi Hj. unfold cm_sub. rewrite HA, HB by assumption. reflexivity.
Qed.

Lemma cm_mul_assoc n m A B C i j :
  cm_mul m (cm_mul n A B) C i j = cm_mul n A (cm_mul m B C) i j.
Proof.
  unfold cm_mul.
  transitivity (csum m (fun k => csum n (fun l => Cmul (Cmul (A i l) (B l k)) (C k j)))).
  { apply csum_ext. intros k _. symmetry. apply csum_mul_r. }
  rewrite csum_swap. apply csum_ext. intros l _.
  rewrite <- csum_mul_l. apply csum_ext. intros k _.
  symmetry. apply Cmul_assoc.
Qed.

(** Multiplication with a diagonal matrix from the right scales columns. *)
Lemma cm_mul_diag_r n A d i j :
  (1 <= j <= n)%nat -> cm_mul n A (cm_diag d) i j = Cmul (A i j) (d j).
Proof.
  intros Hj. unfold cm_mul, cm_diag.
  rewrite (csum_single n j).
  - rewrite Nat.eqb_refl. reflexivity.
  - assumption.
  - intros k _ Hk. apply Nat.eqb_neq in Hk. rewrite Hk. apply Cmul_0_r.
Qed.

Lemma cm_mul_id_l n A i j :
  (1 <= i <= n)%nat -> cm_mul n cm_id A i j = A i j.
Proof.
  intros Hi. unfold cm_mul, cm_id.
  rewrite (csum_single n i).
  - rewrite Nat.eqb_refl. apply Cmul_1_l.
  - assumption.
  - intros k _ Hk. apply Nat.eqb_neq in Hk. rewrite Nat.eqb_sym, Hk. apply Cmul_0_l.
Qed.

Lemma cm_mul_id_r n A i j :
  (1 <= j <= n)%nat -> cm_mul n A cm_id i j = A i j.
Proof.
  intros Hj. unfold cm_mul, cm_id.
  rewrite (csum_single n j).
  - rewrite Nat.eqb_refl. apply Cmul_1_r.
  - assumption.
  - intros k _ Hk. apply Nat.eqb_neq in Hk. rewrite Hk. apply Cmul_0_r.
Qed.

(** ** Loops *)

Lemma for_up_ext {St : Type} count lo (f g : nat -> St -> St) s :
  (forall i s, (lo <= i < lo + count)%nat -> f i s = g i s) ->
  for_up count lo f s = for_up count lo g s.
Proof.
  revert lo s. induction count as [|c IH]; intros lo s H; simpl; [reflexivity|].
  rewrite H by lia. apply IH. intros; apply H; lia.
Qed.

Lemma for_up_shift {St : Type} count lo (f : nat -> St -> St) s :
  for_up count (S lo) f s = for_up count lo (fun t => f (S t)) s.
Proof.
  revert lo s. induction count as [|c IH]; intros lo s; simpl; [reflexivity|].
  apply IH.
Qed.

(** Invariants of a counting loop. *)
Lemma for_up_ind {St : Type} (P : nat -> St -> Prop) count lo body s :
  P lo s ->
  (forall i s, (lo <= i < lo + count)%nat -> P i s -> P (S i) (body i s)) ->
  P (lo + count)%nat (for_up count lo body s).
Proof.
  revert lo s. induction count as [|c IH]; intros lo s H0 Hstep; simpl.
  - rewrite Nat.add_0_r. assumption.
  - replace (lo + S c)%nat with (S lo + c)%nat by lia.
    apply IH.
    + apply Hstep; [lia|assumption].
    + intros; apply Hstep; [lia|assumption].
Qed.

(** A strided walk that makes [m] steps is a counting loop of [m] rounds. *)
Lemma for_stride_for_up {St : Type} m fuel p stop stride (body : nat -> St -> St) s :
  (m <= fuel)%nat ->
  (forall t, (t < m)%nat -> (p + t * stride <= stop)%nat) ->
  (stop < p + m * stride)%nat ->
  for_stride fuel p stop stride body s =
  for_up m 0 (fun t => body (p + t * stride)%nat) s.
Proof.
  revert fuel p s. induction m as [|m IH]; intros fuel p s Hf Hin Hout.
  - simpl. destruct fuel as [|f]; simpl; [reflexivity|].
    destruct (Nat.leb_spec p stop); [lia|reflexivity].
  - destruct fuel as [|f]; [lia|]. simpl.
    pose proof (Hin 0%nat ltac:(lia)) as H0. simpl in H0.
    destruct (Nat.leb_spec p stop); [|lia].
    rewrite (IH f (p + stride)%nat).
    + rewrite for_up_shift. rewrite Nat.add_0_r.
      apply for_up_ext. intros i s' _. f_equal. simpl. lia.
    + lia.
    + intros t Ht. specialize (Hin (S t) ltac:(lia)). simpl in Hin. lia.
    + simpl in Hout. lia.
Qed.

(** ** Elements after an array update *)

Lemma index_inj (c i j i' j' : nat) :
  (1 <= i)%nat -> (1 <= i')%nat -> (1 <= j <= c)%nat -> (1 <= j' <= c)%nat ->
  ((i - 1) * c + j = (i' - 1) * c + j')%nat -> i = i' /\ j = j'.
Proof.
  intros Hi Hi' Hj Hj' H.
  pose proof (index_div c i j Hi Hj) as D1.
  pose proof (index_div c i' j' Hi' Hj') as D2.
  pose proof (index_mod c i j Hi Hj) as M1.
  pose proof (index_mod c i' j' Hi' Hj') as M2.
  rewrite H in D1, M1. lia.
Qed.

Lemma mel_set_el M p v i j :
  mel (set_el M p v) i j =
  if ((i - 1) * cols M + j =? p)%nat then v else mel M i j.
Proof.
  unfold mel, RMATEL, IMATEL, set_el, upd; simpl.
  destruct (_ =? p)%nat; [destruct v|]; reflexivity.
Qed.

Lemma mel_set_rel M p v i j :
  mel (set_rel M p v) i j =
  if ((i - 1) * cols M + j =? p)%nat then (v, IMATEL i j M) else mel M i j.
Proof.
  unfold mel, RMATEL, IMATEL, set_rel, upd; simpl.
  destruct (_ =? p)%nat; reflexivity.
Qed.

Lemma mel_set_iel M p v i j :
  mel (set_iel M p v) i j =
  if ((i - 1) * cols M + j =? p)%nat then (RMATEL i j M, v) else mel M i j.
Proof.
  unfold mel, RMATEL, IMATEL, set_iel, upd; simpl.
  destruct (_ =? p)%nat; reflexivity.
Qed.

(** ** Layer doubling: the loops *)

Section LD2LAYRPM_LOOPS.
Context {ext : leed_externals}.

Lemma ld_scale_col_spec n k c_r c_i M :
  (1 <= k <= n)%nat -> cols M = n ->
  rows (ld_scale_col n (n * n) k c_r c_i M) = rows M /\
  cols (ld_scale_col n (n * n) k c_r c_i M) = n /\
  forall i j, (1 <= i <= n)%nat -> (1 <= j <= n)%nat ->
    mel (ld_scale_col n (n * n) k c_r c_i M) i j =
    if (j =? k)%nat then Cmul (mel M i j) (c_r, c_i) else mel M i j.
Proof.
  intros Hk Hc. unfold ld_scale_col.
  rewrite (for_stride_for_up n) by nia.
  pose (P := fun (t : nat) (M' : mat_str) =>
     rows M' = rows M /\ cols M' = n /\
     forall i j, (1 <= i <= n)%nat -> (1 <= j <= n)%nat ->
       mel M' i j =
       if ((j =? k) && (i <=? t))%nat then Cmul (mel M i j) (c_r, c_i) else mel M i j).
  assert (H : P (0 + n)%nat
     (for_up n 0 (fun t M0 => set_el M0 (k + t * n)
         (cri_mul (rel M0 (k + t * n)%nat) (iel M0 (k + t * n)%nat) c_r c_i)) M)).
  { apply for_up_ind.
    - repeat split; try assumption. intros i j Hi Hj.
      destruct (Nat.leb_spec i 0); [lia|]. rewrite andb_false_r. reflexivity.
    - intros t M' Ht (Hr & Hc' & Hel). repeat split; try assumption.
      intros i j Hi Hj. rewrite mel_set_el, Hc'.
      destruct (Nat.eqb_spec ((i - 1) * n + j) (k + t * n)) as [E|E].
      + assert (E' : ((i - 1) * n + j = (S t - 1) * n + k)%nat) by (simpl; lia).
        apply index_inj in E'; try lia. destruct E' as [-> ->].
        rewrite Nat.eqb_refl, Nat.leb_refl. simpl andb. cbv iota.
        specialize (Hel (S t) k ltac:(lia) ltac:(lia)).
        rewrite Nat.eqb_refl in Hel.
        destruct (Nat.leb_spec (S t) t) as [|_]; [lia|]. simpl andb in Hel.
        cbv iota in Hel. rewrite <- Hel.
        replace (k + t * n)%nat with ((S t - 1) * cols M' + k)%nat
          by (rewrite Hc'; simpl; lia).
        reflexivity.
      + rewrite Hel by assumption.
        destruct (Nat.eqb_spec j k) as [->|Hjk]; simpl andb; [|reflexivity].
        destruct (Nat.leb_spec i t), (Nat.leb_spec i (S t)); try lia; try reflexivity.
        exfalso. apply E. assert (i = S t) by lia. subst i. simpl. lia. }
  destruct H as (Hr & Hc' & Hel). repeat split; try assumption.
  intros i j Hi Hj. rewrite Hel by assumption.
  destruct (Nat.leb_spec i (0 + n)); [|lia]. rewrite andb_true_r. reflexivity.
Qed.

(** Scaling the columns [1..n] one after the other. *)
Lemma ld_scale_cols_loop n (c_r c_i : nat -> R) M :
  cols M = n ->
  let M' := for_up n 1 (fun k M0 => ld_scale_col n (n * n) k (c_r k) (c_i k) M0) M in
  rows M' = rows M /\ cols M' = n /\
  forall i j, (1 <= i <= n)%nat -> (1 <= j <= n)%nat ->
    mel M' i j = Cmul (mel M i j) (c_r j, c_i j).
Proof.
  intros Hc M'. subst M'.
  pose (P := fun (k : nat) (M' : mat_str) =>
     rows M' = rows M /\ cols M' = n /\
     forall i j, (1 <= i <= n)%nat -> (1 <= j <= n)%nat ->
       mel M' i j = if (j <? k)%nat then Cmul (mel M i j) (c_r j, c_i j) else mel M i j).
  assert (H : P (1 + n)%nat
    (for_up n 1 (fun k M0 => ld_scale_col n (n * n) k (c_r k) (c_i k) M0) M)).
  { apply for_up_ind.
    - repeat split; try assumption. intros i j Hi Hj.
      destruct (Nat.ltb_spec j 1); [lia|reflexivity].
    - intros k M' Hk (Hr & Hc' & Hel).
      destruct (ld_scale_col_spec n k (c_r k) (c_i k) M' ltac:(lia) Hc') as (Sr & Sc & Sel).
      repeat split; [congruence|assumption|].
      intros i j Hi Hj. rewrite Sel, Hel by assumption.
      destruct (Nat.eqb_spec j k) as [->|Hjk].
      + destruct (Nat.ltb_spec k k); [lia|].
        destruct (Nat.ltb_spec k (S k)); [reflexivity|lia].
      + destruct (Nat.ltb_spec j k), (Nat.ltb_spec j (S k)); try lia; reflexivity. }
  destruct H as (Hr & Hc' & Hel). repeat split; try assumption.
  intros i j Hi Hj. rewrite Hel by assumption.
  destruct (Nat.ltb_spec j (1 + n)); [reflexivity|lia].
Qed.

(** A loop on a pair whose body treats the two components apart. *)
Lemma for_up_pair {A B : Type} count lo (f : nat -> A -> A) (g : nat -> B -> B) a b :
  for_up count lo (fun k (p : A * B) => let (x, y) := p in (f k x, g k y)) (a, b) =
  (for_up count lo f a, for_up count lo g b).
Proof.
  revert lo a b. induction count as [|c IH]; intros lo a b; simpl; [reflexivity|].
  apply IH.
Qed.

Lemma ld_prepare_spec n Pp Pm A B :
  cols A = n -> cols B = n ->
  let R := ld_prepare n (n * n) Pp Pm A B in
  rows (fst R) = rows A /\ cols (fst R) = n /\
  rows (snd R) = rows B /\ cols (snd R) = n /\
  forall i j, (1 <= i <= n)%nat -> (1 <= j <= n)%nat ->
    mel (fst R) i j = Cmul (mel A i j) (rel Pm j, iel Pm j) /\
    mel (snd R) i j = Cmul (mel B i j) (- rel Pp j, - iel Pp j).
Proof.
  intros HA HB R. subst R. unfold ld_prepare, for_range.
  replace (n + 1 - 1)%nat with n by lia.
  rewrite (for_up_pair n 1
     (fun k M => ld_scale_col n (n * n) k (rel Pm k) (iel Pm k) M)
     (fun k M => ld_scale_col n (n * n) k (- rel Pp k) (- iel Pp k) M)).
  simpl fst; simpl snd.
  destruct (ld_scale_cols_loop n (rel Pm) (iel Pm) A HA) as (Ar & Ac & Ael).
  destruct (ld_scale_cols_loop n (fun k => - rel Pp k) (fun k => - iel Pp k) B HB)
    as (Br & Bc & Bel).
  repeat split; try assumption.
  - apply Ael; assumption.
  - apply Bel; assumption.
Qed.

Lemma ld_scale_cols_spec n Pp M :
  cols M = n ->
  rows (ld_scale_cols n (n * n) Pp M) = rows M /\
  cols (ld_scale_cols n (n * n) Pp M) = n /\
  forall i j, (1 <= i <= n)%nat -> (1 <= j <= n)%nat ->
    mel (ld_scale_cols n (n * n) Pp M) i j = Cmul (mel M i j) (rel Pp j, iel Pp j).
Proof.
  intros HM. unfold ld_scale_cols, for_range.
  replace (n + 1 - 1)%nat with n by lia.
  apply (ld_scale_cols_loop n (rel Pp) (iel Pp) M HM).
Qed.

Lemma ld_add_unity_spec n M :
  cols M = n ->
  rows (ld_add_unity (n * n) M) = rows M /\
  cols (ld_add_unity (n * n) M) = n /\
  forall i j, (1 <= i <= n)%nat -> (1 <= j <= n)%nat ->
    mel (ld_add_unity (n * n) M) i j = Cadd (cm_id i j) (mel M i j).
Proof.
  intros Hc. unfold ld_add_unity. rewrite Hc.
  rewrite (for_stride_for_up n) by nia.
  pose (P := fun (t : nat) (M' : mat_str) =>
     rows M' = rows M /\ cols M' = n /\
     forall i j, (1 <= i <= n)%nat -> (1 <= j <= n)%nat ->
       mel M' i j =
       if ((i =? j) && (i <=? t))%nat then Cadd Cone (mel M i j) else mel M i j).
  assert (H : P (0 + n)%nat
     (for_up n 0 (fun t M0 => set_rel M0 (1 + t * (n + 1))
                                (rel M0 (1 + t * (n + 1))%nat + 1)) M)).
  { apply for_up_ind.
    - repeat split; try assumption. intros i j Hi Hj.
      destruct (Nat.leb_spec i 0); [lia|]. rewrite andb_false_r. reflexivity.
    - intros t M' Ht (Hr & Hc' & Hel). repeat split; try assumption.
      intros i j Hi Hj. rewrite mel_set_rel, Hc'.
      destruct (Nat.eqb_spec ((i - 1) * n + j) (1 + t * (n + 1))) as [E|E].
      + assert (E' : ((i - 1) * n + j = (S t - 1) * n + S t)%nat) by (simpl; lia).
        apply index_inj in E'; try lia. destruct E' as [-> ->].
        rewrite Nat.eqb_refl, Nat.leb_refl. simpl andb. cbv iota.
        specialize (Hel (S t) (S t) ltac:(lia) ltac:(lia)).
        rewrite Nat.eqb_refl in Hel.
        destruct (Nat.leb_spec (S t) t) as [|_]; [lia|]. simpl andb in Hel.
        cbv iota in Hel. rewrite <- Hel.
        replace (1 + t * (n + 1))%nat with ((S t - 1) * cols M' + S t)%nat
          by (rewrite Hc'; simpl; lia).
        unfold mel, RMATEL, IMATEL, Cadd, Cone. simpl. f_equal; ring.
      + rewrite Hel by assumption.
        destruct (Nat.eqb_spec i j) as [->|Hij]; simpl andb; [|reflexivity].
        destruct (Nat.leb_spec j t), (Nat.leb_spec j (S t)); try lia; try reflexivity.
        exfalso. apply E. assert (j = S t) by lia. subst j. simpl. lia. }
  destruct H as (Hr & Hc' & Hel). repeat split; try assumption.
  intros i j Hi Hj. rewrite Hel by assumption. unfold cm_id.
  destruct (Nat.leb_spec i (0 + n)); [|lia]. rewrite andb_true_r.
  destruct (i =? j)%nat; [reflexivity|]. symmetry. apply Cadd_0_l.
Qed.

(** A loop over the array indices [1..nn] that rewrites the real part at
    each from its former value. *)
Lemma flat_loop_rel nn (g : nat -> R -> R) M :
  let M' := for_range 1 nn (fun p M0 => set_rel M0 p (g p (rel M0 p))) M in
  rows M' = rows M /\ cols M' = cols M /\ iel M' = iel M /\
  forall p, rel M' p = if ((1 <=? p) && (p <=? nn))%nat then g p (rel M p) else rel M p.
Proof.
  intros M'. subst M'. unfold for_range. replace (nn + 1 - 1)%nat with nn by lia.
  pose (P := fun (t : nat) (M' : mat_str) =>
     rows M' = rows M /\ cols M' = cols M /\ iel M' = iel M /\
     forall p, rel M' p = if ((1 <=? p) && (p <? t))%nat then g p (rel M p) else rel M p).
  assert (H : P (1 + nn)%nat
     (for_up nn 1 (fun p M0 => set_rel M0 p (g p (rel M0 p))) M)).
  { apply for_up_ind.
    - repeat split. intros p.
      destruct (Nat.leb_spec 1 p), (Nat.ltb_spec p 1); try lia; reflexivity.
    - intros t M' Ht (Hr & Hc & Hi & Hel). repeat split; try assumption.
      intros p. unfold set_rel, set_iel. cbn [rel iel]. unfold upd.
      destruct (Nat.eqb_spec p t) as [->|E].
      + rewrite Hel.
        destruct (Nat.leb_spec 1 t), (Nat.ltb_spec t t), (Nat.ltb_spec t (S t));
          try lia; reflexivity.
      + rewrite Hel.
        destruct (Nat.leb_spec 1 p), (Nat.ltb_spec p t), (Nat.ltb_spec p (S t));
          try lia; reflexivity. }
  destruct H as (Hr & Hc & Hi & Hel). repeat split; assumption.
Qed.

Lemma flat_loop_iel nn (g : nat -> R -> R) M :
  let M' := for_range 1 nn (fun p M0 => set_iel M0 p (g p (iel M0 p))) M in
  rows M' = rows M /\ cols M' = cols M /\ rel M' = rel M /\
  forall p, iel M' p = if ((1 <=? p) && (p <=? nn))%nat then g p (iel M p) else iel M p.
Proof.
  intros M'. subst M'. unfold for_range. replace (nn + 1 - 1)%nat with nn by lia.
  pose (P := fun (t : nat) (M' : mat_str) =>
     rows M' = rows M /\ cols M' = cols M /\ rel M' = rel M /\
     forall p, iel M' p = if ((1 <=? p) && (p <? t))%nat then g p (iel M p) else iel M p).
  assert (H : P (1 + nn)%nat
     (for_up nn 1 (fun p M0 => set_iel M0 p (g p (iel M0 p))) M)).
  { apply for_up_ind.
    - repeat split. intros p.
      destruct (Nat.leb_spec 1 p), (Nat.ltb_spec p 1); try lia; reflexivity.
    - intros t M' Ht (Hr & Hc & Hi & Hel). repeat split; try assumption.
      intros p. unfold set_rel, set_iel. cbn [rel iel]. unfold upd.
      destruct (Nat.eqb_spec p t) as [->|E].
      + rewrite Hel.
        destruct (Nat.leb_spec 1 t), (Nat.ltb_spec t t), (Nat.ltb_spec t (S t));
          try lia; reflexivity.
      + rewrite Hel.
        destruct (Nat.leb_spec 1 p), (Nat.ltb_spec p t), (Nat.ltb_spec p (S t));
          try lia; reflexivity. }
  destruct H as (Hr & Hc & Hi & Hel). repeat split; assumption.
Qed.

(** An element in rows and columns [1..n] sits at an index in [1..n*n]. *)
Lemma index_range n i j :
  (1 <= i <= n)%nat -> (1 <= j <= n)%nat ->
  (1 <= (i - 1) * n + j <= n * n)%nat.
Proof.
  intros Hi Hj. assert ((i - 1) * n + n <= n * n)%nat by nia.
  remember ((i - 1) * n)%nat as x. lia.
Qed.

Lemma ld_add_Rpm_b_spec n Res Rpm_b :
  cols Res = n -> cols Rpm_b = n ->
  rows (ld_add_Rpm_b (n * n) Res Rpm_b) = rows Res /\
  cols (ld_add_Rpm_b (n * n) Res Rpm_b) = n /\
  forall i j, (1 <= i <= n)%nat -> (1 <= j <= n)%nat ->
    mel (ld_add_Rpm_b (n * n) Res Rpm_b) i j = Cadd (mel Rpm_b i j) (mel Res i j).
Proof.
  intros HR HB. unfold ld_add_Rpm_b.
  destruct (flat_loop_rel (n * n) (fun p x => x + rel Rpm_b p) Res)
    as (R1 & C1 & I1 & E1).
  set (Res1 := for_range 1 (n * n) (fun p M => set_rel M p (rel M p + rel Rpm_b p)) Res) in *.
  destruct (flat_loop_iel (n * n) (fun p x => x + iel Rpm_b p) Res1)
    as (R2 & C2 & I2 & E2).
  set (Res2 := for_range 1 (n * n) (fun p M => set_iel M p (iel M p + iel Rpm_b p)) Res1) in *.
  repeat split; try congruence.
  intros i j Hi Hj. pose proof (index_range n i j Hi Hj) as Hp.
  unfold mel, RMATEL, IMATEL, Cadd; simpl.
  rewrite I2, E2, E1, I1, C2, C1, HR, HB.
  destruct (Nat.leb_spec 1 ((i - 1) * n + j)), (Nat.leb_spec ((i - 1) * n + j) (n * n));
    try lia.
  simpl. f_equal; ring.
Qed.

Lemma ld_propagators_spec n beams v :
  let P := ld_propagators n beams v in
  forall k, (1 <= k <= n)%nat ->
    (rel (fst P) k, iel (fst P) k) = ld_Pplus beams v k k /\
    (rel (snd P) k, iel (snd P) k) = ld_Pminus beams v k k.
Proof.
  intros P. subst P. unfold ld_propagators.
  pose (Q := fun (t : nat) (P : mat_str * mat_str) =>
     forall k, (1 <= k <= t)%nat ->
       (rel (fst P) k, iel (fst P) k) = ld_Pplus beams v k k /\
       (rel (snd P) k, iel (snd P) k) = ld_Pminus beams v k k).
  apply (for_up_ind Q n 0).
  - intros k Hk. lia.
  - intros t [Pp Pm] Ht HQ k Hk. simpl.
    unfold upd. destruct (Nat.eqb_spec k (t + 1)) as [->|E].
    + unfold ld_Pplus, ld_Pminus, cm_diag. rewrite Nat.eqb_refl.
      replace (t + 1 - 1)%nat with t by lia.
      unfold Cexp, Cmul, Cimag, ld_phase. cbn [fst snd].
      split; (f_equal; f_equal; f_equal; ring).
    + apply (HQ k). lia.
Qed.

End LD2LAYRPM_LOOPS.

(** ** Layer doubling: the result (claim C1) *)

#[export] Instance cm_eq_equiv r c : Equivalence (cm_eq r c).
Proof.
  split.
  - intros A. apply cm_eq_refl.
  - intros A B. apply cm_eq_sym.
  - intros A B C. apply cm_eq_trans.
Qed.

#[export] Instance cm_mul_proper n :
  Proper (cm_eq n n ==> cm_eq n n ==> cm_eq n n) (cm_mul n).
Proof. intros A A' HA B B' HB. apply cm_mul_compat; assumption. Qed.

#[export] Instance cm_add_proper n :
  Proper (cm_eq n n ==> cm_eq n n ==> cm_eq n n) cm_add.
Proof. intros A A' HA B B' HB. apply cm_add_compat; assumption. Qed.

#[export] Instance cm_sub_proper n :
  Proper (cm_eq n n ==> cm_eq n n ==> cm_eq n n) cm_sub.
Proof. intros A A' HA B B' HB. apply cm_sub_compat; assumption. Qed.

Lemma csum_neg n f : csum n (fun k => Cneg (f k)) = Cneg (csum n f).
Proof.
  induction n as [|n IH]; simpl; [cplx_ring|]. rewrite IH. cplx_ring.
Qed.

Lemma cm_mul_neg_l n A B i j :
  cm_mul n (cm_neg A) B i j = Cneg (cm_mul n A B i j).
Proof.
  unfold cm_mul, cm_neg. rewrite <- csum_neg. apply csum_ext.
  intros k _. cplx_ring.
Qed.

Lemma cm_mul_assoc_eq n A B C :
  cm_eq n n (cm_mul n (cm_mul n A B) C) (cm_mul n A (cm_mul n B C)).
Proof. intros i j _ _. apply cm_mul_assoc. Qed.

Section LD2LAYRPM_RESULT.
Context {ext : leed_externals}.
Variable n : nat.
Variables Rpm_a Tpp_b Tmm_b Rpm_b Rmp_b : mat_str.
Variable beams : list leed_beam.
Variable vec_ab : nat -> R.
Hypothesis matinv_ok : matinv_regular ext n.
Hypothesis dim_Rpm_a : has_dim n n Rpm_a.
Hypothesis dim_Tpp_b : has_dim n n Tpp_b.
Hypothesis dim_Tmm_b : has_dim n n Tmm_b.
Hypothesis dim_Rpm_b : has_dim n n Rpm_b.
Hypothesis dim_Rmp_b : has_dim n n Rmp_b.

Let Pplus := ld_Pplus beams vec_ab.
Let Pminus := ld_Pminus beams vec_ab.

Lemma ld_diag_entry (d : nat -> cplx) A j :
  (1 <= j <= n)%nat -> forall i, Cmul (A i j) (cm_diag d j j) = cm_mul n A (cm_diag d) i j.
Proof.
  intros Hj i. rewrite cm_mul_diag_r by assumption.
  unfold cm_diag. rewrite Nat.eqb_refl. reflexivity.
Qed.

(** C1: for layer matrices of dimension n and n beams, leed_ld_2lay_rpm
    returns a matrix of dimension n whose elements are those of
    [R_b^{+-} + T_b^{++} P^+ R_a^{+-} P^- (I - R_b^{-+} P^+ R_a^{+-} P^-)^{-1} T_b^{--}],
    with [P^+] and [P^-] the diagonal matrices of the entries
    [exp(i(k_x v_x + k_y v_y + k_z v_z))] and [exp(i(- k_x v_x - k_y v_y + k_z v_z))]
    of the beams, and the inverse the one matinv computes. *)
Theorem leed_ld_2lay_rpm_elements :
  has_dim n n (leed_ld_2lay_rpm Rpm_a Tpp_b Tmm_b Rpm_b Rmp_b beams vec_ab) /\
  cm_eq n n
    (mel (leed_ld_2lay_rpm Rpm_a Tpp_b Tmm_b Rpm_b Rmp_b beams vec_ab))
    (ld_formula n (mel Rpm_a) (mel Tpp_b) (mel Tmm_b) (mel Rpm_b) (mel Rmp_b)
                Pplus Pminus).
Proof.
  destruct dim_Rpm_a as [rRa cRa], dim_Tpp_b as [rTp cTp], dim_Tmm_b as [rTm cTm],
           dim_Rpm_b as [rRb cRb], dim_Rmp_b as [rRm cRm].
  destruct matinv_ok as [inv_dim inv_ext].
  unfold leed_ld_2lay_rpm. rewrite cRa. unfold matcopy.
  pose proof (ld_propagators_spec n beams vec_ab) as HP.
  destruct (ld_propagators n beams vec_ab) as [Pp Pm]. cbn [fst snd] in HP.
  pose proof (ld_prepare_spec n Pp Pm Rpm_a Rmp_b cRa cRm) as HM.
  destruct (ld_prepare n (n * n) Pp Pm Rpm_a Rmp_b) as [Ma Mb]. cbn [fst snd] in HM.
  destruct HM as (rMa & cMa & rMb & cMb & HM).
  assert (EMa : cm_eq n n (mel Ma) (cm_mul n (mel Rpm_a) Pminus)).
  { intros i j Hi Hj. destruct (HM i j Hi Hj) as [-> _].
    destruct (HP j Hj) as [_ ->]. apply ld_diag_entry; assumption. }
  assert (EMb : cm_eq n n (mel Mb) (cm_neg (cm_mul n (mel Rmp_b) Pplus))).
  { intros i j Hi Hj. destruct (HM i j Hi Hj) as [_ ->].
    destruct (HP j Hj) as [E _].
    unfold cm_neg, Pplus, ld_Pplus. rewrite cm_mul_diag_r by assumption.
    unfold ld_Pplus, cm_diag in E. rewrite Nat.eqb_refl in E. rewrite <- E.
    cplx_ring. }
  (* the matrix that is inverted *)
  set (X := ld_add_unity (n * n) (matmul Mb Ma)).
  destruct (ld_add_unity_spec n (matmul Mb Ma) cMa) as (rX & cX & HX). fold X in rX, cX, HX.
  set (F := cm_sub cm_id
              (cm_mul n (cm_mul n (cm_mul n (mel Rmp_b) Pplus) (mel Rpm_a)) Pminus)).
  assert (EX : cm_eq n n (mel X) F).
  { intros i j Hi Hj. rewrite HX by assumption.
    rewrite mel_matmul by lia. rewrite cMb.
    rewrite (cm_mul_compat n n n _ _ _ _ EMb EMa i j Hi Hj).
    rewrite cm_mul_neg_l. unfold F, cm_sub.
    rewrite <- (cm_mul_assoc_eq n (cm_mul n (mel Rmp_b) Pplus) (mel Rpm_a) Pminus i j Hi Hj).
    cplx_ring. }
  assert (dX : has_dim n n X).
  { split; [rewrite rX; simpl; congruence|assumption]. }
  assert (EI : cm_eq n n (mel (matinv X)) (cm_inv n F)).
  { unfold cm_inv. apply inv_ext; [assumption|apply has_dim_mat_of_fun|].
    intros i j Hi Hj. rewrite mel_mat_of_fun by lia. apply EX; assumption. }
  destruct (inv_dim X dX) as [rI cI].
  (* the products *)
  set (M3 := matmul (matinv X) Tmm_b).
  assert (E3 : cm_eq n n (mel M3) (cm_mul n (cm_inv n F) (mel Tmm_b))).
  { intros i j Hi Hj. unfold M3. rewrite mel_matmul by lia. rewrite cI.
    exact (cm_mul_compat n n n _ _ _ _ EI (cm_eq_refl n n _) i j Hi Hj). }
  set (Res1 := matmul Ma M3).
  assert (E4 : cm_eq n n (mel Res1)
                 (cm_mul n (cm_mul n (mel Rpm_a) Pminus)
                           (cm_mul n (cm_inv n F) (mel Tmm_b)))).
  { intros i j Hi Hj. unfold Res1. rewrite mel_matmul by (simpl; lia). rewrite cMa.
    exact (cm_mul_compat n n n _ _ _ _ EMa E3 i j Hi Hj). }
  destruct (ld_scale_cols_spec n Pp Tpp_b cTp) as (rTP & cTP & HTP).
  set (TP := ld_scale_cols n (n * n) Pp Tpp_b) in *.
  assert (E5 : cm_eq n n (mel TP) (cm_mul n (mel Tpp_b) Pplus)).
  { intros i j Hi Hj. rewrite HTP by assumption.
    destruct (HP j Hj) as [-> _]. apply ld_diag_entry; assumption. }
  set (Res2 := matmul TP Res1).
  assert (cRes2 : cols Res2 = n) by (simpl; assumption).
  destruct (ld_add_Rpm_b_spec n Res2 Rpm_b cRes2 cRb) as (rR & cR & HR).
  split.
  { split; [rewrite rR; simpl; congruence|assumption]. }
  intros i j Hi Hj. rewrite HR by assumption.
  unfold ld_formula, cm_add. f_equal.
  unfold Res2. rewrite mel_matmul by (simpl; lia). rewrite cTP.
  rewrite (cm_mul_compat n n n _ _ _ _ E5 E4 i j Hi Hj).
  fold F.
  set (TPp := cm_mul n (mel Tpp_b) Pplus).
  set (Inv := cm_inv n F).
  transitivity (cm_mul n (cm_mul n TPp (cm_mul n (mel Rpm_a) Pminus))
                         (cm_mul n Inv (mel Tmm_b)) i j).
  { symmetry. apply cm_mul_assoc. }
  rewrite (cm_mul_assoc n n (cm_mul n (cm_mul n TPp (mel Rpm_a)) Pminus)).
  exact (cm_mul_compat n n n _ _ _ _
           (cm_eq_sym _ _ _ _ (cm_mul_assoc_eq n TPp (mel Rpm_a) Pminus))
           (cm_eq_refl n n _) i j Hi Hj).
Qed.

End LD2LAYRPM_RESULT.

(** ** The natural order of (l,m) *)

Lemma for_up_app {St : Type} a b lo (f : nat -> St -> St) s :
  for_up (a + b) lo f s = for_up b (lo + a) f (for_up a lo f s).
Proof.
  revert lo s. induction a as [|a IH]; intros lo s; simpl.
  - rewrite Nat.add_0_r. reflexivity.
  - rewrite IH. f_equal. lia.
Qed.

Lemma for_up_from_0 {St : Type} c lo (f : nat -> St -> St) s :
  for_up c lo f s = for_up c 0 (fun t => f (lo + t)%nat) s.
Proof.
  revert f s. induction lo as [|lo IH]; intros f s.
  - reflexivity.
  - rewrite for_up_shift, IH. reflexivity.
Qed.

Lemma sqrt_block n t : (t <= 2 * n)%nat -> Nat.sqrt (n * n + t) = n.
Proof. intros Ht. apply Nat.sqrt_unique. lia. Qed.

(** The double loop over l and m visits the positions of the natural order
    one after the other. *)
Lemma natural_order_flat {St : Type} n (F : nat -> nat -> St -> St) s :
  for_up n 0 (fun l s => for_up (2 * l + 1) 0 (F l) s) s =
  for_up (n * n) 0
    (fun x s => F (Nat.sqrt x) (x - Nat.sqrt x * Nat.sqrt x)%nat s) s.
Proof.
  induction n as [|n IH].
  - reflexivity.
  - replace (S n) with (n + 1)%nat at 1 by lia.
    rewrite (for_up_app n 1 0). cbn [for_up]. rewrite IH. rewrite Nat.add_0_l.
    replace (S n * S n)%nat with (n * n + (2 * n + 1))%nat by lia.
    rewrite (for_up_app (n * n) (2 * n + 1) 0).
    rewrite (for_up_from_0 (2 * n + 1) (0 + n * n)).
    rewrite Nat.add_0_l.
    apply for_up_ext. intros t s' Ht.
    rewrite sqrt_block by lia. f_equal. lia.
Qed.

Lemma l_of_index_le x l0 :
  (1 <= x)%nat -> (l_of_index x <= l0)%nat <-> (x <= (l0 + 1) * (l0 + 1))%nat.
Proof.
  intros Hx. unfold l_of_index.
  pose proof (Nat.sqrt_spec (x - 1) ltac:(lia)) as [H1 H2].
  split; intros H; nia.
Qed.

Lemma lm_of_index_inj x y :
  (1 <= x)%nat -> (1 <= y)%nat ->
  l_of_index x = l_of_index y -> m_of_index x = m_of_index y -> x = y.
Proof. unfold m_of_index. intros Hx Hy -> Hm. lia. Qed.

Lemma lm_index_of x : (1 <= x)%nat -> lm_index (l_of_index x) (m_of_index x) = x.
Proof.
  intros Hx. unfold lm_index, m_of_index. lia.
Qed.

Lemma l_of_lm_index l m :
  (- Z.of_nat l <= m <= Z.of_nat l)%Z -> l_of_index (lm_index l m) = l.
Proof.
  intros Hm. unfold l_of_index, lm_index.
  replace (Z.to_nat (Z.of_nat (l * (l + 1)) + m + 1) - 1)%nat
    with (l * l + Z.to_nat (Z.of_nat l + m))%nat by nia.
  apply sqrt_block. lia.
Qed.

Lemma m_of_lm_index l m :
  (- Z.of_nat l <= m <= Z.of_nat l)%Z -> m_of_index (lm_index l m) = m.
Proof.
  intros Hm. unfold m_of_index. rewrite l_of_lm_index by assumption.
  unfold lm_index. nia.
Qed.

Lemma lm_index_range l m l_max :
  (l <= l_max)%nat -> (- Z.of_nat l <= m <= Z.of_nat l)%Z ->
  (1 <= lm_index l m <= (l_max + 1) * (l_max + 1))%nat.
Proof. intros Hl Hm. unfold lm_index. nia. Qed.

(** ** The cumulant expansion: the T=0 matrix (lines 141-149) *)

Lemma same_lm_flat l1 t1 x2 :
  (t1 <= 2 * l1)%nat ->
  ((l1 =? Nat.sqrt x2)%nat &&
   (- Z.of_nat l1 + Z.of_nat t1 =?
    - Z.of_nat (Nat.sqrt x2) + Z.of_nat (x2 - Nat.sqrt x2 * Nat.sqrt x2))%Z)%bool
  = (x2 =? l1 * l1 + t1)%nat.
Proof.
  intros Ht.
  pose proof (Nat.sqrt_spec x2 ltac:(lia)) as [H1 H2].
  destruct (Nat.eqb_spec x2 (l1 * l1 + t1)) as [->|Hne].
  - rewrite sqrt_block by assumption. rewrite Nat.eqb_refl. simpl.
    apply Z.eqb_eq. lia.
  - destruct (Nat.eqb_spec l1 (Nat.sqrt x2)) as [E|E]; [|reflexivity]. simpl.
    apply Z.eqb_neq. rewrite <- E in *. lia.
Qed.

Section LPCCUMTL_T0.
Variable tl_aux : mat_str.
Variable kappa : R.
Variable l_max_0 : nat.

(** The value written on the diagonal at position [x] of the natural order. *)
Let t0_value (x : nat) : R * R :=
  (- rel tl_aux (Nat.sqrt (x - 1) + 1) / kappa,
   - iel tl_aux (Nat.sqrt (x - 1) + 1) / kappa).

(** The inner pair of loops writes the element (lm1, x1 + 1). *)
Lemma cumul_T0_inner x1 lm1 T :
  (x1 < (l_max_0 + 1) * (l_max_0 + 1))%nat ->
  let l1 := Nat.sqrt x1 in
  let m1 := (- Z.of_nat l1 + Z.of_nat (x1 - l1 * l1))%Z in
  snd (for_range 0 l_max_0
         (fun l2 (s2 : nat * mat_str) =>
            for_up (2 * l2 + 1) 0
              (fun t2 (s2 : nat * mat_str) =>
                 let (lm2, T_n) := s2 in
                 let m2 := (- Z.of_nat l2 + Z.of_nat t2)%Z in
                 let T_n :=
                   if ((l1 =? l2)%nat && (m1 =? m2)%Z)%bool then
                     let T_n := set_rel T_n ((lm1 - 1) * cols T_n + lm2)
                                  (- rel tl_aux (l1 + 1) / kappa) in
                     set_iel T_n ((lm1 - 1) * cols T_n + lm2)
                             (- iel tl_aux (l1 + 1) / kappa)
                   else T_n in
                 (S lm2, T_n))
              s2)
         (1%nat, T))
  = set_el T ((lm1 - 1) * cols T + (x1 + 1)) (t0_value (x1 + 1)).
Proof.
  intros Hx l1 m1. unfold for_range.
  replace (l_max_0 + 1 - 0)%nat with (l_max_0 + 1)%nat by lia.
  rewrite (natural_order_flat (l_max_0 + 1)
    (fun l2 t2 (s2 : nat * mat_str) =>
       let (lm2, T_n) := s2 in
       let m2 := (- Z.of_nat l2 + Z.of_nat t2)%Z in
       let T_n :=
         if ((l1 =? l2)%nat && (m1 =? m2)%Z)%bool then
           let T_n := set_rel T_n ((lm1 - 1) * cols T_n + lm2)
                        (- rel tl_aux (l1 + 1) / kappa) in
           set_iel T_n ((lm1 - 1) * cols T_n + lm2) (- iel tl_aux (l1 + 1) / kappa)
         else T_n in
       (S lm2, T_n))).
  set (T' := set_el T ((lm1 - 1) * cols T + (x1 + 1)) (t0_value (x1 + 1))).
  pose (P := fun (x2 : nat) (s : nat * mat_str) =>
     s = (S x2, if (x1 <? x2)%nat then T' else T)).
  match goal with |- snd ?loop = _ =>
    assert (H : P (0 + (l_max_0 + 1) * (l_max_0 + 1))%nat loop) end.
  { apply for_up_ind.
    - unfold P. reflexivity.
    - intros x2 s Hx2 Hs. unfold P in *. subst s. cbv zeta.
      pose proof (Nat.sqrt_spec x1 ltac:(lia)) as [S1 S2]. fold l1 in S1, S2.
      unfold m1. rewrite same_lm_flat by lia.
      replace (l1 * l1 + (x1 - l1 * l1))%nat with x1 by lia.
      f_equal.
      destruct (Nat.eqb_spec x2 x1) as [->|E].
      + destruct (Nat.ltb_spec x1 x1); [lia|].
        destruct (Nat.ltb_spec x1 (S x1)); [|lia].
        unfold T', set_el, set_iel, set_rel, t0_value; simpl.
        replace (x1 + 1 - 1)%nat with x1 by lia. fold l1.
        replace (S x1) with (x1 + 1)%nat by lia. reflexivity.
      + destruct (Nat.ltb_spec x1 x2), (Nat.ltb_spec x1 (S x2)); try lia; reflexivity. }
  unfold P in H. apply (f_equal snd) in H. cbn [snd] in H.
  etransitivity; [exact H|].
  destruct (Nat.ltb_spec x1 (0 + (l_max_0 + 1) * (l_max_0 + 1))); [reflexivity|lia].
Qed.

Lemma cumul_T0_spec d T :
  cols T = d -> ((l_max_0 + 1) * (l_max_0 + 1) <= d)%nat ->
  (forall i j, (1 <= i <= d)%nat -> (1 <= j <= d)%nat -> mel T i j = Czero) ->
  rows (cumul_T0 tl_aux kappa l_max_0 T) = rows T /\
  cols (cumul_T0 tl_aux kappa l_max_0 T) = d /\
  forall i j, (1 <= i <= d)%nat -> (1 <= j <= d)%nat ->
    mel (cumul_T0 tl_aux kappa l_max_0 T) i j =
    cumul_T0_matrix tl_aux kappa l_max_0 i j.
Proof.
  intros Hc Hd Hz. unfold cumul_T0, for_range.
  replace (l_max_0 + 1 - 0)%nat with (l_max_0 + 1)%nat by lia.
  rewrite (natural_order_flat (l_max_0 + 1)
    (fun l1 t1 (s1 : nat * mat_str) =>
       let (lm1, T_n) := s1 in
       let m1 := (- Z.of_nat l1 + Z.of_nat t1)%Z in
       let T_n :=
         snd (for_up (l_max_0 + 1) 0
           (fun l2 (s2 : nat * mat_str) =>
              for_up (2 * l2 + 1) 0
                (fun t2 (s2 : nat * mat_str) =>
                   let (lm2, T_n) := s2 in
                   let m2 := (- Z.of_nat l2 + Z.of_nat t2)%Z in
                   let T_n :=
                     if ((l1 =? l2)%nat && (m1 =? m2)%Z)%bool then
                       let T_n := set_rel T_n ((lm1 - 1) * cols T_n + lm2)
                                    (- rel tl_aux (l1 + 1) / kappa) in
                       set_iel T_n ((lm1 - 1) * cols T_n + lm2)
                               (- iel tl_aux (l1 + 1) / kappa)
                     else T_n in
                   (S lm2, T_n))
                s2)
           (1%nat, T_n)) in
       (S lm1, T_n))).
  pose (P := fun (x1 : nat) (s : nat * mat_str) =>
     fst s = S x1 /\ rows (snd s) = rows T /\ cols (snd s) = d /\
     forall i j, (1 <= i <= d)%nat -> (1 <= j <= d)%nat ->
       mel (snd s) i j = if ((i =? j) && (i <=? x1))%nat then t0_value i else Czero).
  match goal with |- rows (snd ?loop) = _ /\ _ =>
    assert (H : P (0 + (l_max_0 + 1) * (l_max_0 + 1))%nat loop) end.
  { apply for_up_ind.
    - unfold P. simpl. repeat split; try assumption.
      intros i j Hi Hj. destruct (Nat.leb_spec i 0); [lia|].
      rewrite andb_false_r. apply Hz; assumption.
    - intros x1 [lm1 T1] Hx1 (Hlm & Hr & Hc1 & Hel). simpl in Hlm, Hr, Hc1, Hel.
      subst lm1. unfold P. cbv zeta.
      pose proof (cumul_T0_inner x1 (S x1) T1 ltac:(lia)) as Hin.
      cbv zeta in Hin. unfold for_range in Hin.
      replace (l_max_0 + 1 - 0)%nat with (l_max_0 + 1)%nat in Hin by lia.
      cbn [fst snd]. rewrite Hin.
      repeat split; try assumption.
      intros i j Hi Hj. rewrite mel_set_el, Hc1.
      replace (S x1 - 1)%nat with (x1 + 1 - 1)%nat by lia.
      destruct (Nat.eqb_spec ((i - 1) * d + j) ((x1 + 1 - 1) * d + (x1 + 1))) as [E|E].
      + apply index_inj in E; try lia. destruct E as [-> ->].
        rewrite Nat.eqb_refl.
        destruct (Nat.leb_spec (x1 + 1) (S x1)); [reflexivity|lia].
      + rewrite Hel by assumption.
        destruct (Nat.eqb_spec i j) as [->|Hij]; [|reflexivity]. simpl.
        destruct (Nat.leb_spec j x1), (Nat.leb_spec j (S x1)); try lia; try reflexivity.
        exfalso. apply E. assert (j = x1 + 1)%nat by lia. subst j. reflexivity. }
  destruct H as (_ & Hr & Hc1 & Hel). repeat split; try assumption.
  intros i j Hi Hj. rewrite Hel by assumption.
  unfold cumul_T0_matrix, cumul_T0_entry.
  destruct (Nat.eqb_spec i j) as [->|Hij].
  - rewrite Nat.eqb_refl, Z.eqb_refl. cbn [andb].
    pose proof (l_of_index_le j l_max_0 ltac:(lia)) as [A B].
    rewrite Nat.add_0_l.
    destruct (Nat.leb_spec j ((l_max_0 + 1) * (l_max_0 + 1))) as [L|L];
      destruct (Nat.leb_spec (l_of_index j) l_max_0) as [L'|L'];
      try reflexivity.
    + specialize (B L). lia.
    + specialize (A L'). lia.
  - destruct (Nat.eqb_spec (l_of_index i) (l_of_index j)) as [El|El]; [|reflexivity].
    destruct (Z.eqb_spec (m_of_index i) (m_of_index j)) as [Em|Em]; [|reflexivity].
    exfalso. apply Hij. apply lm_of_index_inj; lia.
Qed.

End LPCCUMTL_T0.

(** ** The cumulant expansion: the element-wise loops *)

Lemma Rltb_true x y : x < y -> Rltb x y = true.
Proof. intros H. unfold Rltb. destruct (Rlt_dec x y); [reflexivity|contradiction]. Qed.

Lemma Rltb_false x y : ~ x < y -> Rltb x y = false.
Proof. intros H. unfold Rltb. destruct (Rlt_dec x y); [contradiction|reflexivity]. Qed.

Lemma Rltb_spec x y : reflect (x < y) (Rltb x y).
Proof. unfold Rltb. destruct (Rlt_dec x y); constructor; assumption. Qed.

Lemma IS_EQUAL_REAL_spec x y : reflect (x = y) (IS_EQUAL_REAL x y).
Proof. unfold IS_EQUAL_REAL. destruct (Req_dec_T x y); constructor; assumption. Qed.

(** A loop over the indices [1..nn] that rewrites both parts at each index
    from their former values. *)
Lemma flat_loop_el nn (gr gi : nat -> R -> R -> R) M :
  let M' := for_range 1 nn
              (fun p M0 =>
                 mk_mat (rows M0) (cols M0)
                        (upd (rel M0) p (gr p (rel M0 p) (iel M0 p)))
                        (upd (iel M0) p (gi p (rel M0 p) (iel M0 p)))) M in
  rows M' = rows M /\ cols M' = cols M /\
  forall p,
    rel M' p = (if ((1 <=? p) && (p <=? nn))%nat then gr p (rel M p) (iel M p) else rel M p) /\
    iel M' p = (if ((1 <=? p) && (p <=? nn))%nat then gi p (rel M p) (iel M p) else iel M p).
Proof.
  intros M'. subst M'. unfold for_range. replace (nn + 1 - 1)%nat with nn by lia.
  pose (P := fun (t : nat) (M' : mat_str) =>
     rows M' = rows M /\ cols M' = cols M /\
     forall p,
       rel M' p = (if ((1 <=? p) && (p <? t))%nat then gr p (rel M p) (iel M p) else rel M p) /\
       iel M' p = (if ((1 <=? p) && (p <? t))%nat then gi p (rel M p) (iel M p) else iel M p)).
  match goal with |- rows ?loop = _ /\ _ => assert (H : P (1 + nn)%nat loop) end.
  { apply for_up_ind.
    - repeat split; intros;
      destruct (Nat.leb_spec 1 p), (Nat.ltb_spec p 1); try lia; reflexivity.
    - intros t M' Ht (Hr & Hc & Hel). repeat split; try assumption;
        cbn [rel iel]; unfold upd;
        destruct (Hel p) as [E1 E2]; destruct (Hel t) as [F1 F2];
        (destruct (Nat.eqb_spec p t) as [->|E];
         [ rewrite F1, F2;
           destruct (Nat.leb_spec 1 t), (Nat.ltb_spec t t), (Nat.ltb_spec t (S t));
           try lia; reflexivity
         | rewrite ?E1, ?E2;
           destruct (Nat.leb_spec 1 p), (Nat.ltb_spec p t), (Nat.ltb_spec p (S t));
           try lia; reflexivity ]). }
  destruct H as (Hr & Hc & Hel). repeat split; try assumption; apply Hel.
Qed.

Lemma index_range_rect r c i j :
  (1 <= i <= r)%nat -> (1 <= j <= c)%nat ->
  (1 <= (i - 1) * c + j <= c * r)%nat.
Proof.
  intros Hi Hj. assert ((i - 1) * c + c <= c * r)%nat by nia.
  remember ((i - 1) * c)%nat as x. lia.
Qed.

Lemma cumul_scale_spec kappa M :
  rows (cumul_scale kappa M) = rows M /\
  cols (cumul_scale kappa M) = cols M /\
  forall i j, (1 <= i <= rows M)%nat -> (1 <= j <= cols M)%nat ->
    mel (cumul_scale kappa M) i j = Cscal (- kappa) (mel M i j).
Proof.
  unfold cumul_scale.
  destruct (flat_loop_el (cols M * rows M)
              (fun _ x _ => x * - kappa) (fun _ _ y => y * - kappa) M)
    as (Hr & Hc & Hel).
  repeat split; try assumption.
  intros i j Hi Hj. pose proof (index_range_rect _ _ i j Hi Hj) as Hp.
  unfold mel, RMATEL, IMATEL, Cscal. cbn [fst snd].
  unfold set_iel, set_rel in *. cbn [rows cols rel iel] in *.
  rewrite Hc. destruct (Hel ((i - 1) * cols M + j)%nat) as [-> ->].
  destruct (Nat.leb_spec 1 ((i - 1) * cols M + j)),
           (Nat.leb_spec ((i - 1) * cols M + j) (cols M * rows M)); try lia.
  cbn [andb]. f_equal; ring.
Qed.

Section LPCCUMTL_UPDATE.
Variables pref ux2 uy2 uz2 : R.
Variables A1 A2 A3 B1 B2 B3 C1 C2 C3 : mat_str.

Let new_r (p : nat) : R :=
  pref * (ux2 * (rel A1 p + rel A2 p - 2 * rel A3 p) +
          uy2 * (rel B1 p + rel B2 p - 2 * rel B3 p) +
          uz2 * (rel C1 p + rel C2 p - 2 * rel C3 p)).
Let new_i (p : nat) : R :=
  pref * (ux2 * (iel A1 p + iel A2 p - 2 * iel A3 p) +
          uy2 * (iel B1 p + iel B2 p - 2 * iel B3 p) +
          uz2 * (iel C1 p + iel C2 p - 2 * iel C3 p)).

Lemma cumul_update_flat T_n T_acc :
  let R := cumul_update pref ux2 uy2 uz2 A1 A2 A3 B1 B2 B3 C1 C2 C3 T_n T_acc in
  let nn := (cols T_n * rows T_n)%nat in
  rows (fst R) = rows T_n /\ cols (fst R) = cols T_n /\
  rows (snd R) = rows T_acc /\ cols (snd R) = cols T_acc /\
  forall p, (1 <= p <= nn)%nat ->
    rel (fst R) p = new_r p /\ iel (fst R) p = new_i p /\
    rel (snd R) p = rel T_acc p + new_r p /\
    iel (snd R) p = iel T_acc p + new_i p.
Proof.
  intros R nn. subst R. unfold cumul_update. fold nn. unfold for_range.
  replace (nn + 1 - 1)%nat with nn by lia.
  pose (P := fun (t : nat) (s : mat_str * mat_str) =>
     rows (fst s) = rows T_n /\ cols (fst s) = cols T_n /\
     rows (snd s) = rows T_acc /\ cols (snd s) = cols T_acc /\
     forall p,
       (rel (fst s) p = if ((1 <=? p) && (p <? t))%nat then new_r p else rel T_n p) /\
       (iel (fst s) p = if ((1 <=? p) && (p <? t))%nat then new_i p else iel T_n p) /\
       (rel (snd s) p = if ((1 <=? p) && (p <? t))%nat
                        then rel T_acc p + new_r p else rel T_acc p) /\
       (iel (snd s) p = if ((1 <=? p) && (p <? t))%nat
                        then iel T_acc p + new_i p else iel T_acc p)).
  match goal with |- rows (fst ?loop) = _ /\ _ => assert (H : P (1 + nn)%nat loop) end.
  { apply for_up_ind.
    - unfold P. cbn [fst snd]. repeat split; intros;
      destruct (Nat.leb_spec 1 p), (Nat.ltb_spec p 1); try lia; reflexivity.
    - intros t [Tn Ta] Ht (Hr1 & Hc1 & Hr2 & Hc2 & Hel). cbn [fst snd] in *.
      unfold P. cbn [fst snd]. unfold set_iel, set_rel. cbn [rows cols rel iel].
      repeat split; try assumption;
        unfold upd; rewrite ?Nat.eqb_refl;
        destruct (Hel p) as (E1 & E2 & E3 & E4);
        destruct (Hel t) as (F1 & F2 & F3 & F4);
        (destruct (Nat.eqb_spec p t) as [->|E];
         [ rewrite ?F3, ?F4;
           destruct (Nat.leb_spec 1 t), (Nat.ltb_spec t t), (Nat.ltb_spec t (S t));
           try lia; reflexivity
         | rewrite ?E1, ?E2, ?E3, ?E4;
           destruct (Nat.leb_spec 1 p), (Nat.ltb_spec p t), (Nat.ltb_spec p (S t));
           try lia; reflexivity ]). }
  destruct H as (Hr1 & Hc1 & Hr2 & Hc2 & Hel). repeat split; try assumption;
    destruct (Hel p) as (E1 & E2 & E3 & E4); rewrite ?E1, ?E2, ?E3, ?E4;
    destruct (Nat.leb_spec 1 p), (Nat.ltb_spec p (1 + nn)); try lia; reflexivity.
Qed.

(** The same on the elements, for square matrices of dimension [d]. *)
Lemma cumul_update_spec d T_n T_acc :
  has_dim d d T_n -> has_dim d d T_acc ->
  cols A1 = d -> cols A2 = d -> cols A3 = d ->
  cols B1 = d -> cols B2 = d -> cols B3 = d ->
  cols C1 = d -> cols C2 = d -> cols C3 = d ->
  let R := cumul_update pref ux2 uy2 uz2 A1 A2 A3 B1 B2 B3 C1 C2 C3 T_n T_acc in
  let axis (X1 X2 X3 : mat_str) : cmatrix :=
    cm_sub (cm_add (mel X1) (mel X2)) (cm_scal 2 (mel X3)) in
  let next : cmatrix :=
    cm_scal pref (cm_add (cm_add (cm_scal ux2 (axis A1 A2 A3))
                                 (cm_scal uy2 (axis B1 B2 B3)))
                         (cm_scal uz2 (axis C1 C2 C3))) in
  has_dim d d (fst R) /\ has_dim d d (snd R) /\
  cm_eq d d (mel (fst R)) next /\
  cm_eq d d (mel (snd R)) (cm_add (mel T_acc) next).
Proof.
  intros [rn cn] [ra ca] a1 a2 a3 b1 b2 b3 c1 c2 c3 R axis next.
  destruct (cumul_update_flat T_n T_acc) as (Hr1 & Hc1 & Hr2 & Hc2 & Hel).
  fold R in Hr1, Hc1, Hr2, Hc2, Hel.
  repeat split; try congruence;
    intros i j Hi Hj;
    pose proof (index_range_rect d d i j Hi Hj) as Hp;
    destruct (Hel ((i - 1) * d + j)%nat ltac:(rewrite rn, cn; exact Hp))
      as (E1 & E2 & E3 & E4);
    unfold next, axis, cm_scal, cm_add, cm_sub, Cscal, Cadd, Csub, mel, RMATEL, IMATEL;
    cbn [fst snd];
    rewrite ?Hc1, ?Hc2, ?cn, ?ca, ?a1, ?a2, ?a3, ?b1, ?b2, ?b3, ?c1, ?c2, ?c3;
    rewrite ?E1, ?E2, ?E3, ?E4; unfold new_r, new_i; f_equal; ring.
Qed.

End LPCCUMTL_UPDATE.

(** ** The cumulant expansion: relative errors (lines 301-314) *)

Lemma rsum_ext n f g :
  (forall k, (1 <= k <= n)%nat -> f k = g k) -> rsum n f = rsum n g.
Proof.
  induction n as [|n IH]; intros H; simpl; [reflexivity|].
  rewrite IH by (intros; apply H; lia). rewrite H by lia. reflexivity.
Qed.

Lemma rsum_app a b f : rsum (a + b) f = rsum a f + rsum b (fun j => f (a + j)%nat).
Proof.
  induction b as [|b IH].
  - rewrite Nat.add_0_r. simpl. ring.
  - rewrite Nat.add_succ_r. cbn [rsum]. rewrite IH, Nat.add_succ_r. ring.
Qed.

Lemma rsum_flat r d f :
  rsum (r * d) f = rsum r (fun i => rsum d (fun j => f ((i - 1) * d + j)%nat)).
Proof.
  induction r as [|r IH]; [reflexivity|].
  replace (S r * d)%nat with (r * d + d)%nat by lia.
  rewrite rsum_app, IH. simpl. f_equal.
  apply rsum_ext. intros j _. f_equal. lia.
Qed.

Lemma cumul_relerr_flat T_n T_acc :
  cumul_relerr T_n T_acc =
  (rsum (cols T_acc * rows T_acc)
        (fun p => if Req_dec_T (rel T_acc p) 0 then 0
                  else Rabs (rel T_n p / rel T_acc p)),
   rsum (cols T_acc * rows T_acc)
        (fun p => if Req_dec_T (iel T_acc p) 0 then 0
                  else Rabs (iel T_n p / iel T_acc p))).
Proof.
  unfold cumul_relerr, for_range.
  set (nn := (cols T_acc * rows T_acc)%nat).
  replace (nn + 1 - 1)%nat with nn by lia.
  set (tr := fun p => if Req_dec_T (rel T_acc p) 0 then 0
                      else Rabs (rel T_n p / rel T_acc p)).
  set (ti := fun p => if Req_dec_T (iel T_acc p) 0 then 0
                      else Rabs (iel T_n p / iel T_acc p)).
  pose (P := fun (t : nat) (e : R * R) => e = (rsum (t - 1) tr, rsum (t - 1) ti)).
  match goal with |- ?loop = _ => assert (H : P (1 + nn)%nat loop) end.
  { apply for_up_ind.
    - reflexivity.
    - intros t e Ht He. unfold P in *. subst e.
      replace (S t - 1)%nat with (S (t - 1)) by lia. cbn [rsum].
      replace (S (t - 1)) with t by lia.
      unfold tr, ti, IS_EQUAL_REAL.
      destruct (Req_dec_T (rel T_acc t) 0), (Req_dec_T (iel T_acc t) 0);
        cbn [negb]; cbv beta iota zeta; f_equal; ring. }
  unfold P in H. rewrite H. replace (1 + nn - 1)%nat with nn by lia. reflexivity.
Qed.

Lemma cumul_relerr_spec d T_n T_acc :
  has_dim d d T_n -> has_dim d d T_acc ->
  cumul_relerr T_n T_acc =
  (cumul_change fst d (mel T_n) (mel T_acc),
   cumul_change snd d (mel T_n) (mel T_acc)).
Proof.
  intros [rn cn] [ra ca]. rewrite cumul_relerr_flat, ra, ca.
  unfold cumul_change. rewrite !rsum_flat.
  unfold mel, RMATEL, IMATEL. cbn [fst snd]. rewrite cn, ca. reflexivity.
Qed.

(** The relative change reads the elements in rows and columns [1..d] only. *)
Lemma cumul_change_compat part d Tn Tn' Tacc Tacc' :
  cm_eq d d Tn Tn' -> cm_eq d d Tacc Tacc' ->
  cumul_change part d Tn Tacc = cumul_change part d Tn' Tacc'.
Proof.
  intros H1 H2. unfold cumul_change.
  apply rsum_ext. intros i Hi. apply rsum_ext. intros j Hj.
  rewrite H1, H2 by assumption. reflexivity.
Qed.

(** ** The cumulant expansion: one pass (lines 230-296) *)

Lemma cm_scal_compat r c x A A' :
  cm_eq r c A A' -> cm_eq r c (cm_scal x A) (cm_scal x A').
Proof. intros H i j Hi Hj. unfold cm_scal. rewrite H by assumption. reflexivity. Qed.

Lemma cumul_axis_compat d M T T' :
  cm_eq d d T T' -> cm_eq d d (cumul_axis d M T) (cumul_axis d M T').
Proof.
  intros H. unfold cumul_axis.
  apply cm_sub_compat; [apply cm_add_compat|apply cm_scal_compat].
  - apply cm_mul_compat; [apply cm_eq_refl|assumption].
  - apply cm_mul_compat; [assumption|apply cm_eq_refl].
  - apply cm_mul_compat; [|apply cm_eq_refl].
    apply cm_mul_compat; [apply cm_eq_refl|assumption].
Qed.

Lemma cumul_next_compat d Mx My Mz kappa ux uy uz n T T' :
  cm_eq d d T T' ->
  cm_eq d d (cumul_next d Mx My Mz kappa ux uy uz n T)
            (cumul_next d Mx My Mz kappa ux uy uz n T').
Proof.
  intros H. unfold cumul_next.
  apply cm_scal_compat. repeat apply cm_add_compat;
    apply cm_scal_compat, cumul_axis_compat; assumption.
Qed.

Lemma mel_matmul_eq d A B :
  cols A = d -> cols B = d ->
  cm_eq d d (mel (matmul A B)) (cm_mul d (mel A) (mel B)).
Proof.
  intros HA HB i j Hi Hj. rewrite mel_matmul by lia. rewrite HA. reflexivity.
Qed.

Lemma cumul_axis_elements d M MM T :
  cols M = d -> cols MM = d -> cols T = d ->
  cm_eq d d (mel MM) (cm_mul d (mel M) (mel M)) ->
  cm_eq d d
    (cm_sub (cm_add (mel (matmul MM T)) (mel (matmul T MM)))
            (cm_scal 2 (mel (matmul M (matmul T M)))))
    (cumul_axis d (mel M) (mel T)).
Proof.
  intros cM cMM cT HMM. unfold cumul_axis.
  apply cm_sub_compat; [apply cm_add_compat|apply cm_scal_compat].
  - eapply cm_eq_trans; [apply mel_matmul_eq; assumption|].
    apply cm_mul_compat; [assumption|apply cm_eq_refl].
  - eapply cm_eq_trans; [apply mel_matmul_eq; assumption|].
    apply cm_mul_compat; [apply cm_eq_refl|assumption].
  - eapply cm_eq_trans; [apply mel_matmul_eq; [assumption|exact cM]|].
    eapply cm_eq_trans;
      [apply cm_mul_compat; [apply cm_eq_refl|apply mel_matmul_eq; assumption]|].
    apply cm_eq_sym, cm_mul_assoc_eq.
Qed.

Lemma cumul_pass_spec d ms kappa ux uy uz n T_n T_acc :
  pc_ms_ok d ms -> has_dim d d T_n -> has_dim d d T_acc ->
  let R := cumul_pass ms kappa (ux * ux) (uy * uy) (uz * uz) (S n) T_n T_acc in
  let next := cumul_next d (mel (Mx ms)) (mel (My ms)) (mel (Mz ms))
                         kappa ux uy uz n (mel T_n) in
  has_dim d d (fst R) /\ has_dim d d (snd R) /\
  cm_eq d d (mel (fst R)) next /\
  cm_eq d d (mel (snd R)) (cm_add (mel T_acc) next).
Proof.
  intros (dx & dy & dz & dxx & dyy & dzz & Hxx & Hyy & Hzz) dn da R next.
  subst R. unfold cumul_pass.
  destruct dx as [_ cx], dy as [_ cy], dz as [_ cz],
           dxx as [_ cxx], dyy as [_ cyy], dzz as [_ czz].
  pose proof dn as [_ cn].
  match goal with |- has_dim d d (fst (cumul_update ?p ?a ?b ?c ?X1 ?X2 ?X3 ?Y1 ?Y2 ?Y3 ?Z1 ?Z2 ?Z3 _ _)) /\ _ =>
    destruct (cumul_update_spec p a b c X1 X2 X3 Y1 Y2 Y3 Z1 Z2 Z3 d T_n T_acc dn da)
      as (H1 & H2 & H3 & H4); try (cbn [cols matmul mat_of_fun]; assumption)
  end.
  repeat split; try apply H1; try apply H2.
  - eapply cm_eq_trans; [exact H3|].
    subst next. unfold cumul_next.
    replace (- kappa * kappa / INR (S n)) with (- (kappa * kappa) / INR (n + 1))
      by (replace (S n) with (n + 1)%nat by lia; unfold Rdiv; ring).
    apply cm_scal_compat. repeat apply cm_add_compat;
      apply cm_scal_compat, cumul_axis_elements; assumption.
  - eapply cm_eq_trans; [exact H4|].
    apply cm_add_compat; [apply cm_eq_refl|].
    subst next. unfold cumul_next.
    replace (- kappa * kappa / INR (S n)) with (- (kappa * kappa) / INR (n + 1))
      by (replace (S n) with (n + 1)%nat by lia; unfold Rdiv; ring).
    apply cm_scal_compat. repeat apply cm_add_compat;
      apply cm_scal_compat, cumul_axis_elements; assumption.
Qed.

(** ** The cumulant expansion: the loop (lines 226-319) *)

Section LPCCUMTL_LOOP.
Variable d : nat.
Variable ms : pc_ms.
Variables kappa ux uy uz : R.
Variable T0 : cmatrix.
Hypothesis ms_ok : pc_ms_ok d ms.

Let Tk := cumul_T d (mel (Mx ms)) (mel (My ms)) (mel (Mz ms)) kappa ux uy uz T0.
Let Ak := cumul_acc d (mel (Mx ms)) (mel (My ms)) (mel (Mz ms)) kappa ux uy uz T0.
Let conv := CONV_TEST * INR d * INR d.

Let relerr_at := cumul_relerr_at d (mel (Mx ms)) (mel (My ms)) (mel (Mz ms))
                                kappa ux uy uz T0.
Let guard := cumul_guard d (mel (Mx ms)) (mel (My ms)) (mel (Mz ms))
                         kappa ux uy uz T0.
Let state := cumul_state d ms kappa ux uy uz T0.

Lemma cumul_state_step k T_n T_acc rr ri :
  state k T_n T_acc rr ri ->
  let R := cumul_pass ms kappa (ux * ux) (uy * uy) (uz * uz) (S k) T_n T_acc in
  let e := cumul_relerr (fst R) (snd R) in
  state (S k) (fst R) (snd R) (fst e) (snd e).
Proof.
  intros (dn & da & Hn & Ha & _) R e.
  destruct (cumul_pass_spec d ms kappa ux uy uz k T_n T_acc ms_ok dn da)
    as (dn' & da' & Hn' & Ha').
  fold R in dn', da', Hn', Ha'.
  assert (En : cm_eq d d (mel (fst R)) (Tk (S k))).
  { eapply cm_eq_trans; [exact Hn'|]. unfold Tk. cbn [cumul_T].
    apply cumul_next_compat. exact Hn. }
  assert (Ea : cm_eq d d (mel (snd R)) (Ak (S k))).
  { eapply cm_eq_trans; [exact Ha'|]. unfold Ak. cbn [cumul_acc].
    apply cm_add_compat; [exact Ha|].
    apply cumul_next_compat. exact Hn. }
  repeat split; try apply dn'; try apply da'; try assumption.
  subst e. rewrite (cumul_relerr_spec d _ _ dn' da'). unfold cumul_relerr_at. cbn [fst snd].
  f_equal; apply cumul_change_compat; assumption.
Qed.

(** The loop runs to the first [N] at which its test fails. *)
Lemma cumul_loop_run m : forall k fuel T_n T_acc rr ri,
  state k T_n T_acc rr ri ->
  (forall j, (k <= j < k + m)%nat -> guard j = true) ->
  guard (k + m) = false ->
  (m < fuel)%nat ->
  exists T_acc',
    cumul_loop fuel ms kappa (ux * ux) (uy * uy) (uz * uz) conv (S k)
               T_n T_acc rr ri = (S (k + m), T_acc') /\
    has_dim d d T_acc' /\ cm_eq d d (mel T_acc') (Ak (k + m)).
Proof.
  induction m as [|m IH]; intros k fuel T_n T_acc rr ri Hst Hgo Hstop Hfuel.
  - destruct fuel as [|fuel]; [lia|]. rewrite Nat.add_0_r in *.
    destruct Hst as (dn & da & Hn & Ha & He).
    cbn [cumul_loop]. unfold guard, cumul_guard in Hstop. fold conv Tk Ak relerr_at in Hstop. unfold relerr_at in Hstop. rewrite <- He in Hstop.
    cbn [fst snd] in Hstop. rewrite Hstop.
    exists T_acc. repeat split; try apply da; assumption.
  - destruct fuel as [|fuel]; [lia|].
    pose proof (Hgo k ltac:(lia)) as Hg.
    pose proof (cumul_state_step k T_n T_acc rr ri Hst) as Hnext. cbv zeta in Hnext.
    destruct Hst as (dn & da & Hn & Ha & He).
    cbn [cumul_loop]. unfold guard, cumul_guard in Hg. fold conv Tk Ak relerr_at in Hg. unfold relerr_at in Hg. rewrite <- He in Hg.
    cbn [fst snd] in Hg. rewrite Hg.
    destruct (cumul_pass ms kappa (ux * ux) (uy * uy) (uz * uz) (S k) T_n T_acc)
      as [T_n' T_acc'].
    cbn [fst snd] in Hnext.
    destruct (cumul_relerr T_n' T_acc') as [rr' ri']. cbn [fst snd] in Hnext.
    destruct (IH (S k) fuel T_n' T_acc' rr' ri' Hnext) as (T' & E & dT & HT).
    + intros j Hj. apply Hgo. lia.
    + replace (S k + m)%nat with (k + S m)%nat by lia. assumption.
    + lia.
    + exists T'. replace (k + S m)%nat with (S k + m)%nat by lia.
      split; [|split]; assumption.
Qed.

End LPCCUMTL_LOOP.

(** ** The cumulant expansion: the function *)

Lemma matcopy_to_read h Tmat T f :
  cell (heap_update (fst (matcopy_to h Tmat T)) (snd (matcopy_to h Tmat T)) f)
       (snd (matcopy_to h Tmat T)) = Some (f T).
Proof.
  destruct Tmat as [p|]; unfold matcopy_to, heap_new, heap_update, heap_store;
    cbn [fst snd cell]; rewrite !Nat.eqb_refl; cbn [cell]; rewrite Nat.eqb_refl;
    reflexivity.
Qed.

Lemma cumul_l0_cases l_max_t l_max_0 (w1 w2 : list (severity * string)) :
  fst (if (l_max_t <? l_max_0)%nat then (l_max_t, w1)
       else if (l_max_0 <? l_max_t)%nat then (l_max_0, w2)
       else (l_max_0, @nil (severity * string))) = cumul_l0 l_max_t l_max_0.
Proof.
  unfold cumul_l0.
  destruct (Nat.ltb_spec l_max_t l_max_0); [simpl; lia|].
  destruct (Nat.ltb_spec l_max_0 l_max_t); simpl; lia.
Qed.

Lemma cumul_T0_start tl kappa l_max_t l_max_0 :
  let d := cumul_dim l_max_t in
  let T := cumul_T0 tl kappa (cumul_l0 l_max_t l_max_0) (matalloc d d) in
  has_dim d d T /\
  cm_eq d d (mel T) (cumul_T0_matrix tl kappa (cumul_l0 l_max_t l_max_0)).
Proof.
  intros d T.
  destruct (cumul_T0_spec tl kappa (cumul_l0 l_max_t l_max_0) d (matalloc d d))
    as (Hr & Hc & Hel).
  - reflexivity.
  - unfold d, cumul_dim, cumul_l0.
    assert (Nat.min l_max_0 l_max_t <= l_max_t)%nat by lia. nia.
  - intros i j _ _. reflexivity.
  - repeat split; assumption.
Qed.

Lemma cumul_conv_pos l_max_t :
  0 < CONV_TEST * INR (cumul_dim l_max_t) * INR (cumul_dim l_max_t).
Proof.
  assert (0 < INR (cumul_dim l_max_t)).
  { apply lt_0_INR. unfold cumul_dim. nia. }
  unfold CONV_TEST. nra.
Qed.

(** The loop test fails when the counter has reached [NITER]. *)
Lemma cumul_guard_last d Mx My Mz kappa ux uy uz T0 :
  cumul_guard d Mx My Mz kappa ux uy uz T0 (NITER - 1) = false.
Proof. unfold cumul_guard. reflexivity. Qed.

(** Before [NITER] the loop test holds exactly when the criterion does not. *)
Lemma cumul_guard_converged d Mx My Mz kappa ux uy uz T0 k :
  (S (S k) < NITER)%nat ->
  cumul_guard d Mx My Mz kappa ux uy uz T0 (S k) = false <->
  cumul_converged d Mx My Mz kappa ux uy uz T0 (S k).
Proof.
  intros Hk. unfold cumul_guard, cumul_converged, cumul_relerr_at. cbn [fst snd].
  destruct (Nat.ltb_spec (S (S k)) NITER) as [_|Hge]; [|lia]. cbn [andb].
  set (c := CONV_TEST * INR d * INR d).
  destruct (Rltb_spec c (cumul_change fst d (cumul_T d Mx My Mz kappa ux uy uz T0 (S k))
                           (cumul_acc d Mx My Mz kappa ux uy uz T0 (S k))));
  destruct (Rltb_spec c (cumul_change snd d (cumul_T d Mx My Mz kappa ux uy uz T0 (S k))
                           (cumul_acc d Mx My Mz kappa ux uy uz T0 (S k))));
  cbn [orb]; split; intros Hyp; try discriminate; try reflexivity;
  try (destruct Hyp; lra); split; lra.
Qed.


Section LPCCUMTL_CALL.
Context {ext : leed_externals}.
Variable st : cumul_static.
Variable h : heap.
Variable Tmat : option ptr.
Variable tl_0 : ptr.
Variable tl_0_val : mat_str.
Variables ux uy uz energy : R.
Variables l_max_t l_max_0 : nat.
Hypothesis tl_0_ok : cell h tl_0 = Some tl_0_val.

Let d := cumul_dim l_max_t.
Let kappa := cumul_kappa energy.
Let T0 := cumul_T0_matrix tl_0_val kappa (cumul_l0 l_max_t l_max_0).

Ltac cumul_open :=
  unfold leed_par_cumulative_tl; rewrite tl_0_ok; unfold matcopy;
  match goal with
  | |- context [let (_, _) := ?p in _] =>
      let l0' := fresh "l0'" in
      let Hl := fresh "Hl0" in
      destruct p as [l0' log0] eqn:Ep;
      assert (Hl : l0' = cumul_l0 l_max_t l_max_0)
        by (change l0' with (fst (l0', log0)); rewrite <- Ep; apply cumul_l0_cases);
      subst l0'
  end.

(** The short cut of lines 156-173. *)
Lemma cumul_zero_outcome :
  ux < GEO_TOLERANCE -> uy < GEO_TOLERANCE -> uz < GEO_TOLERANCE ->
  exists r M,
    leed_par_cumulative_tl st h Tmat tl_0 ux uy uz energy l_max_t l_max_0 = Some r /\
    c_static r = st /\
    In (Warning, "All displacements are zero: return Tmat(T=0)"%string) (c_log r) /\
    ~ In (Error, "No convergence after NITER iterations"%string) (c_log r) /\
    returned_matrix r = Some M /\ has_dim d d M /\
    cm_eq d d (mel M) (cm_scal (- kappa) T0).
Proof.
  intros Hx Hy Hz. cumul_open.
  rewrite (Rltb_true _ _ Hx), (Rltb_true _ _ Hy), (Rltb_true _ _ Hz). cbn [andb].
  change (sqrt (2 * energy)) with kappa.
  change ((l_max_t + 1) * (l_max_t + 1))%nat with d.
  destruct (cumul_T0_start tl_0_val kappa l_max_t l_max_0) as [dT HT].
  fold d in dT, HT.
  set (T := cumul_T0 tl_0_val kappa (cumul_l0 l_max_t l_max_0) (matalloc d d)) in *.
  pose proof (matcopy_to_read h Tmat T (cumul_scale kappa)) as Hread.
  destruct (matcopy_to h Tmat T) as [h1 p]. cbn [fst snd] in Hread.
  eexists. exists (cumul_scale kappa T).
  split; [reflexivity|]. cbn [c_static c_log]. unfold returned_matrix. cbn [c_ret c_heap].
  destruct (cumul_scale_spec kappa T) as (Sr & Sc & Sel).
  destruct dT as [rT cT].
  repeat split; try assumption; try congruence.
  - apply in_or_app. right. left. reflexivity.
  - intros Hin. apply in_app_or in Hin. destruct Hin as [Hin|[Hin|[]]].
    + destruct (l_max_t <? l_max_0)%nat; [|destruct (l_max_0 <? l_max_t)%nat];
        inversion Ep; subst log0; cbn in Hin; intuition discriminate.
    + discriminate.
  - intros i j Hi Hj. rewrite Sel by lia. unfold cm_scal. rewrite HT by assumption.
    reflexivity.
Qed.

(** The iteration: the loop stops at the first [N] where its test fails;
    with [N + 1 = NITER] the call fails, else it returns [- kappa * T_acc]. *)
Lemma cumul_iteration_outcome N :
  cumul_nondegenerate ux uy uz ->
  cumul_static_coherent st ->
  pc_ms_ok d (pc_mk_ms l_max_t) ->
  (forall j, (j < N)%nat ->
     cumul_guard_of tl_0_val ux uy uz energy l_max_t l_max_0 j = true) ->
  cumul_guard_of tl_0_val ux uy uz energy l_max_t l_max_0 N = false ->
  exists r,
    leed_par_cumulative_tl st h Tmat tl_0 ux uy uz energy l_max_t l_max_0 = Some r /\
    ((S N = NITER /\ c_ret r = None /\
      In (Error, "No convergence after NITER iterations"%string) (c_log r)) \/
     ((S N < NITER)%nat /\
      exists M, returned_matrix r = Some M /\ has_dim d d M /\
        cm_eq d d (mel M)
          (cm_scal (- kappa)
             (cumul_acc_of tl_0_val ux uy uz energy l_max_t l_max_0 N)))).
Proof.
  intros Hnd Hst Hms Hgo Hstop.
  assert (HN : (N < NITER)%nat).
  { destruct (Nat.lt_ge_cases N NITER) as [|Hge]; [assumption|exfalso].
    pose proof (Hgo (NITER - 1)%nat ltac:(unfold NITER in *; lia)) as Hg.
    unfold cumul_guard_of in Hg. rewrite cumul_guard_last in Hg. discriminate. }
  cumul_open.
  assert (Hdeg : (Rltb ux GEO_TOLERANCE && Rltb uy GEO_TOLERANCE &&
                  Rltb uz GEO_TOLERANCE)%bool = false).
  { destruct (Rltb_spec ux GEO_TOLERANCE), (Rltb_spec uy GEO_TOLERANCE),
             (Rltb_spec uz GEO_TOLERANCE); try reflexivity.
    exfalso. apply Hnd. repeat split; assumption. }
  rewrite Hdeg.
  change (sqrt (2 * energy)) with kappa.
  change ((l_max_t + 1) * (l_max_t + 1))%nat with d.
  (* the matrices in use are those of pc_mk_ms l_max_t *)
  set (st' := if ((n_call st =? 0)%nat || negb (last_l st =? Z.of_nat l_max_t)%Z)%bool
              then mk_static (n_call st) (last_l st) (Some (pc_mk_ms l_max_t))
              else st).
  assert (Hms' : static_ms st' = Some (pc_mk_ms l_max_t)).
  { subst st'. destruct (Nat.eqb_spec (n_call st) 0) as [E0|E0]; cbn [orb]; [reflexivity|].
    destruct (Z.eqb_spec (last_l st) (Z.of_nat l_max_t)) as [El|El]; cbn [negb];
      [|reflexivity].
    destruct Hst as [Hc|(l & Hl & Hs)]; [contradiction|].
    rewrite Hs. f_equal. f_equal. lia. }
  rewrite Hms'.
  destruct (cumul_T0_start tl_0_val kappa l_max_t l_max_0) as [dT HT].
  fold d in dT, HT.
  set (T := cumul_T0 tl_0_val kappa (cumul_l0 l_max_t l_max_0) (matalloc d d)) in *.
  assert (Hstate : cumul_state d (pc_mk_ms l_max_t) kappa ux uy uz T0 0 T T
                     (2 * (CONV_TEST * INR d * INR d))
                     (2 * (CONV_TEST * INR d * INR d))).
  { repeat split; try apply dT; try exact HT. }
  destruct (cumul_loop_run d (pc_mk_ms l_max_t) kappa ux uy uz T0 Hms N 0 NITER T T
              _ _ Hstate) as (T' & Eloop & dT' & HT').
  { intros j Hj. apply Hgo. lia. }
  { exact Hstop. }
  { exact HN. }
  cbn [Nat.add] in Eloop, HT'.
  rewrite Eloop.
  destruct (Nat.eqb_spec (S N) NITER) as [EN|EN].
  - eexists. split; [reflexivity|]. left. cbn [c_ret c_log].
    repeat split; try assumption. apply in_or_app. right. left. reflexivity.
  - pose proof (matcopy_to_read h Tmat T' (cumul_scale kappa)) as Hread.
    destruct (matcopy_to h Tmat T') as [h1 p]. cbn [fst snd] in Hread.
    eexists. split; [reflexivity|]. right. split; [lia|].
    exists (cumul_scale kappa T'). unfold returned_matrix. cbn [c_ret c_heap].
    destruct (cumul_scale_spec kappa T') as (Sr & Sc & Sel).
    destruct dT' as [rT cT].
    repeat split; try assumption; try congruence.
    intros i j Hi Hj. rewrite Sel by lia. unfold cm_scal.
    rewrite HT' by assumption. reflexivity.
Qed.

End LPCCUMTL_CALL.

Lemma cumul_guard_first d Mx My Mz kappa ux uy uz T0 :
  0 < CONV_TEST * INR d * INR d ->
  cumul_guard d Mx My Mz kappa ux uy uz T0 0 = true.
Proof.
  intros Hc. unfold cumul_guard, cumul_relerr_at. cbn [fst snd].
  rewrite Rltb_true by lra. reflexivity.
Qed.

(** C4: when ux, uy and uz are all below GEO_TOLERANCE, the call returns at
    once (the static variables are left as they were, no error is logged),
    logs the warning, and the matrix it returns has dimension
    [(l_max_t+1)^2] and holds, at the positions of the natural order of
    (l,m), the T=0 matrix (diagonal, [- tl_0(l) / kappa]) multiplied
    element by element with [- kappa]. *)
Theorem leed_par_cumulative_tl_zero_displacements
  (ext : leed_externals) (st : cumul_static) (h : heap) (Tmat : option ptr)
  (tl_0 : ptr) (tl_0_val : mat_str) (ux uy uz energy : R) (l_max_t l_max_0 : nat) :
  cell h tl_0 = Some tl_0_val ->
  ux < GEO_TOLERANCE -> uy < GEO_TOLERANCE -> uz < GEO_TOLERANCE ->
  exists r M,
    leed_par_cumulative_tl st h Tmat tl_0 ux uy uz energy l_max_t l_max_0 = Some r /\
    c_static r = st /\
    In (Warning, "All displacements are zero: return Tmat(T=0)"%string) (c_log r) /\
    ~ In (Error, "No convergence after NITER iterations"%string) (c_log r) /\
    returned_matrix r = Some M /\
    has_dim (cumul_dim l_max_t) (cumul_dim l_max_t) M /\
    forall l m l' m',
      (l <= l_max_t)%nat -> (- Z.of_nat l <= m <= Z.of_nat l)%Z ->
      (l' <= l_max_t)%nat -> (- Z.of_nat l' <= m' <= Z.of_nat l')%Z ->
      mel M (lm_index l m) (lm_index l' m') =
      Cscal (- cumul_kappa energy)
            (cumul_T0_entry tl_0_val (cumul_kappa energy)
                            (cumul_l0 l_max_t l_max_0) l m l' m').
Proof.
  intros Hcell Hx Hy Hz.
  destruct (cumul_zero_outcome st h Tmat tl_0 tl_0_val ux uy uz energy
              l_max_t l_max_0 Hcell Hx Hy Hz)
    as (r & M & Hr & Hs & Hw & He & HM & Hd & Hel).
  exists r, M. repeat split; try assumption; try apply Hd.
  intros l m l' m' Hl Hm Hl' Hm'.
  rewrite Hel by (apply lm_index_range; assumption).
  unfold cm_scal, cumul_T0_matrix.
  rewrite !l_of_lm_index, !m_of_lm_index by assumption. reflexivity.
Qed.

(** C3: on the path of the iteration (some displacement not below the
    tolerance), with [T_0] the diagonal T=0 matrix,
    [T_(n+1) = - kappa^2/(n+1) * sum_a u_a^2 (M_a M_a T_n + T_n M_a M_a - 2 M_a T_n M_a)]
    and [T_acc] the sum of [T_0 .. T_n]: when the criterion is first met
    after pass [N] (while the loop counter is below NITER), the call returns
    [T_acc] after [N] passes multiplied element by element with [- kappa]. *)
Theorem leed_par_cumulative_tl_recurrence
  (ext : leed_externals) (st : cumul_static) (h : heap) (Tmat : option ptr)
  (tl_0 : ptr) (tl_0_val : mat_str) (ux uy uz energy : R) (l_max_t l_max_0 : nat)
  (N : nat) :
  cell h tl_0 = Some tl_0_val ->
  cumul_nondegenerate ux uy uz ->
  cumul_static_coherent st ->
  pc_ms_ok (cumul_dim l_max_t) (pc_mk_ms l_max_t) ->
  (1 <= N)%nat -> (S N < NITER)%nat ->
  cumul_converged_of tl_0_val ux uy uz energy l_max_t l_max_0 N ->
  (forall j, (1 <= j < N)%nat ->
     ~ cumul_converged_of tl_0_val ux uy uz energy l_max_t l_max_0 j) ->
  exists r M,
    leed_par_cumulative_tl st h Tmat tl_0 ux uy uz energy l_max_t l_max_0 = Some r /\
    returned_matrix r = Some M /\
    has_dim (cumul_dim l_max_t) (cumul_dim l_max_t) M /\
    cm_eq (cumul_dim l_max_t) (cumul_dim l_max_t) (mel M)
      (cm_scal (- cumul_kappa energy)
         (cumul_acc_of tl_0_val ux uy uz energy l_max_t l_max_0 N)).
Proof.
  intros Hcell Hnd Hst Hms HN1 HN2 Hconv Hfirst.
  destruct (cumul_iteration_outcome st h Tmat tl_0 tl_0_val ux uy uz energy
              l_max_t l_max_0 Hcell N Hnd Hst Hms) as (r & Hr & [Hfail|Hsucc]).
  - intros j Hj. unfold cumul_guard_of.
    destruct j as [|j]; [apply cumul_guard_first, cumul_conv_pos|].
    destruct (cumul_guard _ _ _ _ _ _ _ _ _ (S j)) eqn:E; [reflexivity|exfalso].
    apply cumul_guard_converged in E; [|lia].
    apply (Hfirst (S j)); [lia|exact E].
  - unfold cumul_guard_of. destruct N as [|N]; [lia|].
    apply cumul_guard_converged; [lia|exact Hconv].
  - destruct Hfail as (E & _). lia.
  - destruct Hsucc as (_ & M & HM & Hd & Hel). exists r, M. repeat split; try assumption.
    + apply Hd.
    + apply Hd.
Qed.


(** The matrix a call returns is [cumul_value] of the contents of [tl_0] and
    of the scalar arguments, whatever the heap and the output handle. *)
Lemma cumul_returned_value {ext : leed_externals} (st : cumul_static) (h : heap)
      (Tmat : option ptr) (tl_0 : ptr) (tl_0_val : mat_str)
      (ux uy uz energy : R) (l_max_t l_max_0 : nat) :
  cumul_static_coherent st -> cell h tl_0 = Some tl_0_val ->
  option_map returned_matrix
    (leed_par_cumulative_tl st h Tmat tl_0 ux uy uz energy l_max_t l_max_0)
  = Some (cumul_value tl_0_val ux uy uz energy l_max_t l_max_0).
Proof.
  intros Hst Hcell.
  unfold leed_par_cumulative_tl, cumul_value. rewrite Hcell. unfold matcopy.
  match goal with
  | |- context [let (_, _) := ?p in _] =>
      destruct p as [l0' log0] eqn:Ep;
      assert (Hl : l0' = cumul_l0 l_max_t l_max_0)
        by (change l0' with (fst (l0', log0)); rewrite <- Ep; apply cumul_l0_cases);
      subst l0'
  end.
  set (T := cumul_T0 tl_0_val (sqrt (2 * energy)) (cumul_l0 l_max_t l_max_0) _).
  destruct (Rltb ux GEO_TOLERANCE && Rltb uy GEO_TOLERANCE && Rltb uz GEO_TOLERANCE)%bool.
  - pose proof (matcopy_to_read h Tmat T (cumul_scale (sqrt (2 * energy)))) as Hread.
    destruct (matcopy_to h Tmat T) as [h1 p]. cbn [fst snd] in Hread.
    cbn [option_map]. unfold returned_matrix. cbn [c_ret c_heap]. rewrite Hread.
    reflexivity.
  - set (st' := if ((n_call st =? 0)%nat || negb (last_l st =? Z.of_nat l_max_t)%Z)%bool
                then mk_static (n_call st) (last_l st) (Some (pc_mk_ms l_max_t))
                else st).
    assert (Hms' : static_ms st' = Some (pc_mk_ms l_max_t)).
    { subst st'. destruct (Nat.eqb_spec (n_call st) 0) as [E0|E0]; cbn [orb];
        [reflexivity|].
      destruct (Z.eqb_spec (last_l st) (Z.of_nat l_max_t)) as [El|El]; cbn [negb];
        [|reflexivity].
      destruct Hst as [Hc|(l & Hl & Hs)]; [contradiction|].
      rewrite Hs. f_equal. f_equal. lia. }
    rewrite Hms'.
    destruct (cumul_loop NITER (pc_mk_ms l_max_t) (sqrt (2 * energy)) (ux * ux)
                (uy * uy) (uz * uz) _ 1 T T _ _) as [i_iter T_acc].
    destruct (i_iter =? NITER)%nat.
    + reflexivity.
    + pose proof (matcopy_to_read h Tmat T_acc (cumul_scale (sqrt (2 * energy))))
        as Hread.
      destruct (matcopy_to h Tmat T_acc) as [h1 p]. cbn [fst snd] in Hread.
      cbn [option_map]. unfold returned_matrix. cbn [c_ret c_heap]. rewrite Hread.
      reflexivity.
Qed.

(** C10: the matrix returned is determined by the contents of tl_0 and by
    ux, uy, uz, energy, l_max_t and l_max_0: two calls that agree on these
    return the same matrix (or both fail), whatever the heaps, the output
    handles (NULL, a matrix of its own, or tl_0 itself) and the former
    contents of the output; the static matrices are those of a former call
    or none. *)
Theorem leed_par_cumulative_tl_output_only
  (ext : leed_externals) (st st' : cumul_static) (h h' : heap)
  (Tmat Tmat' : option ptr) (tl_0 tl_0' : ptr) (tl_0_val : mat_str)
  (ux uy uz energy : R) (l_max_t l_max_0 : nat) :
  cumul_static_coherent st -> cumul_static_coherent st' ->
  cell h tl_0 = Some tl_0_val -> cell h' tl_0' = Some tl_0_val ->
  option_map returned_matrix
    (leed_par_cumulative_tl st h Tmat tl_0 ux uy uz energy l_max_t l_max_0) =
  option_map returned_matrix
    (leed_par_cumulative_tl st' h' Tmat' tl_0' ux uy uz energy l_max_t l_max_0) /\
  option_map returned_matrix
    (leed_par_cumulative_tl st h (Some tl_0) tl_0 ux uy uz energy l_max_t l_max_0) =
  option_map returned_matrix
    (leed_par_cumulative_tl st h Tmat tl_0 ux uy uz energy l_max_t l_max_0).
Proof.
  intros Hst Hst' Hc Hc'.
  rewrite !(cumul_returned_value st h _ tl_0 tl_0_val) by assumption.
  rewrite (cumul_returned_value st' h' _ tl_0' tl_0_val) by assumption.
  split; reflexivity.
Qed.

(** ** leed_par_mktl_nd *)

Lemma size_t_of_small z : (0 <= z < 2 ^ 64)%Z -> size_t_of z = z.
Proof. intros H. unfold size_t_of. apply Z.mod_small. assumption. Qed.

Lemma mktl_factor_cri_mul delta :
  cri_mul (cos delta) (sin delta) (sin delta) 0 = mktl_factor delta.
Proof.
  unfold cri_mul, mktl_factor, Cscal, Cexp. cbn [fst snd]. rewrite exp_0.
  f_equal; ring.
Qed.

(** The loop that fills the column from the phase shifts. *)
Lemma mktl_fill_spec ph i_eng eng tl :
  cols tl = 1%nat ->
  rows (mktl_fill ph i_eng eng tl) = rows tl /\
  cols (mktl_fill ph i_eng eng tl) = 1%nat /\
  forall l, (l <= lmax ph)%nat ->
    mel (mktl_fill ph i_eng eng tl) (l + 1) 1 =
    mktl_factor (mktl_delta ph i_eng l eng).
Proof.
  intros Hc. unfold mktl_fill.
  pose (P := fun (k : nat) (T : mat_str) =>
    rows T = rows tl /\ cols T = 1%nat /\
    forall l, (l < k)%nat -> mel T (l + 1) 1 = mktl_factor (mktl_delta ph i_eng l eng)).
  assert (H : P (0 + (lmax ph + 1))%nat
                (for_up (lmax ph + 1) 0
                   (fun l tl0 =>
                      set_el tl0 (1 + l)
                        (cri_mul (cos (mktl_delta ph i_eng l eng))
                                 (sin (mktl_delta ph i_eng l eng))
                                 (sin (mktl_delta ph i_eng l eng)) 0)) tl)).
  { apply for_up_ind.
    - unfold P. split; [reflexivity|]. split; [assumption|]. intros l Hl. lia.
    - intros k T Hk (Hr & Hcl & Hel). unfold P. cbn [rows cols set_el].
      split; [assumption|]. split; [assumption|].
      intros l Hl. rewrite mel_set_el, Hcl.
      destruct (Nat.eqb_spec ((l + 1 - 1) * 1 + 1) (1 + k)) as [E|E].
      + assert (l = k) by lia. subst l. apply mktl_factor_cri_mul.
      + apply Hel. lia. }
  destruct H as (Hr & Hcl & Hel).
  split; [exact Hr|]. split; [exact Hcl|].
  intros l Hl. apply Hel. lia.
Qed.



Lemma list_set_length {A : Type} (a : list A) i v :
  (i < List.length a)%nat ->
  exists a', list_set a i v = Some a' /\ List.length a' = List.length a.
Proof.
  revert i. induction a as [|x t IH]; intros i Hi; cbn in Hi; [lia|].
  destruct i as [|j]; cbn [list_set].
  - eexists. split; reflexivity.
  - destruct (IH j ltac:(lia)) as (a' & E & L). rewrite E. cbn.
    eexists. split; [reflexivity|]. cbn. congruence.
Qed.

Lemma matalloc_to_read h M r c :
  cell (fst (matalloc_to h M r c)) (snd (matalloc_to h M r c)) = Some (matalloc r c).
Proof.
  destruct M as [p|]; unfold matalloc_to, heap_new, heap_store; cbn [fst snd cell];
    rewrite Nat.eqb_refl; reflexivity.
Qed.

Lemma heap_update_read h p f M :
  cell h p = Some M -> cell (heap_update h p f) p = Some (f M).
Proof.
  intros E. unfold heap_update. rewrite E. unfold heap_store. cbn [cell].
  rewrite Nat.eqb_refl. reflexivity.
Qed.

Section LPARMKTLND_CALLS.
Context {ext : leed_externals}.

(** A call of the cumulant expansion on an allocated matrix ends, whatever
    it returns, and leaves usable static matrices. *)
Lemma cumul_call_total st h Tmat p ux uy uz e l_max_t l_max_0 :
  cumul_static_usable st -> cell h p <> None ->
  exists r, leed_par_cumulative_tl st h Tmat p ux uy uz e l_max_t l_max_0 = Some r /\
            cumul_static_usable (c_static r).
Proof.
  intros Hst Hc. unfold leed_par_cumulative_tl.
  destruct (cell h p) as [tl|]; [|congruence].
  destruct (if (l_max_t <? l_max_0)%nat then _ else _) as [l0 log0].
  destruct (Rltb ux GEO_TOLERANCE && Rltb uy GEO_TOLERANCE && Rltb uz GEO_TOLERANCE)%bool.
  - destruct (matcopy_to h Tmat _) as [h1 q]. eexists. split; [reflexivity|]. exact Hst.
  - set (st1 := if ((n_call st =? 0)%nat || negb (last_l st =? Z.of_nat l_max_t)%Z)%bool
                then _ else st).
    assert (H1 : exists ms, static_ms st1 = Some ms /\ n_call st1 = n_call st).
    { unfold st1. destruct (Nat.eqb_spec (n_call st) 0) as [E0|E0]; cbn [orb].
      - eexists. split; reflexivity.
      - destruct (negb _).
        + eexists. split; reflexivity.
        + destruct Hst as [Hst|Hst]; [contradiction|].
          destruct (static_ms st) as [ms|]; [|congruence].
          eexists. split; reflexivity. }
    destruct H1 as (ms & Ems & _). rewrite Ems.
    destruct (cumul_loop _ _ _ _ _ _ _ _ _ _ _ _) as [i_iter T].
    destruct (i_iter =? NITER)%nat.
    + eexists. split; [reflexivity|]. right. cbn [c_static]. congruence.
    + destruct (matcopy_to h Tmat T) as [h1 q]. eexists. split; [reflexivity|].
      right. cbn [c_static static_ms]. congruence.
Qed.

Lemma mktl_temperature_total st h p ph l_max eng :
  cumul_static_usable st -> cell h p <> None ->
  exists h' st' log', mktl_temperature st h p ph l_max eng = Some (h', st', log') /\
                      cumul_static_usable st'.
Proof.
  intros Hst Hc. unfold mktl_temperature. destruct (t_type ph).
  - do 3 eexists. split; [reflexivity|assumption].
  - destruct (cumul_call_total st h (Some p) p (dr ph 1) (dr ph 2) (dr ph 3) eng
                               l_max (lmax ph) Hst Hc) as (r & E & U).
    rewrite E. do 3 eexists. split; [reflexivity|assumption].
  - do 3 eexists. split; [reflexivity|assumption].
Qed.

End LPARMKTLND_CALLS.

Section LPARMKTLND_ROUNDS.
Context {ext : leed_externals}.

Lemma mktl_bad_set_dec eng ph : {mktl_bad_set eng ph} + {~ mktl_bad_set eng ph}.
Proof.
  unfold mktl_bad_set, mktl_valid_type.
  destruct (t_type ph) eqn:E.
  - destruct (Rlt_dec eng (eng_min ph)); [left; right; assumption|].
    right. intros [H|H]; [apply H; left; reflexivity|contradiction].
  - destruct (Rlt_dec eng (eng_min ph)); [left; right; assumption|].
    right. intros [H|H]; [apply H; right; reflexivity|contradiction].
  - left. left. intros [H|H]; discriminate.
Qed.



End LPARMKTLND_ROUNDS.



(** ** The model evaluated on concrete inputs *)

Lemma sample_matinv_regular n : matinv_regular sample_externals n.
Proof. split; intros; assumption. Qed.

Lemma cm_mul_zero_l d (B : cmatrix) i j :
  cm_mul d (fun _ _ => Czero) B i j = Czero.
Proof. unfold cm_mul. apply csum_zero. intros k _. apply Cmul_0_l. Qed.

Lemma cm_mul_zero_r d (A : cmatrix) i j :
  cm_mul d A (fun _ _ => Czero) i j = Czero.
Proof. unfold cm_mul. apply csum_zero. intros k _. apply Cmul_0_r. Qed.

Lemma sample_pc_ms_ok l : pc_ms_ok (cumul_dim l) (@pc_mk_ms sample_externals l).
Proof.
  unfold pc_ms_ok, cumul_dim. cbn [pc_mk_ms sample_externals Mx My Mz MxMx MyMy MzMz].
  repeat split; intros i j _ _; symmetry; apply (cm_mul_zero_l _ _ i j).
Qed.

Lemma cumul_axis_zero d T i j : cumul_axis d (fun _ _ => Czero) T i j = Czero.
Proof.
  unfold cumul_axis, cm_sub, cm_add, cm_scal.
  rewrite (cm_mul_zero_r d _ i j).
  assert (E1 : cm_mul d (cm_mul d (fun _ _ => Czero) (fun _ _ => Czero)) T i j = Czero).
  { unfold cm_mul at 1. apply csum_zero. intros k _.
    rewrite (cm_mul_zero_l d _ i k). apply Cmul_0_l. }
  assert (E2 : cm_mul d T (cm_mul d (fun _ _ => Czero) (fun _ _ => Czero)) i j = Czero).
  { unfold cm_mul at 1. apply csum_zero. intros k _.
    rewrite (cm_mul_zero_l d _ k j). apply Cmul_0_r. }
  rewrite E1, E2. cplx_ring.
Qed.

(** With vanishing matrices of the expansion every term after [T_0] is
    zero, and the criterion is met after the first pass. *)
Lemma cumul_T_zero d kappa ux uy uz T0 n i j :
  cumul_T d (fun _ _ => Czero) (fun _ _ => Czero) (fun _ _ => Czero)
          kappa ux uy uz T0 (S n) i j = Czero.
Proof.
  cbn [cumul_T]. unfold cumul_next, cm_scal, cm_add.
  rewrite !cumul_axis_zero. cplx_ring.
Qed.

Lemma rsum_zero n f : (forall k, (1 <= k <= n)%nat -> f k = 0) -> rsum n f = 0.
Proof.
  induction n as [|n IH]; intros H; cbn [rsum]; [reflexivity|].
  rewrite IH by (intros; apply H; lia). rewrite H by lia. ring.
Qed.

Lemma cumul_change_zero part d (Tn Tacc : cmatrix) :
  (forall i j, part (Tn i j) = 0) -> cumul_change part d Tn Tacc = 0.
Proof.
  intros H. unfold cumul_change. apply rsum_zero. intros i _.
  apply rsum_zero. intros j _.
  destruct (Req_dec_T (part (Tacc i j)) 0); [reflexivity|].
  rewrite H. unfold Rdiv. rewrite Rmult_0_l. apply Rabs_R0.
Qed.

Lemma sample_converged tl ux uy uz e l l0 n :
  @cumul_converged_of sample_externals tl ux uy uz e l l0 (S n).
Proof.
  unfold cumul_converged_of, cumul_converged.
  pose proof (cumul_conv_pos l) as Hpos.
  cbn [pc_mk_ms sample_externals Mx My Mz].
  change (mel (matalloc ((l + 1) * (l + 1)) ((l + 1) * (l + 1))))
    with (fun (_ _ : nat) => Czero).
  split; (rewrite cumul_change_zero;
          [lra|intros i j; rewrite cumul_T_zero; reflexivity]).
Qed.

(** C1 on 1x1 matrices and one beam. *)
Lemma leed_ld_2lay_rpm_elements_witness :
  has_dim 1 1
    (@leed_ld_2lay_rpm sample_externals (matalloc 1 1) (matalloc 1 1) (matalloc 1 1)
       (matalloc 1 1) (matalloc 1 1) [beam_zero] (fun _ => 1)) /\
  cm_eq 1 1
    (mel (@leed_ld_2lay_rpm sample_externals (matalloc 1 1) (matalloc 1 1)
            (matalloc 1 1) (matalloc 1 1) (matalloc 1 1) [beam_zero] (fun _ => 1)))
    (@ld_formula sample_externals 1 (mel (matalloc 1 1)) (mel (matalloc 1 1))
       (mel (matalloc 1 1)) (mel (matalloc 1 1)) (mel (matalloc 1 1))
       (ld_Pplus [beam_zero] (fun _ => 1)) (ld_Pminus [beam_zero] (fun _ => 1))).
Proof.
  apply (@leed_ld_2lay_rpm_elements sample_externals 1 (matalloc 1 1) (matalloc 1 1)
           (matalloc 1 1) (matalloc 1 1) (matalloc 1 1) [beam_zero] (fun _ => 1)).
  - apply sample_matinv_regular.
  - split; reflexivity.
  - split; reflexivity.
  - split; reflexivity.
  - split; reflexivity.
  - split; reflexivity.
Defined.

(** C4 with all displacements zero. *)
Lemma leed_par_cumulative_tl_zero_displacements_witness :
  exists r M,
    @leed_par_cumulative_tl sample_externals cumul_static_init
      (heap_one (matalloc 1 1)) None 0%nat 0 0 0 (1 / 2) 0 0 = Some r /\
    c_static r = cumul_static_init /\
    In (Warning, "All displacements are zero: return Tmat(T=0)"%string) (c_log r) /\
    ~ In (Error, "No convergence after NITER iterations"%string) (c_log r) /\
    returned_matrix r = Some M /\
    has_dim (cumul_dim 0) (cumul_dim 0) M /\
    forall l m l' m',
      (l <= 0)%nat -> (- Z.of_nat l <= m <= Z.of_nat l)%Z ->
      (l' <= 0)%nat -> (- Z.of_nat l' <= m' <= Z.of_nat l')%Z ->
      mel M (lm_index l m) (lm_index l' m') =
      Cscal (- cumul_kappa (1 / 2))
            (cumul_T0_entry (matalloc 1 1) (cumul_kappa (1 / 2)) (cumul_l0 0 0) l m l' m').
Proof.
  apply (leed_par_cumulative_tl_zero_displacements sample_externals cumul_static_init
           (heap_one (matalloc 1 1)) None 0%nat (matalloc 1 1) 0 0 0 (1 / 2) 0 0).
  - reflexivity.
  - unfold GEO_TOLERANCE; lra.
  - unfold GEO_TOLERANCE; lra.
  - unfold GEO_TOLERANCE; lra.
Defined.

(** C3 with vanishing matrices of the expansion: the criterion is met after
    the first pass. *)
Lemma leed_par_cumulative_tl_recurrence_witness :
  exists r M,
    @leed_par_cumulative_tl sample_externals cumul_static_init
      (heap_one (matalloc 1 1)) None 0%nat 1 0 0 (1 / 2) 0 0 = Some r /\
    returned_matrix r = Some M /\
    has_dim (cumul_dim 0) (cumul_dim 0) M /\
    cm_eq (cumul_dim 0) (cumul_dim 0) (mel M)
      (cm_scal (- cumul_kappa (1 / 2))
         (@cumul_acc_of sample_externals (matalloc 1 1) 1 0 0 (1 / 2) 0 0 1)).
Proof.
  apply (leed_par_cumulative_tl_recurrence sample_externals cumul_static_init
           (heap_one (matalloc 1 1)) None 0%nat (matalloc 1 1) 1 0 0 (1 / 2) 0 0 1).
  - reflexivity.
  - unfold cumul_nondegenerate, GEO_TOLERANCE. lra.
  - left. reflexivity.
  - apply sample_pc_ms_ok.
  - lia.
  - unfold NITER. lia.
  - apply sample_converged.
  - intros j Hj. lia.
Defined.

(** C10 with the output aliased to the input. *)
Lemma leed_par_cumulative_tl_output_only_witness :
  option_map returned_matrix
    (@leed_par_cumulative_tl sample_externals cumul_static_init
       (heap_one (matalloc 1 1)) None 0%nat 1 0 0 (1 / 2) 0 0) =
  option_map returned_matrix
    (@leed_par_cumulative_tl sample_externals cumul_static_init
       (heap_one (matalloc 1 1)) (Some 0%nat) 0%nat 1 0 0 (1 / 2) 0 0) /\
  option_map returned_matrix
    (@leed_par_cumulative_tl sample_externals cumul_static_init
       (heap_one (matalloc 1 1)) (Some 0%nat) 0%nat 1 0 0 (1 / 2) 0 0) =
  option_map returned_matrix
    (@leed_par_cumulative_tl sample_externals cumul_static_init
       (heap_one (matalloc 1 1)) None 0%nat 1 0 0 (1 / 2) 0 0).
Proof.
  apply (leed_par_cumulative_tl_output_only sample_externals
           cumul_static_init cumul_static_init
           (heap_one (matalloc 1 1)) (heap_one (matalloc 1 1))
           None (Some 0%nat) 0%nat 0%nat (matalloc 1 1) 1 0 0 (1 / 2) 0 0).
  - left. reflexivity.
  - left. reflexivity.
  - reflexivity.
  - reflexivity.
Defined.



(** ** leed_ms_lsum_ij *)

Lemma R_nint_bounds x : IZR (R_nint x) - / 2 <= x < IZR (R_nint x) + / 2.
Proof.
  unfold R_nint. rewrite minus_IZR.
  destruct (archimed (x + / 2)) as [H1 H2]. split; lra.
Qed.

Lemma R_nint_unique x z : IZR z - / 2 <= x < IZR z + / 2 -> R_nint x = z.
Proof.
  intros [H1 H2]. destruct (R_nint_bounds x) as [B1 B2].
  assert (L1 : (R_nint x < z + 1)%Z) by (apply lt_IZR; rewrite plus_IZR; lra).
  assert (L2 : (z < R_nint x + 1)%Z) by (apply lt_IZR; rewrite plus_IZR; lra).
  lia.
Qed.

(** An integer above (below) a real is not below (above) its nearest
    integer. *)
Lemma R_nint_le_int x n : x < IZR n -> (R_nint x <= n)%Z.
Proof.
  intros H. destruct (R_nint_bounds x) as [B1 _].
  assert (L : (R_nint x < n + 1)%Z) by (apply lt_IZR; rewrite plus_IZR; lra).
  lia.
Qed.

Lemma R_nint_ge_int x n : IZR n < x -> (n <= R_nint x)%Z.
Proof.
  intros H. destruct (R_nint_bounds x) as [_ B2].
  assert (L : (n < R_nint x + 1)%Z) by (apply lt_IZR; rewrite plus_IZR; lra).
  lia.
Qed.

(** A real whose square is below [D] lies between the roots. *)
Lemma square_below_sqrt t D : t * t < D -> - sqrt D < t < sqrt D.
Proof.
  intros H.
  assert (HD : 0 <= D) by nra.
  pose proof (sqrt_pos D) as Hs. pose proof (sqrt_sqrt D HD) as Hss.
  split; nra.
Qed.

Section LSUM_RANGES.
Variables f1 f2 f12 f1d f2d fd r_max : R.
Variables n1 n2 : Z.
Hypothesis f2_pos : 0 < f2.
Hypothesis inside :
  f1 * IZR n1 * IZR n1 + f2 * IZR n2 * IZR n2 + 2 * f12 * IZR n1 * IZR n2 +
  2 * f1d * IZR n1 + 2 * f2d * IZR n2 + fd < r_max.

(** The quadratic for [n2]: a point inside the radius lies between the
    rounded roots. *)
Lemma lsum_n2_cover :
  (fst (lsum_n2_bounds f1 f2 f12 f1d f2d fd r_max n1) <= n2 <=
   snd (lsum_n2_bounds f1 f2 f12 f1d f2d fd r_max n1))%Z.
Proof.
  unfold lsum_n2_bounds. cbn [fst snd].
  set (X := IZR n1) in *. set (Y := IZR n2) in *.
  set (fb := X * f12 + f2d). set (fc := f1 * X * X + 2 * f1d * X + fd - r_max).
  assert (Hsq : (f2 * Y + fb) * (f2 * Y + fb) < fb * fb - f2 * fc).
  { unfold fb, fc. nra. }
  destruct (square_below_sqrt _ _ Hsq) as [Hlo Hhi].
  set (s := sqrt (fb * fb - f2 * fc)) in *.
  assert (Hq : 0 < / f2) by (apply Rinv_0_lt_compat; exact f2_pos).
  assert (Hq1 : f2 * / f2 = 1) by (apply Rinv_r; lra).
  split.
  - apply R_nint_le_int. fold Y. unfold Rdiv.
    assert (E : Y - (- fb * / f2 - s * / f2) = (f2 * Y + fb + s) * / f2).
    { transitivity (Y * (f2 * / f2) + (fb + s) * / f2); [rewrite Hq1; ring|ring]. }
    assert (0 < (f2 * Y + fb + s) * / f2) by (apply Rmult_lt_0_compat; lra).
    lra.
  - apply R_nint_ge_int. fold Y. unfold Rdiv.
    assert (E : (- fb * / f2 + s * / f2) - Y = (s - (f2 * Y + fb)) * / f2).
    { transitivity ((s - fb) * / f2 - Y * (f2 * / f2)); [rewrite Hq1; ring|ring]. }
    assert (0 < (s - (f2 * Y + fb)) * / f2) by (apply Rmult_lt_0_compat; lra).
    lra.
Qed.

Hypothesis fa_neg : f12 * f12 - f1 * f2 < 0.

(** The quadratic for [n1], from the discriminant of the one for [n2]. *)
Lemma lsum_n1_cover :
  (fst (lsum_n1_bounds f1 f2 f12 f1d f2d fd r_max) <= n1 <=
   snd (lsum_n1_bounds f1 f2 f12 f1d f2d fd r_max))%Z.
Proof.
  unfold lsum_n1_bounds. cbn [fst snd].
  set (X := IZR n1) in *. set (Y := IZR n2) in *.
  set (fa := f12 * f12 - f1 * f2) in *.
  set (fb := f12 * f2d - f1d * f2). set (fc := f2d * f2d - f2 * fd + f2 * r_max).
  assert (Hdisc : 0 < fa * X * X + 2 * fb * X + fc).
  { assert (Hsq : (f2 * Y + (X * f12 + f2d)) * (f2 * Y + (X * f12 + f2d)) <
                  (X * f12 + f2d) * (X * f12 + f2d) -
                  f2 * (f1 * X * X + 2 * f1d * X + fd - r_max)) by nra.
    pose proof (Rle_0_sqr (f2 * Y + (X * f12 + f2d))) as Hnn. unfold Rsqr in Hnn.
    unfold fa, fb, fc. nra. }
  assert (Hsq : (fa * X + fb) * (fa * X + fb) < fb * fb - fa * fc) by nra.
  destruct (square_below_sqrt _ _ Hsq) as [Hlo Hhi].
  assert (Hpos : 0 < fb * fb - fa * fc).
  { pose proof (Rle_0_sqr (fa * X + fb)) as Hnn. unfold Rsqr in Hnn. lra. }
  rewrite (Rltb_true _ _ Hpos).
  set (s := sqrt (fb * fb - fa * fc)) in *.
  assert (Hq : 0 < / - fa) by (apply Rinv_0_lt_compat; lra).
  assert (Hq1 : fa * / fa = 1) by (apply Rinv_r; lra).
  assert (Hq2 : / - fa = - / fa) by (apply Rinv_opp).
  split.
  - apply R_nint_le_int. fold X. unfold Rdiv.
    assert (E : X - (- fb * / fa + s * / fa) = (s - (fa * X + fb)) * / - fa).
    { rewrite Hq2.
      transitivity (X * (fa * / fa) - (s - fb) * / fa); [rewrite Hq1; ring|ring]. }
    assert (0 < (s - (fa * X + fb)) * / - fa) by (apply Rmult_lt_0_compat; lra).
    lra.
  - apply R_nint_ge_int. fold X. unfold Rdiv.
    assert (E : (- fb * / fa - s * / fa) - X = (fa * X + fb + s) * / - fa).
    { rewrite Hq2.
      transitivity (- (fb + s) * / fa - X * (fa * / fa)); [rewrite Hq1; ring|ring]. }
    assert (0 < (fa * X + fb + s) * / - fa) by (apply Rmult_lt_0_compat; lra).
    lra.
Qed.

End LSUM_RANGES.


Lemma walk_list_In count n p_x p_y s_x s_y n' q_x q_y :
  In (n', (q_x, q_y)) (walk_list count n p_x p_y s_x s_y) <->
  (n <= n' < n + Z.of_nat count)%Z /\
  q_x = p_x + IZR (n' - n) * s_x /\ q_y = p_y + IZR (n' - n) * s_y.
Proof.
  revert n p_x p_y. induction count as [|c IH]; intros n p_x p_y; cbn [walk_list In].
  - split; [intros []|intros [H _]; lia].
  - rewrite IH. split.
    + intros [E|(Hn & Ex & Ey)].
      * inversion E; subst. rewrite Z.sub_diag.
        split; [lia|]. split; ring.
      * split; [lia|].
        replace (n' - n)%Z with (n' - (n + 1) + 1)%Z by lia.
        rewrite plus_IZR. split; [rewrite Ex|rewrite Ey]; ring.
    + intros (Hn & Ex & Ey).
      destruct (Z.eq_dec n' n) as [->|Hne].
      * left. rewrite Z.sub_diag in Ex, Ey. f_equal. f_equal; [rewrite Ex|rewrite Ey]; ring.
      * right. split; [lia|].
        replace (n' - n)%Z with (n' - (n + 1) + 1)%Z in Ex, Ey by lia.
        rewrite plus_IZR in Ex, Ey. split; [rewrite Ex|rewrite Ey]; ring.
Qed.

Lemma walk_count_range n_min n_max n :
  (n_min <= n < n_min + Z.of_nat (walk_count n_min n_max))%Z <->
  (n_min <= n <= n_max)%Z.
Proof. unfold walk_count. lia. Qed.

Lemma fold_left_flat_map {A B St : Type} (f : A -> list B) (g : St -> B -> St) l s :
  fold_left g (flat_map f l) s = fold_left (fun s x => fold_left g (f x) s) l s.
Proof.
  revert s. induction l as [|x l IH]; intros s; cbn; [reflexivity|].
  rewrite fold_left_app. apply IH.
Qed.

Lemma fold_left_map {A B St : Type} (f : A -> B) (g : St -> B -> St) l s :
  fold_left g (map f l) s = fold_left (fun s x => g s (f x)) l s.
Proof.
  revert s. induction l as [|x l IH]; intros s; cbn; [reflexivity|]. apply IH.
Qed.

Lemma fold_left_ext {A St : Type} (g h : St -> A -> St) l s :
  (forall s x, g s x = h s x) -> fold_left g l s = fold_left h l s.
Proof.
  intros E. revert s. induction l as [|x l IH]; intros s; cbn; [reflexivity|].
  rewrite E. apply IH.
Qed.


(** The passes that are made: [n1] and [n2] run over their ranges, and the
    lattice vector of the pass is [(n1 - n1_min - n1_max) a1 + n2 a2]. *)
Lemma lsum_visited_In a d_ij r_max n1 n2 p_x p_y :
  In (n1, n2, (p_x, p_y)) (lsum_visited a d_ij r_max) <->
  (fst (lsum_n1_range a d_ij r_max) <= n1 <= snd (lsum_n1_range a d_ij r_max))%Z /\
  (fst (lsum_n2_range a d_ij r_max n1) <= n2 <= snd (lsum_n2_range a d_ij r_max n1))%Z /\
  p_x = IZR (n1 - fst (lsum_n1_range a d_ij r_max) - snd (lsum_n1_range a d_ij r_max))
        * a 1%nat + IZR n2 * a 2%nat /\
  p_y = IZR (n1 - fst (lsum_n1_range a d_ij r_max) - snd (lsum_n1_range a d_ij r_max))
        * a 3%nat + IZR n2 * a 4%nat.
Proof.
  unfold lsum_visited.
  destruct (lsum_n1_range a d_ij r_max) as [n1_min n1_max]. cbn [fst snd].
  rewrite in_flat_map. split.
  - intros ([m1 [p0_x p0_y]] & Hrow & Hcol). cbn [fst snd] in Hcol.
    destruct (lsum_n2_range a d_ij r_max m1) as [n2_min n2_max] eqn:E2.
    apply in_map_iff in Hcol. destruct Hcol as ([m2 [q_x q_y]] & Eq & Hcol).
    cbn [fst snd] in Eq. inversion Eq; subst. clear Eq.
    apply walk_list_In in Hrow. destruct Hrow as (H1 & Ex0 & Ey0).
    apply walk_list_In in Hcol. destruct Hcol as (H2 & Ex & Ey).
    apply walk_count_range in H1. apply walk_count_range in H2.
    rewrite E2. cbn [fst snd].
    split; [exact H1|]. split; [exact H2|].
    rewrite Ex, Ey, Ex0, Ey0.
    rewrite !minus_IZR, !plus_IZR. split; ring.
  - intros (H1 & H2 & Ex & Ey).
    exists (n1, (- IZR (n1_max - 0) * a 1%nat + IZR (n1 - n1_min) * a 1%nat,
                 - IZR (n1_max - 0) * a 3%nat + IZR (n1 - n1_min) * a 3%nat)).
    split.
    + apply walk_list_In. split; [apply walk_count_range; exact H1|]. split; reflexivity.
    + cbn [fst snd].
      destruct (lsum_n2_range a d_ij r_max n1) as [n2_min n2_max]. cbn [fst snd] in H2.
      apply in_map_iff.
      exists (n2, (p_x, p_y)). split; [reflexivity|].
      apply walk_list_In. split; [apply walk_count_range; exact H2|].
      rewrite Ex, Ey. rewrite !minus_IZR, !plus_IZR. split; ring.
Qed.


(** The index ranges are wide enough: a lattice point [n1 a1 + n2 a2 + d_ij]
    whose squared distance from the origin is below [r_max] has its indices
    inside the ranges computed for [n1] and, at this [n1], for [n2]. *)
Lemma lsum_ranges_cover (a d_ij : nat -> R) (r_max : R) (n1 n2 : Z) :
  lsum_cell_regular a ->
  lsum_dist2 a d_ij n1 n2 < r_max ->
  (fst (lsum_n1_range a d_ij r_max) <= n1 <= snd (lsum_n1_range a d_ij r_max))%Z /\
  (fst (lsum_n2_range a d_ij r_max n1) <= n2 <= snd (lsum_n2_range a d_ij r_max n1))%Z.
Proof.
  unfold lsum_cell_regular, lsum_dist2, lsum_n1_range, lsum_n2_range.
  cbv zeta. intros Hreg Hin.
  set (f1 := a 1%nat * a 1%nat + a 3%nat * a 3%nat) in *.
  set (f2 := a 2%nat * a 2%nat + a 4%nat * a 4%nat) in *.
  set (f12 := a 1%nat * a 2%nat + a 3%nat * a 4%nat) in *.
  set (f1d := a 1%nat * d_ij 1%nat + a 3%nat * d_ij 2%nat).
  set (f2d := a 2%nat * d_ij 1%nat + a 4%nat * d_ij 2%nat).
  set (fd := d_ij 1%nat * d_ij 1%nat + d_ij 2%nat * d_ij 2%nat + d_ij 3%nat * d_ij 3%nat).
  assert (Hf2 : 0 < f2).
  { pose proof (Rle_0_sqr (a 2%nat)) as H2. pose proof (Rle_0_sqr (a 4%nat)) as H4.
    pose proof (Rle_0_sqr f12) as H12. unfold Rsqr in *.
    pose proof (Rle_0_sqr (a 1%nat)) as H1. pose proof (Rle_0_sqr (a 3%nat)) as H3.
    unfold Rsqr in *.
    assert (0 <= f2) by (unfold f2; lra).
    assert (0 <= f1) by (unfold f1; lra).
    destruct (Req_dec f2 0) as [E|E]; [rewrite E in Hreg; lra|lra]. }
  assert (Hpoly :
    f1 * IZR n1 * IZR n1 + f2 * IZR n2 * IZR n2 + 2 * f12 * IZR n1 * IZR n2 +
    2 * f1d * IZR n1 + 2 * f2d * IZR n2 + fd < r_max).
  { eapply Rle_lt_trans; [|exact Hin]. right. unfold f1, f2, f12, f1d, f2d, fd. ring. }
  split.
  - exact (lsum_n1_cover f1 f2 f12 f1d f2d fd r_max n1 n2 Hf2 Hpoly Hreg).
  - exact (lsum_n2_cover f1 f2 f12 f1d f2d fd r_max n1 n2 Hf2 Hpoly).
Qed.

(** The ranges on the unit square lattice displaced by half a lattice
    constant, for the radius 1.7. *)
Lemma sample_n1_range :
  lsum_n1_range sample_cell sample_shift (1.7 * 1.7) = ((-2)%Z, 1%Z).
Proof.
  unfold lsum_n1_range, lsum_n1_bounds. cbn [sample_cell sample_shift].
  match goal with
  | |- context [Rltb 0 ?d] =>
      replace d with (1.7 * 1.7) by lra
  end.
  rewrite (Rltb_true 0 (1.7 * 1.7)) by lra.
  match goal with
  | |- context [sqrt ?d] => replace d with (1.7 * 1.7) by lra
  end.
  rewrite sqrt_square by lra.
  f_equal; apply R_nint_unique; cbn [IZR IPR IPR_2]; lra.
Qed.

(** C6 (the code departs from it): on the unit square lattice displaced by
    half a lattice constant along a1, with the radius 1.7, the lattice
    point -2 a1 + d_ij lies inside the radius and outside the tolerance
    around the origin, its indices lie in the computed ranges, and yet no
    pass of the loops of leed_ms_lsum_ij is made at the lattice vector
    -2 a1 = (-2, 0): the passes start at -n1_max a1, not at n1_min a1. *)
Theorem leed_ms_lsum_ij_misses_lattice_point :
  lsum_cell_regular sample_cell /\
  GEO_TOLERANCE < lsum_dist2 sample_cell sample_shift (-2) 0 < 1.7 * 1.7 /\
  ((fst (lsum_n1_range sample_cell sample_shift (1.7 * 1.7)) <= -2 <=
    snd (lsum_n1_range sample_cell sample_shift (1.7 * 1.7)))%Z /\
   (fst (lsum_n2_range sample_cell sample_shift (1.7 * 1.7) (-2)) <= 0 <=
    snd (lsum_n2_range sample_cell sample_shift (1.7 * 1.7) (-2)))%Z) /\
  (forall n1 n2 : Z,
     ~ In (n1, n2, (-2, 0)) (lsum_visited sample_cell sample_shift (1.7 * 1.7))).
Proof.
  assert (Hreg : lsum_cell_regular sample_cell).
  { unfold lsum_cell_regular. cbn [sample_cell]. lra. }
  assert (Hd : GEO_TOLERANCE < lsum_dist2 sample_cell sample_shift (-2) 0 < 1.7 * 1.7).
  { unfold lsum_dist2, GEO_TOLERANCE. cbn [sample_cell sample_shift]. lra. }
  split; [exact Hreg|]. split; [exact Hd|]. split.
  - apply lsum_ranges_cover; [exact Hreg|apply Hd].
  - intros n1 n2 Hin. apply lsum_visited_In in Hin.
    destruct Hin as (H1 & _ & Ex & _).
    rewrite sample_n1_range in H1, Ex. cbn [fst snd sample_cell] in H1, Ex.
    assert (E : IZR (n1 - -2 - 1) = IZR (-2)) by lra.
    apply eq_IZR in E. lia.
Qed.

(** ** leed_beam_gen *)

Lemma for_z_fold {St : Type} count n (body : Z -> St -> St) s :
  for_z count n body s =
  fold_left (fun s k => body k s)
            (map (fun k => (n + Z.of_nat k)%Z) (seq 0 count)) s.
Proof.
  revert n s. induction count as [|c IH]; intros n s; [reflexivity|].
  cbn [for_z seq map fold_left]. rewrite IH, <- seq_shift, map_map.
  replace (n + Z.of_nat 0)%Z with n by lia.
  f_equal. apply map_ext. intros k. lia.
Qed.

Lemma for_z_range {St : Type} lo hi (body : Z -> St -> St) s :
  for_z (walk_count lo hi) lo body s = fold_left (fun s k => body k s) (z_range lo hi) s.
Proof. apply for_z_fold. Qed.

(** The loops over the beam indices are a fold over the pairs of indices. *)
Lemma gen_beams_fold c_par k_in k_max_2 n1_max n2_max off i_set cap s :
  gen_beams c_par k_in k_max_2 n1_max n2_max off i_set cap s =
  fold_left (fun s n => gen_beam c_par k_in k_max_2 off i_set cap (fst n) (snd n) s)
            (gen_candidates n1_max n2_max) s.
Proof.
  unfold gen_beams, gen_candidates. rewrite for_z_range, fold_left_flat_map.
  apply fold_left_ext. intros s0 n1. rewrite for_z_range, fold_left_map. reflexivity.
Qed.

(** The beams of the pairs that pass the test are written one after the
    other from [i_beams] on, when they fit. *)
Lemma gen_beam_fold c_par k_in k_max_2 off i_set cap pts :
  forall beams i_beams,
    (i_beams + List.length (filter (gen_inside c_par k_in k_max_2 off) pts) <= cap)%nat ->
    exists beams',
      fold_left (fun s n => gen_beam c_par k_in k_max_2 off i_set cap (fst n) (snd n) s)
                pts (Some (beams, i_beams)) =
      Some (beams',
            (i_beams + List.length (filter (gen_inside c_par k_in k_max_2 off) pts))%nat) /\
      (forall q, (q < i_beams)%nat \/
                 (i_beams + List.length (filter (gen_inside c_par k_in k_max_2 off) pts)
                  <= q)%nat ->
                 beams' q = beams q) /\
      (forall k n, nth_error (filter (gen_inside c_par k_in k_max_2 off) pts) k = Some n ->
                   beams' (i_beams + k)%nat =
                   gen_new c_par off i_set (beams (i_beams + k)%nat) n).
Proof.
  induction pts as [|p pts IH]; intros beams i_beams Hcap.
  - exists beams. cbn. rewrite Nat.add_0_r. split; [reflexivity|].
    split; [reflexivity|]. intros k n H. destruct k; discriminate.
  - cbn [filter fold_left] in *.
    assert (Estep : gen_beam c_par k_in k_max_2 off i_set cap (fst p) (snd p)
                             (Some (beams, i_beams)) =
                    if gen_inside c_par k_in k_max_2 off p
                    then if (cap <=? i_beams)%nat then None
                         else Some (beam_put beams i_beams
                                      (gen_new c_par off i_set (beams i_beams) p),
                                    S i_beams)
                    else Some (beams, i_beams)).
    { reflexivity. }
    rewrite Estep. clear Estep.
    destruct (gen_inside c_par k_in k_max_2 off p) eqn:Ein.
    + cbn [List.length] in Hcap.
      destruct (Nat.leb_spec cap i_beams) as [Hle|Hlt]; [lia|].
      destruct (IH (beam_put beams i_beams (gen_new c_par off i_set (beams i_beams) p))
                   (S i_beams) ltac:(lia)) as (beams' & E & Hframe & Hnew).
      exists beams'. cbn [List.length].
      replace (i_beams + S (List.length (filter (gen_inside c_par k_in k_max_2 off) pts)))%nat
        with (S i_beams + List.length (filter (gen_inside c_par k_in k_max_2 off) pts))%nat
        by lia.
      split; [exact E|]. split.
      * intros q Hq. rewrite Hframe by lia. unfold beam_put.
        destruct (Nat.eqb_spec q i_beams); [lia|reflexivity].
      * intros k n Hk. destruct k as [|k].
        -- cbn in Hk. inversion Hk; subst n. rewrite Nat.add_0_r.
           rewrite Hframe by lia. unfold beam_put. rewrite Nat.eqb_refl. reflexivity.
        -- cbn [nth_error] in Hk.
           replace (i_beams + S k)%nat with (S i_beams + k)%nat by lia.
           rewrite (Hnew k n Hk). unfold beam_put.
           destruct (Nat.eqb_spec (S i_beams + k) i_beams); [lia|reflexivity].
    + destruct (IH beams i_beams Hcap) as (beams' & E & Hframe & Hnew).
      exists beams'. split; [exact E|]. split; assumption.
Qed.

Lemma beam_swap_at b n1 n2 q :
  beam_swap b n1 n2 q =
  if (q =? n1)%nat then b n2 else if (q =? n2)%nat then b n1 else b q.
Proof. reflexivity. Qed.

Lemma seg_same_refl b lo hi : seg_same b b lo hi.
Proof. intros q _. reflexivity. Qed.

Lemma seg_from_refl b lo hi : seg_from b b lo hi.
Proof. intros i Hi. exists i. split; [exact Hi|reflexivity]. Qed.

Lemma seg_same_trans b2 b1 b0 lo hi :
  seg_same b2 b1 lo hi -> seg_same b1 b0 lo hi -> seg_same b2 b0 lo hi.
Proof. intros H2 H1 q Hq. rewrite H2, H1 by assumption. reflexivity. Qed.

Lemma seg_from_trans b2 b1 b0 lo hi :
  seg_from b2 b1 lo hi -> seg_from b1 b0 lo hi -> seg_from b2 b0 lo hi.
Proof.
  intros H2 H1 i Hi. destruct (H2 i Hi) as (i1 & Hi1 & E1).
  destruct (H1 i1 Hi1) as (i0 & Hi0 & E0). exists i0. split; [exact Hi0|congruence].
Qed.

Lemma seg_same_wide b' b lo lo' hi' hi :
  (lo <= lo')%nat -> (hi' <= hi)%nat -> seg_same b' b lo' hi' -> seg_same b' b lo hi.
Proof. intros Hl Hh H q Hq. apply H. lia. Qed.

Lemma seg_from_wide b' b lo lo' hi' hi :
  (lo <= lo')%nat -> (hi' <= hi)%nat ->
  seg_same b' b lo' hi' -> seg_from b' b lo' hi' -> seg_from b' b lo hi.
Proof.
  intros Hl Hh Hs Hf i Hi.
  destruct (le_lt_dec lo' i) as [H1|H1]; [destruct (le_lt_dec hi' i) as [H2|H2]|].
  - exists i. split; [exact Hi|]. apply Hs. lia.
  - destruct (Hf i ltac:(lia)) as (i' & Hi' & E). exists i'. split; [lia|exact E].
  - exists i. split; [exact Hi|]. apply Hs. lia.
Qed.

Lemma seg_perm_refl b lo hi : seg_perm b b lo hi.
Proof. split; apply seg_from_refl. Qed.

Lemma seg_perm_trans b2 b1 b0 lo hi :
  seg_perm b2 b1 lo hi -> seg_perm b1 b0 lo hi -> seg_perm b2 b0 lo hi.
Proof.
  intros [H2 H2'] [H1 H1']. split; eapply seg_from_trans; eassumption.
Qed.

Lemma seg_perm_wide b' b lo lo' hi' hi :
  (lo <= lo')%nat -> (hi' <= hi)%nat ->
  seg_same b' b lo' hi' -> seg_perm b' b lo' hi' -> seg_perm b' b lo hi.
Proof.
  intros Hl Hh Hs [Hf Hf']. split.
  - eapply seg_from_wide; eassumption.
  - apply (seg_from_wide b b' lo lo' hi' hi); [assumption|assumption| |assumption].
    intros q Hq. symmetry. apply Hs. exact Hq.
Qed.

Lemma beam_swap_seg b lo hi n1 n2 :
  (lo <= n1 < hi)%nat -> (lo <= n2 < hi)%nat ->
  seg_same (beam_swap b n1 n2) b lo hi /\ seg_perm (beam_swap b n1 n2) b lo hi.
Proof.
  intros H1 H2. split; [|split].
  - intros q Hq. rewrite beam_swap_at.
    destruct (Nat.eqb_spec q n1); [lia|]. destruct (Nat.eqb_spec q n2); [lia|reflexivity].
  - intros i Hi. rewrite beam_swap_at.
    destruct (Nat.eqb_spec i n1); [exists n2; split; [lia|reflexivity]|].
    destruct (Nat.eqb_spec i n2); [exists n1; split; [lia|reflexivity]|].
    exists i. split; [lia|reflexivity].
  - intros i Hi.
    destruct (Nat.eq_dec i n1) as [->|Hn1].
    + exists n2. split; [lia|]. rewrite beam_swap_at.
      destruct (Nat.eqb_spec n2 n1) as [->|]; [reflexivity|].
      rewrite Nat.eqb_refl. reflexivity.
    + destruct (Nat.eq_dec i n2) as [->|Hn2].
      * exists n1. split; [lia|]. rewrite beam_swap_at, Nat.eqb_refl. reflexivity.
      * exists i. split; [lia|]. rewrite beam_swap_at.
        destruct (Nat.eqb_spec i n1); [contradiction|].
        destruct (Nat.eqb_spec i n2); [contradiction|reflexivity].
Qed.

(** The inner loop of the first pass leaves at [n1] a beam whose [k_par]
    is not above those of the slots after it. *)
Lemma sort_k_par_inner b n1 hi :
  (n1 < hi)%nat ->
  let b' := for_up (hi - (n1 + 1)) (n1 + 1)
              (fun n2 beams =>
                 if Rltb (k_par (beams n2)) (k_par (beams n1))
                 then beam_swap beams n1 n2 else beams) b in
  seg_same b' b n1 hi /\ seg_perm b' b n1 hi /\
  forall m, (n1 < m < hi)%nat -> k_par (b' n1) <= k_par (b' m).
Proof.
  intros Hn b'.
  pose (P := fun (k : nat) (c : beam_array) =>
    seg_same c b n1 hi /\ seg_perm c b n1 hi /\
    forall m, (n1 < m < k)%nat -> k_par (c n1) <= k_par (c m)).
  assert (H : P ((n1 + 1) + (hi - (n1 + 1)))%nat b').
  { apply for_up_ind.
    - unfold P. split; [apply seg_same_refl|]. split; [apply seg_perm_refl|].
      intros m Hm. lia.
    - intros n2 c Hn2 (Hs & Hf & Hmin). unfold P.
      destruct (Rltb_spec (k_par (c n2)) (k_par (c n1))) as [Hlt|Hge].
      + destruct (beam_swap_seg c n1 hi n1 n2 ltac:(lia) ltac:(lia)) as [Ss Sf].
        split; [eapply seg_same_trans; eassumption|].
        split; [eapply seg_perm_trans; eassumption|].
        intros m Hm. rewrite !beam_swap_at, Nat.eqb_refl.
        destruct (Nat.eqb_spec m n1); [lia|].
        destruct (Nat.eqb_spec m n2) as [->|Hne].
        * lra.
        * specialize (Hmin m ltac:(lia)). lra.
      + split; [exact Hs|]. split; [exact Hf|].
        intros m Hm. destruct (Nat.eq_dec m n2) as [->|Hne]; [lra|].
        apply Hmin. lia. }
  replace ((n1 + 1) + (hi - (n1 + 1)))%nat with hi in H by lia.
  exact H.
Qed.

(** The first pass sorts the slots [lo .. hi-1] by [k_par]. *)
Lemma sort_k_par_spec b lo hi :
  (lo <= hi)%nat ->
  seg_same (sort_k_par b lo hi) b lo hi /\ seg_perm (sort_k_par b lo hi) b lo hi /\
  forall i j, (lo <= i)%nat -> (i < j)%nat -> (j < hi)%nat ->
    k_par (sort_k_par b lo hi i) <= k_par (sort_k_par b lo hi j).
Proof.
  intros Hle. unfold sort_k_par.
  pose (P := fun (n1 : nat) (c : beam_array) =>
    seg_same c b lo hi /\ seg_perm c b lo hi /\
    forall i j, (lo <= i < n1)%nat -> (i < j < hi)%nat -> k_par (c i) <= k_par (c j)).
  match goal with
  | |- context [for_up ?n ?l ?f ?s] => assert (H : P (l + n)%nat (for_up n l f s))
  end.
  { apply for_up_ind.
    - unfold P. split; [apply seg_same_refl|]. split; [apply seg_perm_refl|].
      intros i j Hi. lia.
    - intros n1 c Hn1 (Hs & Hf & Hsorted).
      destruct (sort_k_par_inner c n1 hi ltac:(lia)) as (Is & If & Imin).
      cbv zeta in Is, If, Imin.
      set (c' := for_up (hi - (n1 + 1)) (n1 + 1) _ c) in *.
      unfold P. split; [|split].
      + eapply seg_same_trans; [|exact Hs].
        apply (seg_same_wide c' c lo n1 hi hi); [lia|lia|exact Is].
      + eapply seg_perm_trans; [|exact Hf].
        apply (seg_perm_wide c' c lo n1 hi hi); [lia|lia|exact Is|exact If].
      + intros i j Hi Hj.
        destruct (Nat.eq_dec i n1) as [->|Hne]; [apply Imin; lia|].
        rewrite (Is i) by lia.
        destruct (le_lt_dec n1 j) as [Hj1|Hj1].
        * destruct (proj1 If j ltac:(lia)) as (j' & Hj' & E). rewrite E.
          apply Hsorted; lia.
        * rewrite (Is j) by lia. apply Hsorted; lia. }
  replace (lo + (hi - lo))%nat with hi in H by lia.
  destruct H as (Hs & Hf & Hsorted). split; [exact Hs|]. split; [exact Hf|].
  intros i j Hi Hij Hj. apply Hsorted; lia.
Qed.

Lemma ind_le_refl x : ind_le x x.
Proof. right. split; [reflexivity|lra]. Qed.

Lemma ind_le_trans x y z : ind_le x y -> ind_le y z -> ind_le x z.
Proof.
  unfold ind_le. intros [H1|[H1 H1']] [H2|[H2 H2']].
  - left. lra.
  - left. lra.
  - left. lra.
  - right. split; [congruence|lra].
Qed.

(** The two exchanges of a pass of the second inner loop leave at [n1] the
    beam that is first in the order of the indices. *)
Lemma sort_ind_step c n1 n2 :
  let c1 := if Rltb (ind_1 (c n2)) (ind_1 (c n1)) then beam_swap c n1 n2 else c in
  let c2 := if (IS_EQUAL_REAL (ind_1 (c1 n2)) (ind_1 (c1 n1)) &&
                Rltb (ind_2 (c1 n2)) (ind_2 (c1 n1)))%bool
            then beam_swap c1 n1 n2 else c1 in
  n1 <> n2 ->
  (c2 = c \/ c2 = beam_swap c n1 n2) /\
  ind_le (c2 n1) (c2 n2) /\ ind_le (c2 n1) (c n1).
Proof.
  intros c1 c2 Hne. subst c2 c1.
  assert (Es1 : beam_swap c n1 n2 n1 = c n2).
  { rewrite beam_swap_at, Nat.eqb_refl. reflexivity. }
  assert (Es2 : beam_swap c n1 n2 n2 = c n1).
  { rewrite beam_swap_at. destruct (Nat.eqb_spec n2 n1); [congruence|].
    rewrite Nat.eqb_refl. reflexivity. }
  destruct (Rltb_spec (ind_1 (c n2)) (ind_1 (c n1))) as [Hlt|Hge].
  - rewrite Es1, Es2.
    destruct (IS_EQUAL_REAL_spec (ind_1 (c n1)) (ind_1 (c n2))) as [E|E]; [lra|].
    cbn [andb]. rewrite Es1, Es2.
    split; [right; reflexivity|]. split; left; exact Hlt.
  - destruct (IS_EQUAL_REAL_spec (ind_1 (c n2)) (ind_1 (c n1))) as [E|E]; cbn [andb].
    + destruct (Rltb_spec (ind_2 (c n2)) (ind_2 (c n1))) as [H2|H2].
      * rewrite Es1, Es2. split; [right; reflexivity|].
        split; right; (split; [exact E|lra]).
      * split; [left; reflexivity|].
        split; [right; split; [congruence|lra]|apply ind_le_refl].
    + split; [left; reflexivity|].
      split; [left; lra|apply ind_le_refl].
Qed.

Section SORT_IND.
Variable cap lo hi : nat.
Variable K : nat -> R.
Hypothesis K_sorted : forall i j, (lo <= i)%nat -> (i < j)%nat -> (j < hi)%nat -> K i <= K j.
Hypothesis K_gap : forall i j, (lo <= i < hi)%nat -> (lo <= j < hi)%nat ->
  K i = K j \/ K_TOLERANCE <= Rabs (K i - K j).
Hypothesis K_end : forall i, (lo <= i < hi)%nat -> K i = K (hi - 1)%nat ->
  K_TOLERANCE <= Rabs (K hi - K i).
Hypothesis hi_cap : (hi < cap)%nat.

(** The inner loop of the second pass stops inside the array, exchanges
    only beams of equal [k_par], and leaves at [n1] the first, in the
    order of the indices, of the beams of its [k_par] from [n1] on. *)
Lemma sort_ind_inner_spec n1 :
  (lo <= n1 < hi)%nat ->
  forall fuel n2 c,
    (n1 < n2 <= hi)%nat -> (hi - n2 < fuel)%nat ->
    (forall q, k_par (c q) = K q) ->
    (forall m, (n1 < m < n2)%nat -> K m = K n1) ->
    (forall m, (n1 < m < n2)%nat -> ind_le (c n1) (c m)) ->
    exists c',
      sort_ind_inner fuel cap c n1 n2 = Some c' /\
      (forall q, k_par (c' q) = K q) /\
      seg_same c' c n1 hi /\ seg_perm c' c n1 hi /\
      (forall m, (n1 < m < hi)%nat -> K m = K n1 -> ind_le (c' n1) (c' m)) /\
      ind_le (c' n1) (c n1).
Proof.
  intros Hn1. induction fuel as [|f IH]; intros n2 c Hn2 Hfuel HK Hvis Hmin; [lia|].
  cbn [sort_ind_inner].
  destruct (Nat.leb_spec cap n2) as [Hc|Hc]; [lia|].
  rewrite !HK.
  assert (Htol : 0 < K_TOLERANCE) by (unfold K_TOLERANCE; lra).
  assert (Hstop : K_TOLERANCE <= Rabs (K n2 - K n1) ->
    exists c',
      Some c = Some c' /\ (forall q, k_par (c' q) = K q) /\
      seg_same c' c n1 hi /\ seg_perm c' c n1 hi /\
      (forall m, (n1 < m < hi)%nat -> K m = K n1 -> ind_le (c' n1) (c' m)) /\
      ind_le (c' n1) (c n1)).
  { intros Hfar. exists c. split; [reflexivity|]. split; [exact HK|].
    split; [apply seg_same_refl|]. split; [apply seg_perm_refl|].
    split; [|apply ind_le_refl].
    intros m Hm Em. destruct (le_lt_dec n2 m) as [Hge|Hlt]; [|apply Hmin; lia].
    exfalso.
    assert (Hn2' : (n2 < hi)%nat) by lia.
    assert (H1 : K n1 <= K n2) by (apply K_sorted; lia).
    assert (H2 : K n2 <= K m).
    { destruct (Nat.eq_dec n2 m) as [->|]; [lra|apply K_sorted; lia]. }
    rewrite Rabs_right in Hfar by lra. lra. }
  destruct (Rltb_spec (Rabs (K n2 - K n1)) K_TOLERANCE) as [Hnear|Hfar];
    [|apply Hstop; lra].
  assert (Hn2' : (n2 < hi)%nat).
  { destruct (Nat.eq_dec n2 hi) as [->|]; [|lia].
    assert (Elast : K n1 = K (hi - 1)%nat).
    { destruct (Nat.eq_dec n1 (hi - 1)) as [->|]; [reflexivity|].
      symmetry. apply Hvis. lia. }
    pose proof (K_end n1 Hn1 Elast). lra. }
  assert (Eq : K n2 = K n1).
  { destruct (K_gap n2 n1 ltac:(lia) ltac:(lia)) as [E|E]; [exact E|lra]. }
  destruct (sort_ind_step c n1 n2 ltac:(lia)) as (Hc2 & Hle2 & Hle1).
  cbv zeta in Hc2, Hle2, Hle1.
  match goal with
  | |- context [sort_ind_inner f cap ?x n1 (n2 + 1)] => set (c2 := x) in *
  end.
  assert (HK2 : forall q, k_par (c2 q) = K q).
  { destruct Hc2 as [->| ->]; [exact HK|].
    intros q. rewrite beam_swap_at.
    destruct (Nat.eqb_spec q n1) as [->|]; [rewrite HK; exact Eq|].
    destruct (Nat.eqb_spec q n2) as [->|]; [rewrite HK; symmetry; exact Eq|apply HK]. }
  assert (Hseg : seg_same c2 c n1 hi /\ seg_perm c2 c n1 hi).
  { destruct Hc2 as [->| ->]; [split; [apply seg_same_refl|apply seg_perm_refl]|].
    apply beam_swap_seg; lia. }
  assert (Hother : forall m, m <> n1 -> m <> n2 -> c2 m = c m).
  { intros m H1 H2. destruct Hc2 as [->| ->]; [reflexivity|].
    rewrite beam_swap_at.
    destruct (Nat.eqb_spec m n1); [contradiction|].
    destruct (Nat.eqb_spec m n2); [contradiction|reflexivity]. }
  destruct (IH (n2 + 1)%nat c2 ltac:(lia) ltac:(lia) HK2) as (c' & E & HK' & Ss & Sf & Hfin & Hle).
  { intros m Hm. destruct (Nat.eq_dec m n2) as [->|Hne]; [exact Eq|]. apply Hvis. lia. }
  { intros m Hm. destruct (Nat.eq_dec m n2) as [->|Hne]; [exact Hle2|].
    rewrite (Hother m) by lia.
    eapply ind_le_trans; [exact Hle1|]. apply Hmin. lia. }
  exists c'. split; [exact E|]. split; [exact HK'|].
  split; [eapply seg_same_trans; [exact Ss|apply Hseg]|].
  split; [eapply seg_perm_trans; [exact Sf|apply Hseg]|].
  split; [exact Hfin|].
  eapply ind_le_trans; [exact Hle|exact Hle1].
Qed.

(** The second pass orders the beams of equal [k_par] by their indices. *)
Lemma sort_ind_spec b :
  (lo <= hi)%nat -> (forall q, k_par (b q) = K q) ->
  exists b',
    sort_ind cap b lo hi = Some b' /\
    (forall q, k_par (b' q) = K q) /\
    seg_same b' b lo hi /\ seg_perm b' b lo hi /\
    forall i j, (lo <= i)%nat -> (i < j)%nat -> (j < hi)%nat -> K i = K j ->
      ind_le (b' i) (b' j).
Proof.
  intros Hle HK. unfold sort_ind.
  pose (P := fun (n1 : nat) (s : option beam_array) =>
    exists c, s = Some c /\ (forall q, k_par (c q) = K q) /\
      seg_same c b lo hi /\ seg_perm c b lo hi /\
      forall i j, (lo <= i < n1)%nat -> (i < j < hi)%nat -> K i = K j ->
        ind_le (c i) (c j)).
  match goal with
  | |- context [for_up ?n ?l ?f ?s] => assert (H : P (l + n)%nat (for_up n l f s))
  end.
  { apply for_up_ind.
    - exists b. split; [reflexivity|]. split; [exact HK|].
      split; [apply seg_same_refl|]. split; [apply seg_perm_refl|].
      intros i j Hi. lia.
    - intros n1 s Hn1 (c & -> & HKc & Hs & Hf & Hdone).
      destruct (sort_ind_inner_spec n1 ltac:(lia) (S cap) (n1 + 1)%nat c
                  ltac:(lia) ltac:(lia) HKc)
        as (c' & E & HK' & Ss & Sf & Hfin & _).
      { intros m Hm. lia. }
      { intros m Hm. lia. }
      exists c'. split; [exact E|]. split; [exact HK'|].
      split; [eapply seg_same_trans; [|exact Hs];
              apply (seg_same_wide c' c lo n1 hi hi); [lia|lia|exact Ss]|].
      split; [eapply seg_perm_trans; [|exact Hf];
              apply (seg_perm_wide c' c lo n1 hi hi); [lia|lia|exact Ss|exact Sf]|].
      intros i j Hi Hj Eij.
      destruct (Nat.eq_dec i n1) as [->|Hne]; [apply Hfin; [lia|congruence]|].
      rewrite (Ss i) by lia.
      destruct (le_lt_dec n1 j) as [Hj1|Hj1].
      + destruct (proj1 Sf j ltac:(lia)) as (j' & Hj' & Ej). rewrite Ej.
        assert (EK : K j' = K j) by (rewrite <- HKc, <- Ej; apply HK').
        destruct (Nat.eq_dec i j') as [->|Hij]; [lia|].
        apply Hdone; [lia|lia|congruence].
      + rewrite (Ss j) by lia. apply Hdone; [lia|lia|exact Eij]. }
  replace (lo + (hi - lo))%nat with hi in H by lia.
  destruct H as (c & E & HKc & Hs & Hf & Hdone).
  exists c. split; [exact E|]. split; [exact HKc|]. split; [exact Hs|].
  split; [exact Hf|]. intros i j Hi Hij Hj. apply Hdone; lia.
Qed.

End SORT_IND.

Lemma gen_new_k_par c_par off i_set b n :
  k_par (gen_new c_par off i_set b n) = k_par (gen_new c_par off i_set beam_zero n).
Proof. reflexivity. Qed.

Lemma gen_new_set c_par off i_set b n : set (gen_new c_par off i_set b n) = i_set.
Proof. reflexivity. Qed.

(** The round of one beam set: its beams are written after those of the
    former sets, which are left as they are, and are sorted. *)
Lemma gen_set_spec c_par k_in k_max_2 n1_max n2_max bm_off cap i_set beams offset :
  let pts := filter (gen_inside c_par k_in k_max_2 (bm_off i_set))
                    (gen_candidates n1_max n2_max) in
  let e := (offset + List.length pts)%nat in
  let Kp := fun p => k_par (gen_new c_par (bm_off i_set) i_set beam_zero p) in
  (e < cap)%nat ->
  (forall p, In p pts ->
     ((forall q, In q pts -> Kp q <= Kp p) ->
      K_TOLERANCE <= Rabs (k_par (beams e) - Kp p)) /\
     forall q, In q pts -> Kp p = Kp q \/ K_TOLERANCE <= Rabs (Kp p - Kp q)) ->
  exists beams',
    gen_set c_par k_in k_max_2 n1_max n2_max bm_off cap i_set (Some (beams, offset)) =
    Some (beams', e) /\
    seg_same beams' beams offset e /\
    (forall i, (offset <= i < e)%nat -> set (beams' i) = i_set) /\
    (forall i j, (offset <= i)%nat -> (i < j)%nat -> (j < e)%nat ->
       beam_order (beams' i) (beams' j)).
Proof.
  intros pts e Kp Hcap Hsep. unfold gen_set.
  rewrite gen_beams_fold.
  destruct (gen_beam_fold c_par k_in k_max_2 (bm_off i_set) i_set cap
              (gen_candidates n1_max n2_max) beams offset)
    as (b1 & E1 & Hframe & Hnew); [fold pts; fold e; lia|].
  fold pts in E1, Hframe, Hnew. fold e in E1, Hframe.
  rewrite E1. clear E1.
  assert (Hslot : forall i, (offset <= i < e)%nat ->
            exists p, In p pts /\ b1 i = gen_new c_par (bm_off i_set) i_set (beams i) p).
  { intros i Hi.
    destruct (nth_error pts (i - offset)) as [p|] eqn:Ep.
    - exists p. split; [eapply nth_error_In; exact Ep|].
      replace i with (offset + (i - offset))%nat at 1 2 by lia.
      apply Hnew. exact Ep.
    - apply nth_error_None in Ep. unfold e in Hi. lia. }
  assert (Hpoint : forall p, In p pts ->
            exists i, (offset <= i < e)%nat /\ k_par (b1 i) = Kp p).
  { intros p Hp. apply In_nth_error in Hp. destruct Hp as (k & Ek).
    assert (Hk : (k < List.length pts)%nat) by (apply nth_error_Some; congruence).
    exists (offset + k)%nat. split; [unfold e; lia|].
    rewrite (Hnew k p Ek). reflexivity. }
  destruct (sort_k_par_spec b1 offset e ltac:(unfold e; lia)) as (S1s & S1f & S1sorted).
  set (b1s := sort_k_par b1 offset e) in *.
  assert (Hslot1 : forall i, (offset <= i < e)%nat ->
            exists p, In p pts /\ k_par (b1s i) = Kp p /\ set (b1s i) = i_set).
  { intros i Hi. destruct (proj1 S1f i Hi) as (i' & Hi' & Ei).
    destruct (Hslot i' Hi') as (p & Hp & Eb). exists p. split; [exact Hp|].
    rewrite Ei, Eb. split; reflexivity. }
  assert (Hend : k_par (b1s e) = k_par (beams e)).
  { rewrite (S1s e) by lia. rewrite Hframe by lia. reflexivity. }
  destruct (sort_ind_spec cap offset e (fun q => k_par (b1s q))) with (b := b1s)
    as (b2 & E2 & HK2 & S2s & S2f & S2ind).
  - exact S1sorted.
  - intros i j Hi Hj.
    destruct (Hslot1 i Hi) as (p & Hp & Ep & _).
    destruct (Hslot1 j Hj) as (q & Hq & Eq & _).
    rewrite Ep, Eq. apply (Hsep p Hp). exact Hq.
  - intros i Hi Elast. destruct (Hslot1 i Hi) as (p & Hp & Ep & _).
    rewrite Hend, Ep. apply (Hsep p Hp).
    intros q Hq. destruct (Hpoint q Hq) as (k & Hk & Ekq).
    destruct (proj2 S1f k Hk) as (j & Hj & Ej).
    rewrite <- Ekq, Ej, <- Ep, Elast.
    destruct (Nat.eq_dec j (e - 1)) as [->|Hne]; [lra|].
    apply S1sorted; lia.
  - exact Hcap.
  - unfold e. lia.
  - intros q. reflexivity.
  - rewrite E2. exists b2. split; [reflexivity|].
    split; [|split].
    + eapply seg_same_trans; [exact S2s|].
      eapply seg_same_trans; [exact S1s|].
      intros q Hq. apply Hframe. lia.
    + intros i Hi. destruct (proj1 S2f i Hi) as (i' & Hi' & Ei).
      destruct (Hslot1 i' Hi') as (p & _ & _ & Es). rewrite Ei. exact Es.
    + intros i j Hi Hij Hj. unfold beam_order. rewrite !HK2.
      split; [apply S1sorted; assumption|].
      intros Hnear. apply S2ind; [assumption..|].
      destruct (Hslot1 i ltac:(lia)) as (p & Hp & Ep & _).
      destruct (Hslot1 j ltac:(lia)) as (q & Hq & Eq & _).
      rewrite Ep, Eq in *.
      destruct (proj2 (Hsep p Hp) q Hq) as [E|E]; [exact E|lra].
Qed.

Lemma gen_start_mono c_par v_par eng_max s t :
  (s <= t)%nat -> (gen_start c_par v_par eng_max s <= gen_start c_par v_par eng_max t)%nat.
Proof.
  induction 1 as [|t _ IH]; [lia|]. cbn [gen_start]. lia.
Qed.

(** The loop over the beam sets, under the conditions of [gen_separated]. *)
Lemma gen_sets_spec p_beams c_par v_par eng_max :
  (gen_start c_par v_par eng_max (gen_n_set c_par) < gen_cap c_par v_par eng_max)%nat ->
  gen_separated p_beams c_par v_par eng_max ->
  let k_max_2 := gen_k_max_2 c_par v_par eng_max in
  let k_in := gen_k_in v_par eng_max in
  let n_max := gen_n_max c_par (sqrt k_max_2) (k_in 0%nat) in
  let bm_off := fst (gen_bm_off c_par (gen_n_set c_par)) in
  forall n, (n <= gen_n_set c_par)%nat ->
  exists b,
    for_up n 0
      (fun i_set s => gen_set c_par k_in k_max_2 (fst n_max) (snd n_max) bm_off
                              (gen_cap c_par v_par eng_max) i_set s)
      (Some (gen_initial p_beams, 0%nat)) =
    Some (b, gen_start c_par v_par eng_max n) /\
    seg_same b (gen_initial p_beams) 0 (gen_start c_par v_par eng_max n) /\
    (forall i, (i < gen_start c_par v_par eng_max n)%nat -> (set (b i) < n)%nat) /\
    (forall i j, (i < j)%nat -> (j < gen_start c_par v_par eng_max n)%nat ->
       set (b i) = set (b j) -> beam_order (b i) (b j)).
Proof.
  intros Hcap Hsep k_max_2 k_in n_max bm_off n Hn.
  pose (P := fun (s : nat) (st : option (beam_array * nat)) =>
    (s <= gen_n_set c_par)%nat ->
    exists b,
      st = Some (b, gen_start c_par v_par eng_max s) /\
      seg_same b (gen_initial p_beams) 0 (gen_start c_par v_par eng_max s) /\
      (forall i, (i < gen_start c_par v_par eng_max s)%nat -> (set (b i) < s)%nat) /\
      (forall i j, (i < j)%nat -> (j < gen_start c_par v_par eng_max s)%nat ->
         set (b i) = set (b j) -> beam_order (b i) (b j))).
  match goal with
  | |- exists b, for_up n 0 ?f ?s = _ /\ _ => assert (H : P (0 + n)%nat (for_up n 0 f s))
  end.
  { apply for_up_ind.
    - intros _. exists (gen_initial p_beams). cbn [gen_start].
      split; [reflexivity|]. split; [apply seg_same_refl|].
      split; intros; lia.
    - intros s st Hs IH Hs'. destruct (IH ltac:(lia)) as (b & -> & Hsame & Hset & Hord).
      pose proof (gen_start_mono c_par v_par eng_max (S s) (gen_n_set c_par) Hs') as Hmono.
      destruct (gen_set_spec c_par k_in k_max_2 (fst n_max) (snd n_max) bm_off
                  (gen_cap c_par v_par eng_max) s b (gen_start c_par v_par eng_max s))
        as (b' & E & Ssame & Sset & Sord).
      + change (gen_start c_par v_par eng_max (S s) < gen_cap c_par v_par eng_max)%nat. lia.
      + intros p Hp. change (In p (gen_points c_par v_par eng_max s)) in Hp.
        destruct (Hsep s ltac:(lia) p Hp) as [Hend Hgap]. split.
        * intros Hmax.
          change (K_TOLERANCE <=
                  Rabs (k_par (b (gen_start c_par v_par eng_max (S s)))
                        - gen_k_par c_par s p)).
          rewrite Hsame by (cbn [gen_start]; lia). apply Hend.
          intros q Hq. exact (Hmax q Hq).
        * intros q Hq. exact (Hgap q Hq).
      + assert (Hstep : (gen_start c_par v_par eng_max s <=
                         gen_start c_par v_par eng_max (S s))%nat)
          by (apply gen_start_mono; lia).
        change (gen_start c_par v_par eng_max s +
                List.length (filter (gen_inside c_par k_in k_max_2 (bm_off s))
                               (gen_candidates (fst n_max) (snd n_max))))%nat
          with (gen_start c_par v_par eng_max (S s)) in *.
        exists b'. split; [exact E|]. split; [|split].
        * intros q Hq. destruct (le_lt_dec (gen_start c_par v_par eng_max s) q) as [H1|H1].
          -- rewrite Ssame by lia. apply Hsame. lia.
          -- rewrite Ssame by lia. apply Hsame. lia.
        * intros i Hi. destruct (le_lt_dec (gen_start c_par v_par eng_max s) i) as [H1|H1].
          -- rewrite Sset by lia. lia.
          -- rewrite Ssame by lia. specialize (Hset i H1). lia.
        * intros i j Hij Hj Eset.
          destruct (le_lt_dec (gen_start c_par v_par eng_max s) i) as [H1|H1].
          -- apply Sord; lia.
          -- destruct (le_lt_dec (gen_start c_par v_par eng_max s) j) as [H2|H2].
             ++ exfalso. rewrite (Sset j) in Eset by lia.
                rewrite (Ssame i) in Eset by lia. specialize (Hset i H1). lia.
             ++ rewrite (Ssame i), (Ssame j) in * by lia. apply Hord; assumption. }
  exact (H Hn).
Qed.

(** C8 (amended): when the array is long enough for the beams and the
    terminator and, within each beam set, the values of k_par are equal or
    at least K_TOLERANCE apart (also from the k_par held by the slot after
    the set), leed_beam_gen returns the number of beam sets, and within
    each set k_par does not decrease along the list and beams whose k_par
    are equal within K_TOLERANCE come in ascending order of the first
    index and, for equal first index, of the second index. *)
Theorem leed_beam_gen_sorted (WARNING_LOG : bool) (F_END_OF_LIST : R)
        (p_beams : option beam_array) (c_par : leed_crystal) (v_par : leed_var)
        (eng_max : R) :
  (0 < gen_iaux c_par (gen_k_max_2 c_par v_par eng_max))%Z ->
  (0 < R_nint (rel_area_sup c_par))%Z ->
  (gen_start c_par v_par eng_max (gen_n_set c_par) < gen_cap c_par v_par eng_max)%nat ->
  gen_separated p_beams c_par v_par eng_max ->
  exists r,
    leed_beam_gen WARNING_LOG F_END_OF_LIST p_beams c_par v_par eng_max = Some r /\
    g_ret r = R_nint (rel_area_sup c_par) /\
    g_count r = gen_start c_par v_par eng_max (gen_n_set c_par) /\
    beam_list_sorted r.
Proof.
  intros Hiaux Hnset Hcap Hsep.
  destruct (gen_sets_spec p_beams c_par v_par eng_max Hcap Hsep (gen_n_set c_par) (le_n _))
    as (b & E & _ & _ & Hord).
  unfold leed_beam_gen.
  destruct (Z.leb_spec (gen_iaux c_par (gen_k_max_2 c_par v_par eng_max)) 0) as [H|_]; [lia|].
  destruct (Z.leb_spec (R_nint (rel_area_sup c_par)) 0) as [H|_]; [lia|].
  cbn [orb].
  change (Z.to_nat (R_nint (rel_area_sup c_par))) with (gen_n_set c_par).
  change (Z.to_nat (gen_iaux c_par (gen_k_max_2 c_par v_par eng_max)))
    with (gen_cap c_par v_par eng_max).
  destruct (gen_bm_off c_par (gen_n_set c_par)) as [bm_off i_set] eqn:Eoff.
  destruct (gen_n_max c_par (sqrt (gen_k_max_2 c_par v_par eng_max))
                      (gen_k_in v_par eng_max 0%nat)) as [n1_max n2_max] eqn:Emax.
  cbn [fst snd] in E.
  change (match p_beams with
          | Some old => old
          | None => fun _ : nat => beam_zero
          end) with (gen_initial p_beams).
  rewrite E.
  destruct (Nat.leb_spec (gen_cap c_par v_par eng_max)
              (gen_start c_par v_par eng_max (gen_n_set c_par))) as [H|_]; [lia|].
  eexists. split; [reflexivity|]. cbn [g_ret g_count g_beams].
  split; [reflexivity|]. split; [reflexivity|].
  intros i j Hij Hj. cbn [g_count g_beams] in *. unfold beam_put.
  destruct (Nat.eqb_spec i (gen_start c_par v_par eng_max (gen_n_set c_par))); [lia|].
  destruct (Nat.eqb_spec j (gen_start c_par v_par eng_max (gen_n_set c_par))); [lia|].
  apply Hord; assumption.
Qed.

(** ** leed_beam_gen on a rectangular lattice *)

Lemma Rleb_true x y : x <= y -> Rleb x y = true.
Proof. intros H. unfold Rleb. destruct (Rle_dec x y); [reflexivity|contradiction]. Qed.

Lemma Rleb_false x y : ~ x <= y -> Rleb x y = false.
Proof. intros H. unfold Rleb. destruct (Rle_dec x y); [contradiction|reflexivity]. Qed.

Lemma R_int_unique x z : 0 <= x -> IZR z <= x < IZR z + 1 -> R_int x = z.
Proof.
  intros H0 [H1 H2]. unfold R_int. rewrite (Rleb_true _ _ H0).
  assert (E : (z + 1)%Z = up x) by (apply up_tech; [exact H1|rewrite plus_IZR; exact H2]).
  lia.
Qed.

Lemma for_z_idle {St : Type} (body : Z -> St -> St) s :
  (forall n, body n s = s) -> forall count n, for_z count n body s = s.
Proof.
  intros H count. induction count as [|c IH]; intros n; cbn [for_z]; [reflexivity|].
  rewrite H. apply IH.
Qed.

Section SAMPLE_LATTICE.
Variable g : R.
Hypothesis g_range : 1 <= g < 1.1.

Lemma sample_k_max_2 : gen_k_max_2 (sample_crystal g) sample_var 0.605 = 1.1 * 1.1.
Proof.
  unfold gen_k_max_2. cbn [vr epsilon dmin sample_crystal sample_var].
  rewrite ln_1. lra.
Qed.

Lemma sample_iaux : gen_iaux (sample_crystal g) (1.1 * 1.1) = 6%Z.
Proof.
  unfold gen_iaux. cbn [rel_area_sup area sample_crystal].
  rewrite (R_int_unique _ 4); [reflexivity|lra|lra].
Qed.

Lemma sample_k_in i : gen_k_in sample_var 0.605 i = 0.
Proof.
  unfold gen_k_in, upd. cbn [vr theta phi sample_var]. rewrite sin_0.
  destruct (i =? 2)%nat; [ring|]. destruct (i =? 1)%nat; [ring|].
  destruct (i =? 0)%nat; [ring|reflexivity].
Qed.

Lemma sample_n_set : R_nint (rel_area_sup (sample_crystal g)) = 1%Z.
Proof. cbn [rel_area_sup sample_crystal]. apply R_nint_unique. lra. Qed.

Lemma sample_bm_off :
  gen_bm_off (sample_crystal g) 1 =
  (beam_put (fun _ => beam_zero) 0 (beam_set_offset beam_zero 0 0 0 0 0 0), 1%nat).
Proof.
  unfold gen_bm_off. apply for_z_idle. intros n1. apply for_z_idle. intros n2.
  reflexivity.
Qed.

Lemma sample_n_max : gen_n_max (sample_crystal g) 1.1 0 = (3%Z, 3%Z).
Proof.
  unfold gen_n_max, R_hypot. cbn [a_1 sample_crystal sample_recip].
  replace (1 * 1 + 0 * 0) with (1 * 1) by ring.
  replace (0 * 0 + g * g) with (g * g) by ring.
  rewrite !sqrt_square by lra.
  replace ((1 * 0 + 0 * g) / 1) with 0 by (unfold Rdiv; ring).
  replace ((1 * g - 0 * 0) / 1) with g by (unfold Rdiv; rewrite Rinv_1; ring).
  rewrite Rabs_R0, (Rabs_right g) by lra.
  assert (Hg : 0 < / g) by (apply Rinv_0_lt_compat; lra).
  assert (Hg1 : g * / g = 1) by (apply Rinv_r; lra).
  assert (E2 : R_int (1.1 / g + 0 / g) = 1%Z).
  { apply R_int_unique.
    - unfold Rdiv. nra.
    - unfold Rdiv. split; nra. }
  rewrite E2.
  assert (E1 : R_int (1.1 / 1 + IZR (2 + 1) * 0 / 1 + 0 / 1) = 1%Z).
  { apply R_int_unique; unfold Rdiv; rewrite Rinv_1; cbn [Z.add Pos.add Pos.succ]; lra. }
  rewrite E1. reflexivity.
Qed.

Lemma sample_off_zero :
  k_r (fst (gen_bm_off (sample_crystal g) 1) 0%nat) 1%nat = 0 /\
  k_r (fst (gen_bm_off (sample_crystal g) 1) 0%nat) 2%nat = 0 /\
  ind_1 (fst (gen_bm_off (sample_crystal g) 1) 0%nat) = 0 /\
  ind_2 (fst (gen_bm_off (sample_crystal g) 1) 0%nat) = 0.
Proof.
  rewrite sample_bm_off. cbn [fst]. unfold beam_put. cbn [Nat.eqb].
  unfold beam_set_offset, upd. cbn [k_r ind_1 ind_2 Nat.eqb].
  repeat split; ring.
Qed.

Lemma sample_inside n1 n2 :
  gen_inside (sample_crystal g) (gen_k_in sample_var 0.605) (1.1 * 1.1)
             (fst (gen_bm_off (sample_crystal g) 1) 0%nat) (n1, n2) =
  Rleb (IZR n1 * IZR n1 + IZR n2 * IZR n2 * (g * g)) (1.1 * 1.1).
Proof.
  unfold gen_inside. rewrite !sample_k_in.
  destruct sample_off_zero as (-> & -> & _ & _).
  cbn [fst snd a_1 sample_crystal sample_recip]. f_equal. ring.
Qed.

Lemma sample_k_par n1 n2 :
  gen_k_par (sample_crystal g) 0 (n1, n2) =
  IZR n1 * IZR n1 + IZR n2 * IZR n2 * (g * g).
Proof.
  unfold gen_k_par, gen_n_set. rewrite sample_n_set.
  change (Z.to_nat 1) with 1%nat.
  unfold gen_new, beam_fill. cbn [k_par fst snd].
  destruct sample_off_zero as (-> & -> & _ & _).
  cbn [a_1 sample_crystal sample_recip]. ring.
Qed.

Lemma filter_true {A : Type} (f : A -> bool) x l :
  f x = true -> filter f (x :: l) = x :: filter f l.
Proof. intros E. cbn [filter]. rewrite E. reflexivity. Qed.

Lemma filter_false {A : Type} (f : A -> bool) x l :
  f x = false -> filter f (x :: l) = filter f l.
Proof. intros E. cbn [filter]. rewrite E. reflexivity. Qed.

(** The beams inside the radius, in the order they are found. *)
Lemma sample_points :
  gen_points (sample_crystal g) sample_var 0.605 0 =
  [((-1)%Z, 0%Z); (0%Z, (-1)%Z); (0%Z, 0%Z); (0%Z, 1%Z); (1%Z, 0%Z)].
Proof.
  unfold gen_points, gen_n_set.
  rewrite sample_k_max_2, sample_n_set, sample_k_in, sqrt_square by lra.
  rewrite sample_n_max. cbn [fst snd].
  change (Z.to_nat 1) with 1%nat.
  let l := eval vm_compute in (gen_candidates 3 3) in
  change (gen_candidates 3 3) with l.
  assert (G1 : 1 <= g * g) by nra.
  assert (G2 : g * g < 1.1 * 1.1) by nra.
  set (gg := g * g) in *.
  repeat first
    [ rewrite filter_false
        by (rewrite sample_inside; fold gg; apply Rleb_false; lra)
    | rewrite filter_true
        by (rewrite sample_inside; fold gg; apply Rleb_true; lra) ].
  reflexivity.
Qed.

End SAMPLE_LATTICE.

(** ** The two sorting passes evaluated *)

Lemma for_up_S {St : Type} c i (body : nat -> St -> St) s :
  for_up (S c) i body s = for_up c (S i) body (body i s).
Proof. reflexivity. Qed.

Lemma sort_ind_inner_S f cap beams n1 n2 :
  sort_ind_inner (S f) cap beams n1 n2 =
  if (cap <=? n2)%nat then None
  else if Rltb (Rabs (k_par (beams n2) - k_par (beams n1))) K_TOLERANCE then
    sort_ind_inner f cap
      (let beams :=
         if Rltb (ind_1 (beams n2)) (ind_1 (beams n1))
         then beam_swap beams n1 n2 else beams in
       if (IS_EQUAL_REAL (ind_1 (beams n2)) (ind_1 (beams n1)) &&
           Rltb (ind_2 (beams n2)) (ind_2 (beams n1)))%bool
       then beam_swap beams n1 n2 else beams)
      n1 (n2 + 1)
  else Some beams.
Proof. reflexivity. Qed.

Lemma IS_EQUAL_REAL_true x y : x = y -> IS_EQUAL_REAL x y = true.
Proof. intros H. destruct (IS_EQUAL_REAL_spec x y); [reflexivity|contradiction]. Qed.

Lemma IS_EQUAL_REAL_false x y : x <> y -> IS_EQUAL_REAL x y = false.
Proof. intros H. destruct (IS_EQUAL_REAL_spec x y); [contradiction|reflexivity]. Qed.

Lemma near_true x y : - K_TOLERANCE < x - y < K_TOLERANCE ->
  Rltb (Rabs (x - y)) K_TOLERANCE = true.
Proof. intros [H1 H2]. apply Rltb_true. apply Rabs_def1; lra. Qed.

Lemma near_false x y : K_TOLERANCE <= x - y \/ x - y <= - K_TOLERANCE ->
  Rltb (Rabs (x - y)) K_TOLERANCE = false.
Proof.
  intros H. apply Rltb_false. intros Habs. apply Rabs_def2 in Habs. lra.
Qed.

Ltac beam_eval := repeat (rewrite beam_swap_at; cbn [Nat.eqb]).

Ltac beam_lra := beam_eval; unfold K_TOLERANCE; lra.

Ltac step_Rltb :=
  match goal with
  | |- context [Rltb (Rabs (?x - ?y)) K_TOLERANCE] =>
      first [ rewrite (near_true x y) by beam_lra
            | rewrite (near_false x y) by beam_lra ]
  | |- context [IS_EQUAL_REAL ?x ?y] =>
      first [ rewrite (IS_EQUAL_REAL_true x y) by beam_lra
            | rewrite (IS_EQUAL_REAL_false x y) by beam_lra ]
  | |- context [Rltb ?x ?y] =>
      first [ rewrite (Rltb_true x y) by beam_lra
            | rewrite (Rltb_false x y) by beam_lra ]
  end.

Section SORT_EXAMPLE.
Variable b : beam_array.
Variable kk : R.
Hypothesis Hkk : 1 < kk < 1.0001.
Hypothesis A1 : k_par (b 0%nat) = 1.
Hypothesis A2 : ind_1 (b 0%nat) = -1.
Hypothesis A3 : ind_2 (b 0%nat) = 0.
Hypothesis B1 : k_par (b 1%nat) = kk.
Hypothesis B2 : ind_1 (b 1%nat) = 0.
Hypothesis B3 : ind_2 (b 1%nat) = -1.
Hypothesis C1 : k_par (b 2%nat) = 0.
Hypothesis C2 : ind_1 (b 2%nat) = 0.
Hypothesis C3 : ind_2 (b 2%nat) = 0.
Hypothesis D1 : k_par (b 3%nat) = kk.
Hypothesis D2 : ind_1 (b 3%nat) = 0.
Hypothesis D3 : ind_2 (b 3%nat) = 1.
Hypothesis E1 : k_par (b 4%nat) = 1.
Hypothesis E2 : ind_1 (b 4%nat) = 1.
Hypothesis E3 : ind_2 (b 4%nat) = 0.
Hypothesis S1 : k_par (b 5%nat) = 0.

(** The two passes on five beams of which two pairs have values of [k_par]
    less than K_TOLERANCE apart. *)
Lemma sort_k_par_example :
  sort_k_par b 0 5 = beam_swap (beam_swap (beam_swap b 0 2) 1 2) 2 4.
Proof.
  unfold sort_k_par. cbn [Nat.sub].
  rewrite for_up_S. cbv beta. cbn [Nat.add Nat.sub].
  match goal with |- for_up 4 1 ?body ?s = _ => set (B := body); set (s0 := s) end.
  assert (E0 : s0 = beam_swap b 0 2).
  { subst s0. repeat (rewrite for_up_S; cbv beta; step_Rltb; cbv iota). reflexivity. }
  rewrite E0. clear E0 s0.
  rewrite for_up_S. unfold B at 2. cbn [Nat.add Nat.sub].
  match goal with |- for_up 3 2 _ ?s = _ => set (s0 := s) end.
  assert (E0 : s0 = beam_swap (beam_swap b 0 2) 1 2).
  { subst s0. repeat (rewrite for_up_S; cbv beta; step_Rltb; cbv iota). reflexivity. }
  rewrite E0. clear E0 s0.
  rewrite for_up_S. unfold B at 2. cbn [Nat.add Nat.sub].
  match goal with |- for_up 2 3 _ ?s = _ => set (s0 := s) end.
  assert (E0 : s0 = beam_swap (beam_swap (beam_swap b 0 2) 1 2) 2 4).
  { subst s0. repeat (rewrite for_up_S; cbv beta; step_Rltb; cbv iota). reflexivity. }
  rewrite E0. clear E0 s0.
  rewrite for_up_S. unfold B at 2. cbn [Nat.add Nat.sub].
  match goal with |- for_up 1 4 _ ?s = _ => set (s0 := s) end.
  assert (E0 : s0 = beam_swap (beam_swap (beam_swap b 0 2) 1 2) 2 4).
  { subst s0. repeat (rewrite for_up_S; cbv beta; step_Rltb; cbv iota). reflexivity. }
  rewrite E0. clear E0 s0.
  rewrite for_up_S. unfold B. cbn [Nat.add Nat.sub for_up]. reflexivity.
Qed.


Ltac eval_inner2 :=
  repeat (rewrite sort_ind_inner_S; cbn [Nat.leb Nat.add]; cbv zeta;
          repeat (step_Rltb; cbn [andb]; cbv iota)).

Lemma sort_ind_example :
  sort_ind 6 (beam_swap (beam_swap (beam_swap b 0 2) 1 2) 2 4) 0 5 =
  Some (beam_swap (beam_swap (beam_swap
          (beam_swap (beam_swap (beam_swap b 0 2) 1 2) 2 4) 2 3) 2 4) 3 4).
Proof.
  unfold sort_ind. cbn [Nat.sub].
  set (c := beam_swap (beam_swap (beam_swap b 0 2) 1 2) 2 4).
  rewrite for_up_S. cbv beta iota. cbn [Nat.add].
  match goal with |- for_up 4 1 ?body ?s = _ => set (B := body); set (s0 := s) end.
  assert (E0 : s0 = Some c).
  { subst s0 c. eval_inner2. reflexivity. }
  rewrite E0. clear E0 s0.
  rewrite for_up_S. unfold B at 2. cbv beta iota. cbn [Nat.add].
  match goal with |- for_up 3 2 _ ?s = _ => set (s0 := s) end.
  assert (E0 : s0 = Some c).
  { subst s0 c. eval_inner2. reflexivity. }
  rewrite E0. clear E0 s0.
  rewrite for_up_S. unfold B at 2. cbv beta iota. cbn [Nat.add].
  match goal with |- for_up 2 3 _ ?s = _ => set (s0 := s) end.
  assert (E0 : s0 = Some (beam_swap (beam_swap c 2 3) 2 4)).
  { subst s0 c. eval_inner2. reflexivity. }
  rewrite E0. clear E0 s0.
  rewrite for_up_S. unfold B at 2. cbv beta iota. cbn [Nat.add].
  match goal with |- for_up 1 4 _ ?s = _ => set (s0 := s) end.
  assert (E0 : s0 = Some (beam_swap (beam_swap (beam_swap c 2 3) 2 4) 3 4)).
  { subst s0 c. eval_inner2. reflexivity. }
  rewrite E0. clear E0 s0.
  rewrite for_up_S. unfold B. cbv beta iota. cbn [Nat.add for_up].
  subst c. eval_inner2. reflexivity.
Qed.

End SORT_EXAMPLE.

(** A run with one beam set: the beams of the set are written, sorted by
    the two passes and terminated. *)
Lemma leed_beam_gen_one_set WARNING_LOG F_END_OF_LIST p_beams c_par v_par eng_max :
  R_nint (rel_area_sup c_par) = 1%Z ->
  (0 < gen_iaux c_par (gen_k_max_2 c_par v_par eng_max))%Z ->
  (List.length (gen_points c_par v_par eng_max 0) < gen_cap c_par v_par eng_max)%nat ->
  exists b1,
    (forall k n, nth_error (gen_points c_par v_par eng_max 0) k = Some n ->
       b1 k = gen_new c_par (fst (gen_bm_off c_par 1) 0%nat) 0 (gen_initial p_beams k) n) /\
    (forall q, (List.length (gen_points c_par v_par eng_max 0) <= q)%nat ->
       b1 q = gen_initial p_beams q) /\
    leed_beam_gen WARNING_LOG F_END_OF_LIST p_beams c_par v_par eng_max =
    match sort_ind (gen_cap c_par v_par eng_max)
            (sort_k_par b1 0 (List.length (gen_points c_par v_par eng_max 0)))
            0 (List.length (gen_points c_par v_par eng_max 0)) with
    | None => None
    | Some b2 =>
        Some (mk_beam_gen_result 1
                (beam_put b2 (List.length (gen_points c_par v_par eng_max 0))
                   (beam_set_k_par (b2 (List.length (gen_points c_par v_par eng_max 0)))
                                   F_END_OF_LIST))
                (gen_cap c_par v_par eng_max)
                (List.length (gen_points c_par v_par eng_max 0))
                (if (WARNING_LOG && negb (snd (gen_bm_off c_par 1) =? 1)%nat)%bool
                 then [(Warning, "wrong number of beam sets found"%string)] else []))
    end.
Proof.
  intros Hset Hiaux Hcap.
  assert (Eset : gen_n_set c_par = 1%nat) by (unfold gen_n_set; rewrite Hset; reflexivity).
  set (pts := gen_points c_par v_par eng_max 0) in *.
  destruct (gen_beam_fold c_par (gen_k_in v_par eng_max) (gen_k_max_2 c_par v_par eng_max)
              (fst (gen_bm_off c_par 1) 0%nat) 0 (gen_cap c_par v_par eng_max)
              (gen_candidates
                 (fst (gen_n_max c_par (sqrt (gen_k_max_2 c_par v_par eng_max))
                                 (gen_k_in v_par eng_max 0%nat)))
                 (snd (gen_n_max c_par (sqrt (gen_k_max_2 c_par v_par eng_max))
                                 (gen_k_in v_par eng_max 0%nat))))
              (gen_initial p_beams) 0)
    as (b1 & E & Hframe & Hnew).
  { unfold pts, gen_points in Hcap. rewrite Eset in Hcap. cbn [Nat.add]. lia. }
  assert (Epts : filter (gen_inside c_par (gen_k_in v_par eng_max)
                           (gen_k_max_2 c_par v_par eng_max)
                           (fst (gen_bm_off c_par 1) 0%nat))
                   (gen_candidates
                      (fst (gen_n_max c_par (sqrt (gen_k_max_2 c_par v_par eng_max))
                                      (gen_k_in v_par eng_max 0%nat)))
                      (snd (gen_n_max c_par (sqrt (gen_k_max_2 c_par v_par eng_max))
                                      (gen_k_in v_par eng_max 0%nat)))) = pts).
  { unfold pts, gen_points. rewrite Eset. reflexivity. }
  rewrite Epts in E, Hframe, Hnew. cbn [Nat.add] in E, Hframe, Hnew.
  exists b1. split; [exact Hnew|]. split; [intros q Hq; apply Hframe; right; exact Hq|].
  unfold leed_beam_gen. rewrite Hset.
  destruct (Z.leb_spec (gen_iaux c_par (gen_k_max_2 c_par v_par eng_max)) 0) as [H|_]; [lia|].
  cbn [orb Z.leb Z.compare]. change (Z.to_nat 1) with 1%nat.
  change (Z.to_nat (gen_iaux c_par (gen_k_max_2 c_par v_par eng_max)))
    with (gen_cap c_par v_par eng_max).
  destruct (gen_bm_off c_par 1) as [bm_off i_set] eqn:Eoff.
  destruct (gen_n_max c_par (sqrt (gen_k_max_2 c_par v_par eng_max))
                      (gen_k_in v_par eng_max 0%nat)) as [n1_max n2_max] eqn:Emax.
  cbn [fst snd] in *.
  change (match p_beams with
          | Some old => old
          | None => fun _ : nat => beam_zero
          end) with (gen_initial p_beams).
  cbn [for_up]. unfold gen_set. rewrite gen_beams_fold, E.
  destruct (sort_ind _ _ _ _) as [b2|]; [|reflexivity].
  destruct (Nat.leb_spec (gen_cap c_par v_par eng_max) (List.length pts)) as [H|_]; [lia|].
  reflexivity.
Qed.

Lemma far_right x t : t <= x -> t <= Rabs x.
Proof. intros H. unfold Rabs. destruct (Rcase_abs x); lra. Qed.

Lemma far_left x t : x <= - t -> t <= Rabs x.
Proof. intros H. unfold Rabs. destruct (Rcase_abs x); lra. Qed.

Lemma sample_cap g : gen_cap (sample_crystal g) sample_var 0.605 = 6%nat.
Proof. unfold gen_cap. rewrite sample_k_max_2, sample_iaux. reflexivity. Qed.

(** C8 (as stated, refuted): on the rectangular lattice with the reciprocal
    vectors (1,0) and (0,1.00002), at normal incidence, the beams (0,1) and
    (1,0) of the only beam set are stored one after the other with k_par of
    the first above k_par of the second: the second pass, which orders
    beams whose k_par are less than K_TOLERANCE apart by their indices, has
    undone the order of the first. *)
Lemma leed_beam_gen_k_par_decreases :
  exists r,
    leed_beam_gen true (-1) None (sample_crystal 1.00002) sample_var 0.605 = Some r /\
    (4 < g_count r)%nat /\
    set (g_beams r 3%nat) = set (g_beams r 4%nat) /\
    (ind_1 (g_beams r 3%nat) = 0 /\ ind_2 (g_beams r 3%nat) = 1) /\
    (ind_1 (g_beams r 4%nat) = 1 /\ ind_2 (g_beams r 4%nat) = 0) /\
    k_par (g_beams r 4%nat) < k_par (g_beams r 3%nat).
Proof.
  assert (Hg : 1 <= 1.00002 < 1.1) by lra.
  destruct (leed_beam_gen_one_set true (-1) None (sample_crystal 1.00002) sample_var 0.605)
    as (b1 & Hnew & Hrest & E).
  - apply sample_n_set.
  - rewrite sample_k_max_2, sample_iaux; lia.
  - rewrite sample_points, sample_cap by exact Hg. cbn [List.length]. lia.
  - rewrite sample_cap in *. rewrite (sample_points _ Hg) in *. cbn [List.length] in *.
    destruct (sample_off_zero 1.00002) as (Z1 & Z2 & Z3 & Z4).
    assert (F : forall k n1 n2,
              nth_error [((-1)%Z, 0%Z); (0%Z, (-1)%Z); (0%Z, 0%Z); (0%Z, 1%Z); (1%Z, 0%Z)] k
              = Some (n1, n2) ->
              k_par (b1 k) = IZR n1 * IZR n1 + IZR n2 * IZR n2 * (1.00002 * 1.00002) /\
              ind_1 (b1 k) = IZR n1 /\ ind_2 (b1 k) = IZR n2 /\ set (b1 k) = 0%nat).
    { intros k n1 n2 Hk. rewrite (Hnew k _ Hk).
      unfold gen_new, beam_fill. cbn [k_par ind_1 ind_2 set fst snd].
      rewrite Z1, Z2, Z3, Z4. cbn [a_1 sample_crystal sample_recip].
      repeat split; ring. }
    destruct (F 0%nat _ _ eq_refl) as (A1 & A2 & A3 & A4).
    destruct (F 1%nat _ _ eq_refl) as (B1 & B2 & B3 & B4).
    destruct (F 2%nat _ _ eq_refl) as (C1 & C2 & C3 & C4).
    destruct (F 3%nat _ _ eq_refl) as (D1 & D2 & D3 & D4).
    destruct (F 4%nat _ _ eq_refl) as (E1 & E2 & E3 & E4).
    pose proof (Hrest 5%nat (le_n _)) as S1. cbn [gen_initial] in S1.
    rewrite (sort_k_par_example b1 (1.00002 * 1.00002)) in E;
      [|lra|rewrite A1; lra|rewrite B1; lra|rewrite C1; lra|rewrite D1; lra
       |rewrite E1; lra].
    rewrite (sort_ind_example b1 (1.00002 * 1.00002)) in E;
      [|lra|rewrite A1; lra|rewrite A2; lra
       |rewrite B1; lra|rewrite B2; lra|rewrite B3; lra
       |rewrite C1; lra
       |rewrite D1; lra|rewrite D2; lra|rewrite D3; lra
       |rewrite E1; lra|rewrite E2; lra
       |rewrite S1; reflexivity].
    eexists. split; [exact E|]. cbn [g_count g_beams].
    unfold beam_put. cbn [Nat.eqb]. rewrite !beam_swap_at. cbn [Nat.eqb].
    split; [lia|]. split; [congruence|].
    split; [split; [rewrite D2|rewrite D3]; lra|].
    split; [split; [rewrite E2|rewrite E3]; lra|].
    rewrite D1, E1. lra.
Qed.

(** On the square lattice the values of [k_par] of the five beams are 0
    and 1, and the slot after them is zero. *)
Lemma sample_separated : gen_separated None (sample_crystal 1) sample_var 0.605.
Proof.
  assert (Hg : 1 <= 1 < 1.1) by lra.
  intros i_set Hi p Hp.
  unfold gen_n_set in Hi. rewrite sample_n_set in Hi.
  assert (i_set = 0%nat) by (change (Z.to_nat 1) with 1%nat in Hi; lia). subst i_set.
  cbn [gen_start gen_initial]. rewrite (sample_points 1 Hg) in *.
  cbn [k_par beam_zero].
  assert (Hone : In (1%Z, 0%Z)
                    [((-1)%Z, 0%Z); (0%Z, (-1)%Z); (0%Z, 0%Z); (0%Z, 1%Z); (1%Z, 0%Z)])
    by (cbn; tauto).
  destruct p as [n1 n2]. split.
  - intros Hmax. specialize (Hmax _ Hone). rewrite !sample_k_par in *.
    cbn [In] in Hp.
    destruct Hp as [E|[E|[E|[E|[E|[]]]]]]; inversion E; subst;
      first [exfalso; lra | apply far_left; unfold K_TOLERANCE; lra].
  - intros [m1 m2] Hq. rewrite !sample_k_par.
    cbn [In] in Hp, Hq.
    destruct Hp as [E|[E|[E|[E|[E|[]]]]]]; inversion E; subst;
      destruct Hq as [F|[F|[F|[F|[F|[]]]]]]; inversion F; subst;
      first [left; lra
            | right; apply far_left; unfold K_TOLERANCE; lra
            | right; apply far_right; unfold K_TOLERANCE; lra].
Qed.

(** C8 (amended) on the square lattice. *)
Lemma leed_beam_gen_sorted_witness :
  exists r,
    leed_beam_gen true (-1) None (sample_crystal 1) sample_var 0.605 = Some r /\
    g_ret r = R_nint (rel_area_sup (sample_crystal 1)) /\
    g_count r = gen_start (sample_crystal 1) sample_var 0.605
                          (gen_n_set (sample_crystal 1)) /\
    beam_list_sorted r.
Proof.
  apply (leed_beam_gen_sorted true (-1) None (sample_crystal 1) sample_var 0.605).
  - rewrite sample_k_max_2, sample_iaux. lia.
  - rewrite sample_n_set. lia.
  - unfold gen_n_set. rewrite sample_n_set, sample_cap.
    change (Z.to_nat 1) with 1%nat. cbn [gen_start].
    rewrite sample_points by lra. cbn [List.length]. lia.
  - apply sample_separated.
Defined.

(** ** leed_ms_compl_sym *)

(** The shift of the origin, element by element. *)
Lemma compl_shift_spec L R T r c :
  rows T = r -> cols T = c ->
  rows (compl_shift L R T) = r /\ cols (compl_shift L R T) = c /\
  forall k l, (1 <= k <= r)%nat -> (1 <= l <= c)%nat ->
    mel (compl_shift L R T) k l = Cmul (vel R l) (Cmul (vel L k) (mel T k l)).
Proof.
  intros Hr Hc. unfold compl_shift, for_range. rewrite Hr.
  pose (P := fun (k : nat) (T' : mat_str) =>
    rows T' = r /\ cols T' = c /\
    forall i j, (1 <= i <= r)%nat -> (1 <= j <= c)%nat ->
      mel T' i j = if (i <? k)%nat then Cmul (vel R j) (Cmul (vel L i) (mel T i j))
                   else mel T i j).
  match goal with
  | |- context [for_up ?n ?lo ?f ?s] => assert (H : P (lo + n)%nat (for_up n lo f s))
  end.
  { apply for_up_ind.
    - unfold P. split; [exact Hr|]. split; [exact Hc|].
      intros i j Hi Hj. destruct (Nat.ltb_spec i 1); [lia|reflexivity].
    - intros k T' Hk (Hr' & Hc' & Hel). rewrite Hc'.
      pose (Q := fun (l : nat) (T'' : mat_str) =>
        rows T'' = r /\ cols T'' = c /\
        forall i j, (1 <= i <= r)%nat -> (1 <= j <= c)%nat ->
          mel T'' i j = if ((i =? k) && (j <? l))%nat%bool
                        then Cmul (vel R j) (Cmul (vel L i) (mel T' i j))
                        else mel T' i j).
      match goal with
      | |- P _ (for_up ?n ?lo ?f ?s) => assert (H : Q (lo + n)%nat (for_up n lo f s))
      end.
      { apply for_up_ind.
        - unfold Q. split; [exact Hr'|]. split; [exact Hc'|].
          intros i j Hi Hj. destruct (Nat.ltb_spec j 1); [lia|].
          rewrite andb_false_r. reflexivity.
        - intros l T'' Hl (Hr'' & Hc'' & Hel''). unfold Q. cbn [rows cols set_el].
          split; [exact Hr''|]. split; [exact Hc''|].
          intros i j Hi Hj. rewrite !mel_set_el. cbn [cols set_el]. rewrite Hc''.
          destruct (Nat.eqb_spec ((i - 1) * c + j) ((k - 1) * c + l)) as [E|E].
          + apply index_inj in E; [|lia..]. destruct E as [-> ->].
            rewrite Nat.eqb_refl. destruct (Nat.ltb_spec l (S l)); [|lia].
            cbn [andb]. unfold set_el. cbn [rel iel]. unfold upd.
            rewrite Nat.eqb_refl. cbn [fst snd].
            assert (Em : mel T'' k l = mel T' k l).
            { rewrite Hel'' by lia. rewrite Nat.eqb_refl.
              destruct (Nat.ltb_spec l l); [lia|reflexivity]. }
            unfold mel, RMATEL, IMATEL in Em. rewrite Hc'' in Em.
            injection Em as Er Ei. rewrite Er, Ei.
            unfold vel, mel, RMATEL, IMATEL, Cmul, cri_mul. rewrite Hc'. cbn [fst snd].
            reflexivity.
          + rewrite Hel'' by assumption.
            destruct (Nat.eqb_spec i k) as [->|Hik]; cbn [andb]; [|reflexivity].
            assert (j <> l) by (intros ->; apply E; reflexivity).
            destruct (Nat.ltb_spec j l), (Nat.ltb_spec j (S l)); try lia; reflexivity. }
      replace (1 + (c + 1 - 1))%nat with (c + 1)%nat in H by lia.
      destruct H as (Hr'' & Hc'' & Hel''). unfold P.
      split; [exact Hr''|]. split; [exact Hc''|].
      intros i j Hi Hj. rewrite Hel'' by assumption.
      destruct (Nat.eqb_spec i k) as [->|Hik].
      + destruct (Nat.ltb_spec j (c + 1)); [|lia]. cbn [andb].
        destruct (Nat.ltb_spec k (S k)); [|lia].
        rewrite Hel by assumption. destruct (Nat.ltb_spec k k); [lia|reflexivity].
      + cbn [andb]. rewrite Hel by assumption.
        destruct (Nat.ltb_spec i k), (Nat.ltb_spec i (S k)); try lia; reflexivity. }
  replace (1 + (r + 1 - 1))%nat with (r + 1)%nat in H by lia.
  destruct H as (Hr' & Hc' & Hel). split; [exact Hr'|]. split; [exact Hc'|].
  intros k l Hk Hl. rewrite Hel by assumption.
  destruct (Nat.ltb_spec k (r + 1)); [reflexivity|lia].
Qed.

(** The unscattered wave, element by element. *)
Lemma compl_direct_spec n L_p R_p Tmm Tpp :
  cols Tmm = n -> cols Tpp = n ->
  let Ts := compl_direct n L_p R_p (Tmm, Tpp) in
  (rows (fst Ts) = rows Tmm /\ cols (fst Ts) = n /\
   rows (snd Ts) = rows Tpp /\ cols (snd Ts) = n) /\
  forall i j, (1 <= i <= n)%nat -> (1 <= j <= n)%nat ->
    mel (fst Ts) i j =
      Cadd (mel Tmm i j) (if (i =? j)%nat then direct_wave L_p R_p i else Czero) /\
    mel (snd Ts) i j =
      Cadd (mel Tpp i j) (if (i =? j)%nat then direct_wave L_p R_p i else Czero).
Proof.
  intros Hm Hp Ts. subst Ts. unfold compl_direct.
  pose (P := fun (k : nat) (Ts : mat_str * mat_str) =>
    (rows (fst Ts) = rows Tmm /\ cols (fst Ts) = n /\
     rows (snd Ts) = rows Tpp /\ cols (snd Ts) = n) /\
    forall i j, (1 <= i <= n)%nat -> (1 <= j <= n)%nat ->
      mel (fst Ts) i j =
        Cadd (mel Tmm i j)
             (if ((i =? j) && (i <=? k))%nat%bool then direct_wave L_p R_p i else Czero) /\
      mel (snd Ts) i j =
        Cadd (mel Tpp i j)
             (if ((i =? j) && (i <=? k))%nat%bool then direct_wave L_p R_p i else Czero)).
  match goal with
  | |- context [for_up ?c ?lo ?f ?s] => assert (H : P (lo + c)%nat (for_up c lo f s))
  end.
  { apply for_up_ind.
    - unfold P. cbn [fst snd]. split; [repeat split; assumption|].
      intros i j Hi Hj. destruct (Nat.leb_spec i 0); [lia|].
      rewrite andb_false_r, !Cadd_0_r. split; reflexivity.
    - intros k [Tm Tp] Hk ((Hrm & Hcm & Hrp & Hcp) & Hel). cbn [fst snd] in *.
      unfold P. cbn [fst snd cri_mul].
      split; [cbn [rows cols set_rel set_iel]; repeat split; assumption|].
      intros i j Hi Hj.
      rewrite !mel_set_iel, !mel_set_rel. cbn [cols set_rel]. rewrite Hcm, Hcp.
      destruct (Hel i j Hi Hj) as [Em Ep].
      destruct (Nat.eqb_spec ((i - 1) * n + j) (1 + k * (n + 1))) as [E|E].
      + replace (1 + k * (n + 1))%nat with ((S k - 1) * n + S k)%nat in E
          by (cbn [Nat.sub]; rewrite Nat.sub_0_r; lia).
        apply index_inj in E; [|lia..]. destruct E as [-> ->].
        rewrite Nat.eqb_refl. destruct (Nat.leb_spec (S k) (S k)); [|lia]. cbn [andb].
        assert (Ei : ((S k - 1) * n + S k = 1 + k * (n + 1))%nat)
          by (cbn [Nat.sub]; rewrite Nat.sub_0_r; lia).
        rewrite Nat.eqb_refl in Em, Ep. destruct (Nat.leb_spec (S k) k); [lia|].
        cbn [andb] in Em, Ep. rewrite Cadd_0_r in Em, Ep.
        rewrite <- Em, <- Ep.
        unfold mel, RMATEL, IMATEL, set_rel. cbn [rel iel cols].
        rewrite Hcm, Hcp, Ei. unfold upd. rewrite !Nat.eqb_refl.
        unfold direct_wave, vel, Cadd, Cmul. cbn [fst snd].
        replace (k + 1)%nat with (S k) by lia.
        split; reflexivity.
      + rewrite Em, Ep.
        destruct (Nat.eqb_spec i j) as [->|Hij]; cbn [andb]; [|split; reflexivity].
        assert (j <> S k).
        { intros ->. apply E. cbn [Nat.sub]. rewrite Nat.sub_0_r. lia. }
        destruct (Nat.leb_spec j k), (Nat.leb_spec j (S k)); try lia; split; reflexivity. }
  change (0 + n)%nat with n in H. destruct H as (Hd & Hel). split; [exact Hd|].
  intros i j Hi Hj. destruct (Hel i j Hi Hj) as [Em Ep]. rewrite Em, Ep.
  destruct (Nat.leb_spec i n); [|lia]. rewrite andb_true_r. split; reflexivity.
Qed.

Section COMPL_SINGLE.
Context {lext : lsum_externals} {cext : compl_externals}.
Variable WARNING_LOG : bool.
Variable F_END_OF_LIST : R.
Variable I_END_OF_LIST : Z.
Variable v_par : leed_var.
Variable layer : leed_layer.
Hypothesis one_atom : n_atoms layer = 1%nat.

(** With one atom the loops over the pairs of atoms make no pass: the
    giant matrix is the identity. *)
Lemma compl_giant_single b0 p p_Tii :
  let d := ((c_l_max p + 1) * (c_l_max p + 1))%nat in
  snd (compl_giant WARNING_LOG v_par layer b0 p p_Tii) = [] /\
  has_dim d d (fst (compl_giant WARNING_LOG v_par layer b0 p p_Tii)) /\
  cm_eq d d (mel (fst (compl_giant WARNING_LOG v_par layer b0 p p_Tii))) cm_id.
Proof.
  intros d. unfold compl_giant, compl_pairs. rewrite one_atom.
  cbn [for_up Nat.sub Nat.add fst snd]. fold d. rewrite Nat.mul_1_r.
  change (compl_add_identity (matalloc d d)) with (ld_add_unity (d * d) (matalloc d d)).
  destruct (ld_add_unity_spec d (matalloc d d) eq_refl) as (Hr & Hc & Hel).
  split; [reflexivity|]. split; [split; assumption|].
  intros i j Hi Hj. rewrite Hel by assumption.
  unfold mel, RMATEL, IMATEL. cbn [rel iel matalloc].
  apply Cadd_0_r.
Qed.

(** The scattering matrix of the type of the only atom is set. *)
Lemma compl_Tii_single b0 p :
  exists Tii, compl_Tii v_par layer b0 p (type (c_atoms p 0%nat)) = Some Tii.
Proof.
  unfold compl_Tii. rewrite one_atom. cbn [for_up].
  destruct (cri_div (-0.5) 0 (k_r b0 0%nat) (k_i b0 0%nat)) as [faux_r faux_i].
  rewrite Z.eqb_refl. eexists. reflexivity.
Qed.

Lemma compl_LR_single beams n_beams p p_Tii Tii :
  p_Tii (type (c_atoms p 0%nat)) = Some Tii ->
  let d := ((c_l_max p + 1) * (c_l_max p + 1))%nat in
  exists L_p L_m R_p R_m,
    compl_LR layer beams n_beams p p_Tii = Some (L_p, L_m, R_p, R_m) /\
    has_dim n_beams d L_p /\ has_dim n_beams d L_m /\
    has_dim d n_beams R_p /\ has_dim d n_beams R_m.
Proof.
  intros HT d. unfold compl_LR. rewrite one_atom. cbn [for_up]. rewrite HT.
  fold d. rewrite Nat.mul_1_r.
  do 4 eexists. split; [reflexivity|].
  repeat split.
Qed.

End COMPL_SINGLE.

(** With the identity in the place of the inverted giant matrix the four
    matrices are those of the single Bravais lattice. *)
Lemma compl_finish_identity beams n p X L_p L_m R_p R_m d :
  has_dim d d X -> cm_eq d d (mel X) cm_id ->
  has_dim n d L_p -> has_dim n d L_m -> has_dim d n R_p -> has_dim d n R_m ->
  let Ts := compl_finish beams n p X L_p L_m R_p R_m in
  let Vs := compl_shift_vectors beams n (c_z_min p) (c_z_max p) in
  let Lv_p := fst (fst (fst Vs)) in
  let Lv_m := snd (fst (fst Vs)) in
  let Rv_p := snd (fst Vs) in
  let Rv_m := snd Vs in
  cm_eq n n (mel (fst (fst (fst Ts))))
        (bravais_matrix d L_p R_p Lv_p Rv_p (direct_wave Lv_p Rv_p)) /\
  cm_eq n n (mel (snd (fst (fst Ts))))
        (bravais_matrix d L_m R_m Lv_m Rv_m (direct_wave Lv_p Rv_p)) /\
  cm_eq n n (mel (snd (fst Ts)))
        (bravais_matrix d L_p R_m Lv_p Rv_m (fun _ => Czero)) /\
  cm_eq n n (mel (snd Ts))
        (bravais_matrix d L_m R_p Lv_m Rv_p (fun _ => Czero)).
Proof.
  intros [rX cX] HX [rLp cLp] [rLm cLm] [rRp cRp] [rRm cRm] Ts Vs Lv_p Lv_m Rv_p Rv_m.
  assert (Hprod : forall L R, cols L = d -> cols R = n ->
            cm_eq n n (mel (matmul L (matmul X R))) (cm_mul d (mel L) (mel R))).
  { intros L R cL cR k l Hk Hl.
    rewrite mel_matmul by (cbn [cols matmul mat_of_fun]; lia). rewrite cL.
    unfold cm_mul at 1. apply csum_ext. intros m Hm. f_equal.
    rewrite mel_matmul by lia. rewrite cX.
    rewrite (cm_mul_compat d d n (mel X) cm_id (mel R) (mel R) HX (cm_eq_refl _ _ _) m l)
      by lia.
    apply cm_mul_id_l. lia. }
  subst Ts. unfold compl_finish. fold Vs.
  destruct Vs as [[[V1 V2] V3] V4] eqn:EV. cbn [fst snd] in Lv_p, Lv_m, Rv_p, Rv_m.
  subst Lv_p Lv_m Rv_p Rv_m.
  set (Tpp0 := matmul L_p (matmul X R_p)).
  set (Rmp0 := matmul L_m (matmul X R_p)).
  set (Tmm0 := matmul L_m (matmul X R_m)).
  set (Rpm0 := matmul L_p (matmul X R_m)).
  destruct (compl_shift_spec V1 V3 Tpp0 n n) as (rTpp & cTpp & eTpp);
    [unfold Tpp0; cbn [rows matmul mat_of_fun]; exact rLp
    |unfold Tpp0; cbn [cols matmul mat_of_fun]; exact cRp|].
  destruct (compl_shift_spec V2 V4 Tmm0 n n) as (rTmm & cTmm & eTmm);
    [unfold Tmm0; cbn [rows matmul mat_of_fun]; exact rLm
    |unfold Tmm0; cbn [cols matmul mat_of_fun]; exact cRm|].
  destruct (compl_shift_spec V1 V4 Rpm0 n n) as (rRpm & cRpm & eRpm);
    [unfold Rpm0; cbn [rows matmul mat_of_fun]; exact rLp
    |unfold Rpm0; cbn [cols matmul mat_of_fun]; exact cRm|].
  destruct (compl_shift_spec V2 V3 Rmp0 n n) as (rRmp & cRmp & eRmp);
    [unfold Rmp0; cbn [rows matmul mat_of_fun]; exact rLm
    |unfold Rmp0; cbn [cols matmul mat_of_fun]; exact cRp|].
  pose proof (compl_direct_spec n V1 V3 (compl_shift V2 V4 Tmm0) (compl_shift V1 V3 Tpp0)
                cTmm cTpp) as Hdir.
  cbv zeta in Hdir.
  destruct (compl_direct n V1 V3 (compl_shift V2 V4 Tmm0, compl_shift V1 V3 Tpp0))
    as [Tmm1 Tpp1].
  cbn [fst snd] in *. destruct Hdir as (_ & Hdir).
  repeat split; intros k l Hk Hl; unfold bravais_matrix.
  - rewrite (proj2 (Hdir k l Hk Hl)), eTpp by assumption. unfold Tpp0.
    rewrite (Hprod L_p R_p cLp cRp k l Hk Hl). reflexivity.
  - rewrite (proj1 (Hdir k l Hk Hl)), eTmm by assumption. unfold Tmm0.
    rewrite (Hprod L_m R_m cLm cRm k l Hk Hl). reflexivity.
  - rewrite eRpm by assumption. unfold Rpm0.
    rewrite (Hprod L_p R_m cLp cRm k l Hk Hl).
    destruct (k =? l)%nat; rewrite Cadd_0_r; reflexivity.
  - rewrite eRmp by assumption. unfold Rmp0.
    rewrite (Hprod L_m R_p cLm cRp k l Hk Hl).
    destruct (k =? l)%nat; rewrite Cadd_0_r; reflexivity.
Qed.

(** C2: for a layer of exactly one atom the giant matrix that
    leed_ms_compl_sym assembles is the identity (no block of a pair of
    atoms is written); when ms_partinv returns an inverse of it, the
    inverted giant matrix is the identity as well, the call returns 1, and
    the four matrices are those of the single Bravais lattice: the products
    L * R of the plane wave matrices of the one atom (R holds its Bravais
    scattering matrix Tii), with the factors of the shift of the origin and,
    for Tpp and Tmm, the unscattered wave; no lattice sum between two
    sublattices enters. *)
Theorem leed_ms_compl_sym_single_atom
        {lext : lsum_externals} {cext : compl_externals}
        (WARNING_LOG : bool) (F_END_OF_LIST : R) (I_END_OF_LIST : Z)
        (p_Tpp p_Tmm p_Rpm p_Rmp : mat) (v_par : leed_var) (layer : leed_layer)
        (beams : list leed_beam) (n : nat) :
  let p := compl_prepare I_END_OF_LIST v_par layer in
  let b0 := beam_at beams 0 in
  let p_Tii := compl_Tii v_par layer b0 p in
  let d := ((c_l_max p + 1) * (c_l_max p + 1))%nat in
  let G := fst (compl_giant WARNING_LOG v_par layer b0 p p_Tii) in
  let X := ms_partinv G (c_n_plane p) (c_l_max p) in
  let Vs := compl_shift_vectors beams n (c_z_min p) (c_z_max p) in
  let Lv_p := fst (fst (fst Vs)) in
  let Lv_m := snd (fst (fst Vs)) in
  let Rv_p := snd (fst Vs) in
  let Rv_m := snd Vs in
  n_atoms layer = 1%nat ->
  (0 <= matcheck p_Tpp)%Z -> (0 <= matcheck p_Tmm)%Z ->
  (0 <= matcheck p_Rpm)%Z -> (0 <= matcheck p_Rmp)%Z ->
  compl_n_beams F_END_OF_LIST beams = Some n ->
  has_dim d d X -> cm_eq d d (cm_mul d (mel X) (mel G)) cm_id ->
  cm_eq d d (mel G) cm_id /\
  cm_eq d d (mel X) cm_id /\
  exists L_p L_m R_p R_m Tpp Tmm Rpm Rmp,
    compl_LR layer beams n p p_Tii = Some (L_p, L_m, R_p, R_m) /\
    leed_ms_compl_sym WARNING_LOG F_END_OF_LIST I_END_OF_LIST
                      p_Tpp p_Tmm p_Rpm p_Rmp v_par layer beams =
    Some (mk_compl_result 1 (Some Tpp) (Some Tmm) (Some Rpm) (Some Rmp) []) /\
    cm_eq n n (mel Tpp) (bravais_matrix d L_p R_p Lv_p Rv_p (direct_wave Lv_p Rv_p)) /\
    cm_eq n n (mel Tmm) (bravais_matrix d L_m R_m Lv_m Rv_m (direct_wave Lv_p Rv_p)) /\
    cm_eq n n (mel Rpm) (bravais_matrix d L_p R_m Lv_p Rv_m (fun _ => Czero)) /\
    cm_eq n n (mel Rmp) (bravais_matrix d L_m R_p Lv_m Rv_p (fun _ => Czero)).
Proof.
  intros p b0 p_Tii d G X Vs Lv_p Lv_m Rv_p Rv_m Hone H1 H2 H3 H4 Hn HdX Hinv.
  destruct (compl_giant_single WARNING_LOG v_par layer Hone b0 p p_Tii)
    as (Hlog & HdG & HG).
  fold d in HdG, HG. fold G in HdG, HG.
  assert (HX : cm_eq d d (mel X) cm_id).
  { intros i j Hi Hj. rewrite <- (Hinv i j Hi Hj).
    rewrite (cm_mul_compat d d d (mel X) (mel X) (mel G) cm_id (cm_eq_refl _ _ _) HG i j)
      by assumption.
    symmetry. apply cm_mul_id_r. assumption. }
  split; [exact HG|]. split; [exact HX|].
  destruct (compl_Tii_single v_par layer Hone b0 p) as (Tii & HTii).
  destruct (compl_LR_single layer Hone beams n p p_Tii Tii HTii)
    as (L_p & L_m & R_p & R_m & ELR & dLp & dLm & dRp & dRm).
  fold d in dLp, dLm, dRp, dRm.
  pose proof (compl_finish_identity beams n p X L_p L_m R_p R_m d HdX HX dLp dLm dRp dRm)
    as Hfin.
  cbv zeta in Hfin. fold Vs in Hfin. fold Lv_p Lv_m Rv_p Rv_m in Hfin.
  destruct (compl_finish beams n p X L_p L_m R_p R_m) as [[[Tpp Tmm] Rpm] Rmp] eqn:Efin.
  cbn [fst snd] in Hfin.
  exists L_p, L_m, R_p, R_m, Tpp, Tmm, Rpm, Rmp.
  split; [exact ELR|]. split; [|exact Hfin].
  unfold leed_ms_compl_sym.
  destruct (Z.ltb_spec (matcheck p_Tpp) 0) as [Hb|_]; [lia|].
  destruct (Z.ltb_spec (matcheck p_Tmm) 0) as [Hb|_]; [lia|].
  destruct (Z.ltb_spec (matcheck p_Rmp) 0) as [Hb|_]; [lia|].
  destruct (Z.ltb_spec (matcheck p_Rpm) 0) as [Hb|_]; [lia|].
  cbn [orb]. rewrite Hn.
  destruct beams as [|b1 rest]; [discriminate|].
  change (beam_at (b1 :: rest) 0) with b1 in b0. subst b0.
  fold p. fold p_Tii.
  destruct (compl_giant WARNING_LOG v_par layer b1 p p_Tii) as [G' log] eqn:EG.
  cbn [fst snd] in *. subst G log. fold X. rewrite ELR, Efin. reflexivity.
Qed.

(** C2 on a layer of one atom and one beam. *)
Lemma leed_ms_compl_sym_single_atom_witness :
  exists Tpp Tmm Rpm Rmp,
    @leed_ms_compl_sym sample_lsum_externals sample_compl_externals true (-1) (-1)
       None None None None sample_var sample_layer sample_beams =
    Some (mk_compl_result 1 (Some Tpp) (Some Tmm) (Some Rpm) (Some Rmp) []).
Proof.
  destruct (@leed_ms_compl_sym_single_atom sample_lsum_externals sample_compl_externals
              true (-1) (-1)%Z None None None None sample_var sample_layer sample_beams 1)
    as (_ & _ & L_p & L_m & R_p & R_m & Tpp & Tmm & Rpm & Rmp & _ & E & _).
  - reflexivity.
  - cbn. lia.
  - cbn. lia.
  - cbn. lia.
  - cbn. lia.
  - unfold sample_beams. cbn [compl_n_beams k_par beam_zero beam_set_k_par].
    rewrite (IS_EQUAL_REAL_false 0 (-1)) by lra.
    rewrite (IS_EQUAL_REAL_true (-1) (-1)) by reflexivity. reflexivity.
  - cbn [ms_partinv sample_compl_externals].
    match goal with
    | |- has_dim _ _ (fst (compl_giant _ _ _ ?b ?p ?t)) =>
        destruct (@compl_giant_single sample_lsum_externals sample_compl_externals
                    true sample_var sample_layer eq_refl b p t)
          as (_ & HG & _)
    end.
    exact HG.
  - cbn [ms_partinv sample_compl_externals].
    match goal with
    | |- cm_eq _ _ (cm_mul _ (mel (fst (compl_giant _ _ _ ?b ?p ?t))) _) _ =>
        destruct (@compl_giant_single sample_lsum_externals sample_compl_externals
                    true sample_var sample_layer eq_refl b p t)
          as (_ & _ & HG)
    end.
    intros i j Hi Hj.
    rewrite (cm_mul_compat _ _ _ _ _ _ _ HG HG i j Hi Hj).
    apply cm_mul_id_l. exact Hi.
  - exists Tpp, Tmm, Rpm, Rmp. exact E.
Defined.

(** ** The index ranges of leed_ms_lsum_ij *)

(** The closed-form index ranges of leed_ms_lsum_ij miss no lattice point
    inside the radius: for a cell of non-zero area, every pair (n1, n2)
    whose point [n1 a1 + n2 a2 + d_ij] has a squared distance from the
    origin below [r_max] lies in [n1_min, n1_max] and, at this n1, in
    [n2_min, n2_max]. *)
Theorem leed_ms_lsum_ij_index_ranges (a d_ij : nat -> R) (r_max : R) (n1 n2 : Z) :
  lsum_cell_regular a ->
  lsum_dist2 a d_ij n1 n2 < r_max ->
  (fst (lsum_n1_range a d_ij r_max) <= n1 <= snd (lsum_n1_range a d_ij r_max))%Z /\
  (fst (lsum_n2_range a d_ij r_max n1) <= n2 <= snd (lsum_n2_range a d_ij r_max n1))%Z.
Proof. apply lsum_ranges_cover. Qed.

(** The ranges on the unit square lattice, at the point -2 a1 + d_ij. *)
Lemma leed_ms_lsum_ij_index_ranges_witness :
  (fst (lsum_n1_range sample_cell sample_shift (1.7 * 1.7)) <= -2 <=
   snd (lsum_n1_range sample_cell sample_shift (1.7 * 1.7)))%Z /\
  (fst (lsum_n2_range sample_cell sample_shift (1.7 * 1.7) (-2)) <= 0 <=
   snd (lsum_n2_range sample_cell sample_shift (1.7 * 1.7) (-2)))%Z.
Proof.
  apply leed_ms_lsum_ij_index_ranges.
  - unfold lsum_cell_regular. cbn [sample_cell]. lra.
  - unfold lsum_dist2. cbn [sample_cell sample_shift]. lra.
Defined.
(** ** leed_beam_get_selection *)

Lemma sel_iaux_before F beams :
  sel_terminated F beams ->
  sel_iaux F beams = Some (S (List.length (sel_before F beams))).
Proof.
  intros (b & Hin & Hb). induction beams as [|x rest IH]; [destruct Hin|].
  cbn [sel_iaux sel_before].
  destruct (IS_EQUAL_REAL_spec (k_par x) F) as [E|NE]; [reflexivity|].
  destruct Hin as [->|Hin]; [contradiction|].
  rewrite (IH Hin). reflexivity.
Qed.

Lemma sel_iaux_terminated F beams n :
  sel_iaux F beams = Some n -> sel_terminated F beams.
Proof.
  revert n. induction beams as [|x rest IH]; intros n H; [discriminate|].
  cbn [sel_iaux] in H.
  destruct (IS_EQUAL_REAL_spec (k_par x) F) as [E|NE].
  - exists x. split; [left; reflexivity|exact E].
  - destruct (sel_iaux F rest) as [m|] eqn:Em; [|discriminate].
    destruct (IH m eq_refl) as (b & Hin & Hb).
    exists b. split; [right; exact Hin|exact Hb].
Qed.

Lemma sel_before_length F beams :
  (List.length (filter (fun _ : leed_beam => true) (sel_before F beams)) =
   List.length (sel_before F beams))%nat.
Proof.
  induction (sel_before F beams) as [|x l IH]; [reflexivity|].
  cbn. rewrite IH. reflexivity.
Qed.

Lemma filter_length_le {A : Type} (P : A -> bool) (l : list A) :
  (List.length (filter P l) <= List.length l)%nat.
Proof.
  induction l as [|x l IH]; [apply Nat.le_refl|].
  cbn. destruct (P x); cbn; lia.
Qed.

(** The loop writes the selected beams one after the other from
    [i_beams_out] on and stops at the terminator. *)
Lemma sel_loop_spec {lext : lsum_externals} cri_sqrt F v_par eng_r k_max_2 k_r0 k_i0 cap
      beams_in :
  sel_terminated F beams_in ->
  forall beams_out i_beams_out,
    let sel := filter (sel_inside v_par k_max_2) (sel_before F beams_in) in
    (i_beams_out + List.length sel <= cap)%nat ->
    exists out',
      sel_loop cri_sqrt F v_par eng_r k_max_2 k_r0 k_i0 cap beams_in beams_out
               i_beams_out = Some (out', (i_beams_out + List.length sel)%nat) /\
      (forall q, (q < i_beams_out)%nat \/ (i_beams_out + List.length sel <= q)%nat ->
                 out' q = beams_out q) /\
      (forall k b, nth_error sel k = Some b ->
                   out' (i_beams_out + k)%nat = sel_fill cri_sqrt v_par eng_r k_r0 k_i0 b).
Proof.
  intros (t & Hin & Ht).
  induction beams_in as [|x rest IH]; [destruct Hin|].
  intros out i sel Hcap. subst sel. cbn [sel_loop sel_before] in *.
  destruct (IS_EQUAL_REAL_spec (k_par x) F) as [E|NE].
  - cbn [filter List.length] in *. exists out. rewrite Nat.add_0_r.
    split; [reflexivity|]. split; [reflexivity|].
    intros k b H. destruct k; discriminate.
  - destruct Hin as [->|Hin]; [contradiction|].
    cbn [filter] in *.
    change (Rleb ((k_r x 1%nat + k_in v_par 1%nat) * (k_r x 1%nat + k_in v_par 1%nat) +
                  (k_r x 2%nat + k_in v_par 2%nat) * (k_r x 2%nat + k_in v_par 2%nat))
                 k_max_2) with (sel_inside v_par k_max_2 x).
    destruct (sel_inside v_par k_max_2 x) eqn:Ein.
    + cbn [List.length] in *.
      destruct (Nat.leb_spec cap i) as [Hle|Hlt]; [lia|].
      destruct (IH Hin
                  (fun q => if (q =? i)%nat
                            then sel_fill cri_sqrt v_par eng_r k_r0 k_i0 x else out q)
                  (S i) ltac:(lia)) as (out' & E' & Hframe & Hnew).
      exists out'.
      replace (i + S (List.length (filter (sel_inside v_par k_max_2) (sel_before F rest))))%nat
        with (S i + List.length (filter (sel_inside v_par k_max_2) (sel_before F rest)))%nat
        by lia.
      split; [exact E'|]. split.
      * intros q Hq. rewrite Hframe by lia.
        destruct (Nat.eqb_spec q i); [lia|reflexivity].
      * intros k b Hk. destruct k as [|k].
        -- cbn in Hk. inversion Hk; subst b. rewrite Nat.add_0_r.
           rewrite Hframe by lia. rewrite Nat.eqb_refl. reflexivity.
        -- cbn [nth_error] in Hk.
           replace (i + S k)%nat with (S i + k)%nat by lia.
           apply Hnew. exact Hk.
    + destruct (IH Hin out i Hcap) as (out' & E' & Hframe & Hnew).
      exists out'. split; [exact E'|]. split; assumption.
Qed.

(** The outcome of a call on a terminated list. *)
Lemma sel_outcome {lext : lsum_externals} cri_sqrt F p_beams_out beams_in v_par eng_r dmin :
  sel_terminated F beams_in ->
  let sel := sel_selected F v_par eng_r dmin beams_in in
  let k := cri_sqrt (2 * eng_r) (2 * eng_i v_par) in
  exists r,
    leed_beam_get_selection cri_sqrt F p_beams_out beams_in v_par eng_r dmin = Some r /\
    s_ret r = Z.of_nat (List.length sel) /\
    s_cap r = S (List.length (sel_before F beams_in)) /\
    (forall j b, nth_error sel j = Some b ->
       s_beams r j = sel_fill cri_sqrt v_par eng_r (fst k) (snd k) b) /\
    k_par (b_beam (s_beams r (List.length sel))) = F.
Proof.
  intros Hterm sel k. unfold leed_beam_get_selection.
  rewrite (sel_iaux_before F beams_in Hterm).
  set (out0 := match p_beams_out with
               | None => fun _ : nat => beam_sel_zero
               | Some old => old
               end).
  assert (Hlen : (List.length sel <= List.length (sel_before F beams_in))%nat)
    by apply filter_length_le.
  destruct (sel_loop_spec cri_sqrt F v_par eng_r (sel_k_max_2 v_par eng_r dmin)
              (fst k) (snd k) (S (List.length (sel_before F beams_in))) beams_in Hterm
              out0 0%nat) as (out' & E & Hframe & Hnew).
  { cbn [Nat.add]. fold (sel_selected F v_par eng_r dmin beams_in). fold sel. lia. }
  fold (sel_selected F v_par eng_r dmin beams_in) in E, Hframe, Hnew.
  fold sel in E, Hframe, Hnew. cbn [Nat.add] in E.
  fold k. rewrite E.
  destruct (Nat.leb_spec (S (List.length (sel_before F beams_in))) (List.length sel))
    as [Hle|Hlt]; [lia|].
  eexists. split; [reflexivity|]. cbn [s_ret s_cap s_beams].
  split; [reflexivity|]. split; [reflexivity|]. split.
  - intros j b Hj.
    assert (Hjl : (j < List.length sel)%nat) by (apply nth_error_Some; congruence).
    destruct (Nat.eqb_spec j (List.length sel)); [lia|].
    apply (Hnew j b Hj).
  - rewrite Nat.eqb_refl. reflexivity.
Qed.

(** The output of leed_beam_get_selection holds, in the order of the
    input list, exactly the beams before the terminator whose parallel
    momentum (that of the incident wave added) lies inside the radius
    [k_max]; each is the copy with the new wave vector.  The value
    returned is their number, the element after them is the terminator,
    and all of it fits into the array allocated. *)
Theorem leed_beam_get_selection_selected {lext : lsum_externals}
        (cri_sqrt : R -> R -> R * R) (F_END_OF_LIST : R)
        (p_beams_out : option (nat -> leed_beam_sel)) (beams_in : list leed_beam)
        (v_par : leed_var) (eng_r dmin : R) :
  sel_terminated F_END_OF_LIST beams_in ->
  exists r,
    leed_beam_get_selection cri_sqrt F_END_OF_LIST p_beams_out beams_in v_par eng_r dmin
    = Some r /\
    s_ret r = Z.of_nat (List.length (sel_selected F_END_OF_LIST v_par eng_r dmin beams_in)) /\
    (Z.to_nat (s_ret r) < s_cap r)%nat /\
    (forall j b,
       nth_error (sel_selected F_END_OF_LIST v_par eng_r dmin beams_in) j = Some b ->
       s_beams r j =
       sel_fill cri_sqrt v_par eng_r
                (fst (cri_sqrt (2 * eng_r) (2 * eng_i v_par)))
                (snd (cri_sqrt (2 * eng_r) (2 * eng_i v_par))) b) /\
    k_par (b_beam (s_beams r (Z.to_nat (s_ret r)))) = F_END_OF_LIST.
Proof.
  intros Hterm.
  destruct (sel_outcome cri_sqrt F_END_OF_LIST p_beams_out beams_in v_par eng_r dmin Hterm)
    as (r & E & Hret & Hcap & Hnew & Hend).
  exists r. split; [exact E|]. split; [exact Hret|].
  rewrite Hret, Nat2Z.id, Hcap.
  split; [|split; [exact Hnew|exact Hend]].
  pose proof (filter_length_le (sel_inside v_par (sel_k_max_2 v_par eng_r dmin))
                               (sel_before F_END_OF_LIST beams_in)) as H.
  unfold sel_selected. lia.
Qed.

(** The walk of the readers of a beam list up to the terminator. *)
Lemma compl_n_beams_at F (l : list leed_beam) n :
  (n < List.length l)%nat ->
  (forall j, (j < n)%nat -> k_par (nth j l beam_zero) <> F) ->
  k_par (nth n l beam_zero) = F ->
  compl_n_beams F l = Some n /\ sel_iaux F l = Some (S n).
Proof.
  revert l. induction n as [|n IH]; intros l Hn Hlow Hend.
  - destruct l as [|x l]; [cbn in Hn; lia|]. cbn in Hend. cbn.
    rewrite (IS_EQUAL_REAL_true _ _ Hend). split; reflexivity.
  - destruct l as [|x l]; [cbn in Hn; lia|]. cbn [compl_n_beams sel_iaux].
    rewrite (IS_EQUAL_REAL_false (k_par x) F (Hlow 0%nat ltac:(lia))).
    destruct (IH l) as [E1 E2].
    + cbn in Hn. lia.
    + intros j Hj. apply (Hlow (S j)). lia.
    + exact Hend.
    + rewrite E1, E2. split; reflexivity.
Qed.

Lemma sel_list_nth r j :
  (j < s_cap r)%nat -> nth j (sel_list r) beam_zero = b_beam (s_beams r j).
Proof.
  intros Hj. unfold sel_list.
  rewrite (nth_indep _ beam_zero (b_beam (s_beams r 0%nat)))
    by (rewrite length_map, length_seq; exact Hj).
  rewrite (map_nth (fun q => b_beam (s_beams r q)) (seq 0 (s_cap r)) 0%nat j).
  rewrite seq_nth by exact Hj. reflexivity.
Qed.

(** With a negative terminating value the output of
    leed_beam_get_selection can be read back: the walk up to the
    terminator, as leed_ms_compl_sym and leed_beam_get_selection itself
    make it, finds exactly the number of beams the call returned. *)
Theorem leed_beam_get_selection_read_back {lext : lsum_externals}
        (cri_sqrt : R -> R -> R * R) (F_END_OF_LIST : R)
        (p_beams_out : option (nat -> leed_beam_sel)) (beams_in : list leed_beam)
        (v_par : leed_var) (eng_r dmin : R) :
  F_END_OF_LIST < 0 ->
  sel_terminated F_END_OF_LIST beams_in ->
  exists r,
    leed_beam_get_selection cri_sqrt F_END_OF_LIST p_beams_out beams_in v_par eng_r dmin
    = Some r /\
    compl_n_beams F_END_OF_LIST (sel_list r) = Some (Z.to_nat (s_ret r)) /\
    sel_iaux F_END_OF_LIST (sel_list r) = Some (S (Z.to_nat (s_ret r))).
Proof.
  intros HF Hterm.
  destruct (sel_outcome cri_sqrt F_END_OF_LIST p_beams_out beams_in v_par eng_r dmin Hterm)
    as (r & E & Hret & Hcap & Hnew & Hend).
  exists r. split; [exact E|]. rewrite Hret, Nat2Z.id.
  set (sel := sel_selected F_END_OF_LIST v_par eng_r dmin beams_in) in *.
  assert (Hlen : (List.length sel < s_cap r)%nat).
  { rewrite Hcap.
    pose proof (filter_length_le (sel_inside v_par (sel_k_max_2 v_par eng_r dmin))
                                 (sel_before F_END_OF_LIST beams_in)) as H.
    unfold sel, sel_selected. lia. }
  apply compl_n_beams_at.
  - unfold sel_list. rewrite length_map, length_seq. exact Hlen.
  - intros j Hj. rewrite sel_list_nth by lia.
    destruct (nth_error sel j) as [b|] eqn:Eb;
      [|apply nth_error_None in Eb; lia].
    rewrite (Hnew j b Eb). unfold sel_fill. cbn [b_beam k_par].
    match goal with |- sqrt ?x <> _ => pose proof (sqrt_pos x) end. lra.
  - rewrite sel_list_nth by exact Hlen. exact Hend.
Qed.

Lemma filter_length_mono {A : Type} (P Q : A -> bool) (l : list A) :
  (forall x, In x l -> P x = true -> Q x = true) ->
  (List.length (filter P l) <= List.length (filter Q l))%nat /\
  incl (filter P l) (filter Q l).
Proof.
  intros H. split.
  - induction l as [|x l IH]; [apply Nat.le_refl|]. cbn.
    assert (IH' := IH (fun y Hy => H y (or_intror Hy))).
    destruct (P x) eqn:EP.
    + rewrite (H x (or_introl eq_refl) EP). cbn. lia.
    + destruct (Q x); cbn; lia.
  - intros x Hx. apply filter_In in Hx. destruct Hx as [Hin HP].
    apply filter_In. split; [exact Hin|]. apply H; assumption.
Qed.

(** Raising the energy never drops a beam: at the higher of two energies
    (all else the same) leed_beam_get_selection selects every beam it
    selects at the lower one, and returns a number that is not smaller. *)
Theorem leed_beam_get_selection_energy_monotone {lext : lsum_externals}
        (cri_sqrt : R -> R -> R * R) (F_END_OF_LIST : R)
        (p_beams_out p_beams_out' : option (nat -> leed_beam_sel))
        (beams_in : list leed_beam) (v_par : leed_var) (eng_r eng_r' dmin : R) :
  sel_terminated F_END_OF_LIST beams_in ->
  eng_r <= eng_r' ->
  exists r r',
    leed_beam_get_selection cri_sqrt F_END_OF_LIST p_beams_out beams_in v_par eng_r dmin
    = Some r /\
    leed_beam_get_selection cri_sqrt F_END_OF_LIST p_beams_out' beams_in v_par eng_r' dmin
    = Some r' /\
    (s_ret r <= s_ret r')%Z /\
    incl (sel_selected F_END_OF_LIST v_par eng_r dmin beams_in)
         (sel_selected F_END_OF_LIST v_par eng_r' dmin beams_in).
Proof.
  intros Hterm Hle.
  destruct (sel_outcome cri_sqrt F_END_OF_LIST p_beams_out beams_in v_par eng_r dmin Hterm)
    as (r & E & Hret & _).
  destruct (sel_outcome cri_sqrt F_END_OF_LIST p_beams_out' beams_in v_par eng_r' dmin Hterm)
    as (r' & E' & Hret' & _).
  exists r, r'. split; [exact E|]. split; [exact E'|].
  rewrite Hret, Hret'. unfold sel_selected.
  destruct (filter_length_mono (sel_inside v_par (sel_k_max_2 v_par eng_r dmin))
              (sel_inside v_par (sel_k_max_2 v_par eng_r' dmin))
              (sel_before F_END_OF_LIST beams_in)) as [Hl Hi].
  - intros x _. unfold sel_inside, sel_k_max_2, Rleb.
    destruct (Rle_dec _ _) as [H1|H1]; [|discriminate].
    destruct (Rle_dec _ _) as [H2|H2]; [reflexivity|].
    intros _. exfalso. apply H2. cbv zeta in *. lra.
  - split; [lia|exact Hi].
Qed.

Lemma sample_terminated : sel_terminated (-1) sample_beams_in.
Proof.
  exists (beam_set_k_par beam_zero (-1)). split; [|reflexivity].
  unfold sample_beams_in. cbn. tauto.
Qed.

Lemma sample_selected :
  sel_selected (-1) sample_var 1 1 sample_beams_in =
  [sample_beam_at 0 0; sample_beam_at 1 0].
Proof.
  unfold sel_selected, sample_beams_in. cbn [sel_before].
  rewrite !(IS_EQUAL_REAL_false _ (-1)) by (cbn; lra).
  rewrite (IS_EQUAL_REAL_true (k_par (beam_set_k_par beam_zero (-1))) (-1)) by reflexivity.
  assert (K : sel_k_max_2 sample_var 1 1 = 2).
  { unfold sel_k_max_2. cbn [epsilon sample_var]. rewrite ln_1. lra. }
  rewrite K.
  rewrite filter_true by (unfold sel_inside; apply Rleb_true; cbn; lra).
  rewrite filter_true by (unfold sel_inside; apply Rleb_true; cbn; lra).
  rewrite filter_false by (unfold sel_inside; apply Rleb_false; cbn; lra).
  reflexivity.
Qed.

(** The selection of two of three beams. *)
Lemma leed_beam_get_selection_selected_witness :
  exists r,
    @leed_beam_get_selection sample_lsum_externals sample_cri_sqrt (-1) None
       sample_beams_in sample_var 1 1 = Some r /\
    s_ret r = 2%Z /\
    k_par (b_beam (s_beams r 2%nat)) = -1.
Proof.
  destruct (@leed_beam_get_selection_selected sample_lsum_externals sample_cri_sqrt (-1)
              None sample_beams_in sample_var 1 1 sample_terminated)
    as (r & E & Hret & _ & _ & Hend).
  rewrite sample_selected in Hret. cbn in Hret.
  exists r. split; [exact E|]. split; [exact Hret|].
  rewrite Hret in Hend. exact Hend.
Defined.

Lemma leed_beam_get_selection_read_back_witness :
  exists r,
    @leed_beam_get_selection sample_lsum_externals sample_cri_sqrt (-1) None
       sample_beams_in sample_var 1 1 = Some r /\
    compl_n_beams (-1) (sel_list r) = Some (Z.to_nat (s_ret r)).
Proof.
  destruct (@leed_beam_get_selection_read_back sample_lsum_externals sample_cri_sqrt (-1)
              None sample_beams_in sample_var 1 1 ltac:(lra) sample_terminated)
    as (r & E & Hn & _).
  exists r. split; [exact E|exact Hn].
Defined.

Lemma leed_beam_get_selection_energy_monotone_witness :
  exists r r',
    @leed_beam_get_selection sample_lsum_externals sample_cri_sqrt (-1) None
       sample_beams_in sample_var 1 1 = Some r /\
    @leed_beam_get_selection sample_lsum_externals sample_cri_sqrt (-1) None
       sample_beams_in sample_var 20 1 = Some r' /\
    (s_ret r <= s_ret r')%Z.
Proof.
  destruct (@leed_beam_get_selection_energy_monotone sample_lsum_externals
              sample_cri_sqrt (-1) None None sample_beams_in sample_var 1 20 1
              sample_terminated ltac:(lra))
    as (r & r' & E & E' & Hle & _).
  exists r, r'. split; [exact E|]. split; [exact E'|exact Hle].
Defined.

(** ** leed_par_mktl_nd: energies inside the table *)

(** The search of line 567 stops at the first row whose energy is not
    below the requested one. *)
Lemma mktl_find_row ph eng k fuel :
  forall i, (0 <= i <= k)%Z -> (k - i < Z.of_nat fuel)%Z -> (k < 2 ^ 64)%Z ->
    (forall j, (i <= j < k)%Z -> energy ph j < eng) ->
    ~ energy ph k < eng ->
    mktl_find fuel ph eng i = Some k.
Proof.
  induction fuel as [|f IH]; intros i Hi Hf Hk Hlow Hat.
  - lia.
  - cbn [mktl_find]. destruct (Z.eq_dec i k) as [->|Hne].
    + rewrite (Rltb_false _ _ Hat). reflexivity.
    + rewrite (Rltb_true _ _ (Hlow i ltac:(lia))).
      rewrite size_t_of_small by lia.
      apply IH; [lia|lia|exact Hk| |exact Hat].
      intros j Hj. apply Hlow. lia.
Qed.

(** With the rows [k - 1] and [k] the phase shift is the value of the line
    through their points. *)
Lemma mktl_delta_row ph k l eng :
  phase_table_ok ph -> (1 <= k < Z.of_nat (n_eng ph))%Z -> (l <= lmax ph)%nat ->
  energy ph k <> energy ph (k - 1) ->
  mktl_delta ph k l eng = mktl_interpolated ph k l eng.
Proof.
  intros (Hn & Hsz & _) Hk Hl He. unfold mktl_delta, mktl_interpolated.
  set (n := Z.of_nat (n_eng ph)) in *. set (w := Z.of_nat (lmax ph + 1)).
  assert (Hw : (Z.of_nat l < w)%Z) by (unfold w; lia).
  assert (Hnw : (n * w < 2 ^ 64)%Z) by (unfold n, w; rewrite <- Nat2Z.inj_mul; exact Hsz).
  assert (Hw0 : (0 < w)%Z) by lia.
  assert (Hkw : (k * w + w <= n * w)%Z) by nia.
  assert (Hk1 : (0 <= (k - 1) * w)%Z) by nia.
  assert (Hk2 : ((k - 1) * w <= k * w)%Z) by nia.
  assert (Hnn : (n <= n * w)%Z) by nia.
  rewrite (size_t_of_small (k - 1)) by lia.
  rewrite (size_t_of_small (k * w + Z.of_nat l)) by lia.
  rewrite (size_t_of_small ((k - 1) * w + Z.of_nat l)) by lia.
  field. lra.
Qed.

(** For a set with a valid t_type and an energy inside its table (at or
    above the minimum, below the maximum) that does not fall into the
    first row, a round of leed_par_mktl_nd logs nothing of its own, finds
    the first row [k] whose energy is not below the requested one and
    fills the column with sin(delta_l) exp(i delta_l) for the phase shifts
    delta_l on the line through the points of the rows [k - 1] and [k];
    at a tabulated energy these are the tabulated phase shifts
    themselves.  The column is then handed to the temperature step and
    the loop goes on to the next set. *)
Theorem leed_par_mktl_nd_interpolates {ext : leed_externals}
        (st : cumul_static) (h : heap) (a : list (option ptr)) (i : nat)
        (ph : leed_phase) (l_max : nat) (eng : R) (k : Z) :
  cumul_static_usable st -> phase_table_ok ph -> mktl_valid_type ph ->
  (i < List.length a)%nat ->
  eng_min ph <= eng -> eng < eng_max ph ->
  mktl_row ph eng k -> energy ph (k - 1) < energy ph k ->
  exists h1 p tl a' h2 st2 log',
    cell h1 p = Some tl /\
    has_dim (lmax ph + 1) 1 tl /\
    (forall l, (l <= lmax ph)%nat ->
       mel tl (l + 1) 1 = mktl_factor (mktl_interpolated ph k l eng)) /\
    (eng = energy ph k ->
     forall l, (l <= lmax ph)%nat ->
       mel tl (l + 1) 1 =
       mktl_factor (pshift ph (k * Z.of_nat (lmax ph + 1) + Z.of_nat l)%Z)) /\
    mktl_temperature st h1 p ph l_max eng = Some (h2, st2, log') /\
    mktl_set st h a i ph l_max eng = Round_next a' h2 st2 log'.
Proof.
  intros Hst Hph Hv Hi Hlow Hhigh (Hk & Hbelow & Hat) Hinc.
  destruct (nth_error a i) as [M|] eqn:EM; [|apply nth_error_None in EM; lia].
  pose proof (matalloc_to_read h M (lmax ph + 1) 1) as Hread.
  destruct (matalloc_to h M (lmax ph + 1) 1) as [h0 p] eqn:Ealloc.
  cbn [fst snd] in Hread.
  destruct (list_set_length a i (Some p) Hi) as (a' & Ea & La).
  set (f := mktl_fill ph k eng).
  pose proof (heap_update_read h0 p f _ Hread) as Hcell.
  destruct (mktl_temperature_total st (heap_update h0 p f) p ph l_max eng Hst)
    as (h2 & st2 & log' & Et & _); [rewrite Hcell; discriminate|].
  destruct (mktl_fill_spec ph k eng (matalloc (lmax ph + 1) 1) eq_refl) as (Fr & Fc & Fel).
  assert (Hfind : mktl_find (n_eng ph) ph eng 0 = Some k).
  { destruct Hph as (Hn & Hsz & _).
    apply mktl_find_row; [lia|lia| |exact Hbelow|lra].
    assert (Z.of_nat (n_eng ph) <= Z.of_nat (n_eng ph * (lmax ph + 1)))%Z by nia. lia. }
  assert (Hdelta : forall l, (l <= lmax ph)%nat ->
            mktl_delta ph k l eng = mktl_interpolated ph k l eng).
  { intros l Hl. apply mktl_delta_row; [assumption|assumption|assumption|lra]. }
  exists (heap_update h0 p f), p, (f (matalloc (lmax ph + 1) 1)), a', h2, st2, log'.
  split; [exact Hcell|]. split; [split; [exact Fr|exact Fc]|].
  split; [intros l Hl; unfold f; rewrite Fel by assumption;
          rewrite Hdelta by assumption; reflexivity|].
  split.
  { intros Eeng l Hl. unfold f. rewrite Fel by assumption.
    rewrite Hdelta by assumption. f_equal.
    unfold mktl_interpolated. cbv zeta. rewrite Eeng. field. lra. }
  split; [exact Et|].
  unfold mktl_set.
  assert (Hhi : Rleb (eng_max ph) eng = false) by (apply Rleb_false; lra).
  assert (Hlo : Rltb eng (eng_min ph) = false) by (apply Rltb_false; lra).
  destruct Hv as [E|E]; rewrite E, EM, Ealloc, Ea, Hlo, Hhi, Hfind;
    fold f; rewrite Et; reflexivity.
Qed.

(** The table with the energies 0, 1, 2 at the tabulated energy 1: the
    tabulated phase shift 1 is used. *)
Lemma leed_par_mktl_nd_interpolates_witness :
  exists h1 p tl a' h2 st2 log',
    cell h1 p = Some tl /\
    mel tl 1 1 = mktl_factor 1 /\
    @mktl_set sample_externals cumul_static_init heap_empty [None] 0
      sample_phase_three 0 1 = Round_next a' h2 st2 log'.
Proof.
  destruct (@leed_par_mktl_nd_interpolates sample_externals cumul_static_init heap_empty
              [None] 0%nat sample_phase_three 0%nat 1 1%Z)
    as (h1 & p & tl & a' & h2 & st2 & log' & Hc & _ & _ & Hex & _ & Es).
  - left. reflexivity.
  - unfold phase_table_ok. cbn [n_eng lmax eng_max energy sample_phase_three].
    split; [lia|]. split; [vm_compute; reflexivity|]. reflexivity.
  - left. reflexivity.
  - cbn. lia.
  - cbn. lra.
  - cbn. lra.
  - unfold mktl_row. cbn [n_eng energy sample_phase_three].
    split; [lia|]. split; [|lra].
    intros j Hj. assert (j = 0%Z) by lia. subst j. lra.
  - cbn. lra.
  - exists h1, p, tl, a', h2, st2, log'. split; [exact Hc|].
    split; [|exact Es].
    apply (Hex eq_refl 0%nat). cbn. lia.
Defined.

(** ** leed_ms_compl_sym: the checks, the return value, the preparation *)

Section COMPL_TOTAL.
Context {lext : lsum_externals} {cext : compl_externals}.

(** Every type of atom that occurs in the layer gets its scattering
    matrix. *)
Lemma compl_Tii_total v_par layer b0 p :
  forall i, (i < n_atoms layer)%nat ->
    compl_Tii v_par layer b0 p (type (c_atoms p i)) <> None.
Proof.
  unfold compl_Tii.
  set (body := fun (i_atoms : nat) (p_Tii : Z -> mat) => _).
  pose (P := fun (k : nat) (f : Z -> mat) =>
    forall i, (i < k)%nat -> f (type (c_atoms p i)) <> None).
  assert (H : P (0 + n_atoms layer)%nat (for_up (n_atoms layer) 0 body (fun _ => None))).
  { apply for_up_ind.
    - intros i Hi. lia.
    - intros k f Hk Hf i Hi. unfold body.
      destruct (f (type (c_atoms p k))) as [T|] eqn:ET.
      + destruct (Nat.eq_dec i k) as [->|Hne]; [congruence|]. apply Hf. lia.
      + destruct (cri_div (-0.5) 0 (k_r b0 0%nat) (k_i b0 0%nat)) as [fr fi].
        destruct (Z.eqb_spec (type (c_atoms p i)) (type (c_atoms p k))) as [E|E];
          [discriminate|].
        destruct (Nat.eq_dec i k) as [->|Hne]; [contradiction|]. apply Hf. lia. }
  exact H.
Qed.

Lemma has_dim_matins Mbg Msm r c : has_dim (rows Mbg) (cols Mbg) (matins Mbg Msm r c).
Proof. split; reflexivity. Qed.

(** The four plane wave matrices are built whenever every type of atom
    has its scattering matrix. *)
Lemma compl_LR_total layer beams n_beams p p_Tii :
  (forall i, (i < n_atoms layer)%nat -> p_Tii (type (c_atoms p i)) <> None) ->
  let d := ((c_l_max p + 1) * (c_l_max p + 1) * n_atoms layer)%nat in
  exists L_p L_m R_p R_m,
    compl_LR layer beams n_beams p p_Tii = Some (L_p, L_m, R_p, R_m) /\
    has_dim n_beams d L_p /\ has_dim n_beams d L_m /\
    has_dim d n_beams R_p /\ has_dim d n_beams R_m.
Proof.
  intros HT d. unfold compl_LR. fold d.
  set (body := fun (i_atoms : nat)
                   (s : option (mat_str * mat_str * mat_str * mat_str)) => _).
  pose (P := fun (k : nat) (s : option (mat_str * mat_str * mat_str * mat_str)) =>
    exists L_p L_m R_p R_m, s = Some (L_p, L_m, R_p, R_m) /\
      has_dim n_beams d L_p /\ has_dim n_beams d L_m /\
      has_dim d n_beams R_p /\ has_dim d n_beams R_m).
  assert (H : P (0 + n_atoms layer)%nat
                (for_up (n_atoms layer) 0 body
                   (Some (matalloc n_beams d, matalloc n_beams d,
                          matalloc d n_beams, matalloc d n_beams)))).
  { apply for_up_ind.
    - do 4 eexists. split; [reflexivity|]. repeat split.
    - intros k s Hk (L_p & L_m & R_p & R_m & -> & (r1 & c1) & (r2 & c2) & (r3 & c3) & (r4 & c4)).
      unfold body.
      destruct (p_Tii (type (c_atoms p k))) as [Tii|] eqn:ET;
        [|exfalso; apply (HT k); [lia|exact ET]].
      do 4 eexists. split; [reflexivity|].
      repeat split; cbn [rows cols matins mat_of_fun]; assumption. }
  exact H.
Qed.

(** The dimensions of the four matrices of [compl_finish]. *)
Lemma compl_finish_dim beams n p X L_p L_m R_p R_m d :
  has_dim n d L_p -> has_dim n d L_m -> has_dim d n R_p -> has_dim d n R_m ->
  let Ts := compl_finish beams n p X L_p L_m R_p R_m in
  has_dim n n (fst (fst (fst Ts))) /\ has_dim n n (snd (fst (fst Ts))) /\
  has_dim n n (snd (fst Ts)) /\ has_dim n n (snd Ts).
Proof.
  intros [rLp cLp] [rLm cLm] [rRp cRp] [rRm cRm] Ts. subst Ts. unfold compl_finish.
  destruct (compl_shift_vectors beams n (c_z_min p) (c_z_max p)) as [[[V1 V2] V3] V4].
  set (Tpp0 := matmul L_p (matmul X R_p)).
  set (Rmp0 := matmul L_m (matmul X R_p)).
  set (Tmm0 := matmul L_m (matmul X R_m)).
  set (Rpm0 := matmul L_p (matmul X R_m)).
  destruct (compl_shift_spec V1 V3 Tpp0 n n) as (rTpp & cTpp & _);
    [unfold Tpp0; cbn [rows matmul mat_of_fun]; exact rLp
    |unfold Tpp0; cbn [cols matmul mat_of_fun]; exact cRp|].
  destruct (compl_shift_spec V2 V4 Tmm0 n n) as (rTmm & cTmm & _);
    [unfold Tmm0; cbn [rows matmul mat_of_fun]; exact rLm
    |unfold Tmm0; cbn [cols matmul mat_of_fun]; exact cRm|].
  destruct (compl_shift_spec V1 V4 Rpm0 n n) as (rRpm & cRpm & _);
    [unfold Rpm0; cbn [rows matmul mat_of_fun]; exact rLp
    |unfold Rpm0; cbn [cols matmul mat_of_fun]; exact cRm|].
  destruct (compl_shift_spec V2 V3 Rmp0 n n) as (rRmp & cRmp & _);
    [unfold Rmp0; cbn [rows matmul mat_of_fun]; exact rLm
    |unfold Rmp0; cbn [cols matmul mat_of_fun]; exact cRp|].
  pose proof (compl_direct_spec n V1 V3 (compl_shift V2 V4 Tmm0) (compl_shift V1 V3 Tpp0)
                cTmm cTpp) as Hdir.
  cbv zeta in Hdir.
  destruct (compl_direct n V1 V3 (compl_shift V2 V4 Tmm0, compl_shift V1 V3 Tpp0))
    as [Tmm1 Tpp1].
  cbn [fst snd] in *. destruct Hdir as ((r1 & c1 & r2 & c2) & _).
  repeat split; congruence.
Qed.

End COMPL_TOTAL.

(** On a beam list with a terminator leed_ms_compl_sym returns, and it
    returns -1 exactly when [matcheck] rejects one of the four matrices
    behind its output pointers.  Then the four pointers are left as they
    were and one error is logged for each rejected matrix; the message for
    the third parameter (p_Rpm) names the "4th argument" and that for the
    fourth (p_Rmp) the "3rd argument".  Otherwise it returns 1 and the
    four outputs are matrices of n x n elements, n the number of beams. *)
Theorem leed_ms_compl_sym_return_value
        {lext : lsum_externals} {cext : compl_externals}
        (WARNING_LOG : bool) (F_END_OF_LIST : R) (I_END_OF_LIST : Z)
        (p_Tpp p_Tmm p_Rpm p_Rmp : mat) (v_par : leed_var) (layer : leed_layer)
        (beams : list leed_beam) (n : nat) :
  compl_n_beams F_END_OF_LIST beams = Some n ->
  exists r,
    leed_ms_compl_sym WARNING_LOG F_END_OF_LIST I_END_OF_LIST
                      p_Tpp p_Tmm p_Rpm p_Rmp v_par layer beams = Some r /\
    (m_code r = (-1)%Z <-> ~ compl_inputs_valid p_Tpp p_Tmm p_Rpm p_Rmp) /\
    (m_code r = (-1)%Z ->
     m_Tpp r = p_Tpp /\ m_Tmm r = p_Tmm /\ m_Rpm r = p_Rpm /\ m_Rmp r = p_Rmp /\
     (In (Error, "invalid input matrix (1st argument)"%string) (m_msgs r) <->
      (matcheck p_Tpp < 0)%Z) /\
     (In (Error, "invalid input matrix (2nd argument)"%string) (m_msgs r) <->
      (matcheck p_Tmm < 0)%Z) /\
     (In (Error, "invalid input matrix (4th argument)"%string) (m_msgs r) <->
      (matcheck p_Rpm < 0)%Z) /\
     (In (Error, "invalid input matrix (3rd argument)"%string) (m_msgs r) <->
      (matcheck p_Rmp < 0)%Z)) /\
    (m_code r <> (-1)%Z ->
     m_code r = 1%Z /\
     exists Tpp Tmm Rpm Rmp,
       m_Tpp r = Some Tpp /\ m_Tmm r = Some Tmm /\
       m_Rpm r = Some Rpm /\ m_Rmp r = Some Rmp /\
       has_dim n n Tpp /\ has_dim n n Tmm /\ has_dim n n Rpm /\ has_dim n n Rmp).
Proof.
  intros Hn. unfold leed_ms_compl_sym, compl_inputs_valid.
  destruct (Z.ltb_spec (matcheck p_Tpp) 0) as [H1|H1];
  destruct (Z.ltb_spec (matcheck p_Tmm) 0) as [H2|H2];
  destruct (Z.ltb_spec (matcheck p_Rmp) 0) as [H3|H3];
  destruct (Z.ltb_spec (matcheck p_Rpm) 0) as [H4|H4]; cbn [orb].
  16: {
    rewrite Hn. destruct beams as [|b0 rest]; [discriminate|].
    set (p := compl_prepare I_END_OF_LIST v_par layer).
    set (p_Tii := compl_Tii v_par layer b0 p).
    destruct (compl_giant WARNING_LOG v_par layer b0 p p_Tii) as [G log].
    destruct (compl_LR_total layer (b0 :: rest) n p p_Tii
                (compl_Tii_total v_par layer b0 p))
      as (L_p & L_m & R_p & R_m & ELR & dLp & dLm & dRp & dRm).
    rewrite ELR.
    pose proof (compl_finish_dim (b0 :: rest) n p
                  (ms_partinv G (c_n_plane p) (c_l_max p)) L_p L_m R_p R_m _
                  dLp dLm dRp dRm) as Hdim.
    cbv zeta in Hdim.
    destruct (compl_finish (b0 :: rest) n p (ms_partinv G (c_n_plane p) (c_l_max p))
                           L_p L_m R_p R_m) as [[[Tpp Tmm] Rpm] Rmp].
    cbn [fst snd] in Hdim. destruct Hdim as (D1 & D2 & D3 & D4).
    eexists. split; [reflexivity|]. cbn [m_code m_Tpp m_Tmm m_Rpm m_Rmp m_msgs].
    split; [split; [discriminate|intros H; exfalso; apply H; repeat split; assumption]|].
    split; [discriminate|].
    intros _. split; [reflexivity|].
    destruct D1, D2, D3, D4.
    exists Tpp, Tmm, Rpm, Rmp. repeat split; try reflexivity; assumption. }
  all: eexists; split; [reflexivity|];
    cbn [m_code m_Tpp m_Tmm m_Rpm m_Rmp m_msgs app];
    (split; [split; [intros _ (V1 & V2 & V3 & V4); lia|reflexivity]|]);
    (split; [|intros H; exfalso; apply H; reflexivity]);
    intros _; repeat (split; [reflexivity|]).
  all: repeat split; intros H; try lia;
    try (cbn [In]; tauto);
    try (cbn [In] in H;
         repeat match type of H with
                | _ \/ _ => destruct H as [H|H]
                | False => destruct H
                | (_, _) = (_, _) => discriminate H
                end).
Qed.

(** The checks on a layer of one atom: [NULL] behind the output pointers
    is rejected by an instance of [matcheck] that accepts only matrices. *)
Lemma leed_ms_compl_sym_return_value_witness :
  exists r,
    @leed_ms_compl_sym sample_lsum_externals sample_compl_strict true (-1) (-1)
       None None None None sample_var sample_layer sample_beams = Some r /\
    m_code r = (-1)%Z /\ m_Tpp r = None.
Proof.
  destruct (@leed_ms_compl_sym_return_value sample_lsum_externals sample_compl_strict
              true (-1) (-1)%Z None None None None sample_var sample_layer sample_beams 1)
    as (r & E & Hcode & Hbad & _).
  - unfold sample_beams. cbn [compl_n_beams k_par beam_zero beam_set_k_par].
    rewrite (IS_EQUAL_REAL_false 0 (-1)) by lra.
    rewrite (IS_EQUAL_REAL_true (-1) (-1)) by reflexivity. reflexivity.
  - assert (Hc : m_code r = (-1)%Z).
    { apply Hcode. intros (V & _). cbn in V. lia. }
    exists r. split; [exact E|]. split; [exact Hc|]. apply (Hbad Hc).
Defined.

(** The search for the largest [l] goes down from its start and not below
    1 (or its start). *)
Lemma compl_l_search_range tl eps :
  forall fuel iaux,
    (compl_l_search fuel tl eps iaux <= iaux)%nat /\
    (Nat.min 1 iaux <= compl_l_search fuel tl eps iaux)%nat.
Proof.
  induction fuel as [|f IH]; intros iaux; cbn [compl_l_search]; [lia|].
  destruct (Rltb _ eps && (1 <? iaux)%nat)%bool eqn:E; [|lia].
  apply andb_prop in E. destruct E as [_ E]. apply Nat.ltb_lt in E.
  destruct (IH (iaux - 1)%nat). lia.
Qed.

(** The preparation of leed_ms_compl_sym reads its start values for the
    number of types and for the outer-most z from the zeroed array, before
    the atoms are copied.  So [z_min] and [z_max] enclose the heights of
    all atoms and always 0, the number of types is above every type of the
    layer and at least 1, and the largest [l] lies between 1 and the
    larger of 1 and [l_max] of [v_par]. *)
Theorem leed_ms_compl_sym_preparation (I_END_OF_LIST : Z) (v_par : leed_var)
        (layer : leed_layer) :
  let p := compl_prepare I_END_OF_LIST v_par layer in
  (c_z_min p <= 0 <= c_z_max p) /\
  (forall i, (i < n_atoms layer)%nat ->
     c_z_min p <= pos (atoms layer i) 3 <= c_z_max p) /\
  ((c_z_min p = 0 \/ exists i, (i < n_atoms layer)%nat /\ c_z_min p = pos (atoms layer i) 3) /\
   (c_z_max p = 0 \/ exists i, (i < n_atoms layer)%nat /\ c_z_max p = pos (atoms layer i) 3)) /\
  (1 <= c_n_type p)%Z /\
  (forall i, (i < n_atoms layer)%nat -> (type (atoms layer i) < c_n_type p)%Z) /\
  (1 <= c_l_max p <= Nat.max 1 (l_max v_par))%nat.
Proof.
  intros p. subst p. unfold compl_prepare.
  pose (Q := fun (k : nat) (s : (nat -> leed_atom) * Z * R * R * nat) =>
    let '(a, nt, zmin, zmax, lm) := s in
    (zmin <= 0 <= zmax) /\
    (forall i, (i < k)%nat -> zmin <= pos (atoms layer i) 3 <= zmax) /\
    ((zmin = 0 \/ exists i, (i < k)%nat /\ zmin = pos (atoms layer i) 3) /\
     (zmax = 0 \/ exists i, (i < k)%nat /\ zmax = pos (atoms layer i) 3)) /\
    (0 <= nt)%Z /\
    (forall i, (i < k)%nat -> (type (atoms layer i) <= nt)%Z) /\
    (1 <= lm <= Nat.max 1 (l_max v_par))%nat).
  unfold compl_copy.
  set (body := fun (i_atoms : nat) (s : (nat -> leed_atom) * Z * R * R * nat) => _).
  cbn [type pos atom_zero].
  assert (H : Q (0 + n_atoms layer)%nat
                (for_up (n_atoms layer) 0 body
                   (fun _ : nat => atom_zero, 0%Z, 0, 0, 1%nat))).
  { apply for_up_ind.
    - unfold Q. split; [lra|]. split; [intros i Hi; lia|].
      split; [split; left; reflexivity|]. split; [lia|].
      split; [intros i Hi; lia|lia].
    - intros k [[[[a nt] zmin] zmax] lm] Hk (Hz & Hall & (Hmin & Hmax) & Hnt & Hty & Hlm).
      unfold Q, body. cbn [type pos atom_put].
      unfold atom_put. rewrite Nat.eqb_refl. cbn [type pos]. unfold upd. cbn [Nat.eqb].
      set (z := pos (atoms layer k) 3).
      pose proof (Rmax_l z zmax). pose proof (Rmax_r z zmax).
      pose proof (Rmin_l z zmin). pose proof (Rmin_r z zmin).
      split; [lra|]. split.
      { intros i Hi. destruct (Nat.eq_dec i k) as [->|Hne]; [fold z; lra|].
        specialize (Hall i ltac:(lia)). lra. }
      split.
      { split.
        - unfold Rmin. destruct (Rle_dec z zmin).
          + right. exists k. split; [lia|reflexivity].
          + destruct Hmin as [E|(i & Hi & E)]; [left; exact E|].
            right. exists i. split; [lia|exact E].
        - unfold Rmax. destruct (Rle_dec z zmax).
          + destruct Hmax as [E|(i & Hi & E)]; [left; exact E|].
            right. exists i. split; [lia|exact E].
          + right. exists k. split; [lia|reflexivity]. }
      split; [lia|]. split.
      { intros i Hi. destruct (Nat.eq_dec i k) as [->|Hne]; [lia|].
        specialize (Hty i ltac:(lia)). lia. }
      destruct (compl_l_search_range (p_tl v_par (type (atoms layer k))) (epsilon v_par)
                  (l_max v_par) (l_max v_par)) as [Hup Hdown].
      lia. }
  cbn [Nat.add] in H.
  destruct (for_up (n_atoms layer) 0 body (fun _ : nat => atom_zero, 0%Z, 0, 0, 1%nat))
    as [[[[a nt] zmin] zmax] lm].
  destruct (compl_plane (n_atoms layer) _) as [n_plane z_plane].
  cbn [c_z_min c_z_max c_n_type c_l_max].
  destruct H as (Hz & Hall & Hex & Hnt & Hty & Hlm).
  split; [exact Hz|]. split; [exact Hall|]. split; [exact Hex|].
  split; [lia|]. split; [|exact Hlm].
  intros i Hi. specialize (Hty i Hi). lia.
Qed.

(** ** leed_ms_lsum_ij: the passes for a symmetric range, and normal
       incidence *)

(** When the range computed for [n1] is symmetric ([n1_min = - n1_max]),
    as it is without a lateral displacement (up to ties of the rounding),
    the start [- n1_max a1] of the lattice vector agrees with the start
    [n1_min] of the counter: the loops of leed_ms_lsum_ij then make a pass
    at every lattice point [n1 a1 + n2 a2] whose distance from the origin,
    [d_ij] added, is below the radius. *)
Theorem leed_ms_lsum_ij_symmetric_range (a d_ij : nat -> R) (r_max : R) (n1 n2 : Z) :
  lsum_cell_regular a ->
  fst (lsum_n1_range a d_ij r_max) = (- snd (lsum_n1_range a d_ij r_max))%Z ->
  lsum_dist2 a d_ij n1 n2 < r_max ->
  In (n1, n2, (IZR n1 * a 1%nat + IZR n2 * a 2%nat, IZR n1 * a 3%nat + IZR n2 * a 4%nat))
     (lsum_visited a d_ij r_max).
Proof.
  intros Hreg Hsym Hd.
  destruct (lsum_ranges_cover a d_ij r_max n1 n2 Hreg Hd) as [H1 H2].
  apply lsum_visited_In. split; [exact H1|]. split; [exact H2|].
  rewrite Hsym.
  replace (n1 - - snd (lsum_n1_range a d_ij r_max) - snd (lsum_n1_range a d_ij r_max))%Z
    with n1 by lia.
  split; reflexivity.
Qed.

Lemma sample_n1_range_centred :
  lsum_n1_range sample_cell sample_no_shift (1.7 * 1.7) = ((-2)%Z, 2%Z).
Proof.
  unfold lsum_n1_range, lsum_n1_bounds, sample_no_shift. cbn [sample_cell].
  match goal with
  | |- context [Rltb 0 ?d] =>
      replace d with (1.7 * 1.7) by lra
  end.
  rewrite (Rltb_true 0 (1.7 * 1.7)) by lra.
  match goal with
  | |- context [sqrt ?d] => replace d with (1.7 * 1.7) by lra
  end.
  rewrite sqrt_square by lra.
  f_equal; apply R_nint_unique; cbn [IZR IPR IPR_2]; lra.
Qed.

(** The unit square lattice without displacement: the point (1,1). *)
Lemma leed_ms_lsum_ij_symmetric_range_witness :
  In (1%Z, 1%Z, (IZR 1 * sample_cell 1 + IZR 1 * sample_cell 2,
                 IZR 1 * sample_cell 3 + IZR 1 * sample_cell 4))
     (lsum_visited sample_cell sample_no_shift (1.7 * 1.7)).
Proof.
  apply leed_ms_lsum_ij_symmetric_range.
  - unfold lsum_cell_regular. cbn [sample_cell]. lra.
  - rewrite sample_n1_range_centred. reflexivity.
  - unfold lsum_dist2, sample_no_shift. cbn [sample_cell]. lra.
Defined.


Lemma fold_left_inv {A St : Type} (P : St -> Prop) (g : St -> A -> St) l s :
  P s -> (forall s x, In x l -> P s -> P (g s x)) -> P (fold_left g l s).
Proof.
  revert s. induction l as [|x l IH]; intros s Hs Hg; cbn; [exact Hs|].
  apply IH; [apply Hg; [left; reflexivity|exact Hs]|].
  intros s' y Hy. apply Hg. right. exact Hy.
Qed.

Section LSUM_PARITY.
Context {ext : lsum_externals}.



End LSUM_PARITY.



(** ** leed_par_cumulative_tl: the criterion met at the last pass *)

Lemma slow_kappa : cumul_kappa (1 / 2) = 1.
Proof.
  unfold cumul_kappa. replace (2 * (1 / 2)) with 1 by field. apply sqrt_1.
Qed.

Lemma slow_ms_ok : pc_ms_ok (cumul_dim 1) (@pc_mk_ms slow_externals 1).
Proof.
  unfold pc_ms_ok, cumul_dim.
  cbn [pc_mk_ms slow_externals Mx My Mz MxMx MyMy MzMz].
  repeat split.
  - apply mel_matmul_eq; reflexivity.
  - intros i j _ _. symmetry. apply (cm_mul_zero_l _ _ i j).
  - intros i j _ _. symmetry. apply (cm_mul_zero_l _ _ i j).
Qed.

Lemma slow_index i : (1 <= i <= 4)%nat -> i = 1%nat \/ i = 2%nat \/ i = 3%nat \/ i = 4%nat.
Proof. lia. Qed.

Lemma cumul_axis_compat_M d M M' T :
  cm_eq d d M M' -> cm_eq d d (cumul_axis d M T) (cumul_axis d M' T).
Proof.
  intros H. unfold cumul_axis.
  apply cm_sub_compat; [apply cm_add_compat|apply cm_scal_compat].
  - apply cm_mul_compat; [|apply cm_eq_refl]. apply cm_mul_compat; assumption.
  - apply cm_mul_compat; [apply cm_eq_refl|]. apply cm_mul_compat; assumption.
  - apply cm_mul_compat; [|assumption].
    apply cm_mul_compat; [assumption|apply cm_eq_refl].
Qed.

(** The double commutator with [Mx] of a matrix [slow_diag a b] is
    [- slow_diag a 0]. *)
Lemma slow_axis_fun a b :
  cm_eq 4 4 (cumul_axis 4 slow_Mx (slow_diag a b)) (slow_diag (- a) 0).
Proof.
  intros i j Hi Hj.
  destruct (slow_index i Hi) as [ -> | [ -> | [ -> | -> ] ] ];
  destruct (slow_index j Hj) as [ -> | [ -> | [ -> | -> ] ] ];
  unfold cumul_axis, cm_sub, cm_add, cm_scal, cm_mul, slow_Mx, slow_diag;
  cbn [csum Nat.eqb andb orb];
  repeat first [rewrite Cmul_0_l | rewrite Cmul_0_r | rewrite Cadd_0_l | rewrite Cadd_0_r];
  apply cplx_eq; unfold Cadd, Csub, Cneg, Cmul, Cscal, Czero; cbn [fst snd]; field.
Qed.

Lemma slow_axis a b :
  cm_eq 4 4 (cumul_axis 4 (mel (mat_of_fun 4 4 slow_Mx)) (slow_diag a b))
            (slow_diag (- a) 0).
Proof.
  eapply cm_eq_trans; [|apply slow_axis_fun].
  apply cumul_axis_compat_M. intros i j Hi Hj. apply mel_mat_of_fun; lia.
Qed.

(** One step of the recursion on such a matrix. *)
Lemma slow_step n a b :
  cm_eq 4 4
    (cumul_next 4 (mel (mat_of_fun 4 4 slow_Mx)) (fun _ _ => Czero) (fun _ _ => Czero)
                1 slow_u 0 0 n (slow_diag a b))
    (slow_diag (slow_u * slow_u * a / INR (n + 1)) 0).
Proof.
  intros i j Hi Hj. unfold cumul_next, cm_scal, cm_add.
  rewrite !cumul_axis_zero. rewrite (slow_axis a b i j Hi Hj).
  assert (Hn : INR (n + 1) <> 0) by (apply not_0_INR; lia).
  destruct (slow_index i Hi) as [ -> | [ -> | [ -> | -> ] ] ];
  destruct (slow_index j Hj) as [ -> | [ -> | [ -> | -> ] ] ];
  unfold slow_diag; cbn [Nat.eqb];
  apply cplx_eq; unfold Cadd, Cscal, Czero; cbn [fst snd]; field; exact Hn.
Qed.

(** The T=0 matrix of the input. *)
Lemma slow_T0 :
  cm_eq 4 4 (cumul_T0_matrix slow_tl 1 (cumul_l0 1 1)) (slow_diag 1 (-1)).
Proof.
  intros i j Hi Hj.
  destruct (slow_index i Hi) as [ -> | [ -> | [ -> | -> ] ] ];
  destruct (slow_index j Hj) as [ -> | [ -> | [ -> | -> ] ] ];
  vm_compute; try reflexivity; apply cplx_eq; cbn [fst snd]; lra.
Qed.

Section SLOW_SERIES.
Let Mxs := mel (Mx (@pc_mk_ms slow_externals 1)).
Let Mys := mel (My (@pc_mk_ms slow_externals 1)).
Let Mzs := mel (Mz (@pc_mk_ms slow_externals 1)).
Let T0 := cumul_T0_matrix slow_tl 1 (cumul_l0 1 1).

(** The terms of the series of the input. *)
Lemma slow_T n :
  cm_eq 4 4 (cumul_T 4 Mxs Mys Mzs 1 slow_u 0 0 T0 n)
            (slow_diag (slow_t n) (if (n =? 0)%nat then -1 else 0)).
Proof.
  induction n as [|n IH].
  - apply slow_T0.
  - cbn [cumul_T Nat.eqb slow_t].
    eapply cm_eq_trans; [apply cumul_next_compat; exact IH|].
    apply slow_step.
Qed.

Lemma slow_diag_add a b a' b' :
  cm_eq 4 4 (cm_add (slow_diag a b) (slow_diag a' b')) (slow_diag (a + a') (b + b')).
Proof.
  intros i j Hi Hj.
  destruct (slow_index i Hi) as [ -> | [ -> | [ -> | -> ] ] ];
  destruct (slow_index j Hj) as [ -> | [ -> | [ -> | -> ] ] ];
  unfold cm_add, slow_diag; cbn [Nat.eqb];
  apply cplx_eq; unfold Cadd, Czero; cbn [fst snd]; ring.
Qed.

(** The partial sums of the series of the input. *)
Lemma slow_acc n :
  cm_eq 4 4 (cumul_acc 4 Mxs Mys Mzs 1 slow_u 0 0 T0 n) (slow_diag (slow_S n) (-1)).
Proof.
  induction n as [|n IH].
  - apply slow_T0.
  - cbn [cumul_acc slow_S].
    eapply cm_eq_trans; [apply cm_add_compat; [exact IH|apply (slow_T (S n))]|].
    cbn [Nat.eqb]. replace (-1) with (-1 + 0) at 2 by ring. apply slow_diag_add.
Qed.

End SLOW_SERIES.

Lemma slow_u_pos : 0 < slow_u.
Proof. unfold slow_u. lra. Qed.

Lemma slow_t_pos n : 0 < slow_t n.
Proof.
  induction n as [|n IH]; cbn [slow_t]; [lra|].
  pose proof slow_u_pos as Hu.
  assert (Hn : 0 < INR (n + 1)) by (apply lt_0_INR; lia).
  unfold Rdiv. apply Rmult_lt_0_compat; [|apply Rinv_0_lt_compat; exact Hn].
  apply Rmult_lt_0_compat; [|exact IH]. apply Rmult_lt_0_compat; exact Hu.
Qed.

Lemma slow_S_pos n : 0 < slow_S n.
Proof.
  induction n as [|n IH]; cbn [slow_S]; [lra|].
  pose proof (slow_t_pos (S n)). cbn [slow_t] in *. lra.
Qed.

(** The relative changes of the input after [n] passes. *)
Lemma slow_change_fst n :
  (1 <= n)%nat ->
  cumul_change fst 4 (slow_diag (slow_t n) 0) (slow_diag (slow_S n) (-1)) =
  2 * (slow_t n / slow_S n).
Proof.
  intros Hn. pose proof (slow_t_pos n) as Ht. pose proof (slow_S_pos n) as Hs.
  assert (Hq : 0 < slow_t n / slow_S n).
  { unfold Rdiv. apply Rmult_lt_0_compat; [exact Ht|apply Rinv_0_lt_compat; exact Hs]. }
  unfold cumul_change. cbn [rsum]. unfold slow_diag. cbn [Nat.eqb fst Czero].
  repeat match goal with
  | |- context [Req_dec_T ?x 0] =>
      destruct (Req_dec_T x 0) as [?E|?E]; try lra; try (exfalso; apply E; reflexivity)
  end.
  replace (- slow_t n / - slow_S n) with (slow_t n / slow_S n) by (field; lra).
  replace (0 / -1) with 0 by field.
  rewrite Rabs_R0, (Rabs_right (slow_t n / slow_S n)) by lra. ring.
Qed.

Lemma slow_change_snd a b a' b' :
  cumul_change snd 4 (slow_diag a b) (slow_diag a' b') = 0.
Proof.
  apply cumul_change_zero. intros i j. unfold slow_diag.
  destruct (i =? j)%nat; [|reflexivity].
  destruct (i =? 1)%nat; [reflexivity|]. destruct (i =? 2)%nat; reflexivity.
Qed.

(** The numerators over the common denominator. *)
Lemma slow_seq_spec n :
  slow_t n * IZR (slow_den n) = IZR (fst (slow_seq n)) /\
  slow_S n * IZR (slow_den n) = IZR (snd (slow_seq n)) /\
  0 < IZR (slow_den n).
Proof.
  induction n as [|n (Ht & Hs & Hd)].
  - cbn [slow_t slow_S slow_den slow_seq fst snd]. repeat split; lra.
  - cbn [slow_t slow_S slow_den slow_seq]. unfold slow_next. cbn [fst snd].
    rewrite !plus_IZR, !mult_IZR, <- Ht, <- Hs, <- INR_IZR_INZ.
    assert (Hn : 0 < INR (n + 1)) by (apply lt_0_INR; lia).
    unfold slow_u. repeat split.
    + field. lra.
    + field. lra.
    + apply Rmult_lt_0_compat; [|exact Hd]. lra.
Qed.

(** The criterion after [n] passes, on the numerators. *)
Lemma slow_converged n :
  (1 <= n)%nat ->
  (@cumul_converged_of slow_externals slow_tl slow_u 0 0 (1 / 2) 1 1 n <->
   slow_met (slow_seq n) = true).
Proof.
  intros Hn. unfold cumul_converged_of, cumul_converged. rewrite slow_kappa.
  change (cumul_dim 1) with 4%nat.
  rewrite (cumul_change_compat fst 4 _ _ _ _ (slow_T n) (slow_acc n)).
  rewrite (cumul_change_compat snd 4 _ _ _ _ (slow_T n) (slow_acc n)).
  rewrite slow_change_snd.
  destruct n as [|n]; [lia|]. cbn [Nat.eqb]. rewrite slow_change_fst by lia.
  destruct (slow_seq_spec (S n)) as (Ht & Hs & Hd).
  pose proof (slow_S_pos (S n)) as HS.
  unfold slow_met, CONV_TEST. change (INR 4) with (1 + 1 + 1 + 1).
  set (t := slow_t (S n)) in *. set (S' := slow_S (S n)) in *.
  set (D := IZR (slow_den (S n))) in *.
  assert (Hdiv : t / S' * S' = t) by (field; lra).
  rewrite Z.leb_le. split.
  - intros [H _]. apply le_IZR. rewrite !mult_IZR, <- Ht, <- Hs.
    assert (H1 : 1000000 * t <= 8 * S').
    { rewrite <- Hdiv. nra. }
    nra.
  - intros H. apply IZR_le in H. rewrite !mult_IZR, <- Ht, <- Hs in H.
    split; [|lra].
    assert (H1 : 1000000 * t <= 8 * S') by nra.
    assert (H2 : 1000000 * (t / S') <= 8).
    { apply Rmult_le_reg_r with S'; [exact HS|].
      replace (1000000 * (t / S') * S') with (1000000 * (t / S' * S')) by ring.
      rewrite Hdiv. exact H1. }
    lra.
Qed.

(** A run of passes that do not meet the criterion. *)
Lemma slow_run_spec k : forall n s,
  slow_run k n (slow_seq n) = Some s ->
  s = slow_seq (n + k) /\
  forall j, (n < j <= n + k)%nat -> slow_met (slow_seq j) = false.
Proof.
  induction k as [|k IH]; intros n s E.
  - cbn [slow_run] in E. injection E as <-. rewrite Nat.add_0_r.
    split; [reflexivity|]. intros j Hj. lia.
  - cbn [slow_run] in E. change (slow_next n (slow_seq n)) with (slow_seq (S n)) in E.
    destruct (slow_met (slow_seq (S n))) eqn:Em; [discriminate|].
    destruct (IH (S n) s E) as [Es Hall].
    replace (n + S k)%nat with (S n + k)%nat by lia. split; [exact Es|].
    intros j Hj. destruct (Nat.eq_dec j (S n)) as [->|Hne]; [exact Em|].
    apply Hall. lia.
Qed.

(** The first 998 passes do not meet the criterion; the pass 999 does. *)
Lemma slow_run_998 :
  match slow_run 998 0 (1%Z, 1%Z) with
  | Some s => slow_met (slow_next 998 s)
  | None => false
  end = true.
Proof. vm_compute. reflexivity. Qed.

Lemma slow_first_met :
  (forall j, (1 <= j < 999)%nat -> slow_met (slow_seq j) = false) /\
  slow_met (slow_seq 999) = true.
Proof.
  pose proof slow_run_998 as H.
  destruct (slow_run 998 0 (1%Z, 1%Z)) as [s|] eqn:E; [|discriminate].
  destruct (slow_run_spec 998 0 s E) as [Es Hall].
  split.
  - intros j Hj. apply Hall. lia.
  - change (slow_seq 999) with (slow_next 998 (slow_seq (0 + 998))).
    rewrite <- Es. exact H.
Qed.

(** The criterion of the input: not met after the passes 1 .. 998, met
    after the pass 999. *)
Lemma slow_first_converged :
  (forall j, (1 <= j < 999)%nat ->
     ~ @cumul_converged_of slow_externals slow_tl slow_u 0 0 (1 / 2) 1 1 j) /\
  @cumul_converged_of slow_externals slow_tl slow_u 0 0 (1 / 2) 1 1 999.
Proof.
  destruct slow_first_met as [Hnot Hmet]. split.
  - intros j Hj Hc. apply slow_converged in Hc; [|lia].
    rewrite (Hnot j Hj) in Hc. discriminate.
  - apply slow_converged; [lia|exact Hmet].
Qed.

Lemma slow_nondegenerate : cumul_nondegenerate slow_u 0 0.
Proof. unfold cumul_nondegenerate, GEO_TOLERANCE, slow_u. lra. Qed.

(** The call on this input fails, whatever the heap and the output handle,
    from every state of the static variables in which the matrices are
    those of [last_l]. *)
Lemma slow_call_fails st h Tmat tl_0 :
  cell h tl_0 = Some slow_tl ->
  @cumul_static_coherent slow_externals st ->
  exists r,
    @leed_par_cumulative_tl slow_externals st h Tmat tl_0 slow_u 0 0 (1 / 2) 1 1 = Some r /\
    c_ret r = None /\
    In (Error, "No convergence after NITER iterations"%string) (c_log r).
Proof.
  intros Hcell Hst. destruct slow_first_converged as [Hno _].
  destruct (@cumul_iteration_outcome slow_externals st h Tmat tl_0 slow_tl
              slow_u 0 0 (1 / 2) 1 1 Hcell 999 slow_nondegenerate Hst)
    as (r & Er & Hout).
  - apply slow_ms_ok.
  - intros j Hj. destruct j as [|j].
    + apply cumul_guard_first, cumul_conv_pos.
    + destruct (@cumul_guard_of slow_externals slow_tl slow_u 0 0 (1 / 2) 1 1 (S j))
        eqn:Eg; [reflexivity|exfalso].
      apply (Hno (S j)); [lia|].
      apply cumul_guard_converged; [unfold NITER; lia|exact Eg].
  - apply cumul_guard_last.
  - exists r. split; [exact Er|].
    destruct Hout as [(_ & Hnone & Herr)|(Hlt & _)]; [split; assumption|].
    unfold NITER in Hlt. lia.
Qed.


(** ** leed_par_cumulative_tl: the static variables, and l_max_0 above l_max_t *)

(** What a call of leed_par_cumulative_tl does to the static variables of
    its file, from any state in which the matrices exist once a call has
    been counted (the first state is such a state, and every call leaves
    such a state).  A call on the short cut (all displacements below the
    tolerance) leaves the variables as they were.  A call that iterates
    replaces the matrices by those of [pc_mk_ms] for its [l_max_t] when
    the test of line 180 asks for it, and keeps them otherwise; when it
    returns a matrix it counts itself in [n_call] and notes its [l_max_t]
    in [last_l]; when it fails it leaves [n_call] and [last_l] as they
    were, also when it has replaced the matrices.  So a call that returns
    a matrix leaves the matrices of [pc_mk_ms] for [last_l] when it has
    rebuilt them or has found them so; but after a call that fails with
    [n_call] above 0 and an [l_max_t] other than [last_l], the matrices
    are those of [l_max_t] while [last_l] names the former value: they
    are those of [last_l] only if [pc_mk_ms] returns the same for both. *)
Theorem leed_par_cumulative_tl_static_state
  (ext : leed_externals) (st : cumul_static) (h : heap) (Tmat : option ptr)
  (tl_0 : ptr) (tl_0_val : mat_str) (ux uy uz energy : R) (l_max_t l_max_0 : nat) :
  cell h tl_0 = Some tl_0_val ->
  cumul_static_usable st ->
  exists r,
    leed_par_cumulative_tl st h Tmat tl_0 ux uy uz energy l_max_t l_max_0 = Some r /\
    cumul_static_usable (c_static r) /\
    (~ cumul_nondegenerate ux uy uz -> c_ret r <> None /\ c_static r = st) /\
    (cumul_nondegenerate ux uy uz ->
     static_ms (c_static r) =
       (if cumul_rebuilds st l_max_t then Some (pc_mk_ms l_max_t) else static_ms st) /\
     (c_ret r <> None ->
      n_call (c_static r) = S (n_call st) /\ last_l (c_static r) = Z.of_nat l_max_t) /\
     (c_ret r = None ->
      n_call (c_static r) = n_call st /\ last_l (c_static r) = last_l st)) /\
    (c_ret r <> None -> cumul_static_coherent st ->
     cumul_static_coherent (c_static r)) /\
    (cumul_nondegenerate ux uy uz -> c_ret r <> None ->
     cumul_rebuilds st l_max_t = true -> cumul_static_coherent (c_static r)) /\
    (cumul_nondegenerate ux uy uz -> c_ret r = None ->
     (0 < n_call st)%nat -> last_l st <> Z.of_nat l_max_t ->
     (cumul_static_coherent (c_static r) <->
      exists l, last_l st = Z.of_nat l /\ pc_mk_ms l_max_t = pc_mk_ms l)).
Proof.
  intros Hcell Hst. unfold leed_par_cumulative_tl. rewrite Hcell.
  destruct (if (l_max_t <? l_max_0)%nat then _ else _) as [l0 log0].
  set (T := cumul_T0 _ _ _ _).
  assert (Hdeg : (Rltb ux GEO_TOLERANCE && Rltb uy GEO_TOLERANCE &&
                  Rltb uz GEO_TOLERANCE)%bool = true <-> ~ cumul_nondegenerate ux uy uz).
  { unfold cumul_nondegenerate.
    destruct (Rltb_spec ux GEO_TOLERANCE), (Rltb_spec uy GEO_TOLERANCE),
      (Rltb_spec uz GEO_TOLERANCE); cbn; split; intros H; try discriminate;
      try reflexivity; try tauto; exfalso; apply H; tauto. }
  destruct (Rltb ux GEO_TOLERANCE && Rltb uy GEO_TOLERANCE && Rltb uz GEO_TOLERANCE)%bool.
  - assert (Hd : ~ cumul_nondegenerate ux uy uz) by (apply Hdeg; reflexivity).
    destruct (matcopy_to h Tmat T) as [h1 p].
    eexists. split; [reflexivity|]. cbn [c_ret c_static].
    split; [exact Hst|].
    split; [intros _; split; [discriminate|reflexivity]|].
    split; [intros H; contradiction|].
    split; [intros _ H; exact H|].
    split; intros H; contradiction.
  - assert (Hn : cumul_nondegenerate ux uy uz).
    { unfold cumul_nondegenerate. intros H.
      assert (false = true) by (apply Hdeg; unfold cumul_nondegenerate; tauto).
      discriminate. }
    fold (cumul_rebuilds st l_max_t).
    remember (if cumul_rebuilds st l_max_t then Some (pc_mk_ms l_max_t)
              else static_ms st) as ms' eqn:Edef.
    assert (Hst' : (if cumul_rebuilds st l_max_t
                    then mk_static (n_call st) (last_l st) (Some (pc_mk_ms l_max_t))
                    else st) = mk_static (n_call st) (last_l st) ms').
    { rewrite Edef. destruct (cumul_rebuilds st l_max_t); [reflexivity|].
      destruct st; reflexivity. }
    rewrite Hst'. cbn [static_ms n_call last_l].
    assert (Hms : exists ms, ms' = Some ms).
    { rewrite Edef. unfold cumul_rebuilds.
      destruct (Nat.eqb_spec (n_call st) 0) as [E0|E0]; cbn [orb];
        [eexists; reflexivity|].
      destruct (negb (last_l st =? Z.of_nat l_max_t)%Z); [eexists; reflexivity|].
      destruct Hst as [Hc|Hs]; [contradiction|].
      destruct (static_ms st) as [ms|]; [exists ms; reflexivity|].
      exfalso. apply Hs. reflexivity. }
    destruct Hms as (ms & Ems). rewrite Ems.
    assert (Hkeep : cumul_static_coherent st -> cumul_rebuilds st l_max_t = false ->
              static_ms st = Some (pc_mk_ms l_max_t)).
    { intros Hc Hr. unfold cumul_rebuilds in Hr.
      apply orb_false_elim in Hr. destruct Hr as [Hr1 Hr2].
      apply Nat.eqb_neq in Hr1. apply negb_false_iff, Z.eqb_eq in Hr2.
      destruct Hc as [Hc|(l & Hl & Hs)]; [contradiction|].
      rewrite Hs. f_equal. f_equal. lia. }
    destruct (cumul_loop _ _ _ _ _ _ _ _ _ _ _ _) as [i_iter T_acc].
    destruct (i_iter =? NITER)%nat.
    + eexists. split; [reflexivity|]. cbn [c_ret c_static static_ms n_call last_l].
      split; [right; discriminate|].
      split; [intros H; contradiction|].
      split.
      { intros _. split; [rewrite <- Ems, Edef; reflexivity|].
        split; [intros H; exfalso; apply H; reflexivity|].
        intros _. split; reflexivity. }
      split; [intros H; exfalso; apply H; reflexivity|].
      split; [intros _ H; exfalso; apply H; reflexivity|].
      intros _ _ Hcall Hl.
      assert (Hr : cumul_rebuilds st l_max_t = true).
      { unfold cumul_rebuilds. destruct (Z.eqb_spec (last_l st) (Z.of_nat l_max_t));
          [contradiction|]. cbn [negb]. apply orb_true_r. }
      rewrite Edef, Hr in Ems. injection Ems as <-.
      unfold cumul_static_coherent. cbn [n_call last_l static_ms]. split.
      * intros [Hc|(l & El & Es)]; [lia|].
        exists l. split; [exact El|]. congruence.
      * intros (l & El & Es). right. exists l. split; [exact El|]. rewrite Es.
        reflexivity.
    + destruct (matcopy_to h Tmat T_acc) as [h1 p].
      eexists. split; [reflexivity|]. cbn [c_ret c_static static_ms n_call last_l].
      split; [right; discriminate|].
      split; [intros H; contradiction|].
      split.
      { intros _. split; [rewrite <- Ems, Edef; reflexivity|].
        split; [intros _; split; reflexivity|].
        intros H. discriminate. }
      split.
      { intros _ Hc. right. exists l_max_t. cbn [n_call last_l static_ms].
        split; [reflexivity|]. rewrite <- Ems, Edef.
        destruct (cumul_rebuilds st l_max_t) eqn:Hr; [reflexivity|].
        apply Hkeep; [exact Hc|reflexivity]. }
      split.
      { intros _ _ Hr. right. exists l_max_t. cbn [n_call last_l static_ms].
        split; [reflexivity|]. rewrite <- Ems, Edef, Hr. reflexivity. }
      intros _ H. discriminate.
Qed.

(** A second call, for [l_max_t = 1] after a call for [l_max_t = 0], on an
    input whose series does not meet the criterion in time: the call
    fails, and it leaves the matrices of [l_max_t = 1] with [last_l = 0]. *)
Lemma leed_par_cumulative_tl_static_state_witness :
  exists r,
    @leed_par_cumulative_tl slow_externals
      (mk_static 1 0 (Some (@pc_mk_ms slow_externals 0)))
      (heap_one slow_tl) None 0%nat slow_u 0 0 (1 / 2) 1 1 = Some r /\
    c_ret r = None /\
    c_static r = mk_static 1 0 (Some (@pc_mk_ms slow_externals 1)) /\
    ~ @cumul_static_coherent slow_externals (c_static r).
Proof.
  destruct (leed_par_cumulative_tl_static_state slow_externals
              (mk_static 1 0 (Some (@pc_mk_ms slow_externals 0)))
              (heap_one slow_tl) None 0%nat slow_tl slow_u 0 0 (1 / 2) 1 1)
    as (r & E & _ & _ & Hit & _ & _ & Hbad).
  - reflexivity.
  - right. discriminate.
  - destruct (slow_call_fails (mk_static 1 0 (Some (@pc_mk_ms slow_externals 0)))
                (heap_one slow_tl) None 0%nat) as (r' & E' & Hnone & _).
    + reflexivity.
    + right. exists 0%nat. split; reflexivity.
    + rewrite E in E'. injection E' as <-.
      destruct (Hit slow_nondegenerate) as (Hms & _ & Hfail).
      destruct (Hfail Hnone) as [Hcall Hlast].
      cbn [cumul_rebuilds n_call last_l static_ms Nat.eqb orb] in Hms, Hcall, Hlast.
      exists r. split; [exact E|]. split; [exact Hnone|]. split.
      * destruct (c_static r) as [nc ll ms]. cbn [n_call last_l static_ms] in *.
        subst nc ll ms. reflexivity.
      * intros Hc.
        apply (Hbad slow_nondegenerate Hnone) in Hc;
          [|cbn [n_call]; lia|cbn [last_l]; discriminate].
        destruct Hc as (l & El & Ems). cbn [last_l] in El.
        assert (l = 0%nat) by lia. subst l.
        apply (f_equal (fun m => rows (Mx m))) in Ems.
        cbn in Ems. discriminate.
Defined.

(** Phase shifts beyond [l_max_t] are not used: a call with [l_max_0]
    above [l_max_t] returns the matrix of the call with [l_max_0] equal to
    [l_max_t], and logs a warning. *)
Theorem leed_par_cumulative_tl_l_max_0_clamped
  (ext : leed_externals) (st : cumul_static) (h : heap) (Tmat : option ptr)
  (tl_0 : ptr) (tl_0_val : mat_str) (ux uy uz energy : R) (l_max_t l_max_0 : nat) :
  cell h tl_0 = Some tl_0_val ->
  cumul_static_coherent st ->
  (l_max_t < l_max_0)%nat ->
  exists r r',
    leed_par_cumulative_tl st h Tmat tl_0 ux uy uz energy l_max_t l_max_0 = Some r /\
    leed_par_cumulative_tl st h Tmat tl_0 ux uy uz energy l_max_t l_max_t = Some r' /\
    returned_matrix r = returned_matrix r' /\
    In (Warning, "input phase shifts are only used up to l_max"%string) (c_log r) /\
    ~ In (Warning, "input phase shifts are only used up to l_max"%string) (c_log r').
Proof.
  intros Hcell Hst Hl.
  pose proof (cumul_returned_value st h Tmat tl_0 tl_0_val ux uy uz energy l_max_t l_max_0
                Hst Hcell) as V.
  pose proof (cumul_returned_value st h Tmat tl_0 tl_0_val ux uy uz energy l_max_t l_max_t
                Hst Hcell) as V'.
  assert (EV : cumul_value tl_0_val ux uy uz energy l_max_t l_max_0 =
               cumul_value tl_0_val ux uy uz energy l_max_t l_max_t).
  { unfold cumul_value, cumul_l0. rewrite Nat.min_r by lia. rewrite Nat.min_id.
    reflexivity. }
  rewrite EV in V.
  assert (Hlog : forall r, leed_par_cumulative_tl st h Tmat tl_0 ux uy uz energy
                             l_max_t l_max_0 = Some r ->
            In (Warning, "input phase shifts are only used up to l_max"%string) (c_log r)).
  { intros r. unfold leed_par_cumulative_tl. rewrite Hcell.
    destruct (Nat.ltb_spec l_max_t l_max_0) as [_|]; [|lia].
    destruct (Rltb ux GEO_TOLERANCE && Rltb uy GEO_TOLERANCE && Rltb uz GEO_TOLERANCE)%bool.
    - destruct (matcopy_to _ _ _) as [h1 p]. intros E. inversion E; subst r.
      cbn [c_log app In]. left. reflexivity.
    - destruct (static_ms _) as [ms|]; [|discriminate].
      destruct (cumul_loop _ _ _ _ _ _ _ _ _ _ _ _) as [i_iter T_acc].
      destruct (i_iter =? NITER)%nat.
      + intros E. inversion E; subst r. cbn [c_log app In]. left. reflexivity.
      + destruct (matcopy_to _ _ _) as [h1 p]. intros E. inversion E; subst r.
        cbn [c_log app In]. left. reflexivity. }
  assert (Hlog' : forall r, leed_par_cumulative_tl st h Tmat tl_0 ux uy uz energy
                              l_max_t l_max_t = Some r ->
            ~ In (Warning, "input phase shifts are only used up to l_max"%string) (c_log r)).
  { intros r. unfold leed_par_cumulative_tl. rewrite Hcell.
    rewrite Nat.ltb_irrefl.
    destruct (Rltb ux GEO_TOLERANCE && Rltb uy GEO_TOLERANCE && Rltb uz GEO_TOLERANCE)%bool.
    - destruct (matcopy_to _ _ _) as [h1 p]. intros E. inversion E; subst r.
      cbn [c_log app In]. intros [H|[]]. discriminate.
    - destruct (static_ms _) as [ms|]; [|discriminate].
      destruct (cumul_loop _ _ _ _ _ _ _ _ _ _ _ _) as [i_iter T_acc].
      destruct (i_iter =? NITER)%nat.
      + intros E. inversion E; subst r. cbn [c_log app In]. intros [H|[]]. discriminate.
      + destruct (matcopy_to _ _ _) as [h1 p]. intros E. inversion E; subst r.
        cbn [c_log In]. tauto. }
  destruct (leed_par_cumulative_tl st h Tmat tl_0 ux uy uz energy l_max_t l_max_0)
    as [r|]; [|discriminate].
  destruct (leed_par_cumulative_tl st h Tmat tl_0 ux uy uz energy l_max_t l_max_t)
    as [r'|]; [|discriminate].
  exists r, r'. split; [reflexivity|]. split; [reflexivity|].
  cbn [option_map] in V, V'. split; [congruence|].
  split; [apply Hlog; reflexivity|apply Hlog'; reflexivity].
Qed.

(** A table of one phase shift used for [l_max_t = 0] with [l_max_0 = 3]. *)
Lemma leed_par_cumulative_tl_l_max_0_clamped_witness :
  exists r r',
    @leed_par_cumulative_tl sample_externals cumul_static_init
      (heap_one (matalloc 1 1)) None 0%nat 1 0 0 (1 / 2) 0 3 = Some r /\
    @leed_par_cumulative_tl sample_externals cumul_static_init
      (heap_one (matalloc 1 1)) None 0%nat 1 0 0 (1 / 2) 0 0 = Some r' /\
    returned_matrix r = returned_matrix r'.
Proof.
  destruct (leed_par_cumulative_tl_l_max_0_clamped sample_externals cumul_static_init
              (heap_one (matalloc 1 1)) None 0%nat (matalloc 1 1) 1 0 0 (1 / 2) 0 3)
    as (r & r' & E & E' & V & _).
  - reflexivity.
  - left. reflexivity.
  - lia.
  - exists r, r'. split; [exact E|]. split; [exact E'|exact V].
Defined.

(** ** leed_ld_2lay_rpm: layers that do not couple, and the damping of the
       propagators *)

Lemma csum_all_zero n f : (forall k, (1 <= k <= n)%nat -> f k = Czero) -> csum n f = Czero.
Proof.
  induction n as [|n IH]; intros H; cbn [csum]; [reflexivity|].
  rewrite IH by (intros k Hk; apply H; lia).
  rewrite (H (S n)) by lia. apply Cadd_0_l.
Qed.

(** When the lower layer reflects nothing ([R_a^{+-} = 0]) or the upper
    layer lets nothing pass in the + direction ([T_b^{++} = 0]), no wave
    comes back from below: leed_ld_2lay_rpm returns the reflection matrix
    [R_b^{+-}] of the upper layer alone, whatever [matinv] computes. *)
Theorem leed_ld_2lay_rpm_no_coupling {ext : leed_externals} (n : nat)
        (Rpm_a Tpp_b Tmm_b Rpm_b Rmp_b : mat_str) (beams : list leed_beam)
        (vec_ab : nat -> R) :
  has_dim n n Rpm_a -> has_dim n n Tpp_b -> has_dim n n Tmm_b ->
  has_dim n n Rpm_b -> has_dim n n Rmp_b ->
  cm_eq n n (mel Rpm_a) cm_zero \/ cm_eq n n (mel Tpp_b) cm_zero ->
  has_dim n n (leed_ld_2lay_rpm Rpm_a Tpp_b Tmm_b Rpm_b Rmp_b beams vec_ab) /\
  cm_eq n n (mel (leed_ld_2lay_rpm Rpm_a Tpp_b Tmm_b Rpm_b Rmp_b beams vec_ab))
        (mel Rpm_b).
Proof.
  intros [rRa cRa] [rTp cTp] [rTm cTm] [rRb cRb] [rRm cRm] Hzero.
  unfold leed_ld_2lay_rpm. rewrite cRa. unfold matcopy.
  destruct (ld_propagators n beams vec_ab) as [Pp Pm].
  pose proof (ld_prepare_spec n Pp Pm Rpm_a Rmp_b cRa cRm) as HM.
  destruct (ld_prepare n (n * n) Pp Pm Rpm_a Rmp_b) as [Ma Mb]. cbn [fst snd] in HM.
  destruct HM as (rMa & cMa & rMb & cMb & HM).
  set (X := ld_add_unity (n * n) (matmul Mb Ma)).
  set (M3 := matmul (matinv X) Tmm_b).
  set (Res1 := matmul Ma M3).
  destruct (ld_scale_cols_spec n Pp Tpp_b cTp) as (rTP & cTP & HTP).
  set (TP := ld_scale_cols n (n * n) Pp Tpp_b) in *.
  set (Res2 := matmul TP Res1).
  assert (cRes2 : cols Res2 = n) by (simpl; assumption).
  destruct (ld_add_Rpm_b_spec n Res2 Rpm_b cRes2 cRb) as (rR & cR & HR).
  split.
  { split; [rewrite rR; simpl; congruence|assumption]. }
  intros i j Hi Hj. rewrite HR by assumption.
  assert (E : mel Res2 i j = Czero).
  { unfold Res2. rewrite mel_matmul by (simpl; lia). rewrite cTP.
    unfold cm_mul. apply csum_all_zero. intros k Hk.
    destruct Hzero as [Za|Zt].
    - assert (E1 : mel Res1 k j = Czero).
      { unfold Res1. rewrite mel_matmul by (simpl; lia). rewrite cMa.
        unfold cm_mul. apply csum_all_zero. intros m Hm.
        destruct (HM k m Hk Hm) as [-> _]. rewrite (Za k m Hk Hm).
        unfold cm_zero. rewrite Cmul_0_l. apply Cmul_0_l. }
      rewrite E1. apply Cmul_0_r.
    - rewrite (HTP i k Hi Hk), (Zt i k Hi Hk). unfold cm_zero.
      rewrite Cmul_0_l. apply Cmul_0_l. }
  rewrite E. apply Cadd_0_r.
Qed.

(** 1 x 1 matrices, the lower layer without reflection. *)
Lemma leed_ld_2lay_rpm_no_coupling_witness :
  cm_eq 1 1
    (mel (@leed_ld_2lay_rpm sample_externals (matalloc 1 1) (sample_scalar 1 0)
            (sample_scalar 1 0) (sample_scalar 2 3) (sample_scalar 1 1)
            [beam_zero] (fun _ => 1)))
    (mel (sample_scalar 2 3)).
Proof.
  apply (@leed_ld_2lay_rpm_no_coupling sample_externals 1 (matalloc 1 1) (sample_scalar 1 0)
           (sample_scalar 1 0) (sample_scalar 2 3) (sample_scalar 1 1)
           [beam_zero] (fun _ => 1)).
  - split; reflexivity.
  - split; reflexivity.
  - split; reflexivity.
  - split; reflexivity.
  - split; reflexivity.
  - left. intros i j _ _. reflexivity.
Defined.

Lemma cri_abs_expi x y : cri_abs (fst (cri_expi x y)) (snd (cri_expi x y)) = exp (- y).
Proof.
  unfold cri_abs, cri_expi. cbn [fst snd].
  replace (exp (- y) * cos x * (exp (- y) * cos x) + exp (- y) * sin x * (exp (- y) * sin x))
    with (exp (- y) * exp (- y) * (sin x * sin x + cos x * cos x)) by ring.
  pose proof (sin2_cos2 x) as H. unfold Rsqr in H. rewrite H, Rmult_1_r.
  apply sqrt_square. left. apply exp_pos.
Qed.

(** The propagators of leed_ld_2lay_rpm are damped alike: for the beam k
    both [P^+] and [P^-] have the modulus [exp(- k_i[3] * vec_ab[3])], so
    neither is above 1 when the imaginary part of [k_z] and the z component
    of the vector have the same sign. *)
Theorem leed_ld_2lay_rpm_propagator_modulus (n : nat) (beams : list leed_beam)
        (vec_ab : nat -> R) (k : nat) :
  (k < n)%nat ->
  let P := ld_propagators n beams vec_ab in
  let d := k_i (beam_at beams k) 3%nat * vec_ab 3%nat in
  cri_abs (rel (fst P) (k + 1)) (iel (fst P) (k + 1)) = exp (- d) /\
  cri_abs (rel (snd P) (k + 1)) (iel (snd P) (k + 1)) = exp (- d) /\
  (0 <= d -> cri_abs (rel (fst P) (k + 1)) (iel (fst P) (k + 1)) <= 1 /\
             cri_abs (rel (snd P) (k + 1)) (iel (snd P) (k + 1)) <= 1).
Proof.
  intros Hk P d. subst P. unfold ld_propagators.
  pose (Q := fun (m : nat) (P : mat_str * mat_str) =>
    forall q, (q < m)%nat ->
      cri_abs (rel (fst P) (q + 1)) (iel (fst P) (q + 1)) =
        exp (- (k_i (beam_at beams q) 3%nat * vec_ab 3%nat)) /\
      cri_abs (rel (snd P) (q + 1)) (iel (snd P) (q + 1)) =
        exp (- (k_i (beam_at beams q) 3%nat * vec_ab 3%nat))).
  match goal with
  | |- context [for_up ?c ?lo ?f ?s] => assert (H : Q (lo + c)%nat (for_up c lo f s))
  end.
  { apply for_up_ind.
    - intros q Hq. lia.
    - intros m [Pp Pm] Hm HQ q Hq. cbn [fst snd set_el rel iel]. unfold upd.
      destruct (Nat.eqb_spec (q + 1) (m + 1)) as [E|E].
      + assert (q = m) by lia. subst q. split; apply cri_abs_expi.
      + apply HQ. lia. }
  destruct (H k ltac:(lia)) as [E1 E2]. fold d in E1, E2.
  split; [exact E1|]. split; [exact E2|].
  intros Hd. rewrite E1, E2.
  assert (exp (- d) <= 1).
  { rewrite <- exp_0. destruct (Req_dec d 0) as [->|Hne].
    - rewrite Ropp_0. apply Rle_refl.
    - left. apply exp_increasing. lra. }
  split; assumption.
Qed.

(** One beam with [k_z = 1 + i] over the vector (0, 0, 2). *)
Lemma leed_ld_2lay_rpm_propagator_modulus_witness :
  cri_abs (rel (fst (ld_propagators 1 [sample_beam_damped] (fun _ => 2))) 1)
          (iel (fst (ld_propagators 1 [sample_beam_damped] (fun _ => 2))) 1)
  = exp (- (1 * 2)).
Proof.
  apply (leed_ld_2lay_rpm_propagator_modulus 1 [sample_beam_damped] (fun _ => 2) 0).
  lia.
Defined.

(** ** leed_beam_gen: what the list holds, and how it is read *)

(** The round of one beam set writes the beams of the pairs of indices
    inside the radius, and nothing else, into the slots of the set. *)
Lemma gen_set_content c_par k_in k_max_2 n1_max n2_max bm_off cap i_set beams offset :
  let pts := filter (gen_inside c_par k_in k_max_2 (bm_off i_set))
                    (gen_candidates n1_max n2_max) in
  let e := (offset + List.length pts)%nat in
  let Kp := fun p => k_par (gen_new c_par (bm_off i_set) i_set beam_zero p) in
  (e < cap)%nat ->
  (forall p, In p pts ->
     ((forall q, In q pts -> Kp q <= Kp p) ->
      K_TOLERANCE <= Rabs (k_par (beams e) - Kp p)) /\
     forall q, In q pts -> Kp p = Kp q \/ K_TOLERANCE <= Rabs (Kp p - Kp q)) ->
  exists beams',
    gen_set c_par k_in k_max_2 n1_max n2_max bm_off cap i_set (Some (beams, offset)) =
    Some (beams', e) /\
    seg_same beams' beams offset e /\
    (forall i, (offset <= i < e)%nat ->
       exists p old, In p pts /\ beams' i = gen_new c_par (bm_off i_set) i_set old p) /\
    (forall p, In p pts ->
       exists i old, (offset <= i < e)%nat /\
                     beams' i = gen_new c_par (bm_off i_set) i_set old p).
Proof.
  intros pts e Kp Hcap Hsep. unfold gen_set.
  rewrite gen_beams_fold.
  destruct (gen_beam_fold c_par k_in k_max_2 (bm_off i_set) i_set cap
              (gen_candidates n1_max n2_max) beams offset)
    as (b1 & E1 & Hframe & Hnew); [fold pts; fold e; lia|].
  fold pts in E1, Hframe, Hnew. fold e in E1, Hframe.
  rewrite E1. clear E1.
  assert (Hslot : forall i, (offset <= i < e)%nat ->
            exists p, In p pts /\ b1 i = gen_new c_par (bm_off i_set) i_set (beams i) p).
  { intros i Hi.
    destruct (nth_error pts (i - offset)) as [p|] eqn:Ep.
    - exists p. split; [eapply nth_error_In; exact Ep|].
      replace i with (offset + (i - offset))%nat at 1 2 by lia.
      apply Hnew. exact Ep.
    - apply nth_error_None in Ep. unfold e in Hi. lia. }
  assert (Hpoint : forall p, In p pts ->
            exists i, (offset <= i < e)%nat /\
                      b1 i = gen_new c_par (bm_off i_set) i_set (beams i) p).
  { intros p Hp. apply In_nth_error in Hp. destruct Hp as (k & Ek).
    assert (Hk : (k < List.length pts)%nat) by (apply nth_error_Some; congruence).
    exists (offset + k)%nat. split; [unfold e; lia|].
    apply (Hnew k p Ek). }
  destruct (sort_k_par_spec b1 offset e ltac:(unfold e; lia)) as (S1s & S1f & S1sorted).
  set (b1s := sort_k_par b1 offset e) in *.
  assert (Hslot1 : forall i, (offset <= i < e)%nat ->
            exists p, In p pts /\ k_par (b1s i) = Kp p).
  { intros i Hi. destruct (proj1 S1f i Hi) as (i' & Hi' & Ei).
    destruct (Hslot i' Hi') as (p & Hp & Eb). exists p. split; [exact Hp|].
    rewrite Ei, Eb. reflexivity. }
  assert (Hend : k_par (b1s e) = k_par (beams e)).
  { rewrite (S1s e) by lia. rewrite Hframe by lia. reflexivity. }
  destruct (sort_ind_spec cap offset e (fun q => k_par (b1s q))) with (b := b1s)
    as (b2 & E2 & HK2 & S2s & S2f & S2ind).
  - exact S1sorted.
  - intros i j Hi Hj.
    destruct (Hslot1 i Hi) as (p & Hp & Ep).
    destruct (Hslot1 j Hj) as (q & Hq & Eq).
    rewrite Ep, Eq. apply (Hsep p Hp). exact Hq.
  - intros i Hi Elast. destruct (Hslot1 i Hi) as (p & Hp & Ep).
    rewrite Hend, Ep. apply (Hsep p Hp).
    intros q Hq. destruct (Hpoint q Hq) as (k & Hk & Ekq).
    destruct (proj2 S1f k Hk) as (j & Hj & Ej).
    assert (Ekq' : k_par (b1 k) = Kp q) by (rewrite Ekq; reflexivity).
    rewrite <- Ekq', Ej, <- Ep, Elast.
    destruct (Nat.eq_dec j (e - 1)) as [->|Hne]; [lra|].
    apply S1sorted; lia.
  - exact Hcap.
  - unfold e. lia.
  - intros q. reflexivity.
  - rewrite E2. exists b2. split; [reflexivity|].
    split; [|split].
    + eapply seg_same_trans; [exact S2s|].
      eapply seg_same_trans; [exact S1s|].
      intros q Hq. apply Hframe. lia.
    + intros i Hi. destruct (proj1 S2f i Hi) as (i' & Hi' & Ei).
      destruct (proj1 S1f i' Hi') as (i'' & Hi'' & Ei').
      destruct (Hslot i'' Hi'') as (p & Hp & Eb).
      exists p, (beams i''). split; [exact Hp|]. rewrite Ei, Ei', Eb. reflexivity.
    + intros p Hp. destruct (Hpoint p Hp) as (k & Hk & Ek).
      destruct (proj2 S1f k Hk) as (k' & Hk' & Ek').
      destruct (proj2 S2f k' Hk') as (k'' & Hk'' & Ek'').
      exists k'', (beams k). split; [exact Hk''|].
      rewrite <- Ek'', <- Ek', Ek. reflexivity.
Qed.

(** The loop over the beam sets, under the conditions of [gen_separated]:
    the slots hold the beams of the sets, and all of them. *)
Lemma gen_sets_content p_beams c_par v_par eng_max :
  (gen_start c_par v_par eng_max (gen_n_set c_par) < gen_cap c_par v_par eng_max)%nat ->
  gen_separated p_beams c_par v_par eng_max ->
  let k_max_2 := gen_k_max_2 c_par v_par eng_max in
  let k_in := gen_k_in v_par eng_max in
  let n_max := gen_n_max c_par (sqrt k_max_2) (k_in 0%nat) in
  let bm_off := fst (gen_bm_off c_par (gen_n_set c_par)) in
  forall n, (n <= gen_n_set c_par)%nat ->
  exists b,
    for_up n 0
      (fun i_set s => gen_set c_par k_in k_max_2 (fst n_max) (snd n_max) bm_off
                              (gen_cap c_par v_par eng_max) i_set s)
      (Some (gen_initial p_beams, 0%nat)) =
    Some (b, gen_start c_par v_par eng_max n) /\
    seg_same b (gen_initial p_beams) 0 (gen_start c_par v_par eng_max n) /\
    (forall i, (i < gen_start c_par v_par eng_max n)%nat ->
       exists i_set p old, (i_set < n)%nat /\ In p (gen_points c_par v_par eng_max i_set) /\
                           b i = gen_beam_of c_par i_set old p) /\
    (forall i_set p, (i_set < n)%nat -> In p (gen_points c_par v_par eng_max i_set) ->
       exists i old, (i < gen_start c_par v_par eng_max n)%nat /\
                     b i = gen_beam_of c_par i_set old p).
Proof.
  intros Hcap Hsep k_max_2 k_in n_max bm_off n Hn.
  pose (P := fun (s : nat) (st : option (beam_array * nat)) =>
    (s <= gen_n_set c_par)%nat ->
    exists b,
      st = Some (b, gen_start c_par v_par eng_max s) /\
      seg_same b (gen_initial p_beams) 0 (gen_start c_par v_par eng_max s) /\
      (forall i, (i < gen_start c_par v_par eng_max s)%nat ->
         exists i_set p old, (i_set < s)%nat /\
                             In p (gen_points c_par v_par eng_max i_set) /\
                             b i = gen_beam_of c_par i_set old p) /\
      (forall i_set p, (i_set < s)%nat -> In p (gen_points c_par v_par eng_max i_set) ->
         exists i old, (i < gen_start c_par v_par eng_max s)%nat /\
                       b i = gen_beam_of c_par i_set old p)).
  match goal with
  | |- exists b, for_up n 0 ?f ?s = _ /\ _ => assert (H : P (0 + n)%nat (for_up n 0 f s))
  end.
  { apply for_up_ind.
    - intros _. exists (gen_initial p_beams). cbn [gen_start].
      split; [reflexivity|]. split; [apply seg_same_refl|].
      split; intros; lia.
    - intros s st Hs IH Hs'. destruct (IH ltac:(lia)) as (b & -> & Hsame & Hin & Hall).
      pose proof (gen_start_mono c_par v_par eng_max (S s) (gen_n_set c_par) Hs') as Hmono.
      destruct (gen_set_content c_par k_in k_max_2 (fst n_max) (snd n_max) bm_off
                  (gen_cap c_par v_par eng_max) s b (gen_start c_par v_par eng_max s))
        as (b' & E & Ssame & Sin & Sall).
      + change (gen_start c_par v_par eng_max (S s) < gen_cap c_par v_par eng_max)%nat. lia.
      + intros p Hp. change (In p (gen_points c_par v_par eng_max s)) in Hp.
        destruct (Hsep s ltac:(lia) p Hp) as [Hend Hgap]. split.
        * intros Hmax.
          change (K_TOLERANCE <=
                  Rabs (k_par (b (gen_start c_par v_par eng_max (S s)))
                        - gen_k_par c_par s p)).
          rewrite Hsame by (cbn [gen_start]; lia). apply Hend.
          intros q Hq. exact (Hmax q Hq).
        * intros q Hq. exact (Hgap q Hq).
      + assert (Hstep : (gen_start c_par v_par eng_max s <=
                         gen_start c_par v_par eng_max (S s))%nat)
          by (apply gen_start_mono; lia).
        change (gen_start c_par v_par eng_max s +
                List.length (filter (gen_inside c_par k_in k_max_2 (bm_off s))
                               (gen_candidates (fst n_max) (snd n_max))))%nat
          with (gen_start c_par v_par eng_max (S s)) in *.
        change (filter (gen_inside c_par k_in k_max_2 (bm_off s))
                       (gen_candidates (fst n_max) (snd n_max)))
          with (gen_points c_par v_par eng_max s) in *.
        exists b'. split; [exact E|]. split; [|split].
        * intros q Hq. destruct (le_lt_dec (gen_start c_par v_par eng_max s) q) as [H1|H1].
          -- rewrite Ssame by lia. apply Hsame. lia.
          -- rewrite Ssame by lia. apply Hsame. lia.
        * intros i Hi. destruct (le_lt_dec (gen_start c_par v_par eng_max s) i) as [H1|H1].
          -- destruct (Sin i ltac:(lia)) as (p & old & Hp & Eb).
             exists s, p, old. split; [lia|]. split; [exact Hp|exact Eb].
          -- rewrite Ssame by lia.
             destruct (Hin i H1) as (i_set & p & old & Hi_set & Hp & Eb).
             exists i_set, p, old. split; [lia|]. split; [exact Hp|exact Eb].
        * intros i_set p Hi_set Hp.
          destruct (Nat.eq_dec i_set s) as [->|Hne].
          -- destruct (Sall p Hp) as (i & old & Hi & Eb).
             exists i, old. split; [lia|exact Eb].
          -- destruct (Hall i_set p ltac:(lia) Hp) as (i & old & Hi & Eb).
             exists i, old. split; [lia|]. rewrite Ssame by lia. exact Eb. }
  exact (H Hn).
Qed.

(** The outcome of a call under the conditions of [gen_separated]. *)
Lemma gen_outcome WARNING_LOG F_END_OF_LIST p_beams c_par v_par eng_max :
  (0 < gen_iaux c_par (gen_k_max_2 c_par v_par eng_max))%Z ->
  (0 < R_nint (rel_area_sup c_par))%Z ->
  (gen_start c_par v_par eng_max (gen_n_set c_par) < gen_cap c_par v_par eng_max)%nat ->
  gen_separated p_beams c_par v_par eng_max ->
  exists r,
    leed_beam_gen WARNING_LOG F_END_OF_LIST p_beams c_par v_par eng_max = Some r /\
    g_count r = gen_start c_par v_par eng_max (gen_n_set c_par) /\
    g_cap r = gen_cap c_par v_par eng_max /\
    (forall i, (i < g_count r)%nat -> gen_listed c_par v_par eng_max (g_beams r i)) /\
    (forall i_set p, (i_set < gen_n_set c_par)%nat ->
       In p (gen_points c_par v_par eng_max i_set) ->
       exists i old, (i < g_count r)%nat /\ g_beams r i = gen_beam_of c_par i_set old p) /\
    k_par (g_beams r (g_count r)) = F_END_OF_LIST.
Proof.
  intros Hiaux Hnset Hcap Hsep.
  destruct (gen_sets_content p_beams c_par v_par eng_max Hcap Hsep (gen_n_set c_par)
                             (le_n _)) as (b & E & _ & Hin & Hall).
  unfold leed_beam_gen.
  destruct (Z.leb_spec (gen_iaux c_par (gen_k_max_2 c_par v_par eng_max)) 0) as [H|_]; [lia|].
  destruct (Z.leb_spec (R_nint (rel_area_sup c_par)) 0) as [H|_]; [lia|].
  cbn [orb].
  change (Z.to_nat (R_nint (rel_area_sup c_par))) with (gen_n_set c_par).
  change (Z.to_nat (gen_iaux c_par (gen_k_max_2 c_par v_par eng_max)))
    with (gen_cap c_par v_par eng_max).
  destruct (gen_bm_off c_par (gen_n_set c_par)) as [bm_off i_set] eqn:Eoff.
  destruct (gen_n_max c_par (sqrt (gen_k_max_2 c_par v_par eng_max))
                      (gen_k_in v_par eng_max 0%nat)) as [n1_max n2_max] eqn:Emax.
  cbn [fst snd] in E.
  change (match p_beams with
          | Some old => old
          | None => fun _ : nat => beam_zero
          end) with (gen_initial p_beams).
  rewrite E.
  destruct (Nat.leb_spec (gen_cap c_par v_par eng_max)
              (gen_start c_par v_par eng_max (gen_n_set c_par))) as [H|_]; [lia|].
  eexists. split; [reflexivity|]. cbn [g_ret g_count g_beams g_cap].
  split; [reflexivity|]. split; [reflexivity|]. unfold beam_put. split; [|split].
  - intros i Hi.
    destruct (Nat.eqb_spec i (gen_start c_par v_par eng_max (gen_n_set c_par))); [lia|].
    destruct (Hin i Hi) as (s & p & old & Hs & Hp & Eb).
    exists s, p, old. split; [exact Hs|]. split; [exact Hp|exact Eb].
  - intros s p Hs Hp. destruct (Hall s p Hs Hp) as (i & old & Hi & Eb).
    exists i, old. split; [exact Hi|].
    destruct (Nat.eqb_spec i (gen_start c_par v_par eng_max (gen_n_set c_par))); [lia|].
    exact Eb.
  - rewrite Nat.eqb_refl. reflexivity.
Qed.



Lemma gen_list_nth r j :
  (j < g_cap r)%nat -> nth j (gen_list r) beam_zero = g_beams r j.
Proof.
  intros Hj. unfold gen_list.
  rewrite (nth_indep _ beam_zero (g_beams r 0%nat))
    by (rewrite length_map, length_seq; exact Hj).
  rewrite (map_nth (g_beams r) (seq 0 (g_cap r)) 0%nat j).
  rewrite seq_nth by exact Hj. reflexivity.
Qed.

(** The beams before the terminator are the first beams of the list. *)
Lemma sel_before_firstn F (l : list leed_beam) n :
  (n < List.length l)%nat ->
  (forall j, (j < n)%nat -> k_par (nth j l beam_zero) <> F) ->
  k_par (nth n l beam_zero) = F ->
  sel_before F l = firstn n l.
Proof.
  revert l. induction n as [|n IH]; intros l Hn Hlow Hend.
  - destruct l as [|x l]; [cbn in Hn; lia|]. cbn in Hend. cbn.
    rewrite (IS_EQUAL_REAL_true _ _ Hend). reflexivity.
  - destruct l as [|x l]; [cbn in Hn; lia|]. cbn [sel_before firstn].
    rewrite (IS_EQUAL_REAL_false (k_par x) F (Hlow 0%nat ltac:(lia))).
    f_equal. apply IH.
    + cbn in Hn. lia.
    + intros j Hj. apply (Hlow (S j)). lia.
    + exact Hend.
Qed.

Lemma In_firstn_nth (l : list leed_beam) n b :
  In b (firstn n l) -> exists j, (j < n)%nat /\ (j < List.length l)%nat /\
                                 nth j l beam_zero = b.
Proof.
  revert l. induction n as [|n IH]; intros l H; [destruct H|].
  destruct l as [|x l]; [destruct H|]. cbn [firstn In] in H.
  destruct H as [->|H].
  - exists 0%nat. cbn. split; [lia|]. split; [lia|reflexivity].
  - destruct (IH l H) as (j & Hj & Hl & E). exists (S j). cbn.
    split; [lia|]. split; [lia|exact E].
Qed.

(** Under the conditions under which leed_beam_gen sorts its list (the
    array long enough for the beams and the terminator, the values of
    k_par of a set equal or at least K_TOLERANCE apart, also from the
    k_par held by the slot after the set) and with a negative terminating
    value, the list of leed_beam_gen is read by leed_beam_get_selection as
    it was written: the walk up to the terminator finds the number of
    beams generated, the selection returns a number that is not larger,
    and every beam it selects is one of the generated beams, with its set
    and its indices. *)
Theorem leed_beam_gen_then_selection {lext : lsum_externals}
        (cri_sqrt : R -> R -> R * R) (WARNING_LOG : bool) (F_END_OF_LIST : R)
        (p_beams : option beam_array) (c_par : leed_crystal) (v_par : leed_var)
        (eng_max : R) (p_beams_out : option (nat -> leed_beam_sel))
        (v_sel : leed_var) (eng_r dmin : R) :
  F_END_OF_LIST < 0 ->
  (0 < gen_iaux c_par (gen_k_max_2 c_par v_par eng_max))%Z ->
  (0 < R_nint (rel_area_sup c_par))%Z ->
  (gen_start c_par v_par eng_max (gen_n_set c_par) < gen_cap c_par v_par eng_max)%nat ->
  gen_separated p_beams c_par v_par eng_max ->
  exists r s,
    leed_beam_gen WARNING_LOG F_END_OF_LIST p_beams c_par v_par eng_max = Some r /\
    compl_n_beams F_END_OF_LIST (gen_list r) = Some (g_count r) /\
    leed_beam_get_selection cri_sqrt F_END_OF_LIST p_beams_out (gen_list r)
                            v_sel eng_r dmin = Some s /\
    (0 <= s_ret s <= Z.of_nat (g_count r))%Z /\
    forall j, (j < Z.to_nat (s_ret s))%nat ->
      exists b, gen_listed c_par v_par eng_max b /\
                set (b_beam (s_beams s j)) = set b /\
                ind_1 (b_beam (s_beams s j)) = ind_1 b /\
                ind_2 (b_beam (s_beams s j)) = ind_2 b.
Proof.
  intros HF Hiaux Hnset Hcap Hsep.
  destruct (gen_outcome WARNING_LOG F_END_OF_LIST p_beams c_par v_par eng_max
              Hiaux Hnset Hcap Hsep) as (r & E & Hcount & Hgcap & Hin & _ & Hend).
  assert (Hlt : (g_count r < g_cap r)%nat) by lia.
  assert (Hlen : List.length (gen_list r) = g_cap r)
    by (unfold gen_list; rewrite length_map, length_seq; reflexivity).
  assert (Hlow : forall j, (j < g_count r)%nat ->
            k_par (nth j (gen_list r) beam_zero) <> F_END_OF_LIST).
  { intros j Hj. rewrite gen_list_nth by lia.
    destruct (Hin j Hj) as (i_set & p & old & _ & _ & ->).
    unfold gen_beam_of, gen_new, beam_fill. cbn [k_par].
    match goal with
    | |- ?x * ?x + ?y * ?y <> _ =>
        pose proof (Rle_0_sqr x); pose proof (Rle_0_sqr y); unfold Rsqr in *; lra
    end. }
  assert (Hat : k_par (nth (g_count r) (gen_list r) beam_zero) = F_END_OF_LIST)
    by (rewrite gen_list_nth by lia; exact Hend).
  destruct (compl_n_beams_at F_END_OF_LIST (gen_list r) (g_count r)
              ltac:(lia) Hlow Hat) as [En _].
  assert (Hterm : sel_terminated F_END_OF_LIST (gen_list r)).
  { exists (nth (g_count r) (gen_list r) beam_zero). split; [|exact Hat].
    apply nth_In. lia. }
  destruct (sel_outcome cri_sqrt F_END_OF_LIST p_beams_out (gen_list r) v_sel eng_r dmin
              Hterm) as (s & Es & Hret & _ & Hnew & _).
  pose proof (sel_before_firstn F_END_OF_LIST (gen_list r) (g_count r)
                ltac:(lia) Hlow Hat) as Hbefore.
  set (sel := sel_selected F_END_OF_LIST v_sel eng_r dmin (gen_list r)) in *.
  assert (Hsel : (List.length sel <= g_count r)%nat).
  { unfold sel, sel_selected. rewrite Hbefore.
    pose proof (filter_length_le (sel_inside v_sel (sel_k_max_2 v_sel eng_r dmin))
                  (firstn (g_count r) (gen_list r))) as H1.
    pose proof (firstn_le_length (g_count r) (gen_list r)) as H2.
    rewrite length_firstn in H1. lia. }
  exists r, s. split; [exact E|]. split; [exact En|]. split; [exact Es|].
  rewrite Hret. split; [lia|]. rewrite Nat2Z.id.
  intros j Hj.
  destruct (nth_error sel j) as [b|] eqn:Eb; [|apply nth_error_None in Eb; lia].
  rewrite (Hnew j b Eb).
  assert (Hb : In b sel) by (eapply nth_error_In; exact Eb).
  unfold sel, sel_selected in Hb. rewrite Hbefore in Hb.
  apply filter_In in Hb. destruct Hb as [Hb _].
  destruct (In_firstn_nth _ _ _ Hb) as (q & Hq & _ & Eq).
  rewrite gen_list_nth in Eq by lia.
  exists b. split; [rewrite <- Eq; apply Hin; exact Hq|].
  unfold sel_fill. cbn [b_beam set ind_1 ind_2]. repeat split.
Qed.

(** The five beams of the square lattice, selected at the energy 1. *)
Lemma leed_beam_gen_then_selection_witness :
  exists r s,
    leed_beam_gen true (-1) None (sample_crystal 1) sample_var 0.605 = Some r /\
    compl_n_beams (-1) (gen_list r) = Some (g_count r) /\
    @leed_beam_get_selection sample_lsum_externals sample_cri_sqrt (-1) None
       (gen_list r) sample_var 1 1 = Some s /\
    (0 <= s_ret s <= Z.of_nat (g_count r))%Z.
Proof.
  destruct (@leed_beam_gen_then_selection sample_lsum_externals sample_cri_sqrt true (-1)
              None (sample_crystal 1) sample_var 0.605 None sample_var 1 1)
    as (r & s & E & En & Es & Hret & _).
  - lra.
  - rewrite sample_k_max_2, sample_iaux. lia.
  - rewrite sample_n_set. lia.
  - unfold gen_n_set. rewrite sample_n_set, sample_cap.
    change (Z.to_nat 1) with 1%nat. cbn [gen_start].
    rewrite sample_points by lra. cbn [List.length]. lia.
  - apply sample_separated.
  - exists r, s. split; [exact E|]. split; [exact En|]. split; [exact Es|exact Hret].
Defined.

(** ** leed_beam_gen: the layout of the list *)

(** The loops over the beam sets write the offsets from the entry 1 on:
    the entry 0 keeps the zero offset of the integer beams. *)
Lemma gen_bm_off_first c_par n_set :
  ind_1 (fst (gen_bm_off c_par n_set) 0%nat) = 0 /\
  ind_2 (fst (gen_bm_off c_par n_set) 0%nat) = 0 /\
  k_r (fst (gen_bm_off c_par n_set) 0%nat) 1%nat = 0 /\
  k_r (fst (gen_bm_off c_par n_set) 0%nat) 2%nat = 0.
Proof.
  unfold gen_bm_off.
  pose (P := fun s : beam_array * nat =>
    (1 <= snd s)%nat /\
    ind_1 (fst s 0%nat) = 0 /\ ind_2 (fst s 0%nat) = 0 /\
    k_r (fst s 0%nat) 1%nat = 0 /\ k_r (fst s 0%nat) 2%nat = 0).
  match goal with
  | |- context [for_z ?c ?lo ?f ?s] => assert (H : P (for_z c lo f s))
  end.
  { rewrite for_z_range. apply fold_left_inv.
    - unfold P. cbn [fst snd]. unfold beam_put. cbn [Nat.eqb].
      unfold beam_set_offset, upd. cbn [ind_1 ind_2 k_r Nat.eqb].
      repeat split; try lia; ring.
    - intros s n1 _ Hs. rewrite for_z_range. apply fold_left_inv; [exact Hs|].
      intros [b i] n2 _ Hb. destruct (i <? n_set)%nat; [|exact Hb].
      match goal with
      | |- P (if ?c then _ else _) => destruct c; [|exact Hb]
      end.
      unfold P in *. cbn [fst snd] in *. unfold beam_put.
      destruct (Nat.eqb_spec 0 i) as [E|_]; [lia|].
      destruct Hb as (_ & H1 & H2 & H3 & H4). repeat split; try assumption. lia. }
  exact (proj2 H).
Qed.


(** The loop over the beam sets: the set [s] fills the slots from its
    offset on with the beams of its pairs of indices, sorted. *)
Lemma gen_sets_layout p_beams c_par v_par eng_max :
  (gen_start c_par v_par eng_max (gen_n_set c_par) < gen_cap c_par v_par eng_max)%nat ->
  gen_separated p_beams c_par v_par eng_max ->
  let k_max_2 := gen_k_max_2 c_par v_par eng_max in
  let k_in := gen_k_in v_par eng_max in
  let n_max := gen_n_max c_par (sqrt k_max_2) (k_in 0%nat) in
  let bm_off := fst (gen_bm_off c_par (gen_n_set c_par)) in
  forall n, (n <= gen_n_set c_par)%nat ->
  exists b,
    for_up n 0
      (fun i_set s => gen_set c_par k_in k_max_2 (fst n_max) (snd n_max) bm_off
                              (gen_cap c_par v_par eng_max) i_set s)
      (Some (gen_initial p_beams, 0%nat)) =
    Some (b, gen_start c_par v_par eng_max n) /\
    forall s, (s < n)%nat ->
      (forall i, (gen_start c_par v_par eng_max s <= i
                  < gen_start c_par v_par eng_max (S s))%nat ->
         exists p old, In p (gen_points c_par v_par eng_max s) /\
                       b i = gen_beam_of c_par s old p) /\
      (forall p, In p (gen_points c_par v_par eng_max s) ->
         exists i old, (gen_start c_par v_par eng_max s <= i
                        < gen_start c_par v_par eng_max (S s))%nat /\
                       b i = gen_beam_of c_par s old p) /\
      (forall i j, (gen_start c_par v_par eng_max s <= i)%nat -> (i < j)%nat ->
         (j < gen_start c_par v_par eng_max (S s))%nat -> beam_order (b i) (b j)).
Proof.
  intros Hcap Hsep k_max_2 k_in n_max bm_off n Hn.
  pose (P := fun (t : nat) (st : option (beam_array * nat)) =>
    (t <= gen_n_set c_par)%nat ->
    exists b,
      st = Some (b, gen_start c_par v_par eng_max t) /\
      seg_same b (gen_initial p_beams) 0 (gen_start c_par v_par eng_max t) /\
      forall s, (s < t)%nat ->
        (forall i, (gen_start c_par v_par eng_max s <= i
                    < gen_start c_par v_par eng_max (S s))%nat ->
           exists p old, In p (gen_points c_par v_par eng_max s) /\
                         b i = gen_beam_of c_par s old p) /\
        (forall p, In p (gen_points c_par v_par eng_max s) ->
           exists i old, (gen_start c_par v_par eng_max s <= i
                          < gen_start c_par v_par eng_max (S s))%nat /\
                         b i = gen_beam_of c_par s old p) /\
        (forall i j, (gen_start c_par v_par eng_max s <= i)%nat -> (i < j)%nat ->
           (j < gen_start c_par v_par eng_max (S s))%nat -> beam_order (b i) (b j))).
  match goal with
  | |- exists b, for_up n 0 ?f ?s = _ /\ _ => assert (H : P (0 + n)%nat (for_up n 0 f s))
  end.
  { apply for_up_ind.
    - intros _. exists (gen_initial p_beams). cbn [gen_start].
      split; [reflexivity|]. split; [apply seg_same_refl|]. intros s Hs. lia.
    - intros t st Ht IH Ht'. destruct (IH ltac:(lia)) as (b & -> & Hsame & Hlay).
      pose proof (gen_start_mono c_par v_par eng_max (S t) (gen_n_set c_par) Ht') as Hmono.
      assert (Hpre : forall p,
                In p (filter (gen_inside c_par k_in k_max_2 (bm_off t))
                             (gen_candidates (fst n_max) (snd n_max))) ->
                ((forall q,
                    In q (filter (gen_inside c_par k_in k_max_2 (bm_off t))
                                 (gen_candidates (fst n_max) (snd n_max))) ->
                    k_par (gen_new c_par (bm_off t) t beam_zero q) <=
                    k_par (gen_new c_par (bm_off t) t beam_zero p)) ->
                 K_TOLERANCE <=
                 Rabs (k_par (b (gen_start c_par v_par eng_max t +
                                 List.length
                                   (filter (gen_inside c_par k_in k_max_2 (bm_off t))
                                      (gen_candidates (fst n_max) (snd n_max))))%nat)
                       - k_par (gen_new c_par (bm_off t) t beam_zero p))) /\
                forall q,
                  In q (filter (gen_inside c_par k_in k_max_2 (bm_off t))
                               (gen_candidates (fst n_max) (snd n_max))) ->
                  k_par (gen_new c_par (bm_off t) t beam_zero p) =
                  k_par (gen_new c_par (bm_off t) t beam_zero q) \/
                  K_TOLERANCE <=
                  Rabs (k_par (gen_new c_par (bm_off t) t beam_zero p) -
                        k_par (gen_new c_par (bm_off t) t beam_zero q))).
      { intros p Hp. change (In p (gen_points c_par v_par eng_max t)) in Hp.
        destruct (Hsep t ltac:(lia) p Hp) as [Hend Hgap]. split.
        - intros Hmax.
          change (K_TOLERANCE <=
                  Rabs (k_par (b (gen_start c_par v_par eng_max (S t)))
                        - gen_k_par c_par t p)).
          rewrite Hsame by (cbn [gen_start]; lia). apply Hend.
          intros q Hq. exact (Hmax q Hq).
        - intros q Hq. exact (Hgap q Hq). }
      assert (Hfit : (gen_start c_par v_par eng_max t +
                      List.length (filter (gen_inside c_par k_in k_max_2 (bm_off t))
                                     (gen_candidates (fst n_max) (snd n_max))) <
                      gen_cap c_par v_par eng_max)%nat).
      { change (gen_start c_par v_par eng_max (S t) < gen_cap c_par v_par eng_max)%nat.
        lia. }
      destruct (gen_set_spec c_par k_in k_max_2 (fst n_max) (snd n_max) bm_off
                  (gen_cap c_par v_par eng_max) t b (gen_start c_par v_par eng_max t)
                  Hfit Hpre)
        as (b' & E & Ssame & _ & Sord).
      destruct (gen_set_content c_par k_in k_max_2 (fst n_max) (snd n_max) bm_off
                  (gen_cap c_par v_par eng_max) t b (gen_start c_par v_par eng_max t)
                  Hfit Hpre)
        as (b'' & E' & _ & Sin & Sall).
      rewrite E in E'. injection E' as <-.
      assert (Hstep : (gen_start c_par v_par eng_max t <=
                       gen_start c_par v_par eng_max (S t))%nat)
        by (apply gen_start_mono; lia).
      change (gen_start c_par v_par eng_max t +
              List.length (filter (gen_inside c_par k_in k_max_2 (bm_off t))
                             (gen_candidates (fst n_max) (snd n_max))))%nat
        with (gen_start c_par v_par eng_max (S t)) in *.
      change (filter (gen_inside c_par k_in k_max_2 (bm_off t))
                     (gen_candidates (fst n_max) (snd n_max)))
        with (gen_points c_par v_par eng_max t) in *.
      exists b'. split; [exact E|]. split.
      + intros q Hq. rewrite Ssame by lia. apply Hsame. lia.
      + intros s Hs. destruct (Nat.eq_dec s t) as [->|Hne].
        * split; [|split].
          -- intros i Hi. destruct (Sin i Hi) as (p & old & Hp & Eb).
             exists p, old. split; [exact Hp|exact Eb].
          -- intros p Hp. destruct (Sall p Hp) as (i & old & Hi & Eb).
             exists i, old. split; [exact Hi|exact Eb].
          -- intros i j Hi Hij Hj. apply Sord; assumption.
        * assert (Hlt : (s < t)%nat) by lia.
          pose proof (gen_start_mono c_par v_par eng_max (S s) t Hlt) as Hbelow.
          destruct (Hlay s Hlt) as (Lin & Lall & Lord).
          split; [|split].
          -- intros i Hi. rewrite Ssame by lia. apply Lin. exact Hi.
          -- intros p Hp. destruct (Lall p Hp) as (i & old & Hi & Eb).
             exists i, old. split; [exact Hi|]. rewrite Ssame by lia. exact Eb.
          -- intros i j Hi Hij Hj. rewrite (Ssame i), (Ssame j) by lia.
             apply Lord; assumption. }
  destruct (H Hn) as (b & E & _ & Hlay). exists b. split; [exact E|exact Hlay].
Qed.

(** The outcome of a call, set by set. *)
Lemma gen_layout_outcome WARNING_LOG F_END_OF_LIST p_beams c_par v_par eng_max :
  (0 < gen_iaux c_par (gen_k_max_2 c_par v_par eng_max))%Z ->
  (0 < R_nint (rel_area_sup c_par))%Z ->
  (gen_start c_par v_par eng_max (gen_n_set c_par) < gen_cap c_par v_par eng_max)%nat ->
  gen_separated p_beams c_par v_par eng_max ->
  exists r,
    leed_beam_gen WARNING_LOG F_END_OF_LIST p_beams c_par v_par eng_max = Some r /\
    g_count r = gen_start c_par v_par eng_max (gen_n_set c_par) /\
    forall s, (s < gen_n_set c_par)%nat ->
      (forall i, (gen_start c_par v_par eng_max s <= i
                  < gen_start c_par v_par eng_max (S s))%nat ->
         exists p old, In p (gen_points c_par v_par eng_max s) /\
                       g_beams r i = gen_beam_of c_par s old p) /\
      (forall p, In p (gen_points c_par v_par eng_max s) ->
         exists i old, (gen_start c_par v_par eng_max s <= i
                        < gen_start c_par v_par eng_max (S s))%nat /\
                       g_beams r i = gen_beam_of c_par s old p) /\
      (forall i j, (gen_start c_par v_par eng_max s <= i)%nat -> (i < j)%nat ->
         (j < gen_start c_par v_par eng_max (S s))%nat ->
         beam_order (g_beams r i) (g_beams r j)).
Proof.
  intros Hiaux Hnset Hcap Hsep.
  destruct (gen_sets_layout p_beams c_par v_par eng_max Hcap Hsep (gen_n_set c_par)
                            (le_n _)) as (b & E & Hlay).
  unfold leed_beam_gen.
  destruct (Z.leb_spec (gen_iaux c_par (gen_k_max_2 c_par v_par eng_max)) 0) as [H|_]; [lia|].
  destruct (Z.leb_spec (R_nint (rel_area_sup c_par)) 0) as [H|_]; [lia|].
  cbn [orb].
  change (Z.to_nat (R_nint (rel_area_sup c_par))) with (gen_n_set c_par).
  change (Z.to_nat (gen_iaux c_par (gen_k_max_2 c_par v_par eng_max)))
    with (gen_cap c_par v_par eng_max).
  destruct (gen_bm_off c_par (gen_n_set c_par)) as [bm_off i_set] eqn:Eoff.
  destruct (gen_n_max c_par (sqrt (gen_k_max_2 c_par v_par eng_max))
                      (gen_k_in v_par eng_max 0%nat)) as [n1_max n2_max] eqn:Emax.
  cbn [fst snd] in E.
  change (match p_beams with
          | Some old => old
          | None => fun _ : nat => beam_zero
          end) with (gen_initial p_beams).
  rewrite E.
  destruct (Nat.leb_spec (gen_cap c_par v_par eng_max)
              (gen_start c_par v_par eng_max (gen_n_set c_par))) as [H|_]; [lia|].
  eexists. split; [reflexivity|]. cbn [g_ret g_count g_beams g_cap].
  split; [reflexivity|].
  intros s Hs. destruct (Hlay s Hs) as (Lin & Lall & Lord).
  pose proof (gen_start_mono c_par v_par eng_max (S s) (gen_n_set c_par) Hs) as Hbelow.
  unfold beam_put. split; [|split].
  - intros i Hi.
    destruct (Nat.eqb_spec i (gen_start c_par v_par eng_max (gen_n_set c_par))); [lia|].
    apply Lin. exact Hi.
  - intros p Hp. destruct (Lall p Hp) as (i & old & Hi & Eb).
    exists i, old. split; [exact Hi|].
    destruct (Nat.eqb_spec i (gen_start c_par v_par eng_max (gen_n_set c_par))); [lia|].
    exact Eb.
  - intros i j Hi Hij Hj.
    destruct (Nat.eqb_spec i (gen_start c_par v_par eng_max (gen_n_set c_par))); [lia|].
    destruct (Nat.eqb_spec j (gen_start c_par v_par eng_max (gen_n_set c_par))); [lia|].
    apply Lord; assumption.
Qed.



(** The integer part of a number that is not negative is not negative. *)
Lemma R_int_nonneg x : 0 <= x -> (0 <= R_int x)%Z.
Proof.
  intros H. unfold R_int. rewrite (Rleb_true _ _ H).
  destruct (archimed x) as [Hup _].
  assert (H0 : (0 < up x)%Z) by (apply lt_IZR; lra). lia.
Qed.

Lemma z_range_zero n : (0 <= n)%Z -> In 0%Z (z_range (- n) n).
Proof.
  intros H. unfold z_range. apply in_map_iff. exists (Z.to_nat n).
  split; [lia|]. apply in_seq. unfold walk_count. lia.
Qed.

(** At a polar angle of incidence whose sine is not negative and an energy
    above the inner potential, the pair (0,0) of the first beam set passes
    the test of the radius. *)
Lemma gen_specular_listed c_par v_par eng_max :
  0 <= eng_max - vr v_par -> 0 <= sin (theta v_par) ->
  In (0%Z, 0%Z) (gen_points c_par v_par eng_max 0).
Proof.
  intros Heng Hsin. unfold gen_points. apply filter_In. split.
  - assert (Hk : 0 <= gen_k_in v_par eng_max 0%nat).
    { unfold gen_k_in, upd. cbn [Nat.eqb].
      apply Rmult_le_pos; [exact Hsin|apply sqrt_pos]. }
    assert (Hmax : 0 <= sqrt (gen_k_max_2 c_par v_par eng_max)) by apply sqrt_pos.
    unfold gen_n_max.
    set (a1 := R_hypot (a_1 c_par 1) (a_1 c_par 2)).
    set (a2 := R_hypot (a_1 c_par 3) (a_1 c_par 4)).
    set (fr := Rabs ((a_1 c_par 1 * a_1 c_par 3 + a_1 c_par 2 * a_1 c_par 4) / a1)).
    set (fi := Rabs ((a_1 c_par 1 * a_1 c_par 4 - a_1 c_par 2 * a_1 c_par 3) / a1)).
    assert (Ha1 : 0 <= a1) by (unfold a1, R_hypot; apply sqrt_pos).
    assert (Ha2 : 0 <= a2) by (unfold a2, R_hypot; apply sqrt_pos).
    assert (Hfr : 0 <= fr) by (unfold fr; apply Rabs_pos).
    assert (Hfi : 0 <= fi) by (unfold fi; apply Rabs_pos).
    assert (Hinv : forall x, 0 <= x -> 0 <= / x).
    { intros x [Hx|<-]; [left; apply Rinv_0_lt_compat; exact Hx|rewrite Rinv_0; lra]. }
    assert (Hdiv : forall x y, 0 <= x -> 0 <= y -> 0 <= x / y).
    { intros x y Hx Hy. unfold Rdiv. apply Rmult_le_pos; [exact Hx|apply Hinv; exact Hy]. }
    set (k_max := sqrt (gen_k_max_2 c_par v_par eng_max)) in *.
    set (k0 := gen_k_in v_par eng_max 0%nat) in *.
    assert (H2 : (0 <= R_int (k_max / fi + k0 / a2))%Z).
    { apply R_int_nonneg. apply Rplus_le_le_0_compat; apply Hdiv; assumption. }
    set (n2 := (2 + R_int (k_max / fi + k0 / a2))%Z) in *.
    assert (Hn2 : 0 <= IZR n2) by (apply IZR_le; lia).
    assert (H1 : (0 <= R_int (k_max / a1 + IZR n2 * fr / a1 + k0 / a1))%Z).
    { apply R_int_nonneg. repeat apply Rplus_le_le_0_compat; apply Hdiv; try assumption.
      apply Rmult_le_pos; assumption. }
    cbn [fst snd]. unfold gen_candidates. apply in_flat_map.
    exists 0%Z. split; [apply z_range_zero; lia|].
    apply in_map. apply z_range_zero. lia.
  - destruct (gen_bm_off_first c_par (gen_n_set c_par)) as (_ & _ & K1 & K2).
    unfold gen_inside. rewrite K1, K2. cbn [fst snd].
    apply Rleb_true. unfold gen_k_in, upd. cbn [Nat.eqb].
    unfold gen_k_max_2.
    set (e := eng_max - vr v_par) in *.
    set (q := ln (epsilon v_par) / dmin c_par).
    pose proof (sqrt_sqrt (2 * e) ltac:(lra)) as Hs.
    pose proof (sin2_cos2 (phi v_par)) as Hp. unfold Rsqr in Hp.
    pose proof (SIN_bound (theta v_par)) as [Hl Hu].
    set (st := sin (theta v_par)) in *. set (rt := sqrt (2 * e)) in *.
    set (cp := cos (phi v_par)) in *. set (sp := sin (phi v_par)) in *.
    replace ((0 * a_1 c_par 1 + 0 * a_1 c_par 3 + st * rt * cp + 0) *
             (0 * a_1 c_par 1 + 0 * a_1 c_par 3 + st * rt * cp + 0) +
             (0 * a_1 c_par 2 + 0 * a_1 c_par 4 + st * rt * sp + 0) *
             (0 * a_1 c_par 2 + 0 * a_1 c_par 4 + st * rt * sp + 0))
      with (st * st * (rt * rt) * (sp * sp + cp * cp)) by ring.
    rewrite Hp, Hs.
    assert (Hst : 0 <= (1 - st * st) * (2 * e)) by (apply Rmult_le_pos; nra).
    assert (Hq : 0 <= q * q) by nra.
    nra.
Qed.

(** Under the conditions under which leed_beam_gen sorts its list, for
    basis vectors of the reciprocal lattice that are linearly independent,
    an energy above the inner potential and a polar angle of incidence
    whose sine is not negative, the first beam of the list is the specular
    beam: its set is 0, its indices are (0,0), and its wave vector and its
    k_par (which do not contain the wave vector of the incident beam) are
    zero. *)
Theorem leed_beam_gen_specular_first (WARNING_LOG : bool) (F_END_OF_LIST : R)
        (p_beams : option beam_array) (c_par : leed_crystal) (v_par : leed_var)
        (eng_max : R) :
  (0 < gen_iaux c_par (gen_k_max_2 c_par v_par eng_max))%Z ->
  (0 < R_nint (rel_area_sup c_par))%Z ->
  (gen_start c_par v_par eng_max (gen_n_set c_par) < gen_cap c_par v_par eng_max)%nat ->
  gen_separated p_beams c_par v_par eng_max ->
  a_1 c_par 1 * a_1 c_par 4 - a_1 c_par 2 * a_1 c_par 3 <> 0 ->
  0 <= eng_max - vr v_par -> 0 <= sin (theta v_par) ->
  exists r,
    leed_beam_gen WARNING_LOG F_END_OF_LIST p_beams c_par v_par eng_max = Some r /\
    (0 < g_count r)%nat /\
    set (g_beams r 0%nat) = 0%nat /\
    ind_1 (g_beams r 0%nat) = 0 /\ ind_2 (g_beams r 0%nat) = 0 /\
    k_r (g_beams r 0%nat) 1%nat = 0 /\ k_r (g_beams r 0%nat) 2%nat = 0 /\
    k_par (g_beams r 0%nat) = 0.
Proof.
  intros Hiaux Hnset Hcap Hsep Hdet Heng Hsin.
  destruct (gen_layout_outcome WARNING_LOG F_END_OF_LIST p_beams c_par v_par eng_max
              Hiaux Hnset Hcap Hsep) as (r & E & Hcount & Hlay).
  assert (H0 : (0 < gen_n_set c_par)%nat) by (unfold gen_n_set; lia).
  destruct (Hlay 0%nat H0) as (Lin & Lall & Lord).
  pose proof (gen_specular_listed c_par v_par eng_max Heng Hsin) as Hspec.
  destruct (Lall _ Hspec) as (i & old & Hi & Ei).
  cbn [gen_start] in Hi, Lin, Lord.
  pose proof (gen_start_mono c_par v_par eng_max 1 (gen_n_set c_par) H0) as Hbelow.
  cbn [gen_start] in Hbelow.
  destruct (gen_bm_off_first c_par (gen_n_set c_par)) as (I1 & I2 & K1 & K2).
  destruct (Lin 0%nat ltac:(lia)) as ([n1 n2] & old0 & _ & E0).
  assert (Hk : k_par (g_beams r 0%nat) <= 0).
  { destruct (Nat.eq_dec i 0) as [->|Hne].
    - rewrite Ei. unfold gen_beam_of, gen_new, beam_fill. cbn [k_par fst snd].
      rewrite K1, K2. right. ring.
    - destruct (Lord 0%nat i ltac:(lia) ltac:(lia) ltac:(lia)) as [Hle _].
      rewrite Ei in Hle.
      replace (k_par (gen_beam_of c_par 0 old (0%Z, 0%Z))) with 0 in Hle; [exact Hle|].
      unfold gen_beam_of, gen_new, beam_fill. cbn [k_par fst snd].
      rewrite K1, K2. ring. }
  exists r. split; [exact E|]. split; [lia|].
  rewrite E0 in Hk |- *. unfold gen_beam_of, gen_new, beam_fill in Hk |- *.
  cbn [k_par k_r ind_1 ind_2 set fst snd] in Hk |- *.
  rewrite I1, I2, K1, K2 in *. unfold upd. cbn [Nat.eqb].
  set (x := IZR n1) in *. set (y := IZR n2) in *.
  set (g1x := a_1 c_par 1) in *. set (g1y := a_1 c_par 2) in *.
  set (g2x := a_1 c_par 3) in *. set (g2y := a_1 c_par 4) in *.
  destruct (Rplus_sqr_eq_0 (x * g1x + y * g2x + 0) (x * g1y + y * g2y + 0)) as [Hx Hy].
  { unfold Rsqr. apply Rle_antisym; [exact Hk|].
    apply Rplus_le_le_0_compat; apply Rle_0_sqr. }
  assert (Ex : x * (g1x * g2y - g1y * g2x) = 0).
  { replace (x * (g1x * g2y - g1y * g2x))
      with ((x * g1x + y * g2x + 0) * g2y - (x * g1y + y * g2y + 0) * g2x) by ring.
    rewrite Hx, Hy. ring. }
  assert (Ey : y * (g1x * g2y - g1y * g2x) = 0).
  { replace (y * (g1x * g2y - g1y * g2x))
      with ((x * g1y + y * g2y + 0) * g1x - (x * g1x + y * g2x + 0) * g1y) by ring.
    rewrite Hx, Hy. ring. }
  apply Rmult_integral in Ex. apply Rmult_integral in Ey.
  destruct Ex as [Ex|Ex]; [|contradiction]. destruct Ey as [Ey|Ey]; [|contradiction].
  rewrite Hx, Hy, Ex, Ey. repeat split; ring.
Qed.

(** The specular beam on the square lattice. *)
Lemma leed_beam_gen_specular_first_witness :
  exists r,
    leed_beam_gen true (-1) None (sample_crystal 1) sample_var 0.605 = Some r /\
    ind_1 (g_beams r 0%nat) = 0 /\ ind_2 (g_beams r 0%nat) = 0 /\
    k_par (g_beams r 0%nat) = 0.
Proof.
  destruct (leed_beam_gen_specular_first true (-1) None (sample_crystal 1) sample_var 0.605)
    as (r & E & _ & _ & H1 & H2 & _ & _ & Hk).
  - rewrite sample_k_max_2, sample_iaux. lia.
  - rewrite sample_n_set. lia.
  - unfold gen_n_set. rewrite sample_n_set, sample_cap.
    change (Z.to_nat 1) with 1%nat. cbn [gen_start].
    rewrite sample_points by lra. cbn [List.length]. lia.
  - apply sample_separated.
  - cbn [a_1 sample_crystal sample_recip]. lra.
  - cbn [vr sample_var]. lra.
  - cbn [theta sample_var]. rewrite sin_0. lra.
  - exists r. split; [exact E|]. split; [exact H1|]. split; [exact H2|exact Hk].
Defined.

(** ** leed_ms_compl_sym: the plane with the most atoms comes first *)

Lemma atom_same_refl x : atom_same x x.
Proof. repeat split. Qed.

Lemma atom_same_trans x y z : atom_same x y -> atom_same y z -> atom_same x z.
Proof.
  intros (A1 & A2 & A3 & A4) (B1 & B2 & B3 & B4).
  repeat split; etransitivity; eassumption.
Qed.

Lemma plane_count_S n a z :
  plane_count (S n) a z =
  (plane_count n a z +
   if Rltb (Rabs (pos (a n) 3 - z)) GEO_TOLERANCE then 1 else 0)%nat.
Proof.
  unfold plane_count. rewrite seq_S, filter_app, length_app. cbn [Nat.add filter].
  destruct (Rltb _ _); reflexivity.
Qed.

Lemma plane_count_le n a z : (plane_count n a z <= n)%nat.
Proof.
  unfold plane_count.
  pose proof (filter_length_le
                (fun j => Rltb (Rabs (pos (a j) 3 - z)) GEO_TOLERANCE) (seq 0 n)) as H.
  rewrite length_seq in H. exact H.
Qed.

Lemma plane_count_ext n a a' z :
  (forall i, (i < n)%nat -> pos (a' i) 3 = pos (a i) 3) ->
  plane_count n a' z = plane_count n a z.
Proof.
  intros H. unfold plane_count. f_equal. apply filter_ext_in.
  intros j Hj. apply in_seq in Hj. rewrite H by lia. reflexivity.
Qed.

(** An atom is counted in its own plane. *)
Lemma plane_count_own n a i :
  (i < n)%nat -> (1 <= plane_count n a (pos (a i) 3))%nat.
Proof.
  intros Hi. unfold plane_count.
  assert (Hin : In i (filter (fun j => Rltb (Rabs (pos (a j) 3 - pos (a i) 3))
                                            GEO_TOLERANCE) (seq 0 n))).
  { apply filter_In. split; [apply in_seq; lia|].
    apply Rltb_true. replace (pos (a i) 3 - pos (a i) 3) with 0 by ring.
    rewrite Rabs_R0. unfold GEO_TOLERANCE. lra. }
  destruct (filter _ _); [contradiction|cbn [List.length]; lia].
Qed.

(** The inner loop of the search counts the atoms of a plane. *)
Lemma compl_plane_inner n a z c :
  for_up n 0
    (fun j_atoms iaux =>
       if Rltb (Rabs (pos (a j_atoms) 3 - z)) GEO_TOLERANCE then S iaux else iaux) c =
  (c + plane_count n a z)%nat.
Proof.
  pose (P := fun (k : nat) (x : nat) => x = (c + plane_count k a z)%nat).
  match goal with
  | |- for_up n 0 ?f ?s = _ => assert (H : P (0 + n)%nat (for_up n 0 f s))
  end.
  { apply for_up_ind.
    - unfold P, plane_count. cbn. lia.
    - intros k x _ Hx. unfold P in *. rewrite plane_count_S.
      destruct (Rltb _ _); lia. }
  exact H.
Qed.

(** Lines 305-332: the plane that is found holds at least as many atoms as
    the plane of any atom, and [n_plane] is the number of its atoms. *)
Lemma compl_plane_spec n a :
  (1 <= n)%nat ->
  let r := compl_plane n a in
  fst r = plane_count n a (snd r) /\
  (exists i, (i < n)%nat /\ snd r = pos (a i) 3) /\
  forall i, (i < n)%nat -> (plane_count n a (pos (a i) 3) <= fst r)%nat.
Proof.
  intros Hn r. subst r. unfold compl_plane.
  pose (P := fun (k : nat) (s : nat * R) =>
    (k = 0%nat /\ s = (1%nat, pos (a 0%nat) 3)) \/
    ((1 <= k)%nat /\ fst s = plane_count n a (snd s) /\
     (exists i, (i < k)%nat /\ snd s = pos (a i) 3) /\
     forall i, (i < k)%nat -> (plane_count n a (pos (a i) 3) <= fst s)%nat)).
  match goal with
  | |- context [for_up n 0 ?f ?s] => assert (H : P (0 + n)%nat (for_up n 0 f s))
  end.
  { apply for_up_ind.
    - left. split; reflexivity.
    - intros k [np zp] Hk IH. right. split; [lia|].
      rewrite compl_plane_inner. cbn [Nat.add].
      destruct IH as [[-> E]|(_ & Hc & (i0 & Hi0 & Ez) & Hall)].
      + injection E as -> ->.
        pose proof (plane_count_own n a 0 ltac:(lia)) as Hown.
        destruct (Nat.ltb_spec 1 (plane_count n a (pos (a 0%nat) 3))) as [H|H];
          cbn [fst snd].
        * split; [reflexivity|]. split; [exists 0%nat; split; [lia|reflexivity]|].
          intros i Hi. replace i with 0%nat by lia. lia.
        * split; [lia|]. split; [exists 0%nat; split; [lia|reflexivity]|].
          intros i Hi. replace i with 0%nat by lia. lia.
      + cbn [fst snd] in *.
        destruct (Nat.ltb_spec np (plane_count n a (pos (a k) 3))) as [H|H];
          cbn [fst snd].
        * split; [reflexivity|]. split; [exists k; split; [lia|reflexivity]|].
          intros i Hi. destruct (Nat.eq_dec i k) as [->|Hne]; [lia|].
          specialize (Hall i ltac:(lia)). lia.
        * split; [exact Hc|]. split; [exists i0; split; [lia|exact Ez]|].
          intros i Hi. destruct (Nat.eq_dec i k) as [->|Hne]; [lia|].
          apply Hall. lia. }
  cbn [Nat.add] in H. destruct H as [[E _]|(_ & Hc & Hex & Hall)]; [lia|].
  split; [exact Hc|]. split; [exact Hex|exact Hall].
Qed.

(** Two slots exchanged. *)
Lemma atoms_permuted_swap n a'' a' a i j :
  (i < n)%nat -> (j < n)%nat -> atoms_permuted n a' a ->
  atom_same (a'' i) (a' j) -> atom_same (a'' j) (a' i) ->
  (forall q, q <> i -> q <> j -> a'' q = a' q) ->
  atoms_permuted n a'' a.
Proof.
  intros Hi Hj (f & g & Hfg & Hsame) Si Sj Hrest.
  pose (tr := fun k : nat => if (k =? i)%nat then j else if (k =? j)%nat then i else k).
  assert (Htr : forall k, (k < n)%nat -> (tr k < n)%nat /\ tr (tr k) = k).
  { intros k Hk. unfold tr.
    destruct (Nat.eqb_spec k i) as [->|Hki].
    - split; [exact Hj|]. destruct (Nat.eqb_spec j i) as [->|Hji]; [reflexivity|].
      rewrite Nat.eqb_refl. reflexivity.
    - destruct (Nat.eqb_spec k j) as [->|Hkj].
      + split; [exact Hi|]. rewrite Nat.eqb_refl. reflexivity.
      + split; [exact Hk|].
        destruct (Nat.eqb_spec k i); [contradiction|].
        destruct (Nat.eqb_spec k j); [contradiction|reflexivity]. }
  exists (fun k => f (tr k)), (fun k => tr (g k)). split.
  - intros k Hk. destruct (Htr k Hk) as [T1 T2].
    destruct (Hfg (tr k) T1) as (F1 & _ & F3 & _).
    destruct (Hfg k Hk) as (_ & G2 & _ & G4).
    destruct (Htr (g k) G2) as [T3 T4].
    split; [exact F1|]. split; [exact T3|]. split.
    + rewrite F3. exact T2.
    + rewrite T4. exact G4.
  - intros k Hk. unfold tr.
    destruct (Nat.eqb_spec k i) as [->|Hki].
    + eapply atom_same_trans; [exact Si|]. apply Hsame. exact Hj.
    + destruct (Nat.eqb_spec k j) as [->|Hkj].
      * eapply atom_same_trans; [exact Sj|]. apply Hsame. exact Hi.
      * rewrite Hrest by assumption. apply Hsame. exact Hk.
Qed.

Lemma atoms_permuted_refl n a : atoms_permuted n a a.
Proof.
  exists (fun k => k), (fun k => k). split.
  - intros i Hi. repeat split; assumption.
  - intros i Hi. apply atom_same_refl.
Qed.

(** Lines 337-357: the atoms of the plane at [z] are moved to the front;
    the others follow; no atom is lost. *)
Lemma compl_front_spec n z a :
  let a' := compl_front n z a in
  (forall q, (q < plane_count n a z)%nat -> in_plane z (a' q)) /\
  (forall q, (plane_count n a z <= q < n)%nat -> ~ in_plane z (a' q)) /\
  atoms_permuted n a' a.
Proof.
  intros a'. subst a'. unfold compl_front.
  pose (P := fun (i : nat) (s : (nat -> leed_atom) * nat) =>
    (i <= n)%nat ->
    snd s = plane_count i a z /\
    (forall q, (q < snd s)%nat -> in_plane z (fst s q)) /\
    (forall q, (snd s <= q < i)%nat -> ~ in_plane z (fst s q)) /\
    (forall q, (i <= q)%nat -> fst s q = a q) /\
    atoms_permuted n (fst s) a).
  match goal with
  | |- context [for_up n 0 ?f ?s] => assert (H : P (0 + n)%nat (for_up n 0 f s))
  end.
  { apply for_up_ind.
    - intros _. cbn [fst snd]. split; [reflexivity|].
      split; [intros q Hq; unfold plane_count in Hq; cbn in Hq; lia|].
      split; [intros q Hq; unfold plane_count in Hq; cbn in Hq; lia|].
      split; [intros q _; reflexivity|apply atoms_permuted_refl].
    - intros i [b j] Hi IH. unfold P in *. intros Hle. cbn [fst snd] in IH.
      destruct (IH ltac:(lia)) as (Hj & Hin & Hout & Hrest & Hperm).
      pose proof (plane_count_le i a z) as Hji. rewrite <- Hj in Hji.
      rewrite plane_count_S. rewrite <- Hj. cbv beta iota.
      pose proof (Hrest i (le_n _)) as Hbi0.
      replace (pos (b i) 3 - z) with (pos (a i) 3 - z) by (rewrite Hbi0; reflexivity).
      destruct (Rltb_spec (Rabs (pos (a i) 3 - z)) GEO_TOLERANCE) as [Hp|Hp].
      + cbn [fst snd]. split; [lia|].
        destruct (Nat.eqb_spec i j) as [E|E]; cbn [negb].
        * subst j. split; [|split; [|split; [|exact Hperm]]].
          -- intros q Hq. destruct (Nat.eq_dec q i) as [->|Hne].
             ++ rewrite Hrest by lia. exact Hp.
             ++ apply Hin. lia.
          -- intros q Hq. lia.
          -- intros q Hq. apply Hrest. lia.
        * assert (Hlt : (j < i)%nat) by lia.
          assert (Hbi : b i = a i) by (apply Hrest; lia).
          split; [|split; [|split]].
          -- intros q Hq. unfold atom_put.
             destruct (Nat.eqb_spec q j) as [->|Hqj].
             ++ unfold in_plane. cbn [pos]. unfold upd. cbn [Nat.eqb].
                rewrite Hbi. exact Hp.
             ++ destruct (Nat.eqb_spec q i) as [->|Hqi]; [lia|].
                apply Hin. lia.
          -- intros q Hq. unfold atom_put.
             destruct (Nat.eqb_spec q j) as [->|Hqj]; [lia|].
             destruct (Nat.eqb_spec q i) as [->|Hqi].
             ++ unfold in_plane. cbn [pos]. unfold upd. cbn [Nat.eqb].
                apply (Hout j). lia.
             ++ apply Hout. lia.
          -- intros q Hq. unfold atom_put.
             destruct (Nat.eqb_spec q j) as [->|Hqj]; [lia|].
             destruct (Nat.eqb_spec q i) as [->|Hqi]; [lia|].
             apply Hrest. lia.
          -- apply (atoms_permuted_swap n _ b a i j); [lia|lia|exact Hperm| | |].
             ++ unfold atom_put. destruct (Nat.eqb_spec i j); [contradiction|].
                rewrite Nat.eqb_refl. unfold atom_same. cbn [type pos].
                unfold upd. cbn [Nat.eqb]. repeat split.
             ++ unfold atom_put. rewrite Nat.eqb_refl. unfold atom_same. cbn [type pos].
                unfold upd. cbn [Nat.eqb]. repeat split.
             ++ intros q Hqi Hqj. unfold atom_put.
                destruct (Nat.eqb_spec q j); [contradiction|].
                destruct (Nat.eqb_spec q i); [contradiction|reflexivity].
      + cbn [fst snd]. split; [lia|]. split; [exact Hin|]. split; [|split; [|exact Hperm]].
        * intros q Hq. destruct (Nat.eq_dec q i) as [->|Hne].
          -- rewrite Hrest by lia. exact Hp.
          -- apply Hout. lia.
        * intros q Hq. apply Hrest. lia. }
  cbn [Nat.add] in H. destruct (H (le_n _)) as (Hj & Hin & Hout & _ & Hperm).
  rewrite <- Hj. split; [exact Hin|]. split; [exact Hout|exact Hperm].
Qed.

(** Lines 249-290: the atoms of the layer are copied. *)
Lemma compl_copy_atoms I_END_OF_LIST v_par layer :
  let a := fst (fst (fst (fst (compl_copy I_END_OF_LIST v_par layer)))) in
  forall i, (i < n_atoms layer)%nat -> atom_same (a i) (atoms layer i).
Proof.
  unfold compl_copy.
  set (body := fun (i_atoms : nat) (s : (nat -> leed_atom) * Z * R * R * nat) => _).
  cbn [type pos atom_zero].
  pose (Q := fun (k : nat) (s : (nat -> leed_atom) * Z * R * R * nat) =>
    forall i, (i < k)%nat -> atom_same (fst (fst (fst (fst s))) i) (atoms layer i)).
  assert (H : Q (0 + n_atoms layer)%nat
                (for_up (n_atoms layer) 0 body
                   (fun _ : nat => atom_zero, 0%Z, 0, 0, 1%nat))).
  { apply for_up_ind.
    - intros i Hi. lia.
    - intros k [[[[a nt] zmin] zmax] lm] Hk IH. unfold Q, body in *. cbn [fst] in *.
      intros i Hi. unfold atom_put.
      destruct (Nat.eqb_spec i k) as [->|Hne].
      + unfold atom_same. cbn [type pos]. unfold upd. cbn [Nat.eqb]. repeat split.
      + apply IH. lia. }
  cbn [Nat.add] in H.
  destruct (for_up (n_atoms layer) 0 body (fun _ : nat => atom_zero, 0%Z, 0, 0, 1%nat))
    as [[[[a nt] zmin] zmax] lm].
  cbn [fst]. unfold Q in H. cbn [fst] in H.
  intros i Hi. unfold atom_put.
  destruct (Nat.eqb_spec i (n_atoms layer)) as [E|_]; [lia|]. apply H. exact Hi.
Qed.

(** For a layer that holds an atom, the preparation of leed_ms_compl_sym
    puts the atoms of the plane that holds the most atoms first: the
    height [z_plane] is the height of an atom of the layer, no atom has
    more atoms of the layer within GEO_TOLERANCE of its height than
    [z_plane] has, [n_plane] is the number of the atoms within
    GEO_TOLERANCE of [z_plane], the first [n_plane] atoms of the sorted
    list are these atoms and the atoms after them are the others; the
    sorted list holds the atoms of the layer, types and positions together,
    in another order. *)
Theorem leed_ms_compl_sym_plane_first (I_END_OF_LIST : Z) (v_par : leed_var)
        (layer : leed_layer) :
  let p := compl_prepare I_END_OF_LIST v_par layer in
  let n := n_atoms layer in
  (1 <= n)%nat ->
  (1 <= c_n_plane p <= n)%nat /\
  c_n_plane p = plane_count n (atoms layer) (c_z_plane p) /\
  (exists i, (i < n)%nat /\ c_z_plane p = pos (atoms layer i) 3) /\
  (forall i, (i < n)%nat ->
     (plane_count n (atoms layer) (pos (atoms layer i) 3) <= c_n_plane p)%nat) /\
  (forall i, (i < c_n_plane p)%nat -> in_plane (c_z_plane p) (c_atoms p i)) /\
  (forall i, (c_n_plane p <= i < n)%nat -> ~ in_plane (c_z_plane p) (c_atoms p i)) /\
  atoms_permuted n (c_atoms p) (atoms layer).
Proof.
  intros p n Hn. subst p. unfold compl_prepare.
  pose proof (compl_copy_atoms I_END_OF_LIST v_par layer) as Hcopy. cbv zeta in Hcopy.
  destruct (compl_copy I_END_OF_LIST v_par layer) as [[[[a nt] zmin] zmax] lm].
  cbn [fst] in Hcopy. fold n in Hcopy |- *.
  assert (Hcount : forall z, plane_count n a z = plane_count n (atoms layer) z).
  { intros z. apply plane_count_ext. intros i Hi.
    destruct (Hcopy i Hi) as (_ & _ & _ & E). exact E. }
  pose proof (compl_plane_spec n a Hn) as Hplane. cbv zeta in Hplane.
  destruct (compl_plane n a) as [np zp]. cbn [fst snd] in Hplane.
  destruct Hplane as (Hnp & (i0 & Hi0 & Ez) & Hmost).
  pose proof (compl_front_spec n zp a) as Hfront. cbv zeta in Hfront.
  destruct Hfront as (Hin & Hout & Hperm).
  cbn [c_n_plane c_z_plane c_atoms].
  rewrite <- Hnp in Hin, Hout.
  assert (H1 : (1 <= np)%nat).
  { pose proof (plane_count_own n a i0 Hi0) as Hown. rewrite <- Ez in Hown. lia. }
  pose proof (plane_count_le n a zp) as Hle. rewrite <- Hnp in Hle.
  split; [lia|]. split; [rewrite <- Hcount; exact Hnp|].
  split.
  { exists i0. split; [exact Hi0|]. rewrite Ez.
    destruct (Hcopy i0 Hi0) as (_ & _ & _ & E). exact E. }
  split.
  { intros i Hi. rewrite <- Hcount.
    destruct (Hcopy i Hi) as (_ & _ & _ & E). rewrite <- E. apply Hmost. exact Hi. }
  split; [exact Hin|]. split; [exact Hout|].
  destruct Hperm as (f & g & Hfg & Hsame). exists f, g. split; [exact Hfg|].
  intros i Hi. eapply atom_same_trans; [apply Hsame; exact Hi|].
  apply Hcopy. apply Hfg. exact Hi.
Qed.

(** The two atoms at the heights 2 and 3: one atom in the plane. *)
Lemma leed_ms_compl_sym_plane_first_witness :
  (1 <= c_n_plane (compl_prepare (-1) sample_var sample_layer_two) <= 2)%nat /\
  atoms_permuted 2 (c_atoms (compl_prepare (-1) sample_var sample_layer_two))
                 (atoms sample_layer_two).
Proof.
  destruct (leed_ms_compl_sym_plane_first (-1) sample_var sample_layer_two)
    as (H1 & _ & _ & _ & _ & _ & Hperm).
  - cbn. lia.
  - split; [exact H1|exact Hperm].
Defined.

